(** * Streaming JSON protocol of the language-learning platform

    A shallow embedding of the producer in
    [backend/src/routes/apiRoutes.ts] (the [POST /session/continue]
    handler, which writes one flat JSON object progressively) and of the
    consumer in the frontend hook [useStreamingResponse]
    ([processStream]), which extracts the value of the ["response"] field
    incrementally and detects completion of the object.

    JavaScript strings are sequences of UTF-16 code units; they are
    modelled as lists of [N].  Indices that the source lets become [-1]
    are kept in [Z]. *)

From Stdlib Require Import String Ascii.
From Stdlib Require Import List Bool Arith NArith ZArith Lia.
Import ListNotations.

Set Implicit Arguments.
Set Warnings "-register-all".

(* ===================================================================== *)
(** * JavaScript strings *)
(* ===================================================================== *)

Definition char := N.
Definition str := list char.

(** An ASCII literal as a JavaScript string. *)
Definition lit (s : string) : str :=
  map N_of_ascii (list_ascii_of_string s).

Definition QUOTE : char := 34%N.      (* double quote *)
Definition BACKSLASH : char := 92%N.  (* backslash *)
Definition LBRACE : char := 123%N.    (* opening brace *)
Definition RBRACE : char := 125%N.    (* closing brace *)
Definition APOSTROPHE : char := 39%N.

(** A literal in which every apostrophe stands for a double quote, to
    write JSON texts legibly. *)
Definition js (s : string) : str :=
  map (fun c => if N.eqb c APOSTROPHE then QUOTE else c) (lit s).

(** [s.length] *)
Definition len (s : str) : Z := Z.of_nat (length s).

Definition clamp (s : str) (i : Z) : nat :=
  Z.to_nat (Z.max 0 (Z.min i (len s))).

(** [s.substring(a, b)]: both ends clamped to [0, s.length], swapped when
    [a > b]. *)
Definition substring (s : str) (a b : Z) : str :=
  let a' := clamp s a in
  let b' := clamp s b in
  firstn (Nat.max a' b' - Nat.min a' b') (skipn (Nat.min a' b') s).

(** [s.substring(a)] *)
Definition substringFrom (s : str) (a : Z) : str :=
  substring s a (len s).

Fixpoint startsWith (pat s : str) : bool :=
  match pat, s with
  | [], _ => true
  | p :: pat', c :: s' => N.eqb p c && startsWith pat' s'
  | _ :: _, [] => false
  end.

(** First position [>= i] of the suffix [s] (which starts at position [i] of
    the whole string) where [pat] occurs. *)
Fixpoint indexOf_suffix (pat s : str) (i : nat) : option nat :=
  if startsWith pat s then Some i
  else match s with
       | [] => None
       | _ :: s' => indexOf_suffix pat s' (S i)
       end.

(** [s.indexOf(pat, from)], [-1] when there is no occurrence. *)
Definition indexOf (s pat : str) (from : Z) : Z :=
  let f := clamp s from in
  match indexOf_suffix pat (skipn f s) f with
  | Some i => Z.of_nat i
  | None => (-1)%Z
  end.

(** [s.includes(c)] for a one-character pattern. *)
Definition includes (s : str) (c : char) : bool :=
  existsb (N.eqb c) s.

(** WhiteSpace and LineTerminator code units of ECMAScript, the characters
    [String.prototype.trim] removes. *)
Definition is_js_space (c : char) : bool :=
  existsb (N.eqb c)
    [9; 10; 11; 12; 13; 32; 160; 5760; 8232; 8233; 8239; 8287; 12288; 65279]%N
  || (N.leb 8192 c && N.leb c 8202).

Fixpoint trimStart (s : str) : str :=
  match s with
  | c :: s' => if is_js_space c then trimStart s' else s
  | [] => []
  end.

(** [s.trim()] *)
Definition trim (s : str) : str :=
  rev (trimStart (rev (trimStart s))).

(** Truthiness of a string: non-empty. *)
Definition truthy (s : str) : bool :=
  match s with [] => false | _ => true end.

(* ===================================================================== *)
(** * JSON values and [JSON.parse] *)
(* ===================================================================== *)

(** The result of [JSON.parse].  A number keeps its lexeme (the source
    never computes with one); an object keeps its members in textual
    order. *)
Inductive json : Type :=
| JNull
| JBool (b : bool)
| JNumber (lexeme : str)
| JString (s : str)
| JArray (elems : list json)
| JObject (members : list (str * json)).

(** [JSON.parse] is the platform's; it is modelled as the pushdown
    recogniser of the JSON grammar (ECMA-404) that reads the text one code
    unit at a time: a stack of the containers under construction and a
    mode saying what may come next. *)
Inductive frame : Type :=
| FArr (elems_rev : list json)
| FObj (members_rev : list (str * json)) (key : option str).

(** The three literal names. *)
Inductive keyword : Type := KTrue | KFalse | KNull.

Definition keywordText (k : keyword) : str :=
  match k with
  | KTrue => lit "true"
  | KFalse => lit "false"
  | KNull => lit "null"
  end.

Definition keywordValue (k : keyword) : json :=
  match k with
  | KTrue => JBool true
  | KFalse => JBool false
  | KNull => JNull
  end.

Inductive mode : Type :=
| ExpValue                                   (* a value *)
| ExpValueOrEnd                              (* just after an opening bracket *)
| ExpKeyOrEnd                                (* just after an opening brace *)
| ExpKey                                     (* after a comma in an object *)
| ExpColon                                   (* after a key *)
| AfterValue                                 (* comma or closing token *)
| InStr (acc : str) (iskey : bool)           (* inside a string *)
| InEsc (acc : str) (iskey : bool)           (* just after a backslash *)
| InUni (acc : str) (iskey : bool) (n : nat) (v : N) (* in a \u escape *)
| InNum (acc : str)                          (* inside a number *)
| InLit (k : keyword) (n : nat)              (* [n] characters into a name *)
| Done (v : json)                            (* the text's value is complete *)
| Rejected.

Definition pstate : Type := list frame * mode.

Definition is_json_ws (c : char) : bool :=
  N.eqb c 9 || N.eqb c 10 || N.eqb c 13 || N.eqb c 32.

Definition is_digit (c : char) : bool := N.leb 48 c && N.leb c 57.

Definition is_num_char (c : char) : bool :=
  is_digit c || N.eqb c 43 || N.eqb c 45 || N.eqb c 46
  || N.eqb c 69 || N.eqb c 101.

Fixpoint skip_digits (s : str) : str :=
  match s with
  | c :: s' => if is_digit c then skip_digits s' else s
  | [] => []
  end.

(** The number grammar: an optional minus, an integer part without
    leading zero, an optional fraction, an optional exponent. *)
Definition num_int (s : str) : option str :=
  match s with
  | c :: r => if N.eqb c 48 then Some r
              else if is_digit c then Some (skip_digits r) else None
  | [] => None
  end.

Definition num_frac (s : str) : option str :=
  match s with
  | c :: r =>
      if N.eqb c 46 then
        match r with
        | d :: r' => if is_digit d then Some (skip_digits r') else None
        | [] => None
        end
      else Some s
  | [] => Some s
  end.

Definition num_exp (s : str) : option str :=
  match s with
  | c :: r =>
      if N.eqb c 69 || N.eqb c 101 then
        let r1 := match r with
                  | g :: r' => if N.eqb g 43 || N.eqb g 45 then r' else r
                  | [] => r
                  end in
        match r1 with
        | d :: r' => if is_digit d then Some (skip_digits r') else None
        | [] => None
        end
      else Some s
  | [] => Some s
  end.

Definition valid_number (s : str) : bool :=
  let s0 := match s with
            | c :: r => if N.eqb c 45 then r else s
            | [] => s
            end in
  match num_int s0 with
  | Some s1 =>
      match num_frac s1 with
      | Some s2 => match num_exp s2 with
                   | Some [] => true
                   | _ => false
                   end
      | None => false
      end
  | None => false
  end.

(** The character a two-character escape stands for. *)
Definition unescape_char (c : char) : option char :=
  if N.eqb c 34 then Some 34%N            (* quote *)
  else if N.eqb c 92 then Some 92%N       (* backslash *)
  else if N.eqb c 47 then Some 47%N       (* slash *)
  else if N.eqb c 98 then Some 8%N        (* b *)
  else if N.eqb c 102 then Some 12%N      (* f *)
  else if N.eqb c 110 then Some 10%N      (* n *)
  else if N.eqb c 114 then Some 13%N      (* r *)
  else if N.eqb c 116 then Some 9%N       (* t *)
  else None.

Definition hex_value (c : char) : option N :=
  if is_digit c then Some (c - 48)%N
  else if N.leb 65 c && N.leb c 70 then Some (c - 55)%N
  else if N.leb 97 c && N.leb c 102 then Some (c - 87)%N
  else None.

(** A finished value goes to the container on top of the stack, or is the
    value of the text. *)
Definition deliver (v : json) (stack : list frame) : pstate :=
  match stack with
  | [] => ([], Done v)
  | FArr es :: st => (FArr (v :: es) :: st, AfterValue)
  | FObj ms (Some k) :: st => (FObj ((k, v) :: ms) None :: st, AfterValue)
  | FObj _ None :: _ => (stack, Rejected)
  end.

(** After a value: a comma, the closing token of the container, or
    nothing but white space after the text's value. *)
Definition closed_step (p : pstate) (c : char) : pstate :=
  let (stack, m) := p in
  match m with
  | AfterValue =>
      if is_json_ws c then (stack, AfterValue)
      else if N.eqb c 44 then
        match stack with
        | FArr _ :: _ => (stack, ExpValue)
        | FObj _ None :: _ => (stack, ExpKey)
        | _ => (stack, Rejected)
        end
      else if N.eqb c 93 then
        match stack with
        | FArr es :: st => deliver (JArray (rev es)) st
        | _ => (stack, Rejected)
        end
      else if N.eqb c 125 then
        match stack with
        | FObj ms None :: st => deliver (JObject (rev ms)) st
        | _ => (stack, Rejected)
        end
      else (stack, Rejected)
  | Done v => if is_json_ws c then (stack, Done v) else (stack, Rejected)
  | _ => (stack, Rejected)
  end.

(** The first character of a value. *)
Definition value_start (stack : list frame) (c : char) : pstate :=
  if N.eqb c 123 then (FObj [] None :: stack, ExpKeyOrEnd)
  else if N.eqb c 91 then (FArr [] :: stack, ExpValueOrEnd)
  else if N.eqb c 34 then (stack, InStr [] false)
  else if N.eqb c 116 then (stack, InLit KTrue 1)
  else if N.eqb c 102 then (stack, InLit KFalse 1)
  else if N.eqb c 110 then (stack, InLit KNull 1)
  else if N.eqb c 45 || is_digit c then (stack, InNum [c])
  else (stack, Rejected).

Definition pstep (p : pstate) (c : char) : pstate :=
  let (stack, m) := p in
  match m with
  | ExpValue =>
      if is_json_ws c then p else value_start stack c
  | ExpValueOrEnd =>
      if is_json_ws c then p
      else if N.eqb c 93 then
        match stack with
        | FArr es :: st => deliver (JArray (rev es)) st
        | _ => (stack, Rejected)
        end
      else value_start stack c
  | ExpKeyOrEnd =>
      if is_json_ws c then p
      else if N.eqb c 34 then (stack, InStr [] true)
      else if N.eqb c 125 then
        match stack with
        | FObj ms _ :: st => deliver (JObject (rev ms)) st
        | _ => (stack, Rejected)
        end
      else (stack, Rejected)
  | ExpKey =>
      if is_json_ws c then p
      else if N.eqb c 34 then (stack, InStr [] true)
      else (stack, Rejected)
  | ExpColon =>
      if is_json_ws c then p
      else if N.eqb c 58 then (stack, ExpValue)
      else (stack, Rejected)
  | AfterValue | Done _ => closed_step p c
  | InStr acc k =>
      if N.eqb c 34 then
        if k then
          match stack with
          | FObj ms _ :: st => (FObj ms (Some (rev acc)) :: st, ExpColon)
          | _ => (stack, Rejected)
          end
        else deliver (JString (rev acc)) stack
      else if N.eqb c 92 then (stack, InEsc acc k)
      else if N.ltb c 32 then (stack, Rejected)
      else (stack, InStr (c :: acc) k)
  | InEsc acc k =>
      match unescape_char c with
      | Some d => (stack, InStr (d :: acc) k)
      | None => if N.eqb c 117 then (stack, InUni acc k 0 0%N)
                else (stack, Rejected)
      end
  | InUni acc k n v =>
      match hex_value c with
      | Some d =>
          if Nat.eqb n 3 then (stack, InStr ((v * 16 + d)%N :: acc) k)
          else (stack, InUni acc k (S n) (v * 16 + d)%N)
      | None => (stack, Rejected)
      end
  | InNum acc =>
      if is_num_char c then (stack, InNum (c :: acc))
      else if valid_number (rev acc)
           then closed_step (deliver (JNumber (rev acc)) stack) c
           else (stack, Rejected)
  | InLit k n =>
      match nth_error (keywordText k) n with
      | Some r =>
          if N.eqb c r then
            if Nat.eqb (S n) (length (keywordText k))
            then deliver (keywordValue k) stack
            else (stack, InLit k (S n))
          else (stack, Rejected)
      | None => (stack, Rejected)
      end
  | Rejected => p
  end.

Definition pinit : pstate := ([], ExpValue).

Definition prun (p : pstate) (s : str) : pstate := fold_left pstep s p.

(** End of the text: the value must be complete; a number at the top
    level ends with the text. *)
Definition pfinish (p : pstate) : option json :=
  match p with
  | ([], Done v) => Some v
  | ([], InNum acc) =>
      if valid_number (rev acc) then Some (JNumber (rev acc)) else None
  | _ => None
  end.

(** [JSON.parse(text)]; [None] when it throws a SyntaxError. *)
Definition JSON_parse (text : str) : option json :=
  pfinish (prun pinit text).

(** Reading a property of [null] throws a TypeError; of any other value
    it does not. *)
Definition property_access_throws (v : json) : bool :=
  match v with JNull => true | _ => false end.

(* ===================================================================== *)
(** * The encoder: [POST /session/continue] *)
(* ===================================================================== *)

(** [s.replace(/c/g, by)] for a one-character pattern. *)
Definition replaceAll (c : char) (by_ : str) (s : str) : str :=
  flat_map (fun x => if N.eqb x c then by_ else [x]) s.

(** The chain of five [replace] calls on [newContent], in the source's
    order. *)
Definition escapeContent (newContent : str) : str :=
  replaceAll 9%N [BACKSLASH; 116%N]
    (replaceAll 13%N [BACKSLASH; 114%N]
       (replaceAll 10%N [BACKSLASH; 110%N]
          (replaceAll QUOTE [BACKSLASH; QUOTE]
             (replaceAll BACKSLASH [BACKSLASH; BACKSLASH] newContent)))).

(** The body of the [for await] loop: one write per fragment.  The state
    is the pair [fullResponse], [sentResponse]. *)
Fixpoint streamFragments (fullResponse sentResponse : str)
         (fragments : list str) : list str :=
  match fragments with
  | [] => []
  | chunk :: rest =>
      let fullResponse' := fullResponse ++ chunk in
      let newContent := substringFrom fullResponse' (len sentResponse) in
      escapeContent newContent :: streamFragments fullResponse' fullResponse' rest
  end.

Definition opening : str := js "{'response': '".

Definition closing : str :=
  js "', 'currentCategory': null, 'currentWord': null, 'currentWordProgress': null, 'exercises': null}".

(** How the fragment source ends: normally, or by throwing. *)
Inductive Terminal : Type := SourceDone | SourceError.

(** The sequence of [res.write] calls of the handler for the fragments the
    source yields before it ends.  The normal path and the [catch] path
    write the same closing text. *)
Definition continueSession (fragments : list str) (t : Terminal) : list str :=
  [opening] ++ streamFragments [] [] fragments ++
  match t with
  | SourceDone => [closing]
  | SourceError => [closing]
  end.

(* ===================================================================== *)
(** * The bytes of the body: UTF-8 *)
(* ===================================================================== *)

(** [res.write(s)] sends the UTF-8 encoding of the string [s], every
    write on its own; the client reads the bytes through
    [new TextDecoder('utf-8')].  Code points and bytes are numbers. *)
Module Utf8.

Local Open Scope N_scope.

Definition octet := N.

Definition isHighSurrogate (c : char) : bool :=
  (0xD800 <=? c) && (c <=? 0xDBFF).

Definition isLowSurrogate (c : char) : bool :=
  (0xDC00 <=? c) && (c <=? 0xDFFF).

Definition isSurrogate (c : char) : bool :=
  (0xD800 <=? c) && (c <=? 0xDFFF).

(** U+FFFD, the replacement character. *)
Definition REPLACEMENT : char := 0xFFFD.

(** U+FEFF, the byte order mark. *)
Definition BOM : char := 0xFEFF.

(** The code point of a surrogate pair. *)
Definition pairValue (high low : char) : N :=
  0x10000 + (high - 0xD800) * 0x400 + (low - 0xDC00).

(** The code units of a code point. *)
Definition unitsOf (cp : N) : str :=
  if cp <? 0x10000 then [cp]
  else [0xD800 + (cp - 0x10000) / 0x400; 0xDC00 + (cp - 0x10000) mod 0x400].

(** The bytes of a code point. *)
Definition encodeCodePoint (cp : N) : list octet :=
  if cp <? 0x80 then [cp]
  else if cp <? 0x800 then [0xC0 + cp / 0x40; 0x80 + cp mod 0x40]
  else if cp <? 0x10000 then
    [0xE0 + cp / 0x1000; 0x80 + (cp / 0x40) mod 0x40; 0x80 + cp mod 0x40]
  else
    [0xF0 + cp / 0x40000; 0x80 + (cp / 0x1000) mod 0x40;
     0x80 + (cp / 0x40) mod 0x40; 0x80 + cp mod 0x40].

(** The bytes of a string, as [Buffer.from(s, 'utf8')] gives them: a
    high surrogate with the low surrogate after it is one code point; a
    surrogate without its partner is encoded as U+FFFD. *)
Fixpoint encode (s : str) : list octet :=
  match s with
  | [] => []
  | c :: rest =>
      if isHighSurrogate c then
        match rest with
        | d :: rest' =>
            if isLowSurrogate d
            then encodeCodePoint (pairValue c d) ++ encode rest'
            else encodeCodePoint REPLACEMENT ++ encode rest
        | [] => encodeCodePoint REPLACEMENT
        end
      else if isLowSurrogate c then encodeCodePoint REPLACEMENT ++ encode rest
      else encodeCodePoint c ++ encode rest
  end.

(** The state of a [TextDecoder] for UTF-8 between two calls of
    [decode(value, { stream: true })]: the variables of the decoder of
    the Encoding Standard, and whether the first code point has been
    seen, after which a byte order mark is kept. *)
Record Decoder : Type := mkDecoder {
  codePoint : N;
  bytesSeen : N;
  bytesNeeded : N;
  lowerBoundary : octet;
  upperBoundary : octet;
  bomSeen : bool
}.

(** The decoder with no sequence begun. *)
Definition idle (seen : bool) : Decoder := mkDecoder 0 0 0 0x80 0xBF seen.

Definition fresh : Decoder := idle false.

Definition reset (d : Decoder) : Decoder := idle (bomSeen d).

(** The decoder on a byte when no byte is needed: the code point of an
    ASCII byte, the start of a sequence, or an error. *)
Definition lead (d : Decoder) (b : octet) : Decoder * list N :=
  if b <=? 0x7F then (d, [b])
  else if (0xC2 <=? b) && (b <=? 0xDF) then
    (mkDecoder (N.land b 0x1F) 0 1 0x80 0xBF (bomSeen d), [])
  else if (0xE0 <=? b) && (b <=? 0xEF) then
    (mkDecoder (N.land b 0xF) 0 2
               (if b =? 0xE0 then 0xA0 else 0x80)
               (if b =? 0xED then 0x9F else 0xBF)
               (bomSeen d), [])
  else if (0xF0 <=? b) && (b <=? 0xF4) then
    (mkDecoder (N.land b 0x7) 0 3
               (if b =? 0xF0 then 0x90 else 0x80)
               (if b =? 0xF4 then 0x8F else 0xBF)
               (bomSeen d), [])
  else (d, [REPLACEMENT]).

(** The decoder on one byte: the code points it gives; an error gives
    U+FFFD.  A byte that cannot continue the sequence ends it with an
    error and is read again as a first byte. *)
Definition handler (d : Decoder) (b : octet) : Decoder * list N :=
  if bytesNeeded d =? 0 then lead d b
  else if negb ((lowerBoundary d <=? b) && (b <=? upperBoundary d)) then
    let (d', cps) := lead (reset d) b in (d', REPLACEMENT :: cps)
  else
    let cp := N.lor (N.shiftl (codePoint d) 6) (N.land b 0x3F) in
    if bytesSeen d + 1 =? bytesNeeded d then (reset d, [cp])
    else (mkDecoder cp (bytesSeen d + 1) (bytesNeeded d) 0x80 0xBF
                    (bomSeen d), []).

(** The code units given for the code points decoded: a byte order mark
    that comes first is dropped. *)
Fixpoint emit (seen : bool) (cps : list N) : bool * str :=
  match cps with
  | [] => (seen, [])
  | cp :: cps' =>
      let (seen', s) := emit true cps' in
      (seen', (if negb seen && (cp =? BOM) then [] else unitsOf cp) ++ s)
  end.

(** [decoder.decode(value, { stream: true })] *)
Fixpoint decode (d : Decoder) (value : list octet) : Decoder * str :=
  match value with
  | [] => (d, [])
  | b :: value' =>
      let (d1, cps) := handler d b in
      let (seen, s) := emit (bomSeen d1) cps in
      let (d2, s') :=
        decode (mkDecoder (codePoint d1) (bytesSeen d1) (bytesNeeded d1)
                          (lowerBoundary d1) (upperBoundary d1) seen)
               value' in
      (d2, s ++ s')
  end.

(** The strings one decoder gives for the chunks of a body, in order. *)
Fixpoint decodeStream (d : Decoder) (values : list (list octet))
  : list str :=
  match values with
  | [] => []
  | value :: values' =>
      let (d', s) := decode d value in s :: decodeStream d' values'
  end.

End Utf8.

(** The bytes of the body after the writes [writes]. *)
Definition sent (writes : list str) : list Utf8.octet :=
  concat (map Utf8.encode writes).

(** The chunks [processStream] gets from its decoder when the body
    arrives cut into [values]. *)
Definition received (values : list (list Utf8.octet)) : list str :=
  Utf8.decodeStream Utf8.fresh values.

(** The text a decoder reads from the bytes of a body as a whole. *)
Definition bodyText (bytes : list Utf8.octet) : str :=
  snd (Utf8.decode Utf8.fresh bytes).

(** The elements of a JavaScript string are code units of 16 bits. *)
Definition codeUnits (s : str) : bool :=
  forallb (fun c => N.ltb c 0x10000) s.

(** [s.toWellFormed()]: the string with every surrogate that is not part
    of a pair replaced by U+FFFD. *)
Fixpoint toWellFormed (s : str) : str :=
  match s with
  | [] => []
  | c :: rest =>
      if Utf8.isHighSurrogate c then
        match rest with
        | d :: rest' =>
            if Utf8.isLowSurrogate d
            then c :: d :: toWellFormed rest'
            else Utf8.REPLACEMENT :: toWellFormed rest
        | [] => [Utf8.REPLACEMENT]
        end
      else if Utf8.isLowSurrogate c
           then Utf8.REPLACEMENT :: toWellFormed rest
      else c :: toWellFormed rest
  end.

(** A text without the byte order mark at its start, which the decoder
    drops ([seen] says that the decoder is past the start). *)
Definition dropBOM (seen : bool) (s : str) : str :=
  match s with
  | c :: s' => if negb seen && N.eqb c Utf8.BOM then s' else s
  | [] => []
  end.

(** A surrogate that is not the first half of a pair. *)
Definition lone (c : char) (rest : str) : Prop :=
  Utf8.isSurrogate c = true
  /\ (Utf8.isHighSurrogate c = false
      \/ match rest with
         | [] => True
         | d :: _ => Utf8.isLowSurrogate d = false
         end).

(** The response as it reaches the client when the fragments are
    written one by one: each fragment made well-formed on its own. *)
Definition asReceived (fragments : list str) : str :=
  concat (map toWellFormed fragments).

(** The text of the body after the writes [writes], as the client reads
    it: every write is encoded on its own, so that a surrogate whose
    partner is not in the same write arrives as U+FFFD, and a byte order
    mark at the very start is dropped by the decoder. *)
Definition written (writes : list str) : str :=
  dropBOM false (concat (map toWellFormed writes)).

(* ===================================================================== *)
(** * The decoder: [processStream] *)
(* ===================================================================== *)

Record DecoderState : Type := mkState {
  fullStreamContent : str;
  isInsideResponseValue : bool;
  responseValueStartIndex : Z;
  responseValueSentSoFar : str
}.

Definition initialState : DecoderState := mkState [] false (-1)%Z [].

(** The callbacks invoked, in order. *)
Inductive Event : Type :=
| OnStreamStart
| OnStreamChunk (chunk : str)
| OnStreamEnd (fullResponse : json)
| OnError (message : string).

Definition ResponseBodyMissing : string := "Response body is missing".
Definition UnterminatedValue : string :=
  "Stream ended unexpectedly while parsing response value.".
Definition InvalidFinalJson : string :=
  "Stream ended with incomplete or invalid JSON object.".
Definition NoContent : string := "Stream ended with no content.".
Definition ExceededMaxLength : string :=
  "Stream exceeded max length without valid JSON.".

Definition marker : str := js "'response': '".

Definition maxLength : Z := 50000.

(** Lines 78-86: look for the key when not inside the value. *)
Definition findKey (st : DecoderState) : DecoderState :=
  if isInsideResponseValue st then st
  else
    let keyIndex :=
      indexOf (fullStreamContent st) marker
              (if (-1 <? responseValueStartIndex st)%Z
               then responseValueStartIndex st else 0%Z) in
    if negb (keyIndex =? -1)%Z then
      mkState (fullStreamContent st) true (keyIndex + len marker)%Z
              (responseValueSentSoFar st)
    else st.

(** Lines 96-101: the backslashes immediately before position [k1], not
    going below [start]; [k1] is the source's [k + 1]. *)
Fixpoint backslashCount (buf : str) (start k1 : nat) : nat :=
  match k1 with
  | 0 => 0
  | S k =>
      if Nat.leb start k &&
         match nth_error buf k with
         | Some c => N.eqb c BACKSLASH
         | None => false
         end
      then S (backslashCount buf start k)
      else 0
  end.

(** Lines 93-110: the search loop.  [rest] is the buffer from position
    [searchStart] on; the result is [foundEndQuote] and the final
    [searchStart]. *)
Fixpoint searchEndQuote (buf : str) (start : nat) (rest : str)
         (searchStart : nat) : bool * nat :=
  match rest with
  | [] => (false, searchStart)
  | c :: rest' =>
      if N.eqb c QUOTE && Nat.even (backslashCount buf start searchStart)
      then (true, searchStart)
      else searchEndQuote buf start rest' (S searchStart)
  end.

(** Lines 89-115: [foundEndQuote], the final [searchStart] and
    [currentResponseValue]. *)
Definition scanValue (st : DecoderState) : bool * nat * str :=
  let buf := fullStreamContent st in
  let start := responseValueStartIndex st in
  let (foundEndQuote, searchStart) :=
    searchEndQuote buf (Z.to_nat start) (skipn (Z.to_nat start) buf)
                   (Z.to_nat start) in
  (foundEndQuote, searchStart,
   if foundEndQuote then substring buf start (Z.of_nat searchStart)
   else substringFrom buf start).

(** Lines 88-129: extract the value and send its new part. *)
Definition streamValue (st : DecoderState) : list Event * DecoderState :=
  if isInsideResponseValue st then
    let '(foundEndQuote, searchStart, currentResponseValue) := scanValue st in
    let sent := responseValueSentSoFar st in
    let send := (len sent <? len currentResponseValue)%Z in
    let evs :=
      if send
      then [OnStreamChunk (substringFrom currentResponseValue (len sent))]
      else [] in
    let sent' := if send then currentResponseValue else sent in
    if foundEndQuote
    then (evs, mkState (fullStreamContent st) false
                       (Z.of_nat searchStart + 1)%Z sent')
    else (evs, mkState (fullStreamContent st) true
                       (responseValueStartIndex st) sent')
  else ([], st).

(** Lines 135-148: the scan for brace balance. *)
Record Balance : Type := mkBalance {
  braceLevel : Z;
  inString : bool;
  escaped : bool
}.

Definition balanceChar (b : Balance) (c : char) : Balance :=
  let inString' :=
    if N.eqb c QUOTE && negb (escaped b) then negb (inString b)
    else inString b in
  let level1 :=
    if negb inString' && N.eqb c LBRACE
    then (braceLevel b + 1)%Z else braceLevel b in
  let level2 :=
    if negb inString' && N.eqb c RBRACE then (level1 - 1)%Z else level1 in
  mkBalance level2 inString' (N.eqb c BACKSLASH && negb (escaped b)).

Definition balance (buf : str) : Balance :=
  fold_left balanceChar buf (mkBalance 0 false false).

(** Line 150. *)
Definition looksComplete (buf : str) : bool :=
  let b := balance buf in
  (braceLevel b =? 0)%Z && negb (inString b)
  && includes buf LBRACE && includes buf RBRACE.

(** What leaves the read loop and what stays in it. *)
Inductive Outcome : Type :=
| Continue (st : DecoderState)
| Break.

(** Lines 134-165: the completion check. *)
Definition completionCheck (st : DecoderState) : list Event * Outcome :=
  let buf := fullStreamContent st in
  if looksComplete buf then
    match JSON_parse buf with
    | Some parsedJson =>
        if property_access_throws parsedJson then
          if (maxLength <? len buf)%Z
          then ([OnError ExceededMaxLength], Break)
          else ([], Continue st)
        else ([OnStreamEnd parsedJson], Break)
    | None =>
        if (maxLength <? len buf)%Z
        then ([OnError ExceededMaxLength], Break)
        else ([], Continue st)
    end
  else ([], Continue st).

(** Line 75: [fullStreamContent += chunk]. *)
Definition appendChunk (st : DecoderState) (chunk : str) : DecoderState :=
  mkState (fullStreamContent st ++ chunk)
          (isInsideResponseValue st)
          (responseValueStartIndex st)
          (responseValueSentSoFar st).

(** One iteration of the loop for a chunk read from the stream (lines
    74-166). *)
Definition consume (st : DecoderState) (chunk : str) : list Event * Outcome :=
  let (evs, st2) := streamValue (findKey (appendChunk st chunk)) in
  let (evs', o) := completionCheck st2 in
  (evs ++ evs', o).

(** Lines 48-72: the reader reports the end of the stream. *)
Definition onDone (st : DecoderState) : list Event :=
  if isInsideResponseValue st then [OnError UnterminatedValue]
  else if truthy (trim (fullStreamContent st)) then
    match JSON_parse (fullStreamContent st) with
    | Some parsedJson =>
        if property_access_throws parsedJson
        then [OnError InvalidFinalJson]
        else [OnStreamEnd parsedJson]
    | None => [OnError InvalidFinalJson]
    end
  else [OnError NoContent].

(** The read loop over the chunks the transport delivers before it
    signals the end. *)
Fixpoint readLoop (st : DecoderState) (chunks : list str) : list Event :=
  match chunks with
  | [] => onDone st
  | chunk :: rest =>
      let (evs, o) := consume st chunk in
      match o with
      | Continue st' => evs ++ readLoop st' rest
      | Break => evs
      end
  end.

(** [processStream(response, id)]; [None] is a response without body. *)
Definition processStream (body : option (list str)) : list Event :=
  match body with
  | None => [OnError ResponseBodyMissing]
  | Some chunks => OnStreamStart :: readLoop initialState chunks
  end.

(** The texts of the chunks sent, in order. *)
Fixpoint deltas (evs : list Event) : list str :=
  match evs with
  | OnStreamChunk d :: evs' => d :: deltas evs'
  | _ :: evs' => deltas evs'
  | [] => []
  end.

(** The iterations for a list of chunks, without the end of the stream:
    the callbacks so far, and the state if the loop is still running. *)
Fixpoint feed (st : DecoderState) (chunks : list str) : list Event * Outcome :=
  match chunks with
  | [] => ([], Continue st)
  | chunk :: rest =>
      let (evs, o) := consume st chunk in
      match o with
      | Continue st' => let (evs', o') := feed st' rest in (evs ++ evs', o')
      | Break => (evs, Break)
      end
  end.

(** The delivery cursor: the number of characters already sent. *)
Definition cursor (st : DecoderState) : Z := len (responseValueSentSoFar st).

(* ===================================================================== *)
(** * Notions used in the statements *)
(* ===================================================================== *)

(** The pattern occurs in [s] at position [i]. *)
Definition occursAt (p s : str) (i : nat) : Prop :=
  startsWith p (skipn i s) = true.

(** The number of backslashes a string starts with. *)
Fixpoint leadingBackslashes (s : str) : nat :=
  match s with
  | c :: s' => if N.eqb c BACKSLASH then S (leadingBackslashes s') else 0
  | [] => 0
  end.

(** The number of consecutive backslashes immediately before position
    [i] of the value text [v]. *)
Definition backslashesBefore (v : str) (i : nat) : nat :=
  leadingBackslashes (rev (firstn i v)).

(** Position [i] of the value text holds a quote that is not escaped. *)
Definition unescapedQuoteAt (v : str) (i : nat) : Prop :=
  nth_error v i = Some QUOTE /\ Nat.even (backslashesBefore v i) = true.

(** The value scan of a buffer whose value starts at [start]. *)
Definition valueScan (buf : str) (start : nat) : bool * nat :=
  searchEndQuote buf start (skipn start buf) start.

(** [m] is the first position where the key marker occurs in [s]. *)
Definition firstKey (s : str) (m : nat) : Prop :=
  occursAt marker s m /\ forall j, j < m -> ~ occursAt marker s j.

(** The event, if any, with which the completion check of lines 134-165
    leaves the loop on the buffer [buf]. *)
Definition verdict (buf : str) : option Event :=
  if looksComplete buf then
    match JSON_parse buf with
    | Some parsedJson =>
        if property_access_throws parsedJson then
          if (maxLength <? len buf)%Z then Some (OnError ExceededMaxLength)
          else None
        else Some (OnStreamEnd parsedJson)
    | None =>
        if (maxLength <? len buf)%Z then Some (OnError ExceededMaxLength)
        else None
    end
  else None.

(** The chunk event for a piece of text: none for the empty text. *)
Definition chunkEvent (d : str) : list Event :=
  match d with [] => [] | _ => [OnStreamChunk d] end.

(** No key marker occurs after the closing quote of the first value. *)
Definition noKeyAfterValue (s : str) : Prop :=
  forall pre v m i,
    s = pre ++ v -> firstKey s m -> length pre = m + 13 ->
    unescapedQuoteAt v i -> (forall j, j < i -> ~ unescapedQuoteAt v j) ->
    forall j, length pre + i < j -> ~ occursAt marker s j.

(** The key marker occurs at most once. *)
Definition atMostOnce (s : str) : Prop :=
  forall i j, occursAt marker s i -> occursAt marker s j -> i = j.

(** The state of a decoder that has received the buffer [B] and has
    followed the first occurrence of the key only: still seeking it,
    inside its value, or past the closing quote. *)
Inductive tracks (B : str) : DecoderState -> Prop :=
| tracks_seeking :
    (forall j, ~ occursAt marker B j) ->
    tracks B (mkState B false (-1) [])
| tracks_open pre v m :
    B = pre ++ v -> firstKey B m -> length pre = m + 13 ->
    (forall j, ~ unescapedQuoteAt v j) ->
    tracks B (mkState B true (Z.of_nat (length pre)) v)
| tracks_closed pre v m i :
    B = pre ++ v -> firstKey B m -> length pre = m + 13 ->
    unescapedQuoteAt v i -> (forall j, j < i -> ~ unescapedQuoteAt v j) ->
    tracks B (mkState B false (Z.of_nat (length pre + i) + 1) (firstn i v)).

(** Every event of the list is a chunk sent, and no chunk is empty. *)
Definition onlyChunks (evs : list Event) : Prop :=
  evs = map OnStreamChunk (deltas evs) /\
  Forall (fun d : str => d <> []) (deltas evs).

(** The completion check lets every buffer pass that arises while the
    chunks are appended to [B]. *)
Definition noVerdictAlong (B : str) (chunks : list str) : Prop :=
  forall chunks1 c chunks2,
    chunks = chunks1 ++ c :: chunks2 ->
    verdict (B ++ concat (chunks1 ++ [c])) = None.

(** The key search finds no second occurrence of the marker. *)
Definition singleKey (s : str) : bool :=
  (indexOf s marker (indexOf s marker 0 + 1) =? -1)%Z.

(** What the balance scan of the decoder would hold in a state of the
    JSON recogniser: the number of objects open, whether a string is
    open, whether the last character was an escaping backslash. *)
Fixpoint objDepth (stack : list frame) : Z :=
  match stack with
  | [] => 0
  | FObj _ _ :: st => (objDepth st + 1)%Z
  | FArr _ :: st => objDepth st
  end.

Definition modeInString (m : mode) : bool :=
  match m with
  | InStr _ _ | InEsc _ _ | InUni _ _ _ _ => true
  | _ => false
  end.

Definition modeEscaped (m : mode) : bool :=
  match m with InEsc _ _ => true | _ => false end.

Definition balanceOf (p : pstate) : Balance :=
  mkBalance (objDepth (fst p)) (modeInString (snd p)) (modeEscaped (snd p)).

(** The characters the encoder leaves as they are or escapes: no control
    character other than newline, carriage return and tab. *)
Definition plainChar (c : char) : bool :=
  N.leb 32 c || N.eqb c 9 || N.eqb c 10 || N.eqb c 13.

(** The text of one character, escaped. *)
Definition escapeChar (c : char) : str :=
  if N.eqb c BACKSLASH then [BACKSLASH; BACKSLASH]
  else if N.eqb c QUOTE then [BACKSLASH; QUOTE]
  else if N.eqb c 10 then [BACKSLASH; 110%N]
  else if N.eqb c 13 then [BACKSLASH; 114%N]
  else if N.eqb c 9 then [BACKSLASH; 116%N]
  else [c].

(** The object the handler's text stands for. *)
Definition responseObject (response : str) : json :=
  JObject [(lit "response", JString response);
           (lit "currentCategory", JNull);
           (lit "currentWord", JNull);
           (lit "currentWordProgress", JNull);
           (lit "exercises", JNull)].

(** The members, in reverse, of the object at the bottom of the stack, if
    the outermost container is an object. *)
Fixpoint bottomMembers (st : list frame) : option (list (str * json)) :=
  match st with
  | [] => None
  | f :: st' =>
      match st' with
      | [] => match f with FObj ms _ => Some ms | FArr _ => None end
      | _ :: _ => bottomMembers st'
      end
  end.

(** The recogniser is reading a text whose value is an object that
    starts with the members [ms0] (given in reverse): either it has
    failed, or the outermost container is that object, still growing, or
    the object is complete and its closing brace has been seen. *)
Definition growing (ms0 : list (str * json)) (st : list frame) : Prop :=
  exists ms, bottomMembers st = Some (ms ++ ms0).

Definition objInv (ms0 : list (str * json)) (p : pstate) (seen : bool) : Prop :=
  match snd p with
  | Rejected => True
  | Done v =>
      (exists ms, v = JObject (rev ms0 ++ ms)) /\ seen = true /\ fst p = []
  | _ => growing ms0 (fst p)
  end.

(** The escape flag after reading [v], started with the flag [e]: set by
    a backslash that is not itself escaped. *)
Definition escAfter (e : bool) (v : str) : bool :=
  fold_left (fun e c => N.eqb c BACKSLASH && negb e) v e.

(** [v] holds no unescaped quote and does not end in the middle of an
    escape, read with the escape flag [e] at its start. *)
Fixpoint quoteFree (e : bool) (v : str) : bool :=
  match v with
  | [] => negb e
  | c :: v' =>
      if e then quoteFree false v'
      else if N.eqb c BACKSLASH then quoteFree true v'
      else if N.eqb c QUOTE then false
      else quoteFree false v'
  end.

(** The fragment of the scenario with its two accented letters as code
    units. *)
Definition comoEstas : str :=
  lit "c" ++ [243%N] ++ lit "mo est" ++ [225%N] ++ lit "s?".

(** What holds of the recogniser with respect to the opening braces read
    ([seen] tells whether there was one): at the top level of the text,
    before or inside a number or a name, none has been read; and with an
    empty stack the recogniser is at the top level. *)
Definition scalarInv (p : pstate) (seen : bool) : Prop :=
  match p with
  | (_, Rejected) => True
  | (_ :: _, _) => True
  | ([], ExpValue) | ([], InNum _) | ([], InLit _ _) => seen = false
  | ([], InStr _ false) | ([], InEsc _ false) | ([], InUni _ false _ _) => True
  | ([], Done _) => True
  | ([], _) => False
  end.

(** What holds of a decoder that is inside the value: its buffer holds
    the key marker just before the value start, and no unescaped quote
    after it. *)
Definition insideInv (st : DecoderState) : Prop :=
  isInsideResponseValue st = true ->
  exists pre0 v,
    fullStreamContent st = (pre0 ++ marker) ++ v /\
    responseValueStartIndex st = Z.of_nat (length (pre0 ++ marker)) /\
    forall j, ~ unescapedQuoteAt v j.

From Stdlib Require DecimalString.

(* ===================================================================== *)
(** * JavaScript values beyond strings *)
(* ===================================================================== *)

(** What a property read can give: [undefined], or a value that came out
    of [JSON.parse]. *)
Inductive jsval : Type :=
| JSUndefined
| JSValue (v : json).

Definition jsString (s : str) : jsval := JSValue (JString s).

(** [a === b] on strings. *)
Fixpoint eqStr (a b : str) : bool :=
  match a, b with
  | [], [] => true
  | x :: a', y :: b' => N.eqb x y && eqStr a' b'
  | _, _ => false
  end.

(** [s.includes(pat)] *)
Definition includesStr (s pat : str) : bool :=
  negb (indexOf s pat 0 =? -1)%Z.

(** [v ?? null] *)
Definition orNull (v : jsval) : jsval :=
  match v with
  | JSUndefined => JSValue JNull
  | JSValue JNull => JSValue JNull
  | JSValue _ => v
  end.

(** [v !== undefined] *)
Definition isDefined (v : jsval) : bool :=
  match v with JSUndefined => false | JSValue _ => true end.

(** The truth value of what a property read gives: [undefined] is
    false; for a value from [JSON.parse] it is the platform's conversion
    [toBoolean]. *)
Definition isTruthy (toBoolean : json -> bool) (v : jsval) : bool :=
  match v with
  | JSUndefined => false
  | JSValue j => toBoolean j
  end.

(** [v || d] for a field that holds a string when it is there. *)
Definition orDefault (v : option str) (d : str) : str :=
  match v with
  | Some s => if truthy s then s else d
  | None => d
  end.

(** The own property [key] of an object made by [JSON.parse]: of the
    members with one key the last one counts. *)
Fixpoint ownProperty (members : list (str * json)) (key : str) : jsval :=
  match members with
  | [] => JSUndefined
  | (k, v) :: rest =>
      match ownProperty rest key with
      | JSUndefined => if eqStr k key then JSValue v else JSUndefined
      | JSValue later => JSValue later
      end
  end.

(** The property names the client reads from a parsed value.  No
    prototype object of the platform defines one of them, so that every
    value but an object gives [undefined]. *)
Module Field.

Inductive Name : Type :=
| response
| exercises
| currentWord
| currentWordProgress
| detail.

Definition key (f : Name) : str :=
  match f with
  | response => lit "response"
  | exercises => lit "exercises"
  | currentWord => lit "currentWord"
  | currentWordProgress => lit "currentWordProgress"
  | detail => lit "detail"
  end.

End Field.

(** [o.f] for a value [o] that is not [null] (on [null] the read throws,
    see [property_access_throws]). *)
Definition readField (o : json) (f : Field.Name) : jsval :=
  match o with
  | JObject members => ownProperty members (Field.key f)
  | _ => JSUndefined
  end.

(* ===================================================================== *)
(** * The message list of the chat: [MessagesContext] *)
(* ===================================================================== *)

Module Messages.

Inductive Role : Type := user | assistant | system | checkpoint.

Definition eqRole (a b : Role) : bool :=
  match a, b with
  | user, user | assistant, assistant
  | system, system | checkpoint, checkpoint => true
  | _, _ => false
  end.

(** An optional field that is absent holds [undefined]. *)
Record ChatMessage : Type := mkChatMessage {
  id : str;
  role : Role;
  content : jsval;
  timestamp : Z;
  isLoading : option bool;
  exercises : jsval;
  currentWord : jsval;
  currentWordProgress : jsval
}.

(** [addMessage(message)]: the message given holds a role, a content and,
    optionally, the three fields of an exercise; [newId] is what
    [nanoid()] returns and [now] what [Date.now()] returns. *)
Definition addMessage (newId : str) (now : Z) (role0 : Role) (content0 : jsval)
           (exercises0 currentWord0 currentWordProgress0 : jsval)
           (prevMessages : list ChatMessage) : list ChatMessage :=
  prevMessages ++
  [mkChatMessage newId role0 content0 now (Some false)
                 exercises0 currentWord0 currentWordProgress0].

(** [startAssistantMessage(initialContent)]; the identifier returned is
    [newId]. *)
Definition startAssistantMessage (newId : str) (now : Z) (initialContent : str)
           (prevMessages : list ChatMessage) : list ChatMessage :=
  prevMessages ++
  [mkChatMessage newId assistant (jsString initialContent) now (Some true)
                 JSUndefined JSUndefined JSUndefined].

(** [clearMessages()] *)
Definition clearMessages (prevMessages : list ChatMessage) : list ChatMessage :=
  [].

Section Platform.

(** The platform's [+] and its conversion of a value to a boolean. *)
Variable plus : jsval -> jsval -> jsval.
Variable toBoolean : json -> bool.

Section Update.

Variables (id0 : str) (contentChunk : jsval) (isComplete : bool).
Variables (exercises0 currentWord0 currentWordProgress0 : jsval).

(** The callback of [prevMessages.map] in [updateAssistantMessage];
    [now] is what [Date.now()] returns in it. *)
Definition updateMessage (now : Z) (msg : ChatMessage) : ChatMessage :=
  if eqStr (id msg) id0 && eqRole (role msg) assistant then
    let newContent :=
      if isComplete then contentChunk else plus (content msg) contentChunk in
    mkChatMessage
      (id msg) (role msg) newContent
      (if isComplete then now else timestamp msg)
      (Some (negb isComplete))
      (if isComplete && isDefined exercises0
       then exercises0 else exercises msg)
      (if isComplete && isDefined currentWord0
       then currentWord0 else currentWord msg)
      (if isComplete && isDefined currentWordProgress0
       then currentWordProgress0 else currentWordProgress msg)
  else msg.

(** The map over the messages from index [i] on; [now i] is the clock
    reading when the map is at index [i]. *)
Fixpoint updateFrom (now : nat -> Z) (i : nat)
         (prevMessages : list ChatMessage) : list ChatMessage :=
  match prevMessages with
  | [] => []
  | msg :: rest => updateMessage (now i) msg :: updateFrom now (S i) rest
  end.

End Update.

(** [updateAssistantMessage(id, contentChunk, isComplete, exercises,
    currentWord, currentWordProgress)]; an argument that is not passed is
    [undefined]. *)
Definition updateAssistantMessage (now : nat -> Z) (id0 : str)
           (contentChunk : jsval) (isComplete : bool)
           (exercises0 currentWord0 currentWordProgress0 : jsval)
           (prevMessages : list ChatMessage) : list ChatMessage :=
  updateFrom id0 contentChunk isComplete
             exercises0 currentWord0 currentWordProgress0 now 0 prevMessages.

(** [l.findIndex(p)] *)
Fixpoint findIndex (A : Type) (p : A -> bool) (l : list A) : option nat :=
  match l with
  | [] => None
  | x :: l' =>
      if p x then Some 0
      else match findIndex p l' with
           | Some i => Some (S i)
           | None => None
           end
  end.

Definition hasExercises (msg : ChatMessage) : bool :=
  eqRole (role msg) assistant && isTruthy toBoolean (exercises msg).

(** [updated[idx] = { ...updated[idx], exercises: undefined }] for an
    index inside the array. *)
Fixpoint clearAt (idx : nat) (l : list ChatMessage) : list ChatMessage :=
  match l, idx with
  | [], _ => []
  | msg :: rest, 0 =>
      mkChatMessage (id msg) (role msg) (content msg) (timestamp msg)
                    (isLoading msg) JSUndefined
                    (currentWord msg) (currentWordProgress msg) :: rest
  | msg :: rest, S idx' => msg :: clearAt idx' rest
  end.

(** [clearLastAssistantExercises()] *)
Definition clearLastAssistantExercises (prev : list ChatMessage)
  : list ChatMessage :=
  match findIndex hasExercises (rev prev) with
  | None => prev
  | Some lastIdx => clearAt (length prev - 1 - lastIdx) prev
  end.

End Platform.

End Messages.

(* ===================================================================== *)
(** * The callbacks of the chat: [useChatStream] *)
(* ===================================================================== *)

Module ChatStream.

Section Platform.

Variable plus : jsval -> jsval -> jsval.

(** [onStreamChunk] *)
Definition onStreamChunk (now : nat -> Z) (id0 chunk : str)
           (messages : list Messages.ChatMessage)
  : list Messages.ChatMessage :=
  Messages.updateAssistantMessage
    plus now id0 (jsString chunk) false
    JSUndefined JSUndefined JSUndefined messages.

(** [onStreamEnd]; [None] when reading [fullResponse.response] throws. *)
Definition onStreamEnd (now : nat -> Z) (id0 : str) (fullResponse : json)
           (messages : list Messages.ChatMessage)
  : option (list Messages.ChatMessage) :=
  if property_access_throws fullResponse then None
  else
    Some (Messages.updateAssistantMessage
            plus now id0
            (readField fullResponse Field.response) true
            (orNull (readField fullResponse Field.exercises))
            (orNull (readField fullResponse Field.currentWord))
            (orNull (readField fullResponse Field.currentWordProgress))
            messages).

(** [onError] *)
Definition onError (now : nat -> Z) (id0 : str) (message : str)
           (messages : list Messages.ChatMessage)
  : list Messages.ChatMessage :=
  if truthy id0 then
    Messages.updateAssistantMessage
      plus now id0 (jsString (lit "Error: " ++ message)) true
      JSUndefined JSUndefined JSUndefined messages
  else messages.

(** The callback [processStream] invokes for an event, with the message
    identifier it was given. *)
Definition callback (now : nat -> Z) (id0 : str) (e : Event)
           (messages : list Messages.ChatMessage)
  : option (list Messages.ChatMessage) :=
  match e with
  | OnStreamStart => Some messages
  | OnStreamChunk chunk => Some (onStreamChunk now id0 chunk messages)
  | OnStreamEnd fullResponse => onStreamEnd now id0 fullResponse messages
  | OnError message => Some (onError now id0 (lit message) messages)
  end.

(** The message list after the callbacks for [events], in order; the
    callback number [k] reads the clock [clock k]. *)
Fixpoint callbacks (clock : nat -> nat -> Z) (k : nat) (id0 : str)
         (events : list Event) (messages : list Messages.ChatMessage)
  : option (list Messages.ChatMessage) :=
  match events with
  | [] => Some messages
  | e :: rest =>
      match callback (clock k) id0 e messages with
      | Some messages' => callbacks clock (S k) id0 rest messages'
      | None => None
      end
  end.

(** [processStream(response, id0)] with the callbacks of the hook. *)
Definition streamInto (clock : nat -> nat -> Z) (id0 : str)
           (body : option (list str)) (messages : list Messages.ChatMessage)
  : option (list Messages.ChatMessage) :=
  callbacks clock 0 id0 (processStream body) messages.

End Platform.

Record ContinueSessionPayload : Type := mkPayload {
  session_id : str;
  user_message : str
}.

(** [sendMessage(messageText)]: the value returned, the message list and
    the payload handed to [mutation.mutate], if any.  [sessionId] is
    [None] for [null]. *)
Definition sendMessage (newId : str) (now : Z) (sessionId : option str)
           (isPending isStreaming : bool) (messageText : str)
           (messages : list Messages.ChatMessage)
  : bool * list Messages.ChatMessage * option ContinueSessionPayload :=
  let trimmedMessage := trim messageText in
  match sessionId with
  | None => (false, messages, None)
  | Some sid =>
      if negb (truthy trimmedMessage) || negb (truthy sid)
         || isPending || isStreaming
      then (false, messages, None)
      else
        (true,
         Messages.addMessage newId now Messages.user (jsString trimmedMessage)
                             JSUndefined JSUndefined JSUndefined messages,
         Some (mkPayload sid trimmedMessage))
  end.

(** [sendHiddenMessage(messageText)] *)
Definition sendHiddenMessage (sessionId : option str)
           (isPending isStreaming : bool) (messageText : str)
  : bool * option ContinueSessionPayload :=
  let trimmedMessage := trim messageText in
  match sessionId with
  | None => (false, None)
  | Some sid =>
      if negb (truthy trimmedMessage) || negb (truthy sid)
         || isPending || isStreaming
      then (false, None)
      else (true, Some (mkPayload sid trimmedMessage))
  end.

End ChatStream.

(* ===================================================================== *)
(** * The backend's types: [types/index.ts] *)
(* ===================================================================== *)

Module Types.

Inductive Role : Type := user | assistant | system.

Record ChatMessage : Type := mkChatMessage {
  role : Role;
  content : str
}.

(** The fields of a session and of a user that the handlers read. *)
Record Session : Type := mkSession {
  user_id : str;
  message_history : list ChatMessage
}.

Record User : Type := mkUser {
  user_name : str;
  source_language : str;
  target_language : str
}.

End Types.

(* ===================================================================== *)
(** * Errors and the error middleware: [middleware/errorHandler.ts] *)
(* ===================================================================== *)

Module Errors.

Record AppError : Type := mkAppError {
  message : str;
  statusCode : Z;
  code : str
}.

(** An [Error] that is thrown: an [AppError], or another one with its
    [name] and its [message]. *)
Inductive JsError : Type :=
| IsAppError (e : AppError)
| OtherError (name msg : str).

(** [new Error(message)] *)
Definition newError (msg : str) : JsError := OtherError (lit "Error") msg.

(** [createError]; an argument with a default is [None] when it is not
    passed. *)
Definition badRequest (msg : str) : AppError :=
  mkAppError msg 400 (lit "BAD_REQUEST").
Definition unauthorized (msg : option str) : AppError :=
  mkAppError (match msg with Some m => m | None => lit "Unauthorized" end)
             401 (lit "UNAUTHORIZED").
Definition forbidden (msg : option str) : AppError :=
  mkAppError (match msg with Some m => m | None => lit "Forbidden" end)
             403 (lit "FORBIDDEN").
Definition notFound (msg : str) : AppError :=
  mkAppError msg 404 (lit "NOT_FOUND").
Definition conflict (msg : str) : AppError :=
  mkAppError msg 409 (lit "CONFLICT").
Definition unprocessable (msg : str) : AppError :=
  mkAppError msg 422 (lit "UNPROCESSABLE_ENTITY").
Definition internal (msg : option str) : AppError :=
  mkAppError (match msg with
              | Some m => m
              | None => lit "Internal server error"
              end)
             500 (lit "INTERNAL_ERROR").
Definition service (msg : str) : AppError :=
  mkAppError msg 503 (lit "SERVICE_UNAVAILABLE").

(** The body the middleware sends; [details] is there in development
    only and holds the stack trace of the error. *)
Record ApiError : Type := mkApiError {
  apiMessage : str;
  apiCode : str;
  apiStatusCode : Z;
  details : option str
}.

Record ErrorResponse : Type := mkErrorResponse {
  status : Z;
  success : bool;
  error : ApiError
}.

(** [errorHandler(error, req, res, next)]: [development] tells whether
    [NODE_ENV] is ['development'], [stack] is [error.stack]. *)
Definition errorHandler (development : bool) (stack : option str)
           (err : JsError) : ErrorResponse :=
  let '(statusCode1, code1, message1) :=
    match err with
    | IsAppError e => (statusCode e, code e, message e)
    | OtherError name msg =>
        if eqStr name (lit "ValidationError")
        then (400%Z, lit "VALIDATION_ERROR", msg)
        else if eqStr name (lit "UnauthorizedError")
        then (401%Z, lit "UNAUTHORIZED", lit "Authentication required")
        else if includesStr msg (lit "Database")
        then (503%Z, lit "DATABASE_ERROR", lit "Database service unavailable")
        else if includesStr msg (lit "AI service")
        then (503%Z, lit "AI_SERVICE_ERROR",
              lit "AI service temporarily unavailable")
        else (500%Z, lit "INTERNAL_ERROR", lit "An unexpected error occurred")
    end in
  mkErrorResponse statusCode1 false
    (mkApiError message1 code1 statusCode1
                (if development then stack else None)).

End Errors.

(* ===================================================================== *)
(** * The tutoring service: [GeminiService] *)
(* ===================================================================== *)

Module Gemini.

Inductive Role : Type := user | model.

(** A turn of the history given to the model; its [parts] hold one
    [text]. *)
Record Content : Type := mkContent {
  role : Role;
  text : str
}.

Record UserLanguages : Type := mkUserLanguages {
  source : str;
  target : str
}.

(** A word or a category that is [null] or not given is [None]. *)
Record Context : Type := mkContext {
  currentWord : option str;
  currentCategory : option str;
  userLanguages : UserLanguages
}.

(** [convertToGeminiHistory(messages)] *)
Definition convertToGeminiHistory (messages : list Types.ChatMessage)
  : list Content :=
  map (fun msg =>
         mkContent (match Types.role msg with
                    | Types.assistant => model
                    | _ => user
                    end)
                   (Types.content msg))
      (removelast messages).

Definition nl : str := [10%N].

(** [createSystemPrompt(context)] *)
Definition createSystemPrompt (context : Context) : str :=
  let src := source (userLanguages context) in
  let tgt := target (userLanguages context) in
  lit "You are an AI vocabulary tutor for our language learning platform. Your role is to teach "
  ++ tgt ++ lit " vocabulary to speakers of " ++ src ++ lit "." ++ nl
  ++ nl
  ++ lit "TEACHING METHODOLOGY:" ++ nl
  ++ lit "1. **Category Selection**: Help users choose vocabulary categories" ++ nl
  ++ lit "2. **Scenario Introduction**: Present real-world scenarios  " ++ nl
  ++ lit "3. **Word Teaching**: For each word, teach in this order:" ++ nl
  ++ lit "   - Meaning (simple definition + context)" ++ nl
  ++ lit "   - Pronunciation (phonetic guide)" ++ nl
  ++ lit "   - Example Sentences (3 practical examples)" ++ nl
  ++ lit "   - Context Usage (when/where to use it)" ++ nl
  ++ lit "4. **Exercise Generation**: Create unscrambling exercises" ++ nl
  ++ nl
  ++ lit "CURRENT CONTEXT:" ++ nl
  ++ lit "- Category: " ++ orDefault (currentCategory context) (lit "Not selected") ++ nl
  ++ lit "- Current Word: " ++ orDefault (currentWord context) (lit "None") ++ nl
  ++ lit "- Teaching: " ++ src ++ lit " " ++ [8594%N] ++ lit " " ++ tgt ++ nl
  ++ nl
  ++ lit "RESPONSE STYLE:" ++ nl
  ++ lit "- Conversational and encouraging" ++ nl
  ++ lit "- Use simple language" ++ nl
  ++ lit "- Provide practical, real-world examples" ++ nl
  ++ lit "- Be patient and supportive" ++ nl
  ++ lit "- Focus on practical usage over grammar rules" ++ nl
  ++ nl
  ++ lit "Always respond in " ++ src ++ lit " when explaining, but teach words in "
  ++ tgt ++ lit ".".

(** What a call of the model's library throws: an [Error] with its
    message, or something else. *)
Inductive Thrown : Type :=
| ThrownError (msg : str)
| ThrownOther.

(** The library of the model: [startChat] may throw; [sendMessageStream]
    throws or gives a stream, that is the texts of its chunks and how it
    ends. *)
Record Sdk : Type := mkSdk {
  startChat : list Content -> option Thrown;
  sendMessageStream : list Content -> str -> Thrown + (list str * Terminal)
}.

(** The error of the [catch] in [generateTutoringResponse]. *)
Definition unavailable (e : Thrown) : Errors.JsError :=
  Errors.newError
    (lit "AI service unavailable: " ++
     match e with
     | ThrownError msg => msg
     | ThrownOther => lit "Unknown error"
     end).

(** [createStreamIterator(stream)]: the fragments it yields and how it
    ends. *)
Definition createStreamIterator (texts : list str) (t : Terminal)
  : list str * Terminal :=
  (filter truthy texts, t).

(** [messages[messages.length - 1]] *)
Definition lastMessage (messages : list Types.ChatMessage)
  : option Types.ChatMessage :=
  nth_error messages (length messages - 1).

(** [generateTutoringResponse(messages, context)]: the error thrown, or
    the iterator returned. *)
Definition generateTutoringResponse (sdk : Sdk)
           (messages : list Types.ChatMessage) (context : Context)
  : Errors.JsError + (list str * Terminal) :=
  let geminiHistory := convertToGeminiHistory messages in
  let systemPrompt := createSystemPrompt context in
  let historyWithSystem :=
    mkContent user systemPrompt
    :: mkContent model
         (lit "I understand. I'm ready to help with vocabulary learning.")
    :: geminiHistory in
  match startChat sdk historyWithSystem with
  | Some e => inl (unavailable e)
  | None =>
      let invalid :=
        unavailable
          (ThrownError
             (lit "Invalid message history: last message must be from user")) in
      match lastMessage messages with
      | None => inl invalid
      | Some lastMsg =>
          match Types.role lastMsg with
          | Types.user =>
              match sendMessageStream sdk historyWithSystem
                                      (Types.content lastMsg) with
              | inl e => inl (unavailable e)
              | inr (texts, t) => inr (createStreamIterator texts t)
              end
          | _ => inl invalid
          end
      end
  end.

End Gemini.

(* ===================================================================== *)
(** * The handler of [POST /session/continue] with its services *)
(* ===================================================================== *)

Module Routes.

(** What a query of the database gives. *)
Inductive Lookup (A : Type) : Type :=
| Found (a : A)
| Missing
| QueryFails (e : Errors.JsError).

Arguments Missing {A}.
Arguments QueryFails {A} e.

Record Services : Type := mkServices {
  findSessionById : str -> Lookup Types.Session;
  findUserById : str -> Lookup Types.User;
  sdk : Gemini.Sdk
}.

(** The fields of the request body, each a string when it is there. *)
Record ContinueBody : Type := mkContinueBody {
  session_id : option str;
  user_message : option str
}.

(** What the handler does to the response: it throws, and the error goes
    to the error middleware, or it writes the stream and ends it.
    [saved] is the history it hands to [SessionService.updateMessages],
    if it does. *)
Inductive Reply : Type :=
| Threw (e : Errors.JsError)
| Streamed (writes : list str) (saved : option (list Types.ChatMessage)).

(** Lines 82-165, the body of the outer [try]: an error thrown before
    the first write, or the writes and the history saved. *)
Definition tryContinue (svc : Services) (session_id0 user_message0 : str)
  : Errors.JsError
    + (list str * option (list Types.ChatMessage)) :=
  match findSessionById svc session_id0 with
  | QueryFails e => inl e
  | Missing => inl (Errors.IsAppError (Errors.notFound (lit "Session not found")))
  | Found session =>
      match findUserById svc (Types.user_id session) with
      | QueryFails e => inl e
      | Missing =>
          inl (Errors.IsAppError
                 (Errors.internal (Some (lit "Session user not found"))))
      | Found usr =>
          let currentHistory := Types.message_history session in
          let userMsg := Types.mkChatMessage Types.user user_message0 in
          let updatedHistory := currentHistory ++ [userMsg] in
          let aiContext :=
            Gemini.mkContext None None
              (Gemini.mkUserLanguages (Types.source_language usr)
                                      (Types.target_language usr)) in
          match Gemini.generateTutoringResponse (sdk svc) updatedHistory
                                                aiContext with
          | inl e => inl e
          | inr (fragments, t) =>
              inr (continueSession fragments t,
                   match t with
                   | SourceDone =>
                       let aiResponse :=
                         Types.mkChatMessage Types.assistant
                                             (concat fragments) in
                       Some (updatedHistory ++ [aiResponse])
                   | SourceError => None
                   end)
          end
      end
  end.

(** The handler.  Before the first write no header has been sent, so
    that the outer [catch] throws its own error for whatever the [try]
    threw. *)
Definition sessionContinue (svc : Services) (body : ContinueBody) : Reply :=
  let missingFields :=
    Threw (Errors.IsAppError
             (Errors.badRequest
                (lit "Missing required fields: session_id, user_message"))) in
  match session_id body, user_message body with
  | Some session_id0, Some user_message0 =>
      if negb (truthy session_id0) || negb (truthy user_message0)
      then missingFields
      else
        match tryContinue svc session_id0 user_message0 with
        | inl _ =>
            Threw (Errors.IsAppError
                     (Errors.internal
                        (Some (lit "Failed to continue session"))))
        | inr (writes, saved) => Streamed writes saved
        end
  | _, _ => missingFields
  end.

(** The route as it is mounted: [asyncHandler] hands what the handler
    throws to the error middleware, which answers; otherwise the answer
    is the bytes written. *)
Definition handle (development : bool) (stack : option str)
           (svc : Services) (body : ContinueBody)
  : Errors.ErrorResponse + str :=
  match sessionContinue svc body with
  | Threw e => inl (Errors.errorHandler development stack e)
  | Streamed writes _ => inr (written writes)
  end.

(** Lines 99-102: the headers of the stream, set with [res.setHeader]
    once the session and its user are found, before the model is
    asked. *)
Definition streamHeaders : list (str * str) :=
  [(lit "Content-Type", lit "application/json");
   (lit "Transfer-Encoding", lit "chunked");
   (lit "Cache-Control", lit "no-cache");
   (lit "Connection", lit "keep-alive")].

(** The headers the handler has set on the response when it returns or
    throws: none when it throws before line 99, those of the stream from
    then on, also when the model fails afterwards and the error
    middleware answers. *)
Definition headersSet (svc : Services) (body : ContinueBody)
  : list (str * str) :=
  match session_id body, user_message body with
  | Some session_id0, Some user_message0 =>
      if negb (truthy session_id0) || negb (truthy user_message0) then []
      else
        match findSessionById svc session_id0 with
        | Found session =>
            match findUserById svc (Types.user_id session) with
            | Found _ => streamHeaders
            | _ => []
            end
        | _ => []
        end
  | _, _ => []
  end.

(** The request body the server reads for a payload of the client. *)
Definition bodyOfPayload (p : ChatStream.ContinueSessionPayload)
  : ContinueBody :=
  mkContinueBody (Some (ChatStream.session_id p))
                 (Some (ChatStream.user_message p)).

End Routes.

(* ===================================================================== *)
(** * The language handed to the speech library: [mapLanguageToGTTS] *)
(* ===================================================================== *)

Module Tts.

(** The own properties of [languageMap]. *)
Definition languageMap : list (str * str) :=
  [(lit "en-US", lit "en"); (lit "en-GB", lit "en");
   (lit "es-ES", lit "es"); (lit "es-MX", lit "es");
   (lit "fr-FR", lit "fr"); (lit "de-DE", lit "de");
   (lit "it-IT", lit "it"); (lit "pt-BR", lit "pt");
   (lit "pt-PT", lit "pt"); (lit "ja-JP", lit "ja");
   (lit "ko-KR", lit "ko"); (lit "zh-CN", lit "zh");
   (lit "zh-TW", lit "zh-tw"); (lit "ar-SA", lit "ar");
   (lit "hi-IN", lit "hi"); (lit "ru-RU", lit "ru");
   (lit "th-TH", lit "th"); (lit "vi-VN", lit "vi")].

(** The names that [languageMap], an object literal, inherits from
    [Object.prototype]; what it holds for them is a function or an
    object, not a string, and is truthy. *)
Definition inheritedNames : list str :=
  [lit "constructor"; lit "__defineGetter__"; lit "__defineSetter__";
   lit "hasOwnProperty"; lit "__lookupGetter__"; lit "__lookupSetter__";
   lit "isPrototypeOf"; lit "propertyIsEnumerable"; lit "toString";
   lit "valueOf"; lit "__proto__"; lit "toLocaleString"].

Fixpoint lookup (key : str) (table : list (str * str)) : option str :=
  match table with
  | [] => None
  | (k, v) :: rest => if eqStr k key then Some v else lookup key rest
  end.

(** [language.split('-')[0]] *)
Fixpoint beforeHyphen (language : str) : str :=
  match language with
  | [] => []
  | c :: rest => if N.eqb c 45 then [] else c :: beforeHyphen rest
  end.

(** What the function returns: a language code, or the member of
    [Object.prototype] with the name given. *)
Inductive Mapped : Type :=
| Code (code : str)
| Inherited (name : str).

(** [mapLanguageToGTTS(language)] *)
Definition mapLanguageToGTTS (language : str) : Mapped :=
  let fallback :=
    let base := beforeHyphen language in
    if truthy base then Code base else Code (lit "en") in
  match lookup language languageMap with
  | Some code => if truthy code then Code code else fallback
  | None =>
      if existsb (eqStr language) inheritedNames then Inherited language
      else fallback
  end.

End Tts.

(* ===================================================================== *)
(** * The request of the client: [continueSessionRaw] and the mutation *)
(* ===================================================================== *)

Module Api.

(** A [Response] of [fetch]: its status, what [response.json()] gives
    ([None] when it rejects) and the chunks of its body ([None] when
    there is no body). *)
Record Response : Type := mkResponse {
  status : Z;
  json_ : option json;
  body : option (list str)
}.

(** [response.ok] *)
Definition ok (response : Response) : bool :=
  (200 <=? status response)%Z && (status response <=? 299)%Z.

(** What [fetch] does: it rejects with an error, or resolves. *)
Inductive FetchOutcome : Type :=
| FetchRejects (message : str)
| FetchResolves (response : Response).

(** The text of an integer in a template literal; a status has three
    digits. *)
Definition decimal (n : Z) : str :=
  lit (DecimalString.NilZero.string_of_int (Z.to_int n)).

Section Platform.

(** The platform's conversions of a value to a boolean and to a
    string. *)
Variable toBoolean : json -> bool.
Variable toString : json -> str.

(** Lines 68-74: [errorDetails] after the [try]. *)
Definition errorDetailsOf (errorData : option json) (errorDetails : str)
  : str :=
  match errorData with
  | Some data =>
      if property_access_throws data then errorDetails
      else
        match readField data Field.detail with
        | JSValue detail =>
            if toBoolean detail then toString detail else errorDetails
        | JSUndefined => errorDetails
        end
  | None => errorDetails
  end.

(** [continueSessionRaw(payload)]: the message of the error thrown, or
    the response returned. *)
Definition continueSessionRaw (outcome : FetchOutcome) : str + Response :=
  match outcome with
  | FetchRejects message => inl message
  | FetchResolves response =>
      if ok response then inr response
      else
        inl (errorDetailsOf (json_ response)
                            (lit "Failed to continue session")
             ++ lit " (Status: " ++ decimal (status response) ++ lit ")")
  end.

End Platform.

End Api.

Module Mutation.

Section Platform.

Variable plus : jsval -> jsval -> jsval.
Variable toBoolean : json -> bool.
Variable toString : json -> str.

(** [onError] of the mutation: [ref] is [streamingMessageIdRef.current]. *)
Definition onError (now : nat -> Z) (ref : str) (message : str)
           (messages : list Messages.ChatMessage)
  : list Messages.ChatMessage :=
  if truthy ref then
    Messages.updateAssistantMessage
      plus now ref (jsString (lit "Failed to send message: " ++ message)) true
      JSUndefined JSUndefined JSUndefined messages
  else messages.

(** [mutation.mutate(payload)]: [onMutate] starts the message of the
    assistant with the identifier [newId] at the time [now0]; then
    [mutationFn] runs, and [onError] when it throws.  The update of
    [onError] reads the clock [clock 0], the callback number [k] of the
    stream the clock [clock k]. *)
Definition mutate (clock : nat -> nat -> Z) (newId : str) (now0 : Z)
           (sessionId : option str) (outcome : Api.FetchOutcome)
           (messages : list Messages.ChatMessage)
  : option (list Messages.ChatMessage) :=
  let messages1 := Messages.startAssistantMessage newId now0 [] messages in
  let failed message := Some (onError (clock 0) newId message messages1) in
  if truthy (orDefault sessionId []) then
    match Api.continueSessionRaw toBoolean toString outcome with
    | inl message => failed message
    | inr response =>
        if truthy newId
        then ChatStream.streamInto plus clock newId (Api.body response)
                                   messages1
        else failed (lit "Missing streaming message ID")
    end
  else failed (lit "Cannot send message without a session ID.").

End Platform.

End Mutation.

(* ===================================================================== *)
(** * Further notions used in the statements *)
(* ===================================================================== *)

(** The callbacks that end a run of [processStream]: the final object,
    which is never [null], or an error. *)
Definition isTerminal (e : Event) : bool :=
  match e with
  | OnStreamEnd v => negb (property_access_throws v)
  | OnError _ => true
  | OnStreamStart | OnStreamChunk _ => false
  end.

(** The messages [updateAssistantMessage] changes: those of the
    assistant with the identifier given. *)
Definition isTarget (id0 : str) (msg : Messages.ChatMessage) : bool :=
  eqStr (Messages.id msg) id0
  && Messages.eqRole (Messages.role msg) Messages.assistant.

(** Two message lists that a completing update of the identifier cannot
    tell apart. *)
Definition sameWhenCompleted (plus : jsval -> jsval -> jsval) (id0 : str)
           (a b : list Messages.ChatMessage) : Prop :=
  forall now c e1 e2 e3,
    Messages.updateAssistantMessage plus now id0 c true e1 e2 e3 a
    = Messages.updateAssistantMessage plus now id0 c true e1 e2 e3 b.

(** The turn of the model's history that stands for a stored message. *)
Definition turnOf (msg : Types.ChatMessage) : Gemini.Content :=
  Gemini.mkContent (match Types.role msg with
                    | Types.assistant => Gemini.model
                    | _ => Gemini.user
                    end)
                   (Types.content msg).

(** The history the model is given for the stored messages [history]:
    the system prompt, its acknowledgement, and one turn for each
    message. *)
Definition chatHistory (context : Gemini.Context)
           (history : list Types.ChatMessage) : list Gemini.Content :=
  Gemini.mkContent Gemini.user (Gemini.createSystemPrompt context)
  :: Gemini.mkContent
       Gemini.model
       (lit "I understand. I'm ready to help with vocabulary learning.")
  :: map turnOf history.

(** The error for a history that does not end with a message of the
    user. *)
Definition invalidHistory : Errors.JsError :=
  Errors.newError
    (lit "AI service unavailable: Invalid message history: last message must be from user").

(** The context the handler gives the model for a user. *)
Definition contextOf (usr : Types.User) : Gemini.Context :=
  Gemini.mkContext None None
    (Gemini.mkUserLanguages (Types.source_language usr)
                            (Types.target_language usr)).

(** The value [response.json()] gives the client for the body that the
    error middleware sent with [res.json]. *)
Definition jsonOfError (r : Errors.ErrorResponse) : json :=
  JObject
    [(lit "success", JBool (Errors.success r));
     (lit "error",
      JObject
        ([(lit "message", JString (Errors.apiMessage (Errors.error r)));
          (lit "code", JString (Errors.apiCode (Errors.error r)));
          (lit "statusCode",
           JNumber (Api.decimal (Errors.apiStatusCode (Errors.error r))))]
         ++ match Errors.details (Errors.error r) with
            | Some stack => [(lit "details", JString stack)]
            | None => []
            end))].

(** The response the client gets for an answer of the error middleware:
    its status and its body; [body] is the body as a stream, which the
    client does not read for an error. *)
Definition responseOfError (r : Errors.ErrorResponse)
           (body : option (list str)) : Api.Response :=
  Api.mkResponse (Errors.status r) (Some (jsonOfError r)) body.

(** The headers name the chunked transfer coding.  The error middleware
    answers with [res.json], which gives the length of its body in
    [Content-Length]; an answer with both is one that a client may
    refuse. *)
Definition chunkedWithLength (headers : list (str * str)) : bool :=
  existsb (fun h => eqStr (fst h) (lit "Transfer-Encoding")
                    && eqStr (snd h) (lit "chunked"))
          headers.

(** What [fetch] can make of an answer of the error middleware that
    goes out with the headers [headers] set before: the response with
    its status and body; or, when the headers name the chunked coding
    beside the length, a rejection, as the [fetch] of Node does, with a
    message of the platform. *)
Inductive fetched (headers : list (str * str)) (r : Errors.ErrorResponse)
  : Api.FetchOutcome -> Prop :=
| FetchedResponse (stream : option (list str)) :
    fetched headers r (Api.FetchResolves (responseOfError r stream))
| FetchedRejection (message : str) :
    chunkedWithLength headers = true ->
    fetched headers r (Api.FetchRejects message).

(** A message with its exercises set to [undefined]. *)
Definition withoutExercises (msg : Messages.ChatMessage)
  : Messages.ChatMessage :=
  Messages.mkChatMessage
    (Messages.id msg) (Messages.role msg) (Messages.content msg)
    (Messages.timestamp msg) (Messages.isLoading msg) JSUndefined
    (Messages.currentWord msg) (Messages.currentWordProgress msg).

(** What the statements need of the platform's [+]: on two strings it is
    their concatenation. *)
Definition concatenates (plus : jsval -> jsval -> jsval) : Prop :=
  forall a b : str, plus (jsString a) (jsString b) = jsString (a ++ b).

(** [+] on two strings, for the examples; they add nothing else. *)
Definition stringPlus (a b : jsval) : jsval :=
  match a, b with
  | JSValue (JString x), JSValue (JString y) => jsString (x ++ y)
  | _, _ => JSUndefined
  end.

(** A clock that stands still, for the examples. *)
Definition stillClock (k i : nat) : Z := 0%Z.

(** Services for the examples: a session with one greeting, its user,
    and a model that answers with three texts, the second one empty. *)
Definition exampleSdk : Gemini.Sdk :=
  Gemini.mkSdk (fun _ => None)
               (fun _ _ => inr ([lit "Ho"; []; lit "la"], SourceDone)).

Definition exampleServices : Routes.Services :=
  Routes.mkServices
    (fun session_id0 =>
       if eqStr session_id0 (lit "s1")
       then Routes.Found
              (Types.mkSession
                 (lit "u1")
                 [Types.mkChatMessage Types.assistant (lit "Welcome!")])
       else Routes.Missing)
    (fun _ => Routes.Found (Types.mkUser (lit "Ana") (lit "en") (lit "es")))
    exampleSdk.

(** The same services with a model that cannot be reached. *)
Definition failingServices : Routes.Services :=
  Routes.mkServices
    (Routes.findSessionById exampleServices)
    (Routes.findUserById exampleServices)
    (Gemini.mkSdk (fun _ => Some (Gemini.ThrownError (lit "quota")))
                  (fun _ _ => inl Gemini.ThrownOther)).

Definition exampleBody : Routes.ContinueBody :=
  Routes.mkContinueBody (Some (lit "s1")) (Some (lit "Hi")).

(* ===================================================================== *)
(** * UTF-8: what the decoder reads from the bytes of the encoder *)
(* ===================================================================== *)

(** Linear arithmetic with the quotients and remainders of division by
    a constant. *)
Ltac nlia := zify; Z.to_euclidean_division_equations; lia.

Lemma land_low (b n : N) : N.land b (N.ones n) = (b mod 2 ^ n)%N.
Proof. apply N.land_ones. Qed.

Lemma lor_shift (c b : N) :
  N.lor (N.shiftl c 6) (N.land b 0x3F) = (c * 64 + b mod 64)%N.
Proof.
  change 0x3F%N with (N.ones 6). rewrite land_low, N.shiftl_mul_pow2.
  change (2 ^ 6)%N with 64%N.
  rewrite <- N.lxor_lor, <- N.add_nocarry_lxor; try reflexivity.
  all: apply N.bits_inj; intros n; rewrite N.land_spec, N.bits_0;
    change 64%N with (2 ^ 6)%N;
    destruct (N.lt_ge_cases n 6) as [H | H];
    [ rewrite N.mul_pow2_bits_low by exact H; reflexivity
    | rewrite N.mod_pow2_bits_high by exact H; apply andb_false_r ].
Qed.

Section Utf8Facts.

Local Open Scope N_scope.

Lemma lead_ascii (d : Utf8.Decoder) (b : N) :
  b < 0x80 -> Utf8.lead d b = (d, [b]).
Proof.
  intros H. unfold Utf8.lead.
  destruct (N.leb_spec b 0x7F); [reflexivity | lia].
Qed.

Lemma lead_two (d : Utf8.Decoder) (b : N) :
  0xC2 <= b <= 0xDF ->
  Utf8.lead d b
  = (Utf8.mkDecoder (b mod 32) 0 1 0x80 0xBF (Utf8.bomSeen d), []).
Proof.
  intros H. unfold Utf8.lead.
  destruct (N.leb_spec b 0x7F); [lia|].
  destruct (N.leb_spec 0xC2 b); [|lia].
  destruct (N.leb_spec b 0xDF); [|lia].
  cbn [andb]. change 0x1F with (N.ones 5). now rewrite land_low.
Qed.

Lemma lead_three (d : Utf8.Decoder) (b : N) :
  0xE0 <= b <= 0xEF ->
  Utf8.lead d b
  = (Utf8.mkDecoder (b mod 16) 0 2
                    (if b =? 0xE0 then 0xA0 else 0x80)
                    (if b =? 0xED then 0x9F else 0xBF)
                    (Utf8.bomSeen d), []).
Proof.
  intros H. unfold Utf8.lead.
  destruct (N.leb_spec b 0x7F); [lia|].
  destruct (N.leb_spec 0xC2 b); [|lia].
  destruct (N.leb_spec b 0xDF); [lia|].
  destruct (N.leb_spec 0xE0 b); [|lia].
  destruct (N.leb_spec b 0xEF); [|lia].
  cbn [andb]. change 0xF with (N.ones 4). now rewrite land_low.
Qed.

Lemma lead_four (d : Utf8.Decoder) (b : N) :
  0xF0 <= b <= 0xF4 ->
  Utf8.lead d b
  = (Utf8.mkDecoder (b mod 8) 0 3
                    (if b =? 0xF0 then 0x90 else 0x80)
                    (if b =? 0xF4 then 0x8F else 0xBF)
                    (Utf8.bomSeen d), []).
Proof.
  intros H. unfold Utf8.lead.
  destruct (N.leb_spec b 0x7F); [lia|].
  destruct (N.leb_spec 0xC2 b); [|lia].
  destruct (N.leb_spec b 0xDF); [lia|].
  destruct (N.leb_spec 0xE0 b); [|lia].
  destruct (N.leb_spec b 0xEF); [lia|].
  destruct (N.leb_spec 0xF0 b); [|lia].
  destruct (N.leb_spec b 0xF4); [|lia].
  cbn [andb]. change 0x7 with (N.ones 3). now rewrite land_low.
Qed.

(** A byte that continues the sequence begun. *)
Lemma handler_continue (cp seen needed lo hi : N) (bom : bool) (b : N) :
  needed <> 0 -> lo <= b <= hi ->
  Utf8.handler (Utf8.mkDecoder cp seen needed lo hi bom) b
  = if seen + 1 =? needed
    then (Utf8.idle bom, [cp * 64 + b mod 64])
    else (Utf8.mkDecoder (cp * 64 + b mod 64) (seen + 1) needed 0x80 0xBF bom,
          []).
Proof.
  intros Hn Hb. unfold Utf8.handler.
  cbn [Utf8.bytesNeeded Utf8.lowerBoundary Utf8.upperBoundary Utf8.codePoint
       Utf8.bytesSeen Utf8.bomSeen Utf8.reset].
  destruct (N.eqb_spec needed 0); [contradiction|].
  destruct (N.leb_spec lo b); [|lia].
  destruct (N.leb_spec b hi); [|lia].
  cbn [andb negb]. now rewrite lor_shift.
Qed.

Lemma decode_cons (d : Utf8.Decoder) (b : N) (value : list N)
      (cp seen needed lo hi : N) (bom : bool) (cps : list N) :
  Utf8.handler d b = (Utf8.mkDecoder cp seen needed lo hi bom, cps) ->
  Utf8.decode d (b :: value)
  = (fst (Utf8.decode
            (Utf8.mkDecoder cp seen needed lo hi (fst (Utf8.emit bom cps)))
            value),
     snd (Utf8.emit bom cps)
     ++ snd (Utf8.decode
               (Utf8.mkDecoder cp seen needed lo hi (fst (Utf8.emit bom cps)))
               value)).
Proof.
  intros H. cbn [Utf8.decode]. rewrite H.
  cbn [Utf8.bomSeen Utf8.codePoint Utf8.bytesSeen Utf8.bytesNeeded
       Utf8.lowerBoundary Utf8.upperBoundary].
  destruct (Utf8.emit bom cps) as [seen' s]. cbn [fst snd].
  destruct (Utf8.decode _ value) as [d2 s']. reflexivity.
Qed.

Lemma handler_idle (bom : bool) (b : N) :
  Utf8.handler (Utf8.idle bom) b = Utf8.lead (Utf8.idle bom) b.
Proof. reflexivity. Qed.

Lemma decode_ascii (bom : bool) (b : N) (value : list N) :
  b < 0x80 ->
  Utf8.decode (Utf8.idle bom) (b :: value)
  = (fst (Utf8.decode (Utf8.idle true) value),
     (if negb bom && (b =? Utf8.BOM) then [] else Utf8.unitsOf b)
     ++ snd (Utf8.decode (Utf8.idle true) value)).
Proof.
  intros H.
  rewrite (@decode_cons (Utf8.idle bom) b value 0 0 0 0x80 0xBF bom [b])
    by (rewrite handler_idle; now apply lead_ascii).
  cbn [Utf8.emit fst snd]. now rewrite app_nil_r.
Qed.

(** The first byte of a sequence says nothing yet. *)
Lemma decode_lead (bom : bool) (b : N) (value : list N)
      (cp needed lo hi : N) :
  Utf8.lead (Utf8.idle bom) b
  = (Utf8.mkDecoder cp 0 needed lo hi bom, []) ->
  Utf8.decode (Utf8.idle bom) (b :: value)
  = Utf8.decode (Utf8.mkDecoder cp 0 needed lo hi bom) value.
Proof.
  intros H.
  rewrite (@decode_cons (Utf8.idle bom) b value cp 0 needed lo hi bom [])
    by (rewrite handler_idle; exact H).
  cbn [Utf8.emit fst snd app]. now destruct (Utf8.decode _ value).
Qed.

(** A byte in the middle of a sequence. *)
Lemma decode_middle (cp seen needed lo hi : N) (bom : bool) (b : N)
      (value : list N) :
  needed <> 0 -> lo <= b <= hi -> seen + 1 <> needed ->
  Utf8.decode (Utf8.mkDecoder cp seen needed lo hi bom) (b :: value)
  = Utf8.decode
      (Utf8.mkDecoder (cp * 64 + b mod 64) (seen + 1) needed 0x80 0xBF bom)
      value.
Proof.
  intros Hn Hb Hs.
  rewrite (@decode_cons _ b value (cp * 64 + b mod 64) (seen + 1) needed
                        0x80 0xBF bom []).
  - cbn [Utf8.emit fst snd app]. now destruct (Utf8.decode _ value).
  - rewrite handler_continue by assumption.
    destruct (N.eqb_spec (seen + 1) needed); [contradiction | reflexivity].
Qed.

(** The last byte of a sequence gives its code point. *)
Lemma decode_last (cp seen needed lo hi : N) (bom : bool) (b : N)
      (value : list N) :
  needed <> 0 -> lo <= b <= hi -> seen + 1 = needed ->
  Utf8.decode (Utf8.mkDecoder cp seen needed lo hi bom) (b :: value)
  = (fst (Utf8.decode (Utf8.idle true) value),
     (if negb bom && (cp * 64 + b mod 64 =? Utf8.BOM) then []
      else Utf8.unitsOf (cp * 64 + b mod 64))
     ++ snd (Utf8.decode (Utf8.idle true) value)).
Proof.
  intros Hn Hb Hs.
  rewrite (@decode_cons _ b value 0 0 0 0x80 0xBF bom [cp * 64 + b mod 64]).
  - cbn [Utf8.emit fst snd]. now rewrite app_nil_r.
  - rewrite handler_continue by assumption.
    destruct (N.eqb_spec (seen + 1) needed); [reflexivity | contradiction].
Qed.

(** The decoder reads the bytes of a code point that is no surrogate as
    that code point, and is then as before. *)
Lemma decode_codePoint (bom : bool) (cp : N) (value : list N) :
  cp < 0x110000 -> Utf8.isSurrogate cp = false ->
  Utf8.decode (Utf8.idle bom) (Utf8.encodeCodePoint cp ++ value)
  = (fst (Utf8.decode (Utf8.idle true) value),
     (if negb bom && (cp =? Utf8.BOM) then [] else Utf8.unitsOf cp)
     ++ snd (Utf8.decode (Utf8.idle true) value)).
Proof.
  intros Hmax Hs. unfold Utf8.isSurrogate in Hs.
  assert (Hns : cp < 0xD800 \/ 0xDFFF < cp).
  { destruct (N.leb_spec 0xD800 cp); [|now left].
    destruct (N.leb_spec cp 0xDFFF); [discriminate | now right]. }
  clear Hs. unfold Utf8.encodeCodePoint.
  destruct (N.ltb_spec cp 0x80) as [H1 | H1].
  { cbn [app]. now apply decode_ascii. }
  destruct (N.ltb_spec cp 0x800) as [H2 | H2].
  { cbn [app].
    rewrite (@decode_lead bom _ _ ((0xC0 + cp / 0x40) mod 32) 1 0x80 0xBF)
      by (rewrite lead_two by nlia; reflexivity).
    rewrite decode_last by nlia.
    replace ((0xC0 + cp / 0x40) mod 32 * 64 + (0x80 + cp mod 0x40) mod 64)
      with cp by nlia.
    reflexivity. }
  destruct (N.ltb_spec cp 0x10000) as [H3 | H3].
  { cbn [app].
    rewrite (@decode_lead bom _ _ ((0xE0 + cp / 0x1000) mod 16) 2
               (if 0xE0 + cp / 0x1000 =? 0xE0 then 0xA0 else 0x80)
               (if 0xE0 + cp / 0x1000 =? 0xED then 0x9F else 0xBF))
      by (rewrite lead_three by nlia; reflexivity).
    rewrite decode_middle;
      [ | lia
        | destruct (N.eqb_spec (0xE0 + cp / 0x1000) 0xE0);
          destruct (N.eqb_spec (0xE0 + cp / 0x1000) 0xED); nlia
        | lia ].
    rewrite decode_last by nlia.
    replace (((0xE0 + cp / 0x1000) mod 16 * 64
              + (0x80 + (cp / 0x40) mod 0x40) mod 64) * 64
             + (0x80 + cp mod 0x40) mod 64)
      with cp by nlia.
    reflexivity. }
  cbn [app].
  rewrite (@decode_lead bom _ _ ((0xF0 + cp / 0x40000) mod 8) 3
             (if 0xF0 + cp / 0x40000 =? 0xF0 then 0x90 else 0x80)
             (if 0xF0 + cp / 0x40000 =? 0xF4 then 0x8F else 0xBF))
    by (rewrite lead_four by nlia; reflexivity).
  rewrite decode_middle;
    [ | lia
      | destruct (N.eqb_spec (0xF0 + cp / 0x40000) 0xF0);
        destruct (N.eqb_spec (0xF0 + cp / 0x40000) 0xF4); nlia
      | lia ].
  rewrite decode_middle by nlia.
  rewrite decode_last by nlia.
  replace ((((0xF0 + cp / 0x40000) mod 8 * 64
             + (0x80 + (cp / 0x1000) mod 0x40) mod 64) * 64
            + (0x80 + (cp / 0x40) mod 0x40) mod 64) * 64
           + (0x80 + cp mod 0x40) mod 64)
    with cp by nlia.
  reflexivity.
Qed.

(** Induction on a list, with the tail of the tail at hand. *)
Lemma list_ind2 (A : Type) (P : list A -> Prop) :
  P [] ->
  (forall a l, P l -> (forall b l', l = b :: l' -> P l') -> P (a :: l)) ->
  forall l, P l.
Proof.
  intros H0 Hs l.
  enough (H : P l /\ forall b l', l = b :: l' -> P l') by exact (proj1 H).
  induction l as [|a l [IH1 IH2]].
  - split; [exact H0 | discriminate].
  - split; [now apply Hs | intros b l' E; now injection E as _ <-].
Qed.

Lemma surrogate_cases (c : N) :
  Utf8.isSurrogate c = Utf8.isHighSurrogate c || Utf8.isLowSurrogate c.
Proof.
  unfold Utf8.isSurrogate, Utf8.isHighSurrogate, Utf8.isLowSurrogate.
  destruct (N.leb_spec 0xD800 c), (N.leb_spec c 0xDBFF),
    (N.leb_spec 0xDC00 c), (N.leb_spec c 0xDFFF);
    cbn [andb orb]; try reflexivity; lia.
Qed.

Lemma high_range (c : N) :
  Utf8.isHighSurrogate c = true -> 0xD800 <= c <= 0xDBFF.
Proof.
  unfold Utf8.isHighSurrogate. intros H.
  apply andb_true_iff in H as [H1 H2].
  apply N.leb_le in H1, H2. lia.
Qed.

Lemma low_range (c : N) :
  Utf8.isLowSurrogate c = true -> 0xDC00 <= c <= 0xDFFF.
Proof.
  unfold Utf8.isLowSurrogate. intros H.
  apply andb_true_iff in H as [H1 H2].
  apply N.leb_le in H1, H2. lia.
Qed.

Lemma unitsOf_pair (c d : N) :
  Utf8.isHighSurrogate c = true -> Utf8.isLowSurrogate d = true ->
  Utf8.unitsOf (Utf8.pairValue c d) = [c; d]
  /\ Utf8.pairValue c d < 0x110000
  /\ Utf8.isSurrogate (Utf8.pairValue c d) = false
  /\ (Utf8.pairValue c d =? Utf8.BOM) = false.
Proof.
  intros Hc Hd. apply high_range in Hc. apply low_range in Hd.
  unfold Utf8.unitsOf, Utf8.pairValue, Utf8.isSurrogate, Utf8.BOM.
  split; [|split; [|split]].
  - destruct (N.ltb_spec (0x10000 + (c - 0xD800) * 0x400 + (d - 0xDC00))
                         0x10000); [lia|].
    f_equal; [nlia | f_equal; nlia].
  - lia.
  - destruct (N.leb_spec
                0xD800 (0x10000 + (c - 0xD800) * 0x400 + (d - 0xDC00)));
      [|reflexivity].
    destruct (N.leb_spec
                (0x10000 + (c - 0xD800) * 0x400 + (d - 0xDC00)) 0xDFFF);
      [lia | reflexivity].
  - apply N.eqb_neq. lia.
Qed.

(** The replacement character as the decoder gives it. *)
Lemma decode_replacement (bom : bool) (value : list N) :
  Utf8.decode (Utf8.idle bom)
              (Utf8.encodeCodePoint Utf8.REPLACEMENT ++ value)
  = (fst (Utf8.decode (Utf8.idle true) value),
     Utf8.REPLACEMENT :: snd (Utf8.decode (Utf8.idle true) value)).
Proof.
  rewrite decode_codePoint by (reflexivity || (unfold Utf8.REPLACEMENT; lia)).
  change (Utf8.REPLACEMENT =? Utf8.BOM) with false.
  rewrite andb_false_r. reflexivity.
Qed.

Lemma dropBOM_seen (s : str) : dropBOM true s = s.
Proof. now destruct s. Qed.

(** What the decoder reads from the bytes of a string: the string made
    well-formed, without a byte order mark at the start of the
    stream. *)
Lemma decode_encode (s : str) :
  codeUnits s = true ->
  forall (bom : bool) (value : list N),
    Utf8.decode (Utf8.idle bom) (Utf8.encode s ++ value)
    = (fst (Utf8.decode
              (Utf8.idle (match s with [] => bom | _ => true end)) value),
       dropBOM bom (toWellFormed s)
       ++ snd (Utf8.decode
                 (Utf8.idle (match s with [] => bom | _ => true end))
                 value)).
Proof.
  induction s as [|c rest IH IH'] using list_ind2; intros Hu bom value.
  - cbn [Utf8.encode toWellFormed dropBOM app].
    now destruct (Utf8.decode (Utf8.idle bom) value).
  - unfold codeUnits in Hu. cbn [forallb] in Hu.
    apply andb_true_iff in Hu as [Hc Hrest]. apply N.ltb_lt in Hc.
    fold (codeUnits rest) in Hrest.
    cbn [Utf8.encode toWellFormed].
    destruct (Utf8.isHighSurrogate c) eqn:Hh.
    + assert (Hnb : (c =? Utf8.BOM) = false)
        by (apply high_range in Hh; apply N.eqb_neq;
            unfold Utf8.BOM; lia).
      destruct rest as [|d rest'].
      * rewrite decode_replacement. cbn [dropBOM].
        change (Utf8.REPLACEMENT =? Utf8.BOM) with false.
        now rewrite andb_false_r.
      * destruct (Utf8.isLowSurrogate d) eqn:Hl.
        -- destruct (@unitsOf_pair c d Hh Hl) as (Hp & Hm & Hs & Hb).
           rewrite <- app_assoc, decode_codePoint by assumption.
           rewrite Hb, andb_false_r, Hp.
           assert (Hu' : codeUnits rest' = true).
           { unfold codeUnits in Hrest. cbn [forallb] in Hrest.
             now apply andb_true_iff in Hrest as [_ Hr]. }
           rewrite (IH' d rest' eq_refl Hu' true value).
           cbn [dropBOM negb andb fst snd app]. rewrite Hnb, andb_false_r.
           rewrite dropBOM_seen. now destruct rest'.
        -- rewrite <- app_assoc, decode_replacement.
           rewrite (IH Hrest true value), dropBOM_seen.
           cbn [dropBOM negb andb fst snd app].
           change (Utf8.REPLACEMENT =? Utf8.BOM) with false.
           now rewrite andb_false_r.
    + destruct (Utf8.isLowSurrogate c) eqn:Hl.
      * rewrite <- app_assoc, decode_replacement.
        rewrite (IH Hrest true value), dropBOM_seen.
        cbn [dropBOM negb andb fst snd app].
        change (Utf8.REPLACEMENT =? Utf8.BOM) with false.
        rewrite andb_false_r. now destruct rest.
      * assert (Hs : Utf8.isSurrogate c = false)
          by (now rewrite surrogate_cases, Hh, Hl).
        rewrite <- app_assoc, decode_codePoint by (assumption || lia).
        rewrite (IH Hrest true value), dropBOM_seen.
        cbn [dropBOM negb andb fst snd app].
        unfold Utf8.unitsOf.
        destruct (N.ltb_spec c 0x10000); [|lia].
        destruct (negb bom && (c =? Utf8.BOM)); now destruct rest.
Qed.

(** ** Strings made well-formed *)

Lemma not_surrogate (c : char) :
  Utf8.isHighSurrogate c = false -> Utf8.isLowSurrogate c = false ->
  Utf8.isSurrogate c = false.
Proof. intros Hh Hl. now rewrite surrogate_cases, Hh, Hl. Qed.

Lemma surrogate_split (c : char) :
  Utf8.isSurrogate c = false ->
  Utf8.isHighSurrogate c = false /\ Utf8.isLowSurrogate c = false.
Proof.
  rewrite surrogate_cases. intros H. now apply orb_false_iff in H.
Qed.

Lemma high_not_low (c : char) :
  Utf8.isHighSurrogate c = true -> Utf8.isLowSurrogate c = false.
Proof.
  intros H. apply high_range in H. unfold Utf8.isLowSurrogate.
  destruct (N.leb_spec 0xDC00 c); [lia | reflexivity].
Qed.

Lemma toWellFormed_plain (c : char) (s : str) :
  Utf8.isSurrogate c = false -> toWellFormed (c :: s) = c :: toWellFormed s.
Proof.
  intros H. destruct (surrogate_split c H) as [Hh Hl].
  cbn [toWellFormed]. now rewrite Hh, Hl.
Qed.

Lemma encode_plain (c : char) (s : str) :
  Utf8.isSurrogate c = false ->
  Utf8.encode (c :: s) = Utf8.encodeCodePoint c ++ Utf8.encode s.
Proof.
  intros H. destruct (surrogate_split c H) as [Hh Hl].
  cbn [Utf8.encode]. now rewrite Hh, Hl.
Qed.

Lemma toWellFormed_lone (c : char) (rest : str) :
  lone c rest ->
  toWellFormed (c :: rest) = Utf8.REPLACEMENT :: toWellFormed rest
  /\ Utf8.encode (c :: rest)
     = Utf8.encodeCodePoint Utf8.REPLACEMENT ++ Utf8.encode rest.
Proof.
  intros [Hs H]. rewrite surrogate_cases in Hs.
  cbn [toWellFormed Utf8.encode].
  destruct (Utf8.isHighSurrogate c) eqn:Hh.
  - destruct H as [H | H]; [discriminate|].
    destruct rest as [|d rest'].
    + cbn [toWellFormed Utf8.encode]. now rewrite app_nil_r.
    + now rewrite H.
  - cbn [orb] in Hs. now rewrite Hs.
Qed.

(** The shape of a string made well-formed, by the cases of its first
    code unit: a pair, a lone surrogate, or another code unit. *)
Lemma toWellFormed_cases (c : char) (rest : str) :
  (exists d rest', rest = d :: rest'
     /\ Utf8.isHighSurrogate c = true /\ Utf8.isLowSurrogate d = true
     /\ toWellFormed (c :: rest) = c :: d :: toWellFormed rest'
     /\ Utf8.encode (c :: rest)
        = Utf8.encodeCodePoint (Utf8.pairValue c d) ++ Utf8.encode rest')
  \/ (lone c rest
      /\ toWellFormed (c :: rest) = Utf8.REPLACEMENT :: toWellFormed rest
      /\ Utf8.encode (c :: rest)
         = Utf8.encodeCodePoint Utf8.REPLACEMENT ++ Utf8.encode rest)
  \/ (Utf8.isSurrogate c = false
      /\ toWellFormed (c :: rest) = c :: toWellFormed rest
      /\ Utf8.encode (c :: rest)
         = Utf8.encodeCodePoint c ++ Utf8.encode rest).
Proof.
  destruct (Utf8.isHighSurrogate c) eqn:Hh.
  - assert (Hs : Utf8.isSurrogate c = true)
      by (now rewrite surrogate_cases, Hh).
    destruct rest as [|d rest'].
    + right; left.
      assert (L : lone c []) by (split; [exact Hs | now right]).
      split; [exact L | now apply toWellFormed_lone].
    + destruct (Utf8.isLowSurrogate d) eqn:Hl.
      * left. exists d, rest'. cbn [toWellFormed Utf8.encode].
        rewrite Hh, Hl. repeat split.
      * right; left.
        assert (L : lone c (d :: rest')) by (split; [exact Hs | now right]).
        split; [exact L | now apply toWellFormed_lone].
  - destruct (Utf8.isLowSurrogate c) eqn:Hl.
    + right; left.
      assert (L : lone c rest).
      { split; [|now left]. rewrite surrogate_cases, Hl. apply orb_true_r. }
      split; [exact L | now apply toWellFormed_lone].
    + right; right.
      assert (Hs : Utf8.isSurrogate c = false) by now apply not_surrogate.
      split; [exact Hs|].
      split; [now apply toWellFormed_plain | now apply encode_plain].
Qed.

Lemma replacement_plain : Utf8.isSurrogate Utf8.REPLACEMENT = false.
Proof. reflexivity. Qed.

Lemma toWellFormed_nonempty (c : char) (s : str) :
  exists y l, toWellFormed (c :: s) = y :: l.
Proof.
  destruct (toWellFormed_cases c s)
    as [(d & r & _ & _ & _ & E & _) | [(_ & E & _) | (_ & E & _)]];
    rewrite E; eauto.
Qed.

(** Making well-formed twice changes nothing more. *)
Lemma toWellFormed_idem (s : str) :
  toWellFormed (toWellFormed s) = toWellFormed s.
Proof.
  induction s as [|c rest IH IH'] using list_ind2; [reflexivity|].
  destruct (toWellFormed_cases c rest)
    as [(d & r & Er & Hh & Hl & E & _) | [(_ & E & _) | (Hs & E & _)]].
  all: rewrite E.
  - cbn [toWellFormed]. rewrite Hh, Hl. now rewrite (IH' d r Er).
  - now rewrite toWellFormed_plain, IH by exact replacement_plain.
  - now rewrite toWellFormed_plain, IH by exact Hs.
Qed.

(** The bytes do not tell a string from the string made well-formed. *)
Lemma encode_toWellFormed (s : str) :
  Utf8.encode (toWellFormed s) = Utf8.encode s.
Proof.
  induction s as [|c rest IH IH'] using list_ind2; [reflexivity|].
  destruct (toWellFormed_cases c rest)
    as [(d & r & Er & Hh & Hl & E & E')
       | [(_ & E & E') | (Hs & E & E')]];
    rewrite E, E'.
  - cbn [Utf8.encode]. rewrite Hh, Hl. now rewrite (IH' d r Er).
  - now rewrite encode_plain, IH by exact replacement_plain.
  - now rewrite encode_plain, IH by exact Hs.
Qed.

(** After a well-formed string, the rest is read on its own. *)
Lemma wellFormed_app (a b : str) :
  toWellFormed a = a ->
  toWellFormed (a ++ b) = a ++ toWellFormed b
  /\ Utf8.encode (a ++ b) = Utf8.encode a ++ Utf8.encode b.
Proof.
  induction a as [|c rest IH IH'] using list_ind2; intros Ha.
  - now split.
  - destruct (toWellFormed_cases c rest)
      as [(d & r & -> & Hh & Hl & E & E')
         | [(Hs & E & _) | (Hs & E & E')]].
    + rewrite E in Ha. injection Ha as Ha.
      destruct (IH' d r eq_refl Ha) as [I1 I2].
      rewrite E'. cbn [app toWellFormed Utf8.encode]. rewrite Hh, Hl.
      rewrite I1, I2. now rewrite app_assoc.
    + exfalso. rewrite E in Ha. injection Ha as Hc _.
      destruct Hs as [Hs _]. rewrite <- Hc in Hs. discriminate.
    + rewrite E in Ha. injection Ha as Ha.
      destruct (IH Ha) as [I1 I2]. rewrite E'.
      cbn [app]. rewrite toWellFormed_plain, encode_plain by exact Hs.
      rewrite I1, I2. now rewrite app_assoc.
Qed.

Lemma toWellFormed_ascii (a b : str) :
  forallb (fun c => c <? 0x80) a = true ->
  toWellFormed (a ++ b) = a ++ toWellFormed b.
Proof.
  induction a as [|c a IH]; intros H; [reflexivity|].
  cbn [forallb] in H. apply andb_true_iff in H as [Hc Ha].
  apply N.ltb_lt in Hc. cbn [app].
  rewrite toWellFormed_plain, IH by
      (assumption
       || (unfold Utf8.isSurrogate;
           destruct (N.leb_spec 0xD800 c); [lia | reflexivity])).
  reflexivity.
Qed.

(** Escaping and making well-formed do not disturb each other. *)
Lemma escapeChar_plain (c : char) :
  Utf8.isSurrogate c = false ->
  forall b, toWellFormed (escapeChar c ++ b) = escapeChar c ++ toWellFormed b.
Proof.
  intros Hs b. unfold escapeChar.
  repeat match goal with
         | |- context [N.eqb c ?k] =>
             let E := fresh "E" in destruct (N.eqb c k) eqn:E
         end;
    cbn [app];
    rewrite ?toWellFormed_plain by (reflexivity || exact Hs); reflexivity.
Qed.

Lemma escapeChar_surrogate (c : char) :
  Utf8.isSurrogate c = true -> escapeChar c = [c].
Proof.
  intros Hs. unfold Utf8.isSurrogate in Hs.
  apply andb_true_iff in Hs as [H1 H2]. apply N.leb_le in H1, H2.
  unfold escapeChar.
  repeat match goal with
         | |- context [N.eqb c ?k] =>
             destruct (N.eqb_spec c k);
             [unfold BACKSLASH, QUOTE in *; lia|]
         end.
  reflexivity.
Qed.

Lemma escapeChar_head (d : char) (b : str) :
  Utf8.isLowSurrogate d = false ->
  exists y l, escapeChar d ++ b = y :: l /\ Utf8.isLowSurrogate y = false.
Proof.
  intros Hl. unfold escapeChar.
  repeat match goal with
         | |- context [N.eqb d ?k] =>
             let E := fresh "E" in destruct (N.eqb d k) eqn:E
         end;
    cbn [app]; eexists; eexists; (split; [reflexivity|]);
    try reflexivity; exact Hl.
Qed.

Lemma lone_escape (c : char) (rest : str) :
  lone c rest -> lone c (flat_map escapeChar rest).
Proof.
  intros [Hs H]. split; [exact Hs|].
  destruct H as [H | H]; [now left | right].
  destruct rest as [|d r]; [exact I|].
  cbn [flat_map].
  destruct (@escapeChar_head d (flat_map escapeChar r) H) as (y & l & -> & Hy).
  exact Hy.
Qed.

Lemma toWellFormed_escape (s : str) :
  toWellFormed (flat_map escapeChar s)
  = flat_map escapeChar (toWellFormed s).
Proof.
  induction s as [|c rest IH IH'] using list_ind2; [reflexivity|].
  destruct (toWellFormed_cases c rest)
    as [(d & r & Er & Hh & Hl & E & _) | [(L & E & _) | (Hs & E & _)]];
    rewrite E.
  - assert (Hc : Utf8.isSurrogate c = true)
      by (now rewrite surrogate_cases, Hh).
    assert (Hd : Utf8.isSurrogate d = true)
      by (rewrite surrogate_cases, Hl; apply orb_true_r).
    subst rest. cbn [flat_map].
    rewrite !(escapeChar_surrogate _ Hc), !(escapeChar_surrogate _ Hd).
    cbn [app toWellFormed]. rewrite Hh, Hl.
    now rewrite (IH' d r eq_refl).
  - cbn [flat_map]. rewrite (escapeChar_surrogate _ (proj1 L)).
    change (escapeChar Utf8.REPLACEMENT) with [Utf8.REPLACEMENT].
    cbn [app]. rewrite <- IH.
    exact (proj1 (toWellFormed_lone (lone_escape L))).
  - cbn [flat_map]. now rewrite escapeChar_plain, IH by exact Hs.
Qed.

(** ** The text of a body *)

Lemma decode_nil (d : Utf8.Decoder) : Utf8.decode d [] = (d, []).
Proof. reflexivity. Qed.

Lemma decode_app (a b : list N) :
  forall d,
    Utf8.decode d (a ++ b)
    = (fst (Utf8.decode (fst (Utf8.decode d a)) b),
       snd (Utf8.decode d a) ++ snd (Utf8.decode (fst (Utf8.decode d a)) b)).
Proof.
  induction a as [|x a IH]; intros d.
  - cbn [app Utf8.decode fst snd]. now destruct (Utf8.decode d b).
  - cbn [app Utf8.decode].
    destruct (Utf8.handler d x) as [d1 cps].
    destruct (Utf8.emit (Utf8.bomSeen d1) cps) as [seen s].
    rewrite IH. destruct (Utf8.decode _ a) as [d2 s'].
    cbn [fst snd]. now rewrite app_assoc.
Qed.

(** However the bytes are cut, one decoder gives the same text. *)
Lemma decodeStream_concat (values : list (list N)) :
  forall d,
    concat (Utf8.decodeStream d values) = snd (Utf8.decode d (concat values)).
Proof.
  induction values as [|v values IH]; intros d; [reflexivity|].
  cbn [Utf8.decodeStream concat]. rewrite decode_app.
  destruct (Utf8.decode d v) as [d' s]. cbn [concat fst snd].
  now rewrite IH.
Qed.

Lemma dropBOM_app (bom : bool) (c : char) (s b : str) :
  dropBOM bom ((c :: s) ++ b) = dropBOM bom (c :: s) ++ b.
Proof. cbn [app dropBOM]. now destruct (negb bom && (c =? Utf8.BOM)). Qed.

Lemma decode_writes (writes : list str) :
  Forall (fun w => codeUnits w = true) writes ->
  forall bom,
    snd (Utf8.decode (Utf8.idle bom) (concat (map Utf8.encode writes)))
    = dropBOM bom (concat (map toWellFormed writes)).
Proof.
  induction 1 as [|w writes Hw _ IH]; intros bom.
  - now destruct bom.
  - cbn [map concat]. rewrite (decode_encode w Hw). cbn [snd].
    rewrite IH. destruct w as [|c w]; [reflexivity|].
    rewrite dropBOM_seen.
    destruct (toWellFormed_nonempty c w) as (y & l & ->).
    now rewrite dropBOM_app.
Qed.

(** The text read from the bytes of the writes is the writes, each made
    well-formed, without a byte order mark at the start. *)
Lemma bodyText_sent (writes : list str) :
  Forall (fun w => codeUnits w = true) writes ->
  bodyText (sent writes) = written writes.
Proof. intros H. exact (decode_writes H false). Qed.

(** However the bytes of the writes are cut on their way, the chunks of
    the decoder together are the text of the body. *)
Lemma received_written (values : list (list N)) (writes : list str) :
  Forall (fun w => codeUnits w = true) writes ->
  concat values = sent writes ->
  concat (received values) = written writes.
Proof.
  intros Hu H. unfold received.
  rewrite decodeStream_concat, H. now apply bodyText_sent.
Qed.

Lemma codeUnits_app (a b : str) :
  codeUnits (a ++ b) = codeUnits a && codeUnits b.
Proof. apply forallb_app. Qed.

Lemma codeUnits_escape (s : str) :
  codeUnits s = true -> codeUnits (flat_map escapeChar s) = true.
Proof.
  induction s as [|c s IH]; intros H; [reflexivity|].
  unfold codeUnits in H. cbn [forallb] in H.
  apply andb_true_iff in H as [Hc Hs]. cbn [flat_map].
  rewrite codeUnits_app, (IH Hs), andb_true_r.
  unfold escapeChar.
  repeat match goal with
         | |- context [N.eqb c ?k] =>
             let E := fresh "E" in destruct (N.eqb c k) eqn:E
         end;
    try reflexivity.
  unfold codeUnits. cbn [forallb]. now rewrite Hc.
Qed.

Lemma plainChar_replacement : plainChar Utf8.REPLACEMENT = true.
Proof. reflexivity. Qed.

Lemma plain_toWellFormed (s : str) :
  forallb plainChar s = true -> forallb plainChar (toWellFormed s) = true.
Proof.
  induction s as [|c rest IH IH'] using list_ind2; intros H; [reflexivity|].
  cbn [forallb] in H. apply andb_true_iff in H as [Hc Hr].
  destruct (toWellFormed_cases c rest)
    as [(d & r & Er & Hh & Hl & E & _) | [(L & E & _) | (Hs & E & _)]];
    rewrite E.
  - subst rest. cbn [forallb] in Hr. apply andb_true_iff in Hr as [Hd Hr].
    cbn [forallb]. now rewrite Hc, Hd, (IH' d r eq_refl Hr).
  - cbn [forallb]. now rewrite plainChar_replacement, (IH Hr).
  - cbn [forallb]. now rewrite Hc, (IH Hr).
Qed.

Lemma asReceived_wellFormed (fragments : list str) :
  Forall (fun f => toWellFormed f = f) fragments ->
  asReceived fragments = concat fragments.
Proof.
  intros H. unfold asReceived. f_equal.
  induction H as [|f fragments Hf _ IH]; [reflexivity|].
  cbn [map]. now rewrite Hf, IH.
Qed.

Lemma plain_surrogate (c : char) :
  Utf8.isSurrogate c = true -> plainChar c = true.
Proof.
  unfold Utf8.isSurrogate, plainChar. intros H.
  apply andb_true_iff in H as [H _]. apply N.leb_le in H.
  destruct (N.leb_spec 32 c); [reflexivity | lia].
Qed.

(** Making well-formed neither brings in nor takes away a control
    character. *)
Lemma plain_toWellFormed_eq (s : str) :
  forallb plainChar (toWellFormed s) = forallb plainChar s.
Proof.
  induction s as [|c rest IH IH'] using list_ind2; [reflexivity|].
  destruct (toWellFormed_cases c rest)
    as [(d & r & Er & Hh & Hl & E & _) | [(L & E & _) | (Hs & E & _)]];
    rewrite E.
  - subst rest. cbn [forallb]. now rewrite (IH' d r eq_refl).
  - cbn [forallb]. rewrite IH, plainChar_replacement.
    now rewrite (plain_surrogate c (proj1 L)).
  - cbn [forallb]. now rewrite IH.
Qed.

(** Nor does it change the length of the escaped text. *)
Lemma length_escape_toWellFormed (s : str) :
  length (flat_map escapeChar (toWellFormed s))
  = length (flat_map escapeChar s).
Proof.
  induction s as [|c rest IH IH'] using list_ind2; [reflexivity|].
  destruct (toWellFormed_cases c rest)
    as [(d & r & Er & Hh & Hl & E & _) | [(L & E & _) | (Hs & E & _)]];
    rewrite E.
  - subst rest. cbn [flat_map]. rewrite !length_app.
    now rewrite (IH' d r eq_refl).
  - cbn [flat_map]. rewrite !length_app, IH.
    now rewrite (escapeChar_surrogate c (proj1 L)).
  - cbn [flat_map]. now rewrite !length_app, IH.
Qed.

End Utf8Facts.

(* ===================================================================== *)
(** * Facts about the string operations *)
(* ===================================================================== *)

Lemma clamp_of_nat (s : str) (n : nat) :
  clamp s (Z.of_nat n) = Nat.min n (length s).
Proof. unfold clamp, len. lia. Qed.

Lemma clamp_len (s : str) : clamp s (len s) = length s.
Proof. unfold clamp, len. lia. Qed.

Lemma substring_nat (s : str) (a b : nat) :
  a <= b -> b <= length s ->
  substring s (Z.of_nat a) (Z.of_nat b) = firstn (b - a) (skipn a s).
Proof.
  intros Hab Hb. unfold substring. rewrite !clamp_of_nat.
  replace (Nat.min a (length s)) with a by lia.
  replace (Nat.min b (length s)) with b by lia.
  replace (Nat.max a b) with b by lia.
  replace (Nat.min a b) with a by lia. reflexivity.
Qed.

Lemma substringFrom_nat (s : str) (a : nat) :
  substringFrom s (Z.of_nat a) = skipn a s.
Proof.
  unfold substringFrom, substring. rewrite clamp_of_nat, clamp_len.
  destruct (Nat.le_gt_cases a (length s)) as [H|H].
  - replace (Nat.min a (length s)) with a by lia.
    replace (Nat.max a (length s)) with (length s) by lia.
    replace (Nat.min a (length s)) with a by lia.
    rewrite <- (length_skipn a s). apply firstn_all.
  - replace (Nat.min a (length s)) with (length s) by lia.
    rewrite Nat.max_id, Nat.min_id, Nat.sub_diag. simpl.
    symmetry. apply skipn_all2. lia.
Qed.

Lemma len_app (a b : str) : len (a ++ b) = (len a + len b)%Z.
Proof. unfold len. rewrite length_app. lia. Qed.

Lemma len_nonneg (a : str) : (0 <= len a)%Z.
Proof. unfold len. lia. Qed.

(** ** Occurrences of a pattern *)

Lemma startsWith_iff (p s : str) :
  startsWith p s = true <-> exists t, s = p ++ t.
Proof.
  revert s. induction p as [|x p IH]; intros s; simpl.
  - split; [intros _; now exists s | reflexivity].
  - destruct s as [|c s].
    + split; [discriminate | intros [t Ht]; discriminate].
    + rewrite andb_true_iff, N.eqb_eq, IH. split.
      * intros [-> [t ->]]. now exists t.
      * intros [t Ht]. injection Ht as -> ->. split; [reflexivity | now exists t].
Qed.

Lemma startsWith_app (p s t : str) :
  length p <= length s -> startsWith p (s ++ t) = startsWith p s.
Proof.
  revert s. induction p as [|x p IH]; intros s H; simpl; [reflexivity|].
  destruct s as [|c s]; simpl in *; [lia|].
  rewrite IH by lia. reflexivity.
Qed.

Lemma startsWith_short (p s : str) :
  length s < length p -> startsWith p s = false.
Proof.
  revert s. induction p as [|x p IH]; intros s H; simpl in *; [lia|].
  destruct s as [|c s]; [reflexivity|].
  simpl in H. rewrite IH by lia. apply andb_false_r.
Qed.

Lemma indexOf_suffix_some (p s : str) (f i : nat) :
  indexOf_suffix p s f = Some i ->
  f <= i /\ startsWith p (skipn (i - f) s) = true /\
  forall j, f <= j < i -> startsWith p (skipn (j - f) s) = false.
Proof.
  revert f. induction s as [|c s IH]; intros f; simpl.
  - destruct (startsWith p []) eqn:E; [|discriminate].
    intros [= <-]. rewrite Nat.sub_diag. simpl. repeat split; auto. lia.
  - destruct (startsWith p (c :: s)) eqn:E.
    + intros [= <-]. rewrite Nat.sub_diag. simpl. repeat split; auto. lia.
    + intros H. apply IH in H as (Hle & Hocc & Hmin).
      split; [lia|]. split.
      * replace (i - f) with (S (i - S f)) by lia. exact Hocc.
      * intros j Hj. destruct (Nat.eq_dec j f) as [->|Hne].
        -- rewrite Nat.sub_diag. exact E.
        -- replace (j - f) with (S (j - S f)) by lia. simpl. apply Hmin. lia.
Qed.

Lemma indexOf_suffix_none (p s : str) (f : nat) :
  indexOf_suffix p s f = None ->
  forall j, startsWith p (skipn j s) = false.
Proof.
  revert f. induction s as [|c s IH]; intros f; simpl.
  - destruct (startsWith p []) eqn:E; [discriminate|].
    intros _ j. now rewrite skipn_nil.
  - destruct (startsWith p (c :: s)) eqn:E; [discriminate|].
    intros H [|j]; simpl; [exact E | eapply IH; eauto].
Qed.

Lemma indexOf_suffix_first (p s : str) (f i : nat) :
  startsWith p (skipn i s) = true ->
  (forall j, j < i -> startsWith p (skipn j s) = false) ->
  indexOf_suffix p s f = Some (f + i).
Proof.
  revert f i. induction s as [|c s IH]; intros f i Hocc Hmin.
  - rewrite skipn_nil in Hocc. simpl. rewrite Hocc.
    destruct i; [f_equal; lia|]. specialize (Hmin 0 ltac:(lia)).
    simpl in Hmin. congruence.
  - destruct i as [|i].
    + simpl in Hocc. simpl. rewrite Hocc. f_equal; lia.
    + pose proof (Hmin 0 ltac:(lia)) as H0. simpl in H0.
      simpl. rewrite H0.
      rewrite (IH (S f) i).
      * f_equal; lia.
      * exact Hocc.
      * intros j Hj. apply (Hmin (S j)). lia.
Qed.

Lemma indexOf_suffix_absent (p s : str) (f : nat) :
  (forall j, startsWith p (skipn j s) = false) ->
  indexOf_suffix p s f = None.
Proof.
  revert f. induction s as [|c s IH]; intros f H; simpl.
  - specialize (H 0). simpl in H. now rewrite H.
  - pose proof (H 0) as H0. simpl in H0. rewrite H0.
    apply IH. intros j. apply (H (S j)).
Qed.

(** [indexOf] finds the least occurrence at or after [from]. *)
Lemma indexOf_found (s p : str) (from i : nat) :
  from <= i -> from <= length s ->
  occursAt p s i ->
  (forall j, from <= j < i -> ~ occursAt p s j) ->
  indexOf s p (Z.of_nat from) = Z.of_nat i.
Proof.
  intros Hle Hf Hocc Hmin. unfold indexOf. rewrite clamp_of_nat.
  replace (Nat.min from (length s)) with from by lia.
  rewrite (@indexOf_suffix_first p (skipn from s) from (i - from)).
  - f_equal. lia.
  - rewrite skipn_skipn. replace (i - from + from) with i by lia. exact Hocc.
  - intros j Hj. rewrite skipn_skipn.
    specialize (Hmin (j + from) ltac:(lia)). unfold occursAt in Hmin.
    destruct (startsWith p (skipn (j + from) s)); congruence.
Qed.

Lemma indexOf_absent (s p : str) (from : nat) :
  from <= length s ->
  (forall j, from <= j -> ~ occursAt p s j) ->
  indexOf s p (Z.of_nat from) = (-1)%Z.
Proof.
  intros Hf H. unfold indexOf. rewrite clamp_of_nat.
  replace (Nat.min from (length s)) with from by lia.
  rewrite indexOf_suffix_absent; [reflexivity|].
  intros j. rewrite skipn_skipn.
  specialize (H (j + from) ltac:(lia)). unfold occursAt in H.
  destruct (startsWith p (skipn (j + from) s)); congruence.
Qed.

(** The result of [indexOf], read back. *)
Lemma indexOf_spec (s p : str) (from : nat) :
  from <= length s ->
  (indexOf s p (Z.of_nat from) = (-1)%Z /\
   forall j, from <= j -> ~ occursAt p s j)
  \/ (exists i, indexOf s p (Z.of_nat from) = Z.of_nat i /\ from <= i /\
       occursAt p s i /\ forall j, from <= j < i -> ~ occursAt p s j).
Proof.
  intros Hf. unfold indexOf. rewrite clamp_of_nat.
  replace (Nat.min from (length s)) with from by lia.
  destruct (indexOf_suffix p (skipn from s) from) as [i|] eqn:E.
  - right. exists i. apply indexOf_suffix_some in E as (Hle & Hocc & Hmin).
    rewrite skipn_skipn in Hocc.
    replace (i - from + from) with i in Hocc by lia.
    repeat split; auto. intros j Hj. specialize (Hmin j Hj).
    rewrite skipn_skipn in Hmin.
    replace (j - from + from) with j in Hmin by lia.
    unfold occursAt. congruence.
  - left. split; [reflexivity|]. intros j Hj.
    pose proof (indexOf_suffix_none _ _ _ E (j - from)) as H.
    rewrite skipn_skipn in H. replace (j - from + from) with j in H by lia.
    unfold occursAt. congruence.
Qed.

(** An occurrence in a prefix is an occurrence of the whole that fits in
    the prefix. *)
Lemma occursAt_prefix (p b t : str) (i : nat) :
  p <> [] ->
  occursAt p b i <-> occursAt p (b ++ t) i /\ i + length p <= length b.
Proof.
  intros Hp. unfold occursAt.
  destruct (Nat.le_gt_cases (i + length p) (length b)) as [H|H].
  - rewrite skipn_app. replace (i - length b) with 0 by lia. simpl.
    rewrite startsWith_app by (rewrite length_skipn; lia).
    tauto.
  - split; [|intros [_ ?]; lia].
    rewrite startsWith_short; [discriminate|].
    rewrite length_skipn. destruct p; [congruence|]. simpl in *. lia.
Qed.

(* ===================================================================== *)
(** * The value scan *)
(* ===================================================================== *)

Lemma nth_error_app_pre (A : Type) (p v : list A) (i : nat) :
  nth_error (p ++ v) (length p + i) = nth_error v i.
Proof.
  rewrite nth_error_app2 by lia. f_equal. lia.
Qed.

Lemma firstn_snoc (A : Type) (v : list A) (i : nat) (c : A) :
  nth_error v i = Some c -> firstn (S i) v = firstn i v ++ [c].
Proof.
  revert i. induction v as [|x v IH]; intros [|i] H; simpl in *;
    try discriminate.
  - now injection H as ->.
  - f_equal. now apply IH.
Qed.

Lemma skipn_cons_nth (A : Type) (v : list A) (i : nat) (c : A) :
  nth_error v i = Some c -> skipn i v = c :: skipn (S i) v.
Proof.
  revert i. induction v as [|x v IH]; intros [|i] H; simpl in *;
    try discriminate.
  - now injection H as ->.
  - now apply IH.
Qed.

Lemma backslashCount_below (buf : str) (start k : nat) :
  k <= start -> backslashCount buf start k = 0.
Proof.
  destruct k as [|k]; intros H; [reflexivity|].
  cbn [backslashCount].
  destruct (Nat.leb_spec start k); [lia | reflexivity].
Qed.

(** The source's count, which stops at the start of the value, is the
    number of consecutive backslashes before the position within the
    value text. *)
Lemma backslashCount_value (pre v : str) (i : nat) :
  i <= length v ->
  backslashCount (pre ++ v) (length pre) (length pre + i)
  = backslashesBefore v i.
Proof.
  unfold backslashesBefore.
  induction i as [|i IH]; intros H.
  - rewrite Nat.add_0_r. now rewrite backslashCount_below by lia.
  - rewrite Nat.add_succ_r. cbn [backslashCount].
    rewrite nth_error_app_pre.
    destruct (Nat.leb_spec (length pre) (length pre + i)); [|lia].
    destruct (nth_error v i) as [c|] eqn:E.
    2:{ apply nth_error_None in E. lia. }
    rewrite (firstn_snoc _ _ E), rev_app_distr. simpl.
    rewrite IH by lia. reflexivity.
Qed.

Lemma backslashesBefore_prefix (v w : str) (i : nat) :
  i <= length v -> backslashesBefore (v ++ w) i = backslashesBefore v i.
Proof.
  intros H. unfold backslashesBefore. rewrite firstn_app.
  replace (i - length v) with 0 by lia. simpl. now rewrite app_nil_r.
Qed.

Lemma unescapedQuoteAt_prefix (v w : str) (i : nat) :
  i < length v -> unescapedQuoteAt (v ++ w) i <-> unescapedQuoteAt v i.
Proof.
  intros H. unfold unescapedQuoteAt.
  rewrite nth_error_app1 by lia.
  rewrite backslashesBefore_prefix by lia. tauto.
Qed.

Lemma unescapedQuoteAt_lt (v : str) (i : nat) :
  unescapedQuoteAt v i -> i < length v.
Proof.
  intros [H _]. apply nth_error_Some. congruence.
Qed.

(** The loop, from position [k] of the value text on. *)
Lemma searchEndQuote_found (pre v : str) (k q : nat) :
  k <= length v ->
  searchEndQuote (pre ++ v) (length pre) (skipn k v) (length pre + k)
  = (true, q) ->
  exists i, q = length pre + i /\ k <= i /\ unescapedQuoteAt v i /\
            forall j, k <= j < i -> ~ unescapedQuoteAt v j.
Proof.
  remember (length v - k) as n eqn:En. revert k En.
  induction n as [|n IH]; intros k En Hk.
  - rewrite skipn_all2 by lia. simpl. discriminate.
  - destruct (nth_error v k) as [c|] eqn:E.
    2:{ apply nth_error_None in E. lia. }
    rewrite (skipn_cons_nth _ _ E). cbn [searchEndQuote].
    rewrite backslashCount_value by lia.
    destruct (N.eqb c QUOTE && Nat.even (backslashesBefore v k)) eqn:T.
    + intros [= <-]. exists k. apply andb_true_iff in T as [T1 T2].
      apply N.eqb_eq in T1. subst c.
      split; [reflexivity|]. split; [lia|]. split; [split; assumption|].
      intros j Hj. lia.
    + rewrite <- Nat.add_succ_r. intros H.
      destruct (IH (S k) ltac:(lia) ltac:(lia) H) as (i & -> & Hi & Hq & Hmin).
      exists i. split; [reflexivity|]. split; [lia|]. split; [exact Hq|].
      intros j Hj. destruct (Nat.eq_dec j k) as [->|Hne].
      * intros [Q1 Q2]. rewrite E in Q1. injection Q1 as ->.
        rewrite Q2 in T. now rewrite N.eqb_refl in T.
      * apply Hmin. lia.
Qed.

Lemma searchEndQuote_not_found (pre v : str) (k q : nat) :
  k <= length v ->
  searchEndQuote (pre ++ v) (length pre) (skipn k v) (length pre + k)
  = (false, q) ->
  q = length pre + length v /\ forall j, k <= j -> ~ unescapedQuoteAt v j.
Proof.
  remember (length v - k) as n eqn:En. revert k En.
  induction n as [|n IH]; intros k En Hk.
  - rewrite skipn_all2 by lia. simpl. intros [= <-].
    split; [lia|]. intros j Hj Hq. apply unescapedQuoteAt_lt in Hq. lia.
  - destruct (nth_error v k) as [c|] eqn:E.
    2:{ apply nth_error_None in E. lia. }
    rewrite (skipn_cons_nth _ _ E). cbn [searchEndQuote].
    rewrite backslashCount_value by lia.
    destruct (N.eqb c QUOTE && Nat.even (backslashesBefore v k)) eqn:T;
      [discriminate|].
    rewrite <- Nat.add_succ_r. intros H.
    destruct (IH (S k) ltac:(lia) ltac:(lia) H) as (-> & Hmin).
    split; [reflexivity|].
    intros j Hj. destruct (Nat.eq_dec j k) as [->|Hne].
    + intros [Q1 Q2]. rewrite E in Q1. injection Q1 as ->.
      rewrite Q2 in T. now rewrite N.eqb_refl in T.
    + apply Hmin. lia.
Qed.

(** The specification of the value scan: the least position of the value
    text holding an unescaped quote, if there is one. *)
Lemma valueScan_spec (pre v : str) :
  (exists i, valueScan (pre ++ v) (length pre) = (true, length pre + i) /\
             unescapedQuoteAt v i /\
             forall j, j < i -> ~ unescapedQuoteAt v j)
  \/ (valueScan (pre ++ v) (length pre) = (false, length pre + length v) /\
      forall j, ~ unescapedQuoteAt v j).
Proof.
  unfold valueScan.
  rewrite skipn_app, skipn_all, Nat.sub_diag. simpl.
  destruct (searchEndQuote (pre ++ v) (length pre) v (length pre))
    as [[|] q] eqn:E.
  - left. pose proof (@searchEndQuote_found pre v 0 q) as H.
    simpl in H. rewrite Nat.add_0_r in H.
    destruct (H ltac:(lia) E) as (i & -> & _ & Hq & Hmin).
    exists i. split; [reflexivity|]. split; [exact Hq|].
    intros j Hj. apply Hmin. lia.
  - right. pose proof (@searchEndQuote_not_found pre v 0 q) as H.
    simpl in H. rewrite Nat.add_0_r in H.
    destruct (H ltac:(lia) E) as (-> & Hmin).
    split; [reflexivity|]. intros j. apply Hmin. lia.
Qed.

Lemma valueScan_found_iff (pre v : str) (i : nat) :
  valueScan (pre ++ v) (length pre) = (true, length pre + i)
  <-> unescapedQuoteAt v i /\ forall j, j < i -> ~ unescapedQuoteAt v j.
Proof.
  destruct (valueScan_spec pre v) as [(i' & E & Hq & Hmin) | (E & Hno)].
  - rewrite E. split.
    + intros [= H]. assert (i' = i) by lia. subst i'. auto.
    + intros [Hq' Hmin'].
      destruct (Nat.lt_trichotomy i i') as [H|[H|H]].
      * exfalso. apply (Hmin i H Hq').
      * now subst.
      * exfalso. apply (Hmin' i' H Hq).
  - rewrite E. split; [discriminate|]. intros [Hq _]. exfalso. apply (Hno i Hq).
Qed.

Lemma valueScan_none_iff (pre v : str) :
  fst (valueScan (pre ++ v) (length pre)) = false
  <-> forall j, ~ unescapedQuoteAt v j.
Proof.
  destruct (valueScan_spec pre v) as [(i' & E & Hq & Hmin) | (E & Hno)];
    rewrite E; simpl.
  - split; [discriminate|]. intros H. exfalso. apply (H i' Hq).
  - tauto.
Qed.

Lemma valueScan_none (pre v : str) :
  (forall j, ~ unescapedQuoteAt v j) ->
  valueScan (pre ++ v) (length pre) = (false, length pre + length v).
Proof.
  intros H.
  destruct (valueScan_spec pre v) as [(i' & E & Hq & Hmin) | (E & Hno)];
    [exfalso; apply (H i' Hq) | exact E].
Qed.

(* ===================================================================== *)
(** * One iteration of the decoder *)
(* ===================================================================== *)

Lemma marker_length : length marker = 13.
Proof. reflexivity. Qed.

Lemma marker_nonempty : marker <> [].
Proof. discriminate. Qed.

Lemma completionCheck_verdict (st : DecoderState) :
  completionCheck st =
  match verdict (fullStreamContent st) with
  | Some ev => ([ev], Break)
  | None => ([], Continue st)
  end.
Proof.
  unfold completionCheck, verdict.
  destruct (looksComplete _); [|reflexivity].
  destruct (JSON_parse _) as [v|].
  - destruct (property_access_throws v); [|reflexivity].
    destruct (_ <? _)%Z; reflexivity.
  - destruct (_ <? _)%Z; reflexivity.
Qed.

Lemma verdict_not_chunk (buf : str) (ev : Event) :
  verdict buf = Some ev -> deltas [ev] = [].
Proof.
  unfold verdict. destruct (looksComplete _); [|discriminate].
  destruct (JSON_parse _) as [v|].
  - destruct (property_access_throws v).
    + destruct (_ <? _)%Z; [|discriminate]. now intros [= <-].
    + now intros [= <-].
  - destruct (_ <? _)%Z; [|discriminate]. now intros [= <-].
Qed.

Lemma consume_eq (st : DecoderState) (chunk : str) :
  consume st chunk =
  let (evs, st2) := streamValue (findKey (appendChunk st chunk)) in
  match verdict (fullStreamContent st2) with
  | Some ev => (evs ++ [ev], Break)
  | None => (evs, Continue st2)
  end.
Proof.
  unfold consume. destruct (streamValue _) as [evs st2].
  rewrite completionCheck_verdict.
  destruct (verdict _); [reflexivity | now rewrite app_nil_r].
Qed.

(** ** The key search *)

Lemma findKey_inside (buf sent : str) (start : Z) :
  findKey (mkState buf true start sent) = mkState buf true start sent.
Proof. reflexivity. Qed.

Lemma findKey_seeking_found (buf sent : str) (m : nat) :
  firstKey buf m ->
  findKey (mkState buf false (-1) sent)
  = mkState buf true (Z.of_nat (m + 13)) sent.
Proof.
  intros [Hocc Hmin]. unfold findKey. cbn [isInsideResponseValue
    responseValueStartIndex fullStreamContent responseValueSentSoFar].
  replace (-1 <? -1)%Z with false by reflexivity.
  change 0%Z with (Z.of_nat 0).
  rewrite (@indexOf_found buf marker 0 m); try lia; auto.
  - replace (Z.of_nat m =? -1)%Z with false by (symmetry; apply Z.eqb_neq; lia).
    cbn [negb]. f_equal. unfold len. rewrite marker_length. lia.
  - intros j Hj. apply Hmin. lia.
Qed.

Lemma findKey_seeking_absent (buf sent : str) :
  (forall j, ~ occursAt marker buf j) ->
  findKey (mkState buf false (-1) sent) = mkState buf false (-1) sent.
Proof.
  intros H. unfold findKey. cbn [isInsideResponseValue
    responseValueStartIndex fullStreamContent responseValueSentSoFar].
  replace (-1 <? -1)%Z with false by reflexivity.
  change 0%Z with (Z.of_nat 0).
  rewrite (@indexOf_absent buf marker 0); try lia; auto.
Qed.

Lemma findKey_closed_absent (buf sent : str) (k : nat) :
  k <= length buf ->
  (forall j, k <= j -> ~ occursAt marker buf j) ->
  findKey (mkState buf false (Z.of_nat k) sent)
  = mkState buf false (Z.of_nat k) sent.
Proof.
  intros Hk H. unfold findKey. cbn [isInsideResponseValue
    responseValueStartIndex fullStreamContent responseValueSentSoFar].
  replace (-1 <? Z.of_nat k)%Z with true by (symmetry; apply Z.ltb_lt; lia).
  rewrite (@indexOf_absent buf marker k); auto.
Qed.

(** Either the marker occurs nowhere, or it has a first occurrence. *)
Lemma firstKey_dec (buf : str) :
  (forall j, ~ occursAt marker buf j) \/ exists m, firstKey buf m.
Proof.
  destruct (@indexOf_spec buf marker 0 ltac:(lia)) as [[_ H]|(i & _ & _ & Ho & Hm)].
  - left. intros j. apply H. lia.
  - right. exists i. split; [exact Ho|]. intros j Hj. apply Hm. lia.
Qed.

Lemma firstKey_unique (buf : str) (m m' : nat) :
  firstKey buf m -> firstKey buf m' -> m = m'.
Proof.
  intros [H1 H2] [H3 H4].
  destruct (Nat.lt_trichotomy m m') as [H|[H|H]]; [|assumption|].
  - exfalso. apply (H4 m H H1).
  - exfalso. apply (H2 m' H H3).
Qed.

Lemma occursAt_bound (buf : str) (j : nat) :
  occursAt marker buf j -> j + 13 <= length buf.
Proof.
  unfold occursAt. intros H.
  destruct (Nat.le_gt_cases (j + 13) (length buf)); [assumption|].
  rewrite startsWith_short in H; [discriminate|].
  rewrite length_skipn, marker_length. lia.
Qed.

Lemma firstKey_extend (b t : str) (m : nat) :
  firstKey b m -> firstKey (b ++ t) m.
Proof.
  intros [Ho Hm]. pose proof (occursAt_bound Ho) as Hb. split.
  - apply (occursAt_prefix b t m marker_nonempty) in Ho. tauto.
  - intros j Hj Hc. apply (Hm j Hj).
    apply (occursAt_prefix b t j marker_nonempty). rewrite marker_length.
    split; [assumption | lia].
Qed.

(** ** The extraction *)

Lemma streamValue_outside (buf sent : str) (start : Z) :
  streamValue (mkState buf false start sent) = ([], mkState buf false start sent).
Proof. reflexivity. Qed.

Lemma scanValue_open (pre v sent : str) :
  (forall j, ~ unescapedQuoteAt v j) ->
  scanValue (mkState (pre ++ v) true (Z.of_nat (length pre)) sent)
  = (false, length pre + length v, v).
Proof.
  intros H. unfold scanValue.
  cbn [isInsideResponseValue responseValueStartIndex fullStreamContent
       responseValueSentSoFar].
  rewrite Nat2Z.id. fold (valueScan (pre ++ v) (length pre)).
  rewrite (valueScan_none pre H).
  rewrite substringFrom_nat, skipn_app, skipn_all, Nat.sub_diag. reflexivity.
Qed.

Lemma scanValue_closing (pre v sent : str) (i : nat) :
  unescapedQuoteAt v i ->
  (forall j, j < i -> ~ unescapedQuoteAt v j) ->
  scanValue (mkState (pre ++ v) true (Z.of_nat (length pre)) sent)
  = (true, length pre + i, firstn i v).
Proof.
  intros Hq Hmin. unfold scanValue.
  cbn [isInsideResponseValue responseValueStartIndex fullStreamContent
       responseValueSentSoFar].
  rewrite Nat2Z.id. fold (valueScan (pre ++ v) (length pre)).
  assert (E : valueScan (pre ++ v) (length pre) = (true, length pre + i))
    by (apply valueScan_found_iff; auto).
  rewrite E. pose proof (unescapedQuoteAt_lt Hq) as Hi.
  rewrite substring_nat by (rewrite ?length_app; lia).
  rewrite skipn_app, skipn_all, Nat.sub_diag. simpl skipn. cbn [app].
  now replace (length pre + i - length pre) with i by lia.
Qed.

(** The extraction in terms of the scan. *)
Lemma streamValue_scan (st : DecoderState) :
  isInsideResponseValue st = true ->
  streamValue st =
  let '(found, q, cur) := scanValue st in
  let sent := responseValueSentSoFar st in
  ((if length sent <? length cur
    then [OnStreamChunk (skipn (length sent) cur)] else []),
   mkState (fullStreamContent st) (negb found)
           (if found then (Z.of_nat q + 1)%Z else responseValueStartIndex st)
           (if length sent <? length cur then cur else sent)).
Proof.
  intros H. unfold streamValue. rewrite H.
  destruct (scanValue st) as [[found q] cur].
  assert (E : (len (responseValueSentSoFar st) <? len cur)%Z
              = (length (responseValueSentSoFar st) <? length cur)).
  { unfold len.
    destruct (Nat.ltb_spec (length (responseValueSentSoFar st)) (length cur)).
    - apply Z.ltb_lt. lia.
    - apply Z.ltb_ge. lia. }
  rewrite E. unfold len. rewrite substringFrom_nat.
  destruct found; reflexivity.
Qed.

Lemma streamValue_open (pre v sent : str) :
  (forall j, ~ unescapedQuoteAt v j) ->
  streamValue (mkState (pre ++ v) true (Z.of_nat (length pre)) sent)
  = ((if length sent <? length v
      then [OnStreamChunk (skipn (length sent) v)] else []),
     mkState (pre ++ v) true (Z.of_nat (length pre))
             (if length sent <? length v then v else sent)).
Proof.
  intros H. rewrite streamValue_scan by reflexivity.
  rewrite (scanValue_open pre sent H). reflexivity.
Qed.

Lemma streamValue_closing (pre v sent : str) (i : nat) :
  unescapedQuoteAt v i ->
  (forall j, j < i -> ~ unescapedQuoteAt v j) ->
  streamValue (mkState (pre ++ v) true (Z.of_nat (length pre)) sent)
  = ((if length sent <? i
      then [OnStreamChunk (skipn (length sent) (firstn i v))] else []),
     mkState (pre ++ v) false (Z.of_nat (length pre + i) + 1)
             (if length sent <? i then firstn i v else sent)).
Proof.
  intros Hq Hmin. rewrite streamValue_scan by reflexivity.
  rewrite (scanValue_closing pre sent Hq Hmin).
  pose proof (unescapedQuoteAt_lt Hq) as Hi.
  cbn [negb responseValueSentSoFar fullStreamContent].
  rewrite length_firstn. replace (Nat.min i (length v)) with i by lia.
  reflexivity.
Qed.

(* ===================================================================== *)
(** * The decoder along a stream with one key *)
(* ===================================================================== *)

Lemma noKeyAfterValue_prefix (b t : str) :
  noKeyAfterValue (b ++ t) -> noKeyAfterValue b.
Proof.
  intros H pre v m i -> Hk Hl Hq Hmin j Hj Hc.
  pose proof (unescapedQuoteAt_lt Hq) as Hi.
  apply (H pre (v ++ t) m i) with (j := j); auto.
  - now rewrite app_assoc.
  - now apply firstKey_extend.
  - now apply unescapedQuoteAt_prefix.
  - intros j' Hj' Hc'. apply (Hmin j' Hj').
    apply (unescapedQuoteAt_prefix v t) in Hc'; [assumption|lia].
  - apply (occursAt_prefix (pre ++ v) t j marker_nonempty) in Hc. tauto.
Qed.

Lemma atMostOnce_noKeyAfterValue (s : str) :
  atMostOnce s -> noKeyAfterValue s.
Proof.
  intros H pre v m i -> [Ho _] Hl Hq Hmin j Hj Hc.
  specialize (H m j Ho Hc). lia.
Qed.

Lemma tracks_buffer (B : str) (st : DecoderState) :
  tracks B st -> fullStreamContent st = B.
Proof. intros []; reflexivity. Qed.

Lemma chunkEvent_firstn_nonempty (d : str) :
  d <> [] -> chunkEvent d = [OnStreamChunk d].
Proof. destruct d; [congruence | reflexivity]. Qed.

Lemma deltas_chunkEvent (d : str) : concat (deltas (chunkEvent d)) = d.
Proof. destruct d; simpl; [reflexivity | now rewrite app_nil_r]. Qed.

(** Where the key ends, the buffer splits into what precedes the value
    and the value text so far. *)
Lemma key_split (B : str) (m : nat) :
  firstKey B m ->
  exists pre v, B = pre ++ v /\ length pre = m + 13.
Proof.
  intros [Ho _]. pose proof (occursAt_bound Ho) as Hb.
  exists (firstn (m + 13) B), (skipn (m + 13) B). split.
  - now rewrite firstn_skipn.
  - rewrite length_firstn. lia.
Qed.

Lemma unescaped_dec (pre v : str) :
  (forall j, ~ unescapedQuoteAt v j)
  \/ exists i, unescapedQuoteAt v i /\ forall j, j < i -> ~ unescapedQuoteAt v j.
Proof.
  destruct (valueScan_spec pre v) as [(i & _ & Hq & Hmin) | (_ & Hno)].
  - right. now exists i.
  - now left.
Qed.

(** The search and extraction on a state that has not found the key
    yet. *)
Lemma seeking_step (B : str) :
  exists d st',
    streamValue (findKey (mkState B false (-1) [])) = (chunkEvent d, st')
    /\ tracks B st' /\ responseValueSentSoFar st' = d
    /\ (isInsideResponseValue (findKey (mkState B false (-1) [])) = true ->
        snd (scanValue (findKey (mkState B false (-1) []))) = d).
Proof.
  destruct (firstKey_dec B) as [Hno | [m Hk]].
  - exists [], (mkState B false (-1) []).
    rewrite findKey_seeking_absent by assumption.
    rewrite streamValue_outside. repeat split; [now constructor|].
    discriminate.
  - destruct (key_split Hk) as (pre & v & -> & Hl).
    rewrite (findKey_seeking_found _ Hk). rewrite <- Hl.
    destruct (unescaped_dec pre v) as [Hno | (i & Hq & Hmin)].
    + exists v, (mkState (pre ++ v) true (Z.of_nat (length pre)) v).
      rewrite (streamValue_open pre [] Hno), (scanValue_open pre [] Hno).
      simpl length.
      destruct v as [|c v]; simpl; (split; [reflexivity|]);
        (split; [|split; reflexivity]); econstructor; eauto.
    + exists (firstn i v),
        (mkState (pre ++ v) false (Z.of_nat (length pre + i) + 1) (firstn i v)).
      rewrite (streamValue_closing pre [] Hq Hmin).
      rewrite (scanValue_closing pre [] Hq Hmin). simpl length.
      pose proof (unescapedQuoteAt_lt Hq) as Hi.
      destruct i as [|i].
      * simpl. split; [reflexivity|]. split; [|split; reflexivity].
        apply (@tracks_closed (pre ++ v) pre v m 0); auto.
      * replace (0 <? S i) with true by reflexivity.
        destruct v as [|c v]; [simpl in Hi; lia|]. cbn [firstn skipn chunkEvent].
        split; [reflexivity|]. split; [|split; reflexivity].
        apply (@tracks_closed (pre ++ c :: v) pre (c :: v) m (S i)); auto.
Qed.

(** One search and extraction keeps track of the stream, and sends
    exactly the text by which the known value has grown; the text sent
    so far is then the whole value known. *)
Lemma step_tracks (B c : str) (st : DecoderState) :
  tracks B st -> noKeyAfterValue (B ++ c) ->
  exists d st',
    streamValue (findKey (appendChunk st c)) = (chunkEvent d, st')
    /\ tracks (B ++ c) st'
    /\ responseValueSentSoFar st' = responseValueSentSoFar st ++ d
    /\ (isInsideResponseValue (findKey (appendChunk st c)) = true ->
        snd (scanValue (findKey (appendChunk st c)))
        = responseValueSentSoFar st').
Proof.
  intros Ht Hlater. destruct Ht as [Hno | pre v m -> Hk Hl Hopen
                                    | pre v m i -> Hk Hl Hq Hmin].
  - unfold appendChunk. cbn [isInsideResponseValue responseValueStartIndex
      fullStreamContent responseValueSentSoFar].
    destruct (seeking_step (B ++ c)) as (d & st' & E & Ht & Hs & Hc).
    exists d, st'. repeat split; auto. intros H. rewrite Hs. auto.
  - unfold appendChunk. cbn [isInsideResponseValue responseValueStartIndex
      fullStreamContent responseValueSentSoFar].
    rewrite findKey_inside, <- app_assoc.
    destruct (unescaped_dec pre (v ++ c)) as [Hno | (i & Hq & Hmin)].
    + exists c, (mkState (pre ++ v ++ c) true (Z.of_nat (length pre)) (v ++ c)).
      rewrite (streamValue_open pre v Hno), (scanValue_open pre v Hno).
      rewrite length_app.
      split; [|split; [|split; reflexivity]].
      * destruct c as [|x c].
        -- replace (length v <? length v + length []) with false
             by (symmetry; apply Nat.ltb_ge; simpl; lia).
           now rewrite app_nil_r.
        -- replace (length v <? length v + length (x :: c)) with true
             by (symmetry; apply Nat.ltb_lt; simpl; lia).
           rewrite skipn_app, skipn_all, Nat.sub_diag. reflexivity.
      * apply (@tracks_open (pre ++ v ++ c) pre (v ++ c) m); auto.
        rewrite app_assoc. now apply firstKey_extend.
    + assert (Hi : length v <= i).
      { destruct (Nat.le_gt_cases (length v) i); [assumption|].
        exfalso. apply (Hopen i). now apply (unescapedQuoteAt_prefix v c). }
      pose proof (unescapedQuoteAt_lt Hq) as Hi2. rewrite length_app in Hi2.
      exists (firstn (i - length v) c),
        (mkState (pre ++ v ++ c) false (Z.of_nat (length pre + i) + 1)
                 (firstn i (v ++ c))).
      rewrite (streamValue_closing pre v Hq Hmin).
      rewrite (scanValue_closing pre v Hq Hmin).
      rewrite firstn_app, (firstn_all2 v) by lia.
      split; [|split; [|split; reflexivity]].
      * destruct (Nat.ltb_spec (length v) i) as [L|L].
        -- rewrite skipn_app, skipn_all, Nat.sub_diag. simpl skipn. cbn [app].
           rewrite chunkEvent_firstn_nonempty; [reflexivity|].
           intros E. apply (f_equal (@length _)) in E.
           rewrite length_firstn in E. simpl in E. lia.
        -- replace (i - length v) with 0 by lia. simpl. now rewrite app_nil_r.
      * replace (v ++ firstn (i - length v) c) with (firstn i (v ++ c))
          by (rewrite firstn_app, (firstn_all2 v) by lia; reflexivity).
        apply (@tracks_closed (pre ++ v ++ c) pre (v ++ c) m i); auto.
        rewrite app_assoc. now apply firstKey_extend.
  - unfold appendChunk. cbn [isInsideResponseValue responseValueStartIndex
      fullStreamContent responseValueSentSoFar].
    pose proof (unescapedQuoteAt_lt Hq) as Hi.
    replace (Z.of_nat (length pre + i) + 1)%Z
      with (Z.of_nat (length pre + i + 1)) by lia.
    assert (Hq' : unescapedQuoteAt (v ++ c) i)
      by now apply unescapedQuoteAt_prefix.
    assert (Hmin' : forall j, j < i -> ~ unescapedQuoteAt (v ++ c) j).
    { intros j Hj Hc. apply (Hmin j Hj).
      apply (unescapedQuoteAt_prefix v c) in Hc; [assumption|lia]. }
    rewrite findKey_closed_absent.
    + rewrite streamValue_outside.
      exists [], (mkState ((pre ++ v) ++ c) false
                          (Z.of_nat (length pre + i + 1)) (firstn i v)).
      split; [reflexivity|]. split; [|split; [now rewrite app_nil_r|]].
      * replace (Z.of_nat (length pre + i + 1))
          with (Z.of_nat (length pre + i) + 1)%Z by lia.
        replace (firstn i v) with (firstn i (v ++ c))
          by (rewrite firstn_app; replace (i - length v) with 0 by lia;
              simpl; now rewrite app_nil_r).
        apply (@tracks_closed ((pre ++ v) ++ c) pre (v ++ c) m i); auto.
        -- now rewrite app_assoc.
        -- now apply firstKey_extend.
      * discriminate.
    + rewrite !length_app. lia.
    + intros j Hj. apply (Hlater pre (v ++ c) m i); auto.
      * now rewrite app_assoc.
      * now apply firstKey_extend.
      * lia.
Qed.

Lemma tracks_initial : tracks [] initialState.
Proof.
  constructor. intros j H. apply occursAt_bound in H. simpl in H. lia.
Qed.

(* ===================================================================== *)
(** * The read loop *)
(* ===================================================================== *)

Lemma readLoop_feed (chunks : list str) (st : DecoderState) :
  readLoop st chunks =
  match feed st chunks with
  | (evs, Continue st') => evs ++ onDone st'
  | (evs, Break) => evs
  end.
Proof.
  revert st. induction chunks as [|c rest IH]; intros st; simpl.
  - reflexivity.
  - destruct (consume st c) as [evs [st'|]]; [|reflexivity].
    rewrite IH. destruct (feed st' rest) as [evs' [st''|]].
    + now rewrite app_assoc.
    + reflexivity.
Qed.

Lemma deltas_app (a b : list Event) : deltas (a ++ b) = deltas a ++ deltas b.
Proof.
  induction a as [|[| d | v | m] a IH]; simpl; auto. now rewrite IH.
Qed.

Lemma onlyChunks_nil : onlyChunks [].
Proof. split; [reflexivity | constructor]. Qed.

Lemma onlyChunks_chunkEvent (d : str) : onlyChunks (chunkEvent d).
Proof.
  destruct d; split; try reflexivity; simpl; repeat constructor. discriminate.
Qed.

Lemma onlyChunks_app (a b : list Event) :
  onlyChunks a -> onlyChunks b -> onlyChunks (a ++ b).
Proof.
  unfold onlyChunks. intros [Ha Fa] [Hb Fb]. split.
  - rewrite deltas_app, map_app, <- Ha, <- Hb. reflexivity.
  - rewrite deltas_app. apply Forall_app. now split.
Qed.

Lemma onlyChunks_no_end (evs : list Event) (v : json) :
  onlyChunks evs -> ~ In (OnStreamEnd v) evs.
Proof.
  intros [E _] H. rewrite E in H. apply in_map_iff in H as (d & E' & _).
  discriminate.
Qed.

Lemma onlyChunks_empty (evs : list Event) :
  onlyChunks evs -> concat (deltas evs) = [] -> evs = [].
Proof.
  intros [E F] H. rewrite E. destruct (deltas evs) as [|d ds]; [reflexivity|].
  inversion F as [|? ? Hd _]; subst. simpl in H.
  destruct d; [congruence | discriminate].
Qed.

(** Along a stream with one key, the loop either runs through all the
    chunks, sending the growth of the value, or leaves at the first
    buffer on which the completion check decides. *)
Lemma feed_tracks (chunks : list str) :
  forall (B : str) (st : DecoderState),
    tracks B st -> noKeyAfterValue (B ++ concat chunks) ->
    match feed st chunks with
    | (evs, Continue st') =>
        tracks (B ++ concat chunks) st' /\ onlyChunks evs /\
        responseValueSentSoFar st'
        = responseValueSentSoFar st ++ concat (deltas evs) /\
        noVerdictAlong B chunks
    | (evs, Break) =>
        exists chunks1 c chunks2 ev evs1 st1,
          chunks = chunks1 ++ c :: chunks2 /\ evs = evs1 ++ [ev] /\
          onlyChunks evs1 /\
          verdict (B ++ concat (chunks1 ++ [c])) = Some ev /\
          tracks (B ++ concat (chunks1 ++ [c])) st1 /\
          responseValueSentSoFar st1
          = responseValueSentSoFar st ++ concat (deltas evs1)
    end.
Proof.
  induction chunks as [|c rest IH]; intros B st Ht Hl.
  - simpl. rewrite !app_nil_r in *.
    split; [exact Ht|]. split; [apply onlyChunks_nil|].
    split; [reflexivity|]. intros [|] ? ? ?; discriminate.
  - simpl feed. rewrite consume_eq.
    simpl concat in Hl.
    assert (Hl1 : noKeyAfterValue (B ++ c)).
    { apply (@noKeyAfterValue_prefix (B ++ c) (concat rest)).
      now rewrite <- app_assoc. }
    destruct (step_tracks c Ht Hl1) as (d & st2 & E & Ht2 & Hs2 & _).
    rewrite E. rewrite (tracks_buffer Ht2).
    destruct (verdict (B ++ c)) as [ev|] eqn:V.
    + exists [], c, rest, ev, (chunkEvent d), st2. simpl.
      rewrite app_nil_r.
      split; [reflexivity|]. split; [reflexivity|].
      split; [apply onlyChunks_chunkEvent|]. split; [exact V|].
      split; [exact Ht2|]. now rewrite deltas_chunkEvent.
    + specialize (IH (B ++ c) st2 Ht2).
      rewrite <- app_assoc in IH. specialize (IH Hl).
      destruct (feed st2 rest) as [evs' [st'|]].
      * destruct IH as (Ht' & Hoc & Hs' & Hnv).
        simpl concat. split; [exact Ht'|]. split.
        -- apply onlyChunks_app; [apply onlyChunks_chunkEvent | exact Hoc].
        -- split.
           ++ rewrite Hs', Hs2, deltas_app, concat_app, deltas_chunkEvent.
              now rewrite app_assoc.
           ++ intros [|c1 chunks1] c' chunks2 Heq.
              ** injection Heq as <- <-. simpl. now rewrite app_nil_r.
              ** injection Heq as <- Heq. simpl.
                 rewrite app_assoc. eapply Hnv; eauto.
      * destruct IH as (chunks1 & c' & chunks2 & ev & evs1 & st1 &
                        -> & -> & Hoc & Hv & Ht1 & Hs1).
        exists (c :: chunks1), c', chunks2, ev, (chunkEvent d ++ evs1), st1.
        simpl. rewrite app_assoc.
        split; [reflexivity|]. split; [reflexivity|].
        split; [apply onlyChunks_app;
                [apply onlyChunks_chunkEvent | exact Hoc]|].
        split; [rewrite <- app_assoc in Hv; exact Hv|].
        split; [rewrite <- app_assoc in Ht1; exact Ht1|].
        rewrite Hs1, Hs2, deltas_app, concat_app, deltas_chunkEvent.
        now rewrite app_assoc.
Qed.

(* ===================================================================== *)
(** * Events of the loop, for any state *)
(* ===================================================================== *)

Lemma streamValue_onlyChunks (st : DecoderState) :
  onlyChunks (fst (streamValue st)).
Proof.
  destruct (isInsideResponseValue st) eqn:E.
  - rewrite (streamValue_scan _ E).
    destruct (scanValue st) as [[found q] cur]. cbn [fst].
    destruct (Nat.ltb_spec (length (responseValueSentSoFar st)) (length cur)).
    + split; [reflexivity|]. simpl. constructor; [|constructor].
      intros C. apply (f_equal (@length _)) in C.
      rewrite length_skipn in C. simpl in C. lia.
    + apply onlyChunks_nil.
  - unfold streamValue. rewrite E. apply onlyChunks_nil.
Qed.

Lemma feed_continue_onlyChunks (chunks : list str) :
  forall st evs st',
    feed st chunks = (evs, Continue st') -> onlyChunks evs.
Proof.
  induction chunks as [|c rest IH]; intros st evs st'; simpl.
  - intros [= <- _]. apply onlyChunks_nil.
  - rewrite consume_eq.
    pose proof (streamValue_onlyChunks (findKey (appendChunk st c))) as Hs.
    destruct (streamValue _) as [e1 st2]. cbn [fst] in Hs.
    destruct (verdict _); [discriminate|].
    destruct (feed st2 rest) as [e2 [st3|]] eqn:F; [|discriminate].
    intros [= <- _]. apply onlyChunks_app; [exact Hs | eapply IH; eauto].
Qed.

(* ===================================================================== *)
(** * The balance scan inside the value *)
(* ===================================================================== *)

Lemma balance_app (a b : str) :
  balance (a ++ b) = fold_left balanceChar b (balance a).
Proof. unfold balance. apply fold_left_app. Qed.

(** While no unescaped quote is met, the balance scan stays inside the
    string and its [escaped] flag is the parity of the backslashes just
    before. *)
Lemma balance_value (b0 : Balance) (v : str) (i : nat) :
  i <= length v -> inString b0 = true -> escaped b0 = false ->
  (forall j, j < i -> ~ unescapedQuoteAt v j) ->
  fold_left balanceChar (firstn i v) b0
  = mkBalance (braceLevel b0) true (Nat.odd (backslashesBefore v i)).
Proof.
  intros Hi Hs He. induction i as [|i IH]; intros Hq.
  - simpl. destruct b0; simpl in *; subst. reflexivity.
  - destruct (nth_error v i) as [c|] eqn:E.
    2:{ apply nth_error_None in E. lia. }
    rewrite (firstn_snoc _ _ E), fold_left_app, IH by (auto; lia).
    unfold backslashesBefore at 2.
    rewrite (firstn_snoc _ _ E), rev_app_distr.
    fold (backslashesBefore v i). simpl.
    unfold balanceChar. cbn [inString escaped braceLevel].
    destruct (N.eqb_spec c QUOTE) as [->|Hc].
    + replace (N.eqb QUOTE BACKSLASH) with false by reflexivity.
      destruct (Nat.odd (backslashesBefore v i)) eqn:O; [reflexivity|].
      exfalso. apply (Hq i); [lia|]. split; [assumption|].
      now rewrite <- Nat.negb_odd, O.
    + cbn [andb negb]. destruct (N.eqb c BACKSLASH).
      * cbn [andb]. now rewrite Nat.odd_succ, Nat.negb_odd.
      * reflexivity.
Qed.

Lemma includes_app (a b : str) (c : char) :
  includes (a ++ b) c = includes a c || includes b c.
Proof. unfold includes. apply existsb_app. Qed.

Lemma looksComplete_in_value (pre v : str) :
  inString (balance pre) = true -> escaped (balance pre) = false ->
  (forall j, ~ unescapedQuoteAt v j) ->
  looksComplete (pre ++ v) = false.
Proof.
  intros Hs He Hq. unfold looksComplete.
  rewrite balance_app, <- (firstn_all v).
  rewrite (@balance_value (balance pre) v (length v)); auto.
  cbn [inString negb]. now rewrite andb_false_r.
Qed.

Lemma verdict_not_complete (buf : str) :
  looksComplete buf = false -> verdict buf = None.
Proof. unfold verdict. now intros ->. Qed.

(* ===================================================================== *)
(** * Streams without content *)
(* ===================================================================== *)

Lemma trimStart_nil (s : str) :
  trimStart s = [] -> forallb is_js_space s = true.
Proof.
  induction s as [|c s IH]; simpl; [reflexivity|].
  destruct (is_js_space c); [exact IH | discriminate].
Qed.

Lemma trimStart_head (s : str) :
  match trimStart s with
  | [] => True
  | c :: _ => is_js_space c = false
  end.
Proof.
  induction s as [|c s IH]; simpl; [exact I|].
  destruct (is_js_space c) eqn:E; [exact IH | exact E].
Qed.

Lemma forallb_rev (A : Type) (f : A -> bool) (l : list A) :
  forallb f (rev l) = forallb f l.
Proof.
  induction l as [|x l IH]; simpl; [reflexivity|].
  rewrite forallb_app, IH. simpl. rewrite andb_true_r. apply andb_comm.
Qed.

Lemma trim_empty (s : str) :
  trim s = [] -> forallb is_js_space s = true.
Proof.
  unfold trim. intros H.
  assert (H1 : trimStart (rev (trimStart s)) = []).
  { destruct (trimStart (rev (trimStart s))); [reflexivity|].
    apply (f_equal (@length _)) in H. rewrite length_rev in H. discriminate. }
  apply trimStart_nil in H1. rewrite forallb_rev in H1.
  pose proof (trimStart_head s) as H2.
  destruct (trimStart s) as [|c t] eqn:E.
  - now apply trimStart_nil.
  - simpl in H1. rewrite H2 in H1. discriminate.
Qed.

Lemma blank_no_char (s : str) (c : char) :
  forallb is_js_space s = true -> is_js_space c = false ->
  includes s c = false.
Proof.
  intros H Hc. unfold includes.
  induction s as [|x s IH]; simpl in *; [reflexivity|].
  apply andb_true_iff in H as [H1 H2]. rewrite (IH H2), orb_false_r.
  destruct (N.eqb_spec c x); [subst; congruence | reflexivity].
Qed.

Lemma occursAt_head (s : str) (j : nat) :
  occursAt marker s j -> nth_error s j = Some QUOTE.
Proof.
  unfold occursAt. intros H. apply startsWith_iff in H as [t Ht].
  rewrite <- (Nat.add_0_r j), <- nth_error_skipn, Ht. reflexivity.
Qed.

Lemma includes_nth (s : str) (j : nat) (c : char) :
  nth_error s j = Some c -> includes s c = true.
Proof.
  intros H. unfold includes. apply existsb_exists. exists c.
  split; [eapply nth_error_In; eauto | apply N.eqb_refl].
Qed.

Lemma blank_no_key (s : str) :
  forallb is_js_space s = true -> forall j, ~ occursAt marker s j.
Proof.
  intros H j Ho. apply occursAt_head, includes_nth in Ho.
  rewrite (@blank_no_char s QUOTE H) in Ho by reflexivity. discriminate.
Qed.

Arguments blank_no_key s _ j : clear implicits.
Arguments trim_empty s _ : clear implicits.

Lemma blank_prefix (a b : str) :
  forallb is_js_space (a ++ b) = true -> forallb is_js_space a = true.
Proof. rewrite forallb_app. intros H. now apply andb_true_iff in H. Qed.

Lemma tracks_seeking_inv (B : str) (st : DecoderState) :
  tracks B st -> (forall j, ~ occursAt marker B j) ->
  st = mkState B false (-1) [].
Proof.
  intros [H | pre v m -> [Ho _] _ _ | pre v m i -> [Ho _] _ _ _] Hno;
    [reflexivity | exfalso; eapply Hno; eauto ..].
Qed.

(** C10: when the transport signals the end of a stream whose whole
    content trims to the empty string, the decoder reports exactly one
    error, the one for a stream without content, and neither a chunk nor
    a final object. *)
Theorem blank_stream_reports_no_content (chunks : list str) :
  trim (concat chunks) = [] ->
  processStream (Some chunks) = [OnStreamStart; OnError NoContent].
Proof.
  intros Ht. pose proof (trim_empty _ Ht) as Hb.
  unfold processStream. f_equal. rewrite readLoop_feed.
  pose proof (@feed_tracks chunks [] initialState tracks_initial) as H.
  simpl app in H.
  assert (Hl : noKeyAfterValue (concat chunks)).
  { intros pre v m i _ [Ho _]. exfalso. eapply blank_no_key; eauto. }
  specialize (H Hl).
  destruct (feed initialState chunks) as [evs [st'|]].
  - destruct H as (Htr & Hoc & Hs & _).
    pose proof (tracks_seeking_inv Htr (blank_no_key _ Hb)) as ->.
    simpl in Hs. rewrite (onlyChunks_empty Hoc) by auto.
    unfold onDone. cbn [isInsideResponseValue fullStreamContent app].
    now rewrite Ht.
  - destruct H as (c1 & c & c2 & ev & evs1 & st1 & -> & _ & _ & Hv & _).
    exfalso. simpl app in Hv.
    replace (c1 ++ c :: c2) with ((c1 ++ [c]) ++ c2) in Hb
      by (rewrite <- app_assoc; reflexivity).
    rewrite concat_app in Hb. apply blank_prefix in Hb.
    rewrite verdict_not_complete in Hv; [discriminate|].
    unfold looksComplete.
    rewrite (@blank_no_char _ LBRACE Hb) by reflexivity.
    now rewrite andb_false_r.
Qed.

Lemma blank_stream_reports_no_content_witness :
  processStream (Some [lit " "; [10%N; 9%N]; []])
  = [OnStreamStart; OnError NoContent].
Proof.
  apply (@blank_stream_reports_no_content [lit " "; [10%N; 9%N]; []]).
  reflexivity.
Defined.

(* ===================================================================== *)
(** * After the closing quote *)
(* ===================================================================== *)

Lemma indexOf_none_absent (s : str) (k : nat) :
  k <= length s -> indexOf s marker (Z.of_nat k) = (-1)%Z ->
  forall j, k <= j -> ~ occursAt marker s j.
Proof.
  intros Hk H.
  destruct (@indexOf_spec s marker k Hk) as [[_ Hno]|(i & E & _)]; [exact Hno|].
  rewrite E in H. lia.
Qed.

Lemma closed_feed_silent (chunks : list str) :
  forall (buf sent : str) (k : nat),
    k <= length buf ->
    (forall j, k <= j -> ~ occursAt marker (buf ++ concat chunks) j) ->
    deltas (fst (feed (mkState buf false (Z.of_nat k) sent) chunks)) = [].
Proof.
  induction chunks as [|c rest IH]; intros buf sent k Hk Hno; [reflexivity|].
  simpl feed. rewrite consume_eq. unfold appendChunk.
  cbn [isInsideResponseValue responseValueStartIndex fullStreamContent
       responseValueSentSoFar].
  simpl concat in Hno. rewrite app_assoc in Hno.
  rewrite findKey_closed_absent.
  - rewrite streamValue_outside. cbn [fullStreamContent].
    destruct (verdict (buf ++ c)) as [ev|] eqn:V.
    + cbn [fst app]. exact (verdict_not_chunk _ V).
    + specialize (IH (buf ++ c) sent k).
      destruct (feed _ rest) as [evs' o']. cbn [fst app] in *.
      apply IH; [rewrite length_app; lia | exact Hno].
  - rewrite length_app. lia.
  - intros j Hj Ho. apply (Hno j Hj).
    apply (occursAt_prefix (buf ++ c) (concat rest) j marker_nonempty) in Ho.
    tauto.
Qed.

Lemma deltas_onDone (st : DecoderState) : deltas (onDone st) = [].
Proof.
  unfold onDone. destruct (isInsideResponseValue st); [reflexivity|].
  destruct (truthy _); [|reflexivity].
  destruct (JSON_parse _) as [v|]; [|reflexivity].
  destruct (property_access_throws v); reflexivity.
Qed.

(** C8 (amended): once the closing quote has been found -- the decoder is
    outside the value and its search index is the position after that
    quote -- no later iteration sends a chunk, and neither does the end
    of the stream, provided the key search from that index finds no
    further key marker in the whole stream. *)
Theorem value_closed_no_more_chunks
        (st : DecoderState) (chunks : list str) (k : nat) :
  isInsideResponseValue st = false ->
  responseValueStartIndex st = Z.of_nat k ->
  k <= length (fullStreamContent st) ->
  indexOf (fullStreamContent st ++ concat chunks) marker (Z.of_nat k)
  = (-1)%Z ->
  deltas (readLoop st chunks) = [].
Proof.
  destruct st as [buf inside start sent]. simpl.
  intros -> -> Hk Hidx. rewrite readLoop_feed.
  pose proof (@closed_feed_silent chunks buf sent k Hk) as H.
  assert (Hno : forall j, k <= j -> ~ occursAt marker (buf ++ concat chunks) j).
  { apply indexOf_none_absent; [rewrite length_app; lia | exact Hidx]. }
  specialize (H Hno).
  destruct (feed _ chunks) as [evs [st'|]]; cbn [fst] in H.
  - now rewrite deltas_app, H, deltas_onDone.
  - exact H.
Qed.

Lemma value_closed_no_more_chunks_witness :
  deltas (readLoop (mkState (js "{'response': 'a'") false 16 (lit "a"))
                   [js ", 'currentWord': "; js "'casa'}"]) = [].
Proof.
  apply (@value_closed_no_more_chunks
           (mkState (js "{'response': 'a'") false 16 (lit "a"))
           [js ", 'currentWord': "; js "'casa'}"] 16);
    [reflexivity | reflexivity | vm_compute; lia | reflexivity].
Defined.

(** C8, as stated, fails: after the closing quote of the first value has
    been found, a later chunk that brings another occurrence of the key
    marker makes the decoder send a further chunk. *)
Lemma value_closed_rearms :
  consume initialState (js "{'response': 'a', 'x': ")
  = ([OnStreamChunk (lit "a")],
     Continue (mkState (js "{'response': 'a', 'x': ") false 16 (lit "a")))
  /\ fst (consume (mkState (js "{'response': 'a', 'x': ") false 16 (lit "a"))
                  (js "{'response': 'bcd'}}"))
     = [OnStreamChunk (lit "cd");
        OnStreamEnd
          (JObject [(lit "response", JString (lit "a"));
                    (lit "x", JObject [(lit "response", JString (lit "bcd"))])])].
Proof. split; reflexivity. Qed.

(* ===================================================================== *)
(** * Streams that open the value at once *)
(* ===================================================================== *)

Lemma app_inv_length (A : Type) (a b x y : list A) :
  length a = length b -> a ++ x = b ++ y -> a = b /\ x = y.
Proof.
  revert b. induction a as [|h a IH]; intros [|h' b] Hl E; simpl in *;
    try discriminate.
  - now split.
  - injection E as -> E. destruct (IH b ltac:(lia) E) as [-> ->]. now split.
Qed.

Lemma opening_key (v : str) : firstKey (opening ++ v) 1.
Proof.
  split.
  - unfold occursAt. apply startsWith_iff. now exists v.
  - intros j Hj Ho. assert (j = 0) by lia. subst j.
    unfold occursAt in Ho. discriminate.
Qed.

Lemma opening_split (v pre v' : str) (m : nat) :
  opening ++ v = pre ++ v' -> firstKey (opening ++ v) m ->
  length pre = m + 13 -> pre = opening /\ v' = v.
Proof.
  intros E Hk Hl. rewrite (firstKey_unique Hk (opening_key v)) in Hl.
  symmetry in E. apply app_inv_length in E; [tauto | exact Hl].
Qed.

Lemma includes_prefix_false (a b : str) (c : char) :
  includes (a ++ b) c = false -> includes a c = false.
Proof. rewrite includes_app. now intros H%orb_false_iff. Qed.

Lemma no_unescaped_prefix (v w : str) :
  (forall j, ~ unescapedQuoteAt (v ++ w) j) -> forall j, ~ unescapedQuoteAt v j.
Proof.
  intros H j Hq. apply (H j). apply unescapedQuoteAt_prefix; [|assumption].
  now apply unescapedQuoteAt_lt.
Qed.

(** No buffer that stops before the closing quote looks complete. *)
Lemma opening_prefix_not_complete (B t v : str) :
  B ++ t = opening ++ v -> (forall j, ~ unescapedQuoteAt v j) ->
  looksComplete B = false.
Proof.
  intros E Hq. apply app_eq_app in E as [l [[-> ->] | [E ->]]].
  - apply looksComplete_in_value; [reflexivity | reflexivity |].
    eapply no_unescaped_prefix; eauto.
  - unfold looksComplete.
    assert (H : includes (B ++ l) RBRACE = false) by now rewrite <- E.
    rewrite (includes_prefix_false _ _ _ H). apply andb_false_r.
Qed.

(** A stream that opens the value and never closes it, however long, is
    never stopped for its length; the decoder sends the whole text and
    reports the unterminated value only when the transport signals the
    end. *)
Lemma open_value_is_never_cut (chunks : list str) (v : str) :
  concat chunks = opening ++ v ->
  fst (valueScan (opening ++ v) (length opening)) = false ->
  processStream (Some chunks)
  = OnStreamStart
      :: map OnStreamChunk (deltas (processStream (Some chunks)))
      ++ [OnError UnterminatedValue]
  /\ concat (deltas (processStream (Some chunks))) = v.
Proof.
  intros Hc Hs0.
  pose proof (proj1 (valueScan_none_iff opening v) Hs0) as Hs. clear Hs0.
  assert (Hl : noKeyAfterValue (opening ++ v)).
  { intros pre v' m i E Hk Hlen Hq. exfalso.
    destruct (opening_split _ _ E Hk Hlen) as [-> ->]. eapply Hs; eauto. }
  pose proof (@feed_tracks chunks [] initialState tracks_initial) as H.
  simpl app in H. rewrite Hc in H. specialize (H Hl).
  unfold processStream. rewrite readLoop_feed.
  destruct (feed initialState chunks) as [evs [st'|]].
  - destruct H as (Htr & Hoc & Hsent & _).
    assert (Hst : isInsideResponseValue st' = true
                  /\ responseValueSentSoFar st' = v).
    { inversion Htr as [Hno | pre v' m E Hk Hlen Hq
                        | pre v' m i E Hk Hlen Hq Hmin]; subst st'.
      - exfalso. eapply Hno. apply (opening_key v).
      - destruct (opening_split _ _ E Hk Hlen) as [-> ->]. now split.
      - destruct (opening_split _ _ E Hk Hlen) as [-> ->].
        exfalso. eapply Hs; eauto. }
    destruct Hst as [Hin Hv]. unfold onDone. rewrite Hin.
    cbn [deltas]. rewrite deltas_app. cbn [deltas]. rewrite app_nil_r.
    split.
    + f_equal. f_equal. exact (proj1 Hoc).
    + rewrite <- Hv, Hsent. reflexivity.
  - destruct H as (c1 & c & c2 & ev & evs1 & st1 & -> & _ & _ & Hv & _).
    exfalso. simpl app in Hv.
    rewrite verdict_not_complete in Hv; [discriminate|].
    apply (@opening_prefix_not_complete _ (concat c2) v); [|exact Hs].
    rewrite <- Hc, <- concat_app, <- app_assoc. reflexivity.
Qed.

Lemma open_value_is_never_cut_example :
  processStream (Some [js "{'respo"; js "nse': 'par"; lit "tial"])
  = OnStreamStart
      :: map OnStreamChunk
           (deltas (processStream
                      (Some [js "{'respo"; js "nse': 'par"; lit "tial"])))
      ++ [OnError UnterminatedValue]
  /\ concat (deltas (processStream
                       (Some [js "{'respo"; js "nse': 'par"; lit "tial"])))
     = lit "partial".
Proof.
  apply (@open_value_is_never_cut
           [js "{'respo"; js "nse': 'par"; lit "tial"] (lit "partial"));
    reflexivity.
Qed.

Lemma repeat_no_quote (n : nat) (j : nat) :
  ~ unescapedQuoteAt (repeat 97%N n) j.
Proof.
  intros [H _]. apply nth_error_In, repeat_spec in H. discriminate.
Qed.

Lemma single_chunk_open_value (v : str) :
  v <> [] -> (forall j, ~ unescapedQuoteAt v j) ->
  processStream (Some [opening ++ v])
  = [OnStreamStart; OnStreamChunk v; OnError UnterminatedValue].
Proof.
  intros Hv Hq. unfold processStream, readLoop. rewrite consume_eq.
  unfold appendChunk, initialState.
  cbn [isInsideResponseValue responseValueStartIndex fullStreamContent
       responseValueSentSoFar app].
  rewrite (findKey_seeking_found _ (opening_key v)).
  change (Z.of_nat (1 + 13)) with (Z.of_nat (length opening)).
  rewrite (streamValue_open opening [] Hq). cbn [fullStreamContent].
  rewrite verdict_not_complete
    by (apply (@opening_prefix_not_complete _ [] v);
        [now rewrite app_nil_r | exact Hq]).
  destruct v as [|c v]; [congruence|]. reflexivity.
Qed.

(** C3, where the code departs from it: for a stream whose value never
    closes and whose buffer exceeds the ceiling of 50000 characters, here
    one chunk of 50013 characters, the decoder reports no error for the
    exceeded length in the iteration that crosses the ceiling; it sends
    the text and reports the unterminated value at the end of the
    stream. *)
Lemma ceiling_not_enforced_inside_value :
  (maxLength < len (opening ++ repeat 97%N (Z.to_nat 49999)))%Z
  /\ processStream (Some [opening ++ repeat 97%N (Z.to_nat 49999)])
     = [OnStreamStart; OnStreamChunk (repeat 97%N (Z.to_nat 49999));
        OnError UnterminatedValue].
Proof.
  split.
  - unfold len, maxLength. rewrite length_app, repeat_length.
    change (length opening) with 14. lia.
  - apply single_chunk_open_value; [|apply repeat_no_quote].
    intros E. apply (f_equal (@length _)) in E.
    rewrite repeat_length in E. simpl length in E. lia.
Qed.

(* ===================================================================== *)
(** * The terminator of the value *)
(* ===================================================================== *)

Lemma backslashesBefore_end (v w : str) :
  backslashesBefore (v ++ w) (length v) = backslashesBefore v (length v).
Proof. now apply backslashesBefore_prefix. Qed.

Lemma backslashesBefore_snoc2 (v : str) :
  backslashesBefore (v ++ [BACKSLASH; BACKSLASH]) (length v + 2)
  = S (S (backslashesBefore v (length v))).
Proof.
  unfold backslashesBefore.
  replace (length v + 2) with (length (v ++ [BACKSLASH; BACKSLASH]))
    by (rewrite length_app; reflexivity).
  rewrite !firstn_all, rev_app_distr. reflexivity.
Qed.

Lemma no_unescaped_snoc2 (v : str) :
  (forall j, ~ unescapedQuoteAt v j) ->
  forall j, ~ unescapedQuoteAt (v ++ [BACKSLASH; BACKSLASH]) j.
Proof.
  intros H j Hq. pose proof (unescapedQuoteAt_lt Hq) as Hj.
  rewrite length_app in Hj. simpl in Hj.
  destruct (Nat.lt_ge_cases j (length v)) as [L|L].
  - apply (H j). now apply (unescapedQuoteAt_prefix v [BACKSLASH; BACKSLASH]).
  - destruct Hq as [Hq _]. rewrite nth_error_app2 in Hq by lia.
    destruct (j - length v) as [|[|n]] eqn:E; simpl in Hq;
      try discriminate. destruct n; discriminate.
Qed.

(** C2: in the value scan, a quote that the scan reaches is taken as the
    terminator of the value exactly when the number of consecutive
    backslashes immediately before it is even, that number being what
    the source's backward count computes.  In particular a quote that
    arrives as the first character of a chunk, after a chunk that ended
    in an odd run of backslashes, is not taken as the terminator; and a
    value that ends in an escaped backslash is terminated by the quote
    that follows. *)
Theorem terminator_iff_even_backslashes :
  (forall (pre v : str) (i : nat),
      i <= length v ->
      backslashCount (pre ++ v) (length pre) (length pre + i)
      = backslashesBefore v i)
  /\ (forall (pre v : str) (i : nat),
         nth_error v i = Some QUOTE ->
         (forall j, j < i -> ~ unescapedQuoteAt v j) ->
         (valueScan (pre ++ v) (length pre) = (true, length pre + i)
          <-> Nat.even (backslashesBefore v i) = true))
  /\ (forall (pre v1 v2 sent : str),
         Nat.odd (backslashesBefore v1 (length v1)) = true ->
         fst (scanValue
                (appendChunk
                   (mkState (pre ++ v1) true (Z.of_nat (length pre)) sent)
                   (QUOTE :: v2)))
         <> (true, length pre + length v1))
  /\ (forall (pre v rest sent : str),
         (forall j, ~ unescapedQuoteAt v j) ->
         Nat.even (backslashesBefore v (length v)) = true ->
         scanValue
           (mkState (pre ++ (v ++ [BACKSLASH; BACKSLASH]) ++ QUOTE :: rest)
                    true (Z.of_nat (length pre)) sent)
         = (true, length pre + (length v + 2), v ++ [BACKSLASH; BACKSLASH])).
Proof.
  split; [|split; [|split]].
  - intros pre v i Hi. now apply backslashCount_value.
  - intros pre v i Hq Hmin. rewrite valueScan_found_iff. split.
    + now intros [[_ He] _].
    + intros He. split; [now split | exact Hmin].
  - intros pre v1 v2 sent Hodd. unfold appendChunk.
    cbn [isInsideResponseValue responseValueStartIndex fullStreamContent
         responseValueSentSoFar].
    rewrite <- app_assoc. unfold scanValue.
    cbn [isInsideResponseValue responseValueStartIndex fullStreamContent
         responseValueSentSoFar].
    rewrite Nat2Z.id. fold (valueScan (pre ++ v1 ++ QUOTE :: v2) (length pre)).
    destruct (valueScan _ _) as [f q] eqn:E. cbn [fst].
    intros [= -> ->]. apply valueScan_found_iff in E as [[_ He] _].
    rewrite backslashesBefore_end in He.
    rewrite <- Nat.negb_odd, Hodd in He. discriminate.
  - intros pre v rest sent Hq He.
    set (w := v ++ [BACKSLASH; BACKSLASH]).
    assert (Hw : length w = length v + 2)
      by (subst w; rewrite length_app; reflexivity).
    rewrite (@scanValue_closing pre (w ++ QUOTE :: rest) sent (length v + 2)).
    + f_equal. rewrite <- Hw, firstn_app, Nat.sub_diag, firstn_all.
      simpl. now rewrite app_nil_r.
    + split.
      * rewrite <- Hw, nth_error_app2, Nat.sub_diag by lia. reflexivity.
      * rewrite <- Hw, backslashesBefore_end. subst w.
        rewrite length_app. simpl length.
        rewrite backslashesBefore_snoc2. exact He.
    + intros j Hj Hc.
      apply (@no_unescaped_snoc2 v Hq j).
      apply (unescapedQuoteAt_prefix w (QUOTE :: rest)); [lia | exact Hc].
Qed.

Lemma terminator_iff_even_backslashes_witness :
  (valueScan (opening ++ js "a\'b'") (length opening)
   = (true, length opening + 4)
   <-> Nat.even (backslashesBefore (js "a\'b'") 4) = true)
  /\ fst (scanValue
            (appendChunk
               (mkState (opening ++ lit "a\") true
                        (Z.of_nat (length opening)) (lit "a\"))
               (QUOTE :: lit "b")))
     <> (true, length opening + length (lit "a\"))
  /\ scanValue
       (mkState (opening ++ (lit "ab" ++ [BACKSLASH; BACKSLASH])
                   ++ QUOTE :: lit "}")
                true (Z.of_nat (length opening)) [])
     = (true, length opening + (length (lit "ab") + 2),
        lit "ab" ++ [BACKSLASH; BACKSLASH]).
Proof.
  destruct terminator_iff_even_backslashes as (_ & H2 & H3 & H4).
  split; [|split].
  - apply (H2 opening (js "a\'b'") 4); [reflexivity|].
    intros j Hj [Q E].
    do 4 (destruct j as [|j]; [vm_compute in Q, E; discriminate|]). lia.
  - apply (H3 opening (lit "a\") (lit "b") (lit "a\")). reflexivity.
  - apply (H4 opening (lit "ab") (lit "}") []); [|reflexivity].
    intros j [Q E].
    do 2 (destruct j as [|j]; [vm_compute in Q; discriminate|]).
    destruct j; discriminate.
Defined.

(* ===================================================================== *)
(** * The delivery cursor *)
(* ===================================================================== *)

Lemma singleKey_atMostOnce (s : str) : singleKey s = true -> atMostOnce s.
Proof.
  unfold singleKey. intros H%Z.eqb_eq.
  change 0%Z with (Z.of_nat 0) in H.
  destruct (@indexOf_spec s marker 0 ltac:(lia)) as [[_ Hno]|(m & E & _ & Ho & Hm)].
  - intros i j Hi. exfalso. apply (Hno i); [lia | exact Hi].
  - rewrite E in H. replace (Z.of_nat m + 1)%Z with (Z.of_nat (m + 1)) in H by lia.
    pose proof (occursAt_bound Ho) as Hb.
    pose proof (@indexOf_none_absent s (m + 1) ltac:(lia) H) as Hlate.
    assert (Hall : forall i, occursAt marker s i -> i = m).
    { intros i Hi. destruct (Nat.lt_trichotomy i m) as [L|[L|L]];
        [exfalso; apply (Hm i); [lia | exact Hi] | exact L
         | exfalso; apply (Hlate i); [lia | exact Hi]]. }
    intros i j Hi Hj. rewrite (Hall i Hi), (Hall j Hj). reflexivity.
Qed.

Lemma atMostOnce_prefix (b t : str) : atMostOnce (b ++ t) -> atMostOnce b.
Proof.
  intros H i j Hi Hj. apply H.
  - apply (occursAt_prefix b t i marker_nonempty) in Hi. tauto.
  - apply (occursAt_prefix b t j marker_nonempty) in Hj. tauto.
Qed.

Lemma findKey_sent (st : DecoderState) :
  responseValueSentSoFar (findKey st) = responseValueSentSoFar st.
Proof.
  unfold findKey. destruct (isInsideResponseValue st); [reflexivity|].
  destruct (negb _); reflexivity.
Qed.

Lemma streamValue_cursor (st : DecoderState) :
  (cursor st <= cursor (snd (streamValue st)))%Z
  /\ cursor (snd (streamValue st))
     = (cursor st + len (concat (deltas (fst (streamValue st)))))%Z.
Proof.
  unfold cursor. destruct (isInsideResponseValue st) eqn:E.
  - rewrite (streamValue_scan _ E).
    destruct (scanValue st) as [[found q] cur]. cbn [fst snd].
    destruct (Nat.ltb_spec (length (responseValueSentSoFar st)) (length cur)).
    + cbn [responseValueSentSoFar deltas concat]. rewrite app_nil_r.
      unfold len. rewrite length_skipn. lia.
    + cbn [responseValueSentSoFar deltas concat]. unfold len. simpl. lia.
  - unfold streamValue. rewrite E. simpl. unfold len. simpl. lia.
Qed.

Lemma findKey_buffer (st : DecoderState) :
  fullStreamContent (findKey st) = fullStreamContent st.
Proof.
  unfold findKey. destruct (isInsideResponseValue st); [reflexivity|].
  destruct (negb _); reflexivity.
Qed.

Lemma streamValue_buffer (st : DecoderState) :
  fullStreamContent (snd (streamValue st)) = fullStreamContent st.
Proof.
  unfold streamValue. destruct (isInsideResponseValue st); [|reflexivity].
  destruct (scanValue st) as [[f q] cur]. destruct f; reflexivity.
Qed.

(** The buffer of a running decoder is all it has received. *)
Lemma feed_buffer (chunks : list str) :
  forall st evs st',
    feed st chunks = (evs, Continue st') ->
    fullStreamContent st' = fullStreamContent st ++ concat chunks.
Proof.
  induction chunks as [|x l IH]; intros st evs st'; simpl.
  - intros [= _ <-]. now rewrite app_nil_r.
  - rewrite consume_eq.
    pose proof (streamValue_buffer (findKey (appendChunk st x))) as B.
    rewrite findKey_buffer in B.
    destruct (streamValue _) as [e1 st2]. cbn [snd] in B.
    destruct (verdict _); [discriminate|].
    destruct (feed st2 l) as [e2 [st3|]] eqn:F2; [|discriminate].
    intros [= _ <-]. rewrite (IH _ _ _ F2), B. cbn [appendChunk fullStreamContent].
    now rewrite app_assoc.
Qed.

(* ===================================================================== *)
(** * The end of the stream *)
(* ===================================================================== *)

(** C4 (amended): when the transport signals the end of the stream while
    the decoder is inside the value -- the key marker has been found, the
    closing quote has not -- the decoder reports exactly one error, the
    one for an unterminated value, after the chunks sent, and no final
    object.  When it is not inside the value -- the marker was never
    found, or the value has been closed -- the whole text read goes to
    the final parse: a text of white space only gives the error for no
    content; a text that does not parse, and the text that parses to
    [null], whose property read throws in the same [try], give the
    error for invalid JSON; every other text gives the final object,
    the parsed value. *)
Theorem end_inside_value_is_unterminated
        (chunks : list str) (evs : list Event) (st : DecoderState) :
  feed initialState chunks = (evs, Continue st) ->
  (isInsideResponseValue st = true ->
   processStream (Some chunks)
   = OnStreamStart :: map OnStreamChunk (deltas evs)
       ++ [OnError UnterminatedValue])
  /\ (isInsideResponseValue st = false ->
      truthy (trim (concat chunks)) = false ->
      processStream (Some chunks)
      = OnStreamStart :: map OnStreamChunk (deltas evs)
          ++ [OnError NoContent])
  /\ (isInsideResponseValue st = false ->
      truthy (trim (concat chunks)) = true ->
      JSON_parse (concat chunks) = None ->
      processStream (Some chunks)
      = OnStreamStart :: map OnStreamChunk (deltas evs)
          ++ [OnError InvalidFinalJson])
  /\ (isInsideResponseValue st = false ->
      truthy (trim (concat chunks)) = true ->
      JSON_parse (concat chunks) = Some JNull ->
      processStream (Some chunks)
      = OnStreamStart :: map OnStreamChunk (deltas evs)
          ++ [OnError InvalidFinalJson])
  /\ (forall v,
        isInsideResponseValue st = false ->
        truthy (trim (concat chunks)) = true ->
        JSON_parse (concat chunks) = Some v -> v <> JNull ->
        processStream (Some chunks)
        = OnStreamStart :: map OnStreamChunk (deltas evs)
            ++ [OnStreamEnd v]).
Proof.
  intros F.
  assert (Hb : fullStreamContent st = concat chunks)
    by exact (feed_buffer _ _ F).
  assert (Hr : processStream (Some chunks)
               = OnStreamStart :: map OnStreamChunk (deltas evs) ++ onDone st).
  { unfold processStream. f_equal. rewrite readLoop_feed, F. f_equal.
    exact (proj1 (feed_continue_onlyChunks _ _ F)). }
  rewrite Hr. unfold onDone. rewrite Hb.
  split; [|split; [|split; [|split]]].
  - now intros ->.
  - now intros -> ->.
  - now intros -> -> ->.
  - now intros -> -> ->.
  - intros v -> -> -> Hv. now destruct v.
Qed.

Lemma end_inside_value_is_unterminated_witness :
  processStream (Some [js "{'resp"; js "onse': 'par"; lit "tial"])
  = [OnStreamStart; OnStreamChunk (lit "par"); OnStreamChunk (lit "tial");
     OnError UnterminatedValue]
  /\ processStream (Some [lit "nu"; lit "ll"])
     = [OnStreamStart; OnError InvalidFinalJson]
  /\ processStream (Some [lit " "; lit "7"])
     = [OnStreamStart; OnStreamEnd (JNumber (lit "7"))].
Proof.
  split; [|split].
  - apply (@end_inside_value_is_unterminated
             [js "{'resp"; js "onse': 'par"; lit "tial"]
             [OnStreamChunk (lit "par"); OnStreamChunk (lit "tial")]
             (mkState (js "{'response': 'partial") true 14 (lit "partial")));
      reflexivity.
  - apply (@end_inside_value_is_unterminated
             [lit "nu"; lit "ll"] []
             (mkState (lit "null") false (-1) []));
      reflexivity.
  - apply (@end_inside_value_is_unterminated
             [lit " "; lit "7"] []
             (mkState (lit " 7") false (-1) []));
      [reflexivity | reflexivity | reflexivity | reflexivity | discriminate].
Defined.

(** C4, as stated, fails when the key marker was never found: the end of
    the stream then leads to the final parse, which can succeed. *)
Lemma end_without_key_can_complete :
  feed initialState [lit "[]"]
  = ([], Continue (mkState (lit "[]") false (-1) []))
  /\ processStream (Some [lit "[]"]) = [OnStreamStart; OnStreamEnd (JArray [])].
Proof. split; reflexivity. Qed.

(** C7 (amended): in every iteration, from any state, the delivery
    cursor does not decrease and advances by exactly the length of the
    chunk sent.  In every run on a stream in which the key marker occurs
    at most once, moreover, the text sent so far is the concatenation of
    the chunks sent, each chunk is the slice of the value that follows
    it, and after an iteration inside the value the text sent is the
    whole value known, so that the cursor never exceeds its length. *)
Theorem cursor_never_decreases_and_slices_follow :
  (forall (st : DecoderState) (c : str),
      let out := streamValue (findKey (appendChunk st c)) in
      (cursor st <= cursor (snd out))%Z
      /\ cursor (snd out)
         = (cursor st + len (concat (deltas (fst out))))%Z)
  /\ (forall (chunks : list str) (c : str) (evs : list Event)
             (st : DecoderState),
         feed initialState chunks = (evs, Continue st) ->
         singleKey (fullStreamContent st ++ c) = true ->
         let st1 := findKey (appendChunk st c) in
         let out := streamValue st1 in
         responseValueSentSoFar st = concat (deltas evs)
         /\ responseValueSentSoFar (snd out)
            = responseValueSentSoFar st ++ concat (deltas (fst out))
         /\ (isInsideResponseValue st1 = true ->
             responseValueSentSoFar (snd out) = snd (scanValue st1)
             /\ (cursor (snd out) <= len (snd (scanValue st1)))%Z)).
Proof.
  split.
  - intros st c. cbv zeta.
    pose proof (streamValue_cursor (findKey (appendChunk st c))) as H.
    unfold cursor in *. rewrite findKey_sent in H. exact H.
  - intros chunks c evs st F Hs. cbv zeta.
    apply singleKey_atMostOnce in Hs.
    pose proof (@feed_tracks chunks [] initialState tracks_initial) as H.
    simpl app in H. rewrite F in H.
    assert (Hone : atMostOnce (concat chunks) -> tracks (concat chunks) st
                   /\ responseValueSentSoFar st = concat (deltas evs)).
    { intros Ha. destruct (H (atMostOnce_noKeyAfterValue Ha)) as (Ht & _ & E & _).
      split; [exact Ht | exact E]. }
    pose proof (feed_buffer _ _ F) as Hbuf. simpl in Hbuf.
    rewrite Hbuf in Hs.
    destruct (Hone (@atMostOnce_prefix (concat chunks) c Hs)) as [Ht Hsent].
    destruct (step_tracks c Ht (atMostOnce_noKeyAfterValue Hs))
      as (d & st' & E & _ & Hs' & Hcur).
    rewrite E. cbn [fst snd]. rewrite deltas_chunkEvent.
    split; [exact Hsent|]. split; [exact Hs'|].
    intros Hin. specialize (Hcur Hin). split; [now symmetry|].
    unfold cursor. rewrite Hcur. lia.
Qed.

Lemma cursor_never_decreases_and_slices_follow_witness :
  responseValueSentSoFar (mkState (js "{'response': 'Hel") true 14 (lit "Hel"))
  = concat (deltas [OnStreamChunk (lit "Hel")])
  /\ responseValueSentSoFar
       (snd (streamValue
               (findKey
                  (appendChunk
                     (mkState (js "{'response': 'Hel") true 14 (lit "Hel"))
                     (lit "lo")))))
     = responseValueSentSoFar
         (mkState (js "{'response': 'Hel") true 14 (lit "Hel"))
       ++ concat
            (deltas
               (fst (streamValue
                       (findKey
                          (appendChunk
                             (mkState (js "{'response': 'Hel") true 14
                                      (lit "Hel"))
                             (lit "lo"))))))
  /\ (isInsideResponseValue
        (findKey
           (appendChunk (mkState (js "{'response': 'Hel") true 14 (lit "Hel"))
                        (lit "lo"))) = true ->
      responseValueSentSoFar
        (snd (streamValue
                (findKey
                   (appendChunk
                      (mkState (js "{'response': 'Hel") true 14 (lit "Hel"))
                      (lit "lo")))))
      = snd (scanValue
               (findKey
                  (appendChunk
                     (mkState (js "{'response': 'Hel") true 14 (lit "Hel"))
                     (lit "lo"))))
      /\ (cursor
            (snd (streamValue
                    (findKey
                       (appendChunk
                          (mkState (js "{'response': 'Hel") true 14
                                   (lit "Hel"))
                          (lit "lo")))))
          <= len (snd (scanValue
                         (findKey
                            (appendChunk
                               (mkState (js "{'response': 'Hel") true 14
                                        (lit "Hel"))
                               (lit "lo"))))))%Z).
Proof.
  apply (proj2 cursor_never_decreases_and_slices_follow
               [js "{'response': 'Hel"] (lit "lo")
               [OnStreamChunk (lit "Hel")]
               (mkState (js "{'response': 'Hel") true 14 (lit "Hel")));
    reflexivity.
Defined.

(** C7, as stated, fails: when the key marker occurs a second time, the
    decoder turns to the second value, and its cursor, 5 after the first
    value, exceeds the length, 1, of the value it currently knows. *)
Lemma cursor_exceeds_second_value :
  feed initialState [js "{'response': 'hello', 'x': "]
  = ([OnStreamChunk (lit "hello")],
     Continue (mkState (js "{'response': 'hello', 'x': ") false 20
                       (lit "hello")))
  /\ scanValue
       (findKey
          (appendChunk
             (mkState (js "{'response': 'hello', 'x': ") false 20 (lit "hello"))
             (js "{'response': 'b'}}")))
     = (true, 42, lit "b")
  /\ cursor
       (snd (streamValue
               (findKey
                  (appendChunk
                     (mkState (js "{'response': 'hello', 'x': ") false 20
                              (lit "hello"))
                     (js "{'response': 'b'}}")))))
     = 5%Z
  /\ (len (lit "b") < 5)%Z.
Proof. repeat split; reflexivity. Qed.

(* ===================================================================== *)
(** * The JSON recogniser *)
(* ===================================================================== *)

Lemma prun_app (p : pstate) (a b : str) :
  prun p (a ++ b) = prun (prun p a) b.
Proof. unfold prun. apply fold_left_app. Qed.

Lemma prun_fail (st : list frame) (s : str) : prun (st, Rejected) s = (st, Rejected).
Proof. induction s as [|c s IH]; [reflexivity | exact IH]. Qed.

Lemma pfinish_fail (st : list frame) : pfinish (st, Rejected) = None.
Proof. destruct st; reflexivity. Qed.

Lemma pfinish_some (st : list frame) (m : mode) (v : json) :
  pfinish (st, m) = Some v ->
  st = [] /\ (m = Done v \/ exists acc, m = InNum acc).
Proof.
  destruct st as [|f st]; [|destruct m; discriminate].
  destruct m; try discriminate.
  - intros _. split; [reflexivity|]. right. now exists acc.
  - intros [= ->]. split; [reflexivity|]. now left.
Qed.

Lemma pstep_done (st : list frame) (v : json) (c : char) :
  pstep (st, Done v) c = (st, Done v) \/ pstep (st, Done v) c = (st, Rejected).
Proof. simpl. destruct (is_json_ws c); auto. Qed.

Lemma prun_done (st : list frame) (v : json) (s : str) :
  prun (st, Done v) s = (st, Done v) \/ prun (st, Done v) s = (st, Rejected).
Proof.
  induction s as [|c s IH]; [now left|].
  change (prun (st, Done v) (c :: s)) with (prun (pstep (st, Done v) c) s).
  destruct (pstep_done st v c) as [-> | ->]; [exact IH|].
  right. apply prun_fail.
Qed.

(** Once the value of the text is complete, more text does not change
    it. *)
Lemma parse_done_extend (st : list frame) (v w : json) (t : str) :
  pfinish (prun (st, Done v) t) = Some w -> w = v.
Proof.
  intros H. destruct (prun_done st v t) as [E|E]; rewrite E in H.
  - apply pfinish_some in H as [_ [H | [acc H]]]; congruence.
  - rewrite pfinish_fail in H. discriminate.
Qed.

(** ** The recogniser and the balance scan agree *)

Ltac norejected :=
  match goal with
  | H : snd (_, Rejected) <> Rejected |- _ => exfalso; apply H; reflexivity
  | H : Rejected <> Rejected |- _ => exfalso; apply H; reflexivity
  end.

Lemma deliver_balance (v : json) (st : list frame) :
  snd (deliver v st) <> Rejected ->
  balanceOf (deliver v st) = mkBalance (objDepth st) false false.
Proof.
  destruct st as [|[es | ms [k|]] st]; simpl; intros H; reflexivity.
Qed.

Ltac split_char c :=
  destruct (N.eqb_spec c 34) as [->|?];
  [|destruct (N.eqb_spec c 92) as [->|?];
    [|destruct (N.eqb_spec c 123) as [->|?];
      [|destruct (N.eqb_spec c 125) as [->|?]]]].

Lemma balanceChar_plain (b : Balance) (c : char) :
  c <> 34%N -> c <> 92%N -> c <> 123%N -> c <> 125%N ->
  balanceChar b c = mkBalance (braceLevel b) (inString b) false.
Proof.
  intros H1 H2 H3 H4. unfold balanceChar, QUOTE, BACKSLASH, LBRACE, RBRACE.
  rewrite (proj2 (N.eqb_neq c 34) H1), (proj2 (N.eqb_neq c 92) H2),
    (proj2 (N.eqb_neq c 123) H3), (proj2 (N.eqb_neq c 125) H4).
  simpl. now rewrite !andb_false_r.
Qed.

Lemma closed_step_balance (st : list frame) (m : mode) (c : char) :
  modeInString m = false ->
  snd (closed_step (st, m) c) <> Rejected ->
  balanceOf (closed_step (st, m) c)
  = balanceChar (mkBalance (objDepth st) false false) c.
Proof.
  intros Hm. destruct m; try discriminate; try (simpl; intros; norejected).
  - (* AfterValue *)
    split_char c; simpl.
    + intros; norejected.
    + intros; norejected.
    + intros; norejected.
    + destruct st as [|[es | ms [k|]] st]; simpl; try (intros; norejected).
      intros H. rewrite deliver_balance by exact H.
      unfold balanceChar. simpl. f_equal. lia.
    + rewrite balanceChar_plain by assumption. simpl.
      destruct (is_json_ws c); [reflexivity|].
      destruct (N.eqb c 44).
      { destruct st as [|[es | ms [k|]] st]; simpl; try (intros; norejected);
          reflexivity. }
      destruct (N.eqb c 93).
      { destruct st as [|[es | ms k] st]; simpl; try (intros; norejected).
        intros H. now rewrite deliver_balance. }
      destruct (N.eqb_spec c 125); [contradiction|]. intros; norejected.
  - (* Done *)
    split_char c; simpl; try (intros; norejected).
    rewrite balanceChar_plain by assumption. simpl.
    destruct (is_json_ws c); [reflexivity | intros; norejected].
Qed.

Lemma value_start_balance (st : list frame) (c : char) :
  snd (value_start st c) <> Rejected ->
  balanceOf (value_start st c)
  = balanceChar (mkBalance (objDepth st) false false) c.
Proof.
  split_char c; try (simpl; intros; norejected); try reflexivity.
  rewrite balanceChar_plain by assumption. unfold value_start.
  destruct (N.eqb_spec c 123); [contradiction|].
  destruct (N.eqb c 91); [reflexivity|].
  destruct (N.eqb_spec c 34); [contradiction|].
  destruct (N.eqb c 116); [reflexivity|].
  destruct (N.eqb c 102); [reflexivity|].
  destruct (N.eqb c 110); [reflexivity|].
  destruct (N.eqb c 45 || is_digit c); [reflexivity|].
  simpl. intros; norejected.
Qed.

Lemma ws_plain (c : char) :
  is_json_ws c = true ->
  c <> 34%N /\ c <> 92%N /\ c <> 123%N /\ c <> 125%N.
Proof.
  unfold is_json_ws. rewrite !orb_true_iff, !N.eqb_eq.
  intros [[[-> | ->] | ->] | ->]; repeat split; discriminate.
Qed.

Lemma num_char_plain (c : char) :
  is_num_char c = true ->
  c <> 34%N /\ c <> 92%N /\ c <> 123%N /\ c <> 125%N.
Proof.
  unfold is_num_char, is_digit.
  rewrite !orb_true_iff, andb_true_iff, !N.leb_le, !N.eqb_eq.
  intros H. repeat split; intros ->; lia.
Qed.

Lemma keyword_char_plain (k : keyword) (n : nat) (c : char) :
  nth_error (keywordText k) n = Some c ->
  c <> 34%N /\ c <> 92%N /\ c <> 123%N /\ c <> 125%N.
Proof.
  destruct k; do 5 (destruct n as [|n]; [intros [= <-]; repeat split;
                                         discriminate|]);
    destruct n; discriminate.
Qed.

Lemma deliver_mode (v : json) (st : list frame) :
  modeInString (snd (deliver v st)) = false.
Proof. destruct st as [|[es | ms [k|]] st]; reflexivity. Qed.

Lemma deliver_depth (v : json) (st : list frame) :
  objDepth (fst (deliver v st)) = objDepth st.
Proof. destruct st as [|[es | ms [k|]] st]; reflexivity. Qed.

(** One character moves the recogniser and the balance scan alike. *)
Lemma pstep_balance (p : pstate) (c : char) :
  snd (pstep p c) <> Rejected ->
  balanceOf (pstep p c) = balanceChar (balanceOf p) c.
Proof.
  destruct p as [st m]. destruct m.
  - (* ExpValue *)
    simpl pstep. destruct (is_json_ws c) eqn:W.
    + destruct (ws_plain _ W) as (? & ? & ? & ?).
      intros _. now rewrite balanceChar_plain.
    + apply value_start_balance.
  - (* ExpValueOrEnd *)
    simpl pstep. destruct (is_json_ws c) eqn:W.
    + destruct (ws_plain _ W) as (? & ? & ? & ?).
      intros _. now rewrite balanceChar_plain.
    + destruct (N.eqb_spec c 93) as [->|?]; [|apply value_start_balance].
      destruct st as [|[es | ms k] st]; simpl; try (intros; norejected).
      intros H. now rewrite deliver_balance.
  - (* ExpKeyOrEnd *)
    simpl pstep. destruct (is_json_ws c) eqn:W.
    + destruct (ws_plain _ W) as (? & ? & ? & ?).
      intros _. now rewrite balanceChar_plain.
    + destruct (N.eqb_spec c 34) as [->|?]; [reflexivity|].
      destruct (N.eqb_spec c 125) as [->|?]; [|simpl; intros; norejected].
      destruct st as [|[es | ms k] st]; simpl; try (intros; norejected).
      intros H. rewrite deliver_balance by exact H.
      unfold balanceChar. simpl. f_equal. lia.
  - (* ExpKey *)
    simpl pstep. destruct (is_json_ws c) eqn:W.
    + destruct (ws_plain _ W) as (? & ? & ? & ?).
      intros _. now rewrite balanceChar_plain.
    + destruct (N.eqb_spec c 34) as [->|?]; [reflexivity|].
      simpl; intros; norejected.
  - (* ExpColon *)
    simpl pstep. destruct (is_json_ws c) eqn:W.
    + destruct (ws_plain _ W) as (? & ? & ? & ?).
      intros _. now rewrite balanceChar_plain.
    + destruct (N.eqb_spec c 58) as [->|?]; [reflexivity|].
      simpl; intros; norejected.
  - (* AfterValue *)
    apply closed_step_balance. reflexivity.
  - (* InStr *)
    simpl pstep. destruct (N.eqb_spec c 34) as [->|?].
    + destruct iskey.
      * destruct st as [|[es | ms k] st]; simpl; try (intros; norejected).
        reflexivity.
      * intros H. now rewrite deliver_balance.
    + destruct (N.eqb_spec c 92) as [->|?]; [reflexivity|].
      destruct (N.ltb c 32); [simpl; intros; norejected|].
      intros _. unfold balanceChar, balanceOf, QUOTE, BACKSLASH. simpl.
      rewrite (proj2 (N.eqb_neq c 34)), (proj2 (N.eqb_neq c 92)) by assumption.
      reflexivity.
  - (* InEsc *)
    simpl pstep. unfold balanceChar, balanceOf. simpl.
    rewrite !andb_false_r.
    destruct (unescape_char c); [reflexivity|].
    destruct (N.eqb c 117); [reflexivity | simpl; intros; norejected].
  - (* InUni *)
    simpl pstep. destruct (hex_value c) as [d|] eqn:Hx;
      [|simpl; intros; norejected].
    assert (Hp : c <> 34%N /\ c <> 92%N).
    { unfold hex_value, is_digit in Hx.
      split; intros ->; discriminate. }
    destruct Hp as [H1 H2].
    assert (E : balanceChar (balanceOf (st, InUni acc iskey n v)) c
                = mkBalance (objDepth st) true false).
    { unfold balanceChar, balanceOf, QUOTE, BACKSLASH. simpl.
      rewrite (proj2 (N.eqb_neq c 34) H1), (proj2 (N.eqb_neq c 92) H2).
      reflexivity. }
    rewrite E. destruct (Nat.eqb n 3); reflexivity.
  - (* InNum *)
    simpl pstep. destruct (is_num_char c) eqn:W.
    + destruct (num_char_plain _ W) as (? & ? & ? & ?).
      intros _. now rewrite balanceChar_plain.
    + destruct (valid_number (rev acc)); [|simpl; intros; norejected].
      pose proof (deliver_mode (JNumber (rev acc)) st) as Hm.
      pose proof (deliver_depth (JNumber (rev acc)) st) as Hd.
      destruct (deliver (JNumber (rev acc)) st) as [st' m'].
      cbn [fst snd] in Hm, Hd. intros H.
      rewrite (@closed_step_balance st' m' c Hm H). now rewrite Hd.
  - (* InLit *)
    simpl pstep. destruct (nth_error (keywordText k) n) as [r|] eqn:E;
      [|simpl; intros; norejected].
    destruct (N.eqb_spec c r) as [->|?]; [|simpl; intros; norejected].
    destruct (keyword_char_plain _ _ E) as (? & ? & ? & ?).
    rewrite balanceChar_plain by assumption.
    match goal with
    | |- context [if ?b then deliver _ _ else _] => destruct b
    end; [|reflexivity].
    intros H3. now rewrite deliver_balance.
  - (* Done *)
    apply closed_step_balance. reflexivity.
  - (* Rejected *)
    simpl. intros; norejected.
Qed.

Lemma prun_not_fail_prefix (a b : str) (p : pstate) :
  snd (prun p (a ++ b)) <> Rejected -> snd (prun p a) <> Rejected.
Proof.
  rewrite prun_app. intros H E. apply H.
  destruct (prun p a) as [st m]. simpl in E. subst m.
  now rewrite prun_fail.
Qed.

(** While the recogniser has not failed, the balance scan of the text
    read is the balance of its state. *)
Lemma prun_balance (s : str) :
  forall p : pstate,
    snd (prun p s) <> Rejected ->
    balanceOf (prun p s) = fold_left balanceChar s (balanceOf p).
Proof.
  induction s as [|c s IH]; intros p H; [reflexivity|].
  change (prun p (c :: s)) with (prun (pstep p c) s) in *.
  rewrite IH by exact H. simpl. f_equal. apply pstep_balance.
  apply (@prun_not_fail_prefix [c] s p H).
Qed.

Lemma parse_not_fail (s : str) (v : json) :
  JSON_parse s = Some v -> snd (prun pinit s) <> Rejected.
Proof.
  unfold JSON_parse. destruct (prun pinit s) as [st m].
  intros H E. cbn [snd] in E. subst m. rewrite pfinish_fail in H.
  discriminate.
Qed.

(** A text that parses is balanced for the decoder's scan. *)
Lemma parse_balanced (s : str) (v : json) :
  JSON_parse s = Some v ->
  braceLevel (balance s) = 0%Z /\ inString (balance s) = false.
Proof.
  intros H. pose proof (parse_not_fail _ H) as Hn.
  pose proof (prun_balance _ _ Hn) as E. change (fold_left balanceChar s _)
    with (balance s) in E. rewrite <- E.
  unfold JSON_parse in H. destruct (prun pinit s) as [st m].
  apply pfinish_some in H as [-> [-> | [acc ->]]]; split; reflexivity.
Qed.

(* ===================================================================== *)
(** * Texts whose value is an object *)
(* ===================================================================== *)

Lemma bottomMembers_push (f : frame) (st : list frame) :
  st <> [] -> bottomMembers (f :: st) = bottomMembers st.
Proof. destruct st; [congruence | reflexivity]. Qed.

Lemma bottomMembers_nonempty (st : list frame) (ms : list (str * json)) :
  bottomMembers st = Some ms -> st <> [].
Proof. destruct st; [discriminate | discriminate]. Qed.

Lemma bottomMembers_depth (st : list frame) (ms : list (str * json)) :
  bottomMembers st = Some ms -> (1 <= objDepth st)%Z.
Proof.
  induction st as [|f st IH]; [discriminate|].
  destruct st as [|g st].
  - destruct f; [discriminate|]. simpl. lia.
  - intros H. rewrite bottomMembers_push in H by discriminate.
    specialize (IH H). destruct f; simpl in *; lia.
Qed.

Section ObjectInvariant.

Variable ms0 : list (str * json).

Lemma objInv_growing (st : list frame) (m : mode) (seen : bool) :
  growing ms0 st -> (forall v, m <> Done v) -> objInv ms0 (st, m) seen.
Proof.
  intros G Hm. unfold objInv. cbn [fst snd].
  destruct m; try exact G; [|exact I]. now destruct (Hm v).
Qed.

Lemma deliver_objInv (v : json) (st : list frame) (seen : bool) :
  growing ms0 st -> objInv ms0 (deliver v st) seen.
Proof.
  intros [ms G]. destruct st as [|[es | fm [k|]] st]; simpl.
  - discriminate.
  - apply objInv_growing; [|discriminate].
    exists ms. destruct st; [discriminate | exact G].
  - apply objInv_growing; [|discriminate].
    destruct st as [|g st].
    + injection G as ->. exists ((k, v) :: ms). reflexivity.
    + exists ms. exact G.
  - exact I.
Qed.

Lemma close_objInv (fm : list (str * json)) (k : option str)
      (st : list frame) (seen : bool) :
  growing ms0 (FObj fm k :: st) ->
  objInv ms0 (deliver (JObject (rev fm)) st) true.
Proof.
  intros [ms G]. destruct st as [|g st].
  - injection G as ->. simpl. unfold objInv. cbn [fst snd].
    split; [|split; reflexivity]. exists (rev ms).
    now rewrite rev_app_distr.
  - apply deliver_objInv. exists ms. exact G.
Qed.

Lemma pop_array_growing (es : list json) (st : list frame) :
  growing ms0 (FArr es :: st) -> growing ms0 st.
Proof.
  intros [ms G]. exists ms. destruct st; [discriminate | exact G].
Qed.

Lemma push_growing (f : frame) (st : list frame) :
  growing ms0 st -> growing ms0 (f :: st).
Proof.
  intros [ms G]. exists ms.
  rewrite bottomMembers_push; [exact G|].
  eapply bottomMembers_nonempty; eauto.
Qed.

Lemma objInv_seen (p : pstate) (seen : bool) (b : bool) :
  objInv ms0 p seen -> objInv ms0 p (seen || b).
Proof.
  unfold objInv. destruct (snd p); auto.
  intros (H1 & -> & H3). auto.
Qed.

Lemma objInv_mode (st : list frame) (m : mode) (seen : bool) :
  objInv ms0 (st, m) seen -> (forall v, m <> Done v) -> m <> Rejected ->
  growing ms0 st.
Proof.
  unfold objInv. cbn [fst snd]. intros H Hd Hf.
  destruct m; try exact H; [now destruct (Hd v) | congruence].
Qed.

Ltac growing_from H :=
  match type of H with
  | objInv _ (?st, _) _ =>
      assert (G : growing ms0 st)
        by (eapply objInv_mode; [exact H | discriminate | discriminate])
  end.

Lemma closed_step_objInv (st : list frame) (m : mode) (c : char)
      (seen : bool) :
  objInv ms0 (st, m) seen ->
  objInv ms0 (closed_step (st, m) c) (seen || N.eqb c 125).
Proof.
  intros H. destruct m; try exact I.
  - (* AfterValue *)
    growing_from H.
    simpl. destruct (is_json_ws c); [now apply objInv_seen|].
    destruct (N.eqb c 44).
    { destruct st as [|[es | fm [k|]] st]; try exact I;
        (apply objInv_growing; [exact G | discriminate]). }
    destruct (N.eqb c 93).
    { destruct st as [|[es | fm k] st]; try exact I.
      apply deliver_objInv. eapply pop_array_growing; eauto. }
    destruct (N.eqb c 125) eqn:E; [|exact I].
    destruct st as [|[es | fm [k|]] st]; try exact I.
    rewrite orb_true_r. eapply close_objInv; eauto.
  - (* Done *)
    simpl. destruct (is_json_ws c); [now apply objInv_seen | exact I].
Qed.

Lemma value_start_objInv (st : list frame) (c : char) (seen : bool) :
  growing ms0 st -> objInv ms0 (value_start st c) seen.
Proof.
  intros G. unfold value_start.
  repeat match goal with
         | |- context [if ?b then _ else _] => destruct b
         end; try exact I;
    (apply objInv_growing; [|discriminate]);
    try exact G; now apply push_growing.
Qed.

(** One character keeps the invariant; a closing brace counts as
    seen. *)
Lemma pstep_objInv (p : pstate) (c : char) (seen : bool) :
  objInv ms0 p seen -> objInv ms0 (pstep p c) (seen || N.eqb c 125).
Proof.
  destruct p as [st m]. intros H.
  destruct m; try growing_from H.
  - (* ExpValue *)
    simpl pstep. destruct (is_json_ws c); [now apply objInv_seen|].
    now apply value_start_objInv.
  - (* ExpValueOrEnd *)
    simpl pstep. destruct (is_json_ws c); [now apply objInv_seen|].
    destruct (N.eqb c 93); [|now apply value_start_objInv].
    destruct st as [|[es | fm k] st]; try exact I.
    apply deliver_objInv. eapply pop_array_growing; eauto.
  - (* ExpKeyOrEnd *)
    simpl pstep. destruct (is_json_ws c); [now apply objInv_seen|].
    destruct (N.eqb c 34); [apply objInv_growing; [exact G|discriminate]|].
    destruct (N.eqb c 125) eqn:E; [|exact I].
    destruct st as [|[es | fm k] st]; try exact I.
    rewrite orb_true_r. eapply close_objInv; eauto.
  - (* ExpKey *)
    simpl pstep. destruct (is_json_ws c); [now apply objInv_seen|].
    destruct (N.eqb c 34); [apply objInv_growing; [exact G|discriminate]|].
    exact I.
  - (* ExpColon *)
    simpl pstep. destruct (is_json_ws c); [now apply objInv_seen|].
    destruct (N.eqb c 58); [apply objInv_growing; [exact G|discriminate]|].
    exact I.
  - (* AfterValue *)
    now apply closed_step_objInv.
  - (* InStr *)
    simpl pstep. destruct (N.eqb c 34).
    + destruct iskey; [|now apply deliver_objInv].
      destruct st as [|[es | fm k] st]; try exact I.
      apply objInv_growing; [|discriminate].
      destruct G as [ms G]. exists ms. destruct st; exact G.
    + destruct (N.eqb c 92); [apply objInv_growing; [exact G|discriminate]|].
      destruct (N.ltb c 32); [exact I|].
      apply objInv_growing; [exact G|discriminate].
  - (* InEsc *)
    simpl pstep. destruct (unescape_char c);
      [apply objInv_growing; [exact G|discriminate]|].
    destruct (N.eqb c 117); [apply objInv_growing; [exact G|discriminate]|].
    exact I.
  - (* InUni *)
    simpl pstep. destruct (hex_value c); [|exact I].
    destruct (Nat.eqb n 3); apply objInv_growing;
      solve [exact G | discriminate].
  - (* InNum *)
    simpl pstep.
    destruct (is_num_char c); [apply objInv_growing; [exact G|discriminate]|].
    destruct (valid_number (rev acc)); [|exact I].
    pose proof (@deliver_objInv (JNumber (rev acc)) st seen G) as D.
    destruct (deliver (JNumber (rev acc)) st) as [st' m'].
    now apply closed_step_objInv.
  - (* InLit *)
    simpl pstep. destruct (nth_error (keywordText k) n); [|exact I].
    destruct (N.eqb c c0); [|exact I].
    match goal with
    | |- context [if ?b then deliver _ _ else _] => destruct b
    end; [now apply deliver_objInv|].
    apply objInv_growing; [exact G|discriminate].
  - (* Done *)
    now apply closed_step_objInv.
  - exact I.
Qed.

Lemma prun_objInv (s : str) :
  forall (p : pstate) (seen : bool),
    objInv ms0 p seen -> objInv ms0 (prun p s) (seen || includes s RBRACE).
Proof.
  induction s as [|c s IH]; intros p seen H.
  - simpl. now rewrite orb_false_r.
  - change (prun p (c :: s)) with (prun (pstep p c) s).
    unfold includes. cbn [existsb]. fold (includes s RBRACE).
    rewrite orb_assoc. apply IH.
    replace (N.eqb RBRACE c) with (N.eqb c 125) by apply N.eqb_sym.
    now apply pstep_objInv.
Qed.

End ObjectInvariant.

(* ===================================================================== *)
(** * The completion check on a text whose value is an object *)
(* ===================================================================== *)

Lemma balance_prun (s : str) :
  snd (prun pinit s) <> Rejected -> balance s = balanceOf (prun pinit s).
Proof. intros H. now rewrite (prun_balance _ _ H). Qed.

(** Where the recogniser stands in a text of an object with first members
    [ms0], the completion check decides: it lets the text pass while the
    object is open, and ends the stream with the object once it is
    closed. *)
Lemma verdict_by_state (ms0 : list (str * json)) (B : str) :
  includes B LBRACE = true ->
  objInv ms0 (prun pinit B) (includes B RBRACE) ->
  snd (prun pinit B) <> Rejected ->
  (verdict B = None /\ JSON_parse B = None)
  \/ exists ms, prun pinit B = ([], Done (JObject (rev ms0 ++ ms)))
                /\ verdict B = Some (OnStreamEnd (JObject (rev ms0 ++ ms))).
Proof.
  intros Hl Hinv Hnf. pose proof (balance_prun _ Hnf) as Hb.
  unfold verdict, looksComplete, JSON_parse. rewrite Hb.
  destruct (prun pinit B) as [st m]. unfold objInv in Hinv.
  cbn [fst snd] in *.
  assert (Hopen : (exists ms, bottomMembers st = Some (ms ++ ms0)) ->
                  (forall v, m <> Done v) ->
                  (if (objDepth st =? 0)%Z && negb (modeInString m)
                      && includes B LBRACE && includes B RBRACE
                   then match pfinish (st, m) with
                        | Some parsedJson =>
                            if property_access_throws parsedJson
                            then if (maxLength <? len B)%Z
                                 then Some (OnError ExceededMaxLength)
                                 else None
                            else Some (OnStreamEnd parsedJson)
                        | None => if (maxLength <? len B)%Z
                                  then Some (OnError ExceededMaxLength)
                                  else None
                        end
                   else None) = None /\ pfinish (st, m) = None).
  { intros [ms G] Hd. pose proof (bottomMembers_depth _ G) as D.
    replace (objDepth st =? 0)%Z with false
      by (symmetry; apply Z.eqb_neq; lia).
    split; [reflexivity|].
    destruct st; [discriminate|]. destruct m; reflexivity. }
  destruct m; try (left; apply Hopen; [exact Hinv | discriminate]).
  - destruct Hinv as ([ms ->] & Hs & ->). right. exists ms.
    split; [reflexivity|]. simpl. now rewrite Hl, Hs.
  - exfalso. now apply Hnf.
Qed.

Lemma object_text_inv (S' : str) :
  objInv [] (prun pinit (LBRACE :: S')) (includes (LBRACE :: S') RBRACE).
Proof.
  change (prun pinit (LBRACE :: S'))
    with (prun ([FObj [] None], ExpKeyOrEnd) S').
  change (includes (LBRACE :: S') RBRACE)
    with (false || includes S' RBRACE).
  apply prun_objInv. unfold objInv. cbn [fst snd]. now exists [].
Qed.

(** On any part of a text of an object that parses, the completion check
    either lets it pass or ends the stream with the object of the whole
    text. *)
Lemma verdict_object_prefix (S' B t : str) (obj : json) :
  JSON_parse (LBRACE :: S') = Some obj -> B ++ t = LBRACE :: S' ->
  verdict B = None \/ verdict B = Some (OnStreamEnd obj).
Proof.
  intros Hp E. destruct B as [|b B]; [now left|].
  injection E as -> E.
  assert (Hnf : snd (prun pinit (LBRACE :: B)) <> Rejected).
  { apply (@prun_not_fail_prefix (LBRACE :: B) t). simpl app. rewrite E.
    eapply parse_not_fail; eauto. }
  destruct (@verdict_by_state [] (LBRACE :: B) eq_refl (object_text_inv B) Hnf)
    as [[Hv _] | (ms & Hst & Hv)]; [now left|].
  right. rewrite Hv. f_equal. f_equal.
  unfold JSON_parse in Hp. rewrite <- E in Hp.
  change (LBRACE :: B ++ t) with ((LBRACE :: B) ++ t) in Hp.
  rewrite prun_app, Hst in Hp. symmetry. eapply parse_done_extend; eauto.
Qed.

Lemma verdict_object_whole (S' : str) (obj : json) :
  JSON_parse (LBRACE :: S') = Some obj ->
  verdict (LBRACE :: S') = Some (OnStreamEnd obj).
Proof.
  intros Hp.
  destruct (@verdict_by_state [] (LBRACE :: S') eq_refl (object_text_inv S')
                              (parse_not_fail _ Hp))
    as [[_ Hv] | (ms & Hst & Hv)]; [congruence|].
  rewrite Hv. unfold JSON_parse in Hp. rewrite Hst in Hp.
  simpl in Hp. simpl. congruence.
Qed.

(** ** The loop in terms of the verdicts, for any state *)

Lemma feed_verdicts (chunks : list str) :
  forall (st : DecoderState),
    match feed st chunks with
    | (evs, Continue st') =>
        onlyChunks evs /\ noVerdictAlong (fullStreamContent st) chunks
    | (evs, Break) =>
        exists chunks1 c chunks2 ev evs1,
          chunks = chunks1 ++ c :: chunks2 /\ evs = evs1 ++ [ev] /\
          onlyChunks evs1 /\
          verdict (fullStreamContent st ++ concat (chunks1 ++ [c])) = Some ev
    end.
Proof.
  induction chunks as [|c rest IH]; intros st.
  - simpl. split; [apply onlyChunks_nil|]. intros [|] ? ? ?; discriminate.
  - simpl feed. rewrite consume_eq.
    pose proof (streamValue_onlyChunks (findKey (appendChunk st c))) as Hs.
    pose proof (streamValue_buffer (findKey (appendChunk st c))) as Hb.
    rewrite findKey_buffer in Hb. cbn [appendChunk fullStreamContent] in Hb.
    destruct (streamValue _) as [e1 st2]. cbn [fst snd] in Hs, Hb.
    rewrite Hb.
    destruct (verdict (fullStreamContent st ++ c)) as [ev|] eqn:V.
    + exists [], c, rest, ev, e1. simpl. rewrite app_nil_r. auto.
    + specialize (IH st2). rewrite Hb in IH.
      destruct (feed st2 rest) as [e2 [st3|]].
      * destruct IH as [Ho Hn]. split; [now apply onlyChunks_app|].
        intros [|c1 chunks1] c' chunks2 Heq.
        -- injection Heq as <- <-. simpl. now rewrite app_nil_r.
        -- injection Heq as <- Heq. simpl. rewrite app_assoc.
           eapply Hn; eauto.
      * destruct IH as (chunks1 & c' & chunks2 & ev & evs1 & -> & -> & Ho & Hv).
        exists (c :: chunks1), c', chunks2, ev, (e1 ++ evs1).
        simpl. rewrite app_assoc.
        split; [reflexivity|]. split; [reflexivity|].
        split; [now apply onlyChunks_app|].
        now rewrite <- app_assoc in Hv.
Qed.

Lemma verdict_end_parse (buf : str) (obj : json) :
  verdict buf = Some (OnStreamEnd obj) -> JSON_parse buf = Some obj.
Proof.
  unfold verdict. destruct (looksComplete buf); [|discriminate].
  destruct (JSON_parse buf) as [v|].
  - destruct (property_access_throws v).
    + destruct (_ <? _)%Z; discriminate.
    + now intros [= ->].
  - destruct (_ <? _)%Z; discriminate.
Qed.

Lemma onDone_end_parse (st : DecoderState) (obj : json) :
  In (OnStreamEnd obj) (onDone st) ->
  JSON_parse (fullStreamContent st) = Some obj.
Proof.
  unfold onDone. destruct (isInsideResponseValue st).
  { intros [H|[]]; discriminate. }
  destruct (truthy _); [|intros [H|[]]; discriminate].
  destruct (JSON_parse _) as [v|]; [|intros [H|[]]; discriminate].
  destruct (property_access_throws v); intros [H|[]]; congruence.
Qed.

(** What a decoder that is given a whole text at once reports as the
    final object is the result of parsing the text. *)
Lemma single_chunk_end_parse (s : str) (obj : json) :
  In (OnStreamEnd obj) (processStream (Some [s])) ->
  JSON_parse s = Some obj.
Proof.
  unfold processStream. intros [H|H]; [discriminate|].
  rewrite readLoop_feed in H.
  pose proof (feed_verdicts [s] initialState) as F.
  pose proof (feed_buffer [s] initialState) as Fb.
  destruct (feed initialState [s]) as [evs [st'|]].
  - destruct F as [Ho _]. apply in_app_or in H as [H|H].
    + now apply onlyChunks_no_end in H.
    + apply onDone_end_parse in H.
      rewrite (Fb _ _ eq_refl) in H. simpl in H. now rewrite app_nil_r in H.
  - destruct F as (c1 & c & c2 & ev & evs1 & E & -> & Ho & Hv).
    assert (c1 = [] /\ c = s /\ c2 = []) as (-> & -> & ->).
    { destruct c1 as [|x [|y c1]]; simpl in E.
      - injection E as <- <-. auto.
      - injection E as _ E. discriminate.
      - injection E as _ E. discriminate. }
    simpl in Hv. rewrite app_nil_r in Hv.
    apply in_app_or in H as [H|[H|[]]].
    + now apply onlyChunks_no_end in H.
    + subst ev. now apply verdict_end_parse.
Qed.

(** A text of an object that the decoder accepts at once is accepted in
    chunks, with the same final object. *)
Lemma chunking_object_text (S' : str) (obj : json) (chunks : list str) :
  JSON_parse (LBRACE :: S') = Some obj ->
  concat chunks = LBRACE :: S' ->
  processStream (Some chunks)
  = OnStreamStart
      :: map OnStreamChunk (deltas (processStream (Some chunks)))
      ++ [OnStreamEnd obj].
Proof.
  intros Hacc Hc.
  unfold processStream. rewrite readLoop_feed.
  pose proof (feed_verdicts chunks initialState) as F.
  destruct (feed initialState chunks) as [evs [st'|]].
  - exfalso. destruct F as [_ Hn]. simpl in Hn.
    destruct (@exists_last _ chunks) as (c1 & c & E).
    { intros ->. discriminate. }
    specialize (Hn c1 c [] E). rewrite <- E, Hc in Hn. simpl app in Hn.
    rewrite (verdict_object_whole _ Hacc) in Hn. discriminate.
  - destruct F as (c1 & c & c2 & ev & evs1 & E & -> & Ho & Hv).
    simpl in Hv.
    destruct (@verdict_object_prefix S' (concat (c1 ++ [c])) (concat c2) obj Hacc)
      as [Hn | Hy].
    + rewrite <- Hc, E, <- concat_app, <- app_assoc. reflexivity.
    + congruence.
    + rewrite Hy in Hv. injection Hv as <-.
      cbn [deltas]. rewrite deltas_app. cbn [deltas]. rewrite app_nil_r.
      f_equal. f_equal. exact (proj1 Ho).
Qed.

(* ===================================================================== *)
(** * A long array *)
(* ===================================================================== *)

Lemma no_quote_no_key (s : str) :
  includes s QUOTE = false -> forall j, ~ occursAt marker s j.
Proof.
  intros H j Ho. apply occursAt_head, includes_nth in Ho. congruence.
Qed.

Lemma includes_repeat_space (n : nat) (c : char) :
  c <> 32%N -> includes (repeat 32%N n) c = false.
Proof.
  intros H. unfold includes. induction n as [|n IH]; [reflexivity|].
  simpl. rewrite IH, orb_false_r. now apply N.eqb_neq.
Qed.

Lemma balance_repeat_space (n : nat) (l : Z) (s : bool) :
  fold_left balanceChar (repeat 32%N n) (mkBalance l s false)
  = mkBalance l s false.
Proof. destruct s; (induction n as [|n IH]; [reflexivity | exact IH]). Qed.

Lemma prun_repeat_space (n : nat) (st : list frame) :
  prun (st, ExpValueOrEnd) (repeat 32%N n) = (st, ExpValueOrEnd).
Proof. induction n as [|n IH]; [reflexivity | exact IH]. Qed.

Lemma spaced_array_open (n : nat) :
  looksComplete (lit "[" ++ repeat 32%N n ++ lit "{}") = true
  /\ JSON_parse (lit "[" ++ repeat 32%N n ++ lit "{}") = None
  /\ includes (lit "[" ++ repeat 32%N n ++ lit "{}") QUOTE = false.
Proof.
  split; [|split].
  - unfold looksComplete, balance. rewrite !fold_left_app, !includes_app.
    change (fold_left balanceChar (lit "[") (mkBalance 0 false false))
      with (mkBalance 0 false false).
    rewrite balance_repeat_space.
    rewrite !includes_repeat_space by discriminate. reflexivity.
  - unfold JSON_parse. rewrite !prun_app.
    change (prun pinit (lit "[")) with ([FArr []], ExpValueOrEnd).
    now rewrite prun_repeat_space.
  - rewrite !includes_app, includes_repeat_space by discriminate. reflexivity.
Qed.

Lemma spaced_array_closed (n : nat) :
  looksComplete (lit "[" ++ repeat 32%N n ++ lit "{}]") = true
  /\ JSON_parse (lit "[" ++ repeat 32%N n ++ lit "{}]")
     = Some (JArray [JObject []])
  /\ includes (lit "[" ++ repeat 32%N n ++ lit "{}]") QUOTE = false.
Proof.
  split; [|split].
  - unfold looksComplete, balance. rewrite !fold_left_app, !includes_app.
    change (fold_left balanceChar (lit "[") (mkBalance 0 false false))
      with (mkBalance 0 false false).
    rewrite balance_repeat_space.
    rewrite !includes_repeat_space by discriminate. reflexivity.
  - unfold JSON_parse. rewrite !prun_app.
    change (prun pinit (lit "[")) with ([FArr []], ExpValueOrEnd).
    now rewrite prun_repeat_space.
  - rewrite !includes_app, includes_repeat_space by discriminate. reflexivity.
Qed.

Lemma consume_no_key (buf : str) :
  includes buf QUOTE = false ->
  consume initialState buf =
  match verdict buf with
  | Some ev => ([ev], Break)
  | None => ([], Continue (mkState buf false (-1) []))
  end.
Proof.
  intros H. rewrite consume_eq. unfold appendChunk, initialState.
  cbn [isInsideResponseValue responseValueStartIndex fullStreamContent
       responseValueSentSoFar app].
  rewrite findKey_seeking_absent by now apply no_quote_no_key.
  rewrite streamValue_outside. reflexivity.
Qed.

Lemma spaced_array_whole (n : nat) :
  processStream (Some [lit "[" ++ repeat 32%N n ++ lit "{}]"])
  = [OnStreamStart; OnStreamEnd (JArray [JObject []])].
Proof.
  destruct (spaced_array_closed n) as (H1 & H2 & H3).
  unfold processStream, readLoop. rewrite (consume_no_key _ H3).
  unfold verdict. rewrite H1, H2. reflexivity.
Qed.

Lemma spaced_array_concat (n : nat) :
  concat [lit "[" ++ repeat 32%N n ++ lit "{}"; lit "]"]
  = lit "[" ++ repeat 32%N n ++ lit "{}]".
Proof. simpl concat. rewrite <- !app_assoc. reflexivity. Qed.

Lemma spaced_array_chunks (n : nat) :
  (maxLength < Z.of_nat n + 3)%Z ->
  processStream (Some [lit "[" ++ repeat 32%N n ++ lit "{}"; lit "]"])
  = [OnStreamStart; OnError ExceededMaxLength].
Proof.
  intros Hn. destruct (spaced_array_open n) as (H1 & H2 & H3).
  unfold processStream, readLoop. rewrite (consume_no_key _ H3).
  unfold verdict. rewrite H1, H2.
  replace (maxLength <? len _)%Z with true; [reflexivity|].
  symmetry. apply Z.ltb_lt. unfold len.
  rewrite !length_app, repeat_length. simpl length. lia.
Qed.

(** C6, as stated, fails: an array of more than 50000 characters is
    accepted when it arrives in one chunk, and stopped for its length
    when its last character arrives in a chunk of its own, because the
    text before it looks balanced and does not parse. *)
Lemma long_array_accepted_whole_cut_in_chunks :
  processStream
    (Some [lit "[" ++ repeat 32%N (Z.to_nat 50000) ++ lit "{}]"])
  = [OnStreamStart; OnStreamEnd (JArray [JObject []])]
  /\ concat [lit "[" ++ repeat 32%N (Z.to_nat 50000) ++ lit "{}"; lit "]"]
     = lit "[" ++ repeat 32%N (Z.to_nat 50000) ++ lit "{}]"
  /\ processStream
       (Some [lit "[" ++ repeat 32%N (Z.to_nat 50000) ++ lit "{}"; lit "]"])
     = [OnStreamStart; OnError ExceededMaxLength].
Proof.
  split; [|split].
  - apply spaced_array_whole.
  - apply spaced_array_concat.
  - apply spaced_array_chunks. unfold maxLength. lia.
Qed.

(* ===================================================================== *)
(** * The encoder *)
(* ===================================================================== *)

Lemma replaceAll_app (c : char) (b s t : str) :
  replaceAll c b (s ++ t) = replaceAll c b s ++ replaceAll c b t.
Proof. unfold replaceAll. apply flat_map_app. Qed.

Lemma escapeContent_app (s t : str) :
  escapeContent (s ++ t) = escapeContent s ++ escapeContent t.
Proof. unfold escapeContent. now rewrite !replaceAll_app. Qed.

(** The five replacements in sequence amount to replacing each
    character on its own. *)
Lemma escapeContent_char (x : char) : escapeContent [x] = escapeChar x.
Proof.
  unfold escapeContent, escapeChar, replaceAll, BACKSLASH, QUOTE.
  destruct (N.eqb_spec x 92) as [->|H1]; [reflexivity|].
  destruct (N.eqb_spec x 34) as [->|H2]; [reflexivity|].
  destruct (N.eqb_spec x 10) as [->|H3]; [reflexivity|].
  destruct (N.eqb_spec x 13) as [->|H4]; [reflexivity|].
  destruct (N.eqb_spec x 9) as [->|H5]; [reflexivity|].
  simpl.
  rewrite (proj2 (N.eqb_neq x 92) H1). simpl.
  rewrite (proj2 (N.eqb_neq x 34) H2). simpl.
  rewrite (proj2 (N.eqb_neq x 10) H3). simpl.
  rewrite (proj2 (N.eqb_neq x 13) H4). simpl.
  rewrite (proj2 (N.eqb_neq x 9) H5). reflexivity.
Qed.

Lemma escapeContent_flat_map (s : str) :
  escapeContent s = flat_map escapeChar s.
Proof.
  induction s as [|x s IH]; [reflexivity|].
  change (x :: s) with ([x] ++ s).
  rewrite escapeContent_app, escapeContent_char, IH. reflexivity.
Qed.

Lemma escapeContent_concat (fragments : list str) :
  concat (map escapeContent fragments) = escapeContent (concat fragments).
Proof.
  induction fragments as [|f fs IH]; [reflexivity|].
  simpl. now rewrite escapeContent_app, IH.
Qed.

Lemma streamFragments_map (fragments : list str) :
  forall fullResponse,
    streamFragments fullResponse fullResponse fragments
    = map escapeContent fragments.
Proof.
  induction fragments as [|f fs IH]; intros full; [reflexivity|].
  simpl. rewrite IH. f_equal. f_equal. unfold len.
  rewrite substringFrom_nat, skipn_app, skipn_all, Nat.sub_diag. reflexivity.
Qed.

Lemma continueSession_writes (fragments : list str) (t : Terminal) :
  continueSession fragments t
  = [opening] ++ map escapeContent fragments ++ [closing].
Proof.
  unfold continueSession. rewrite streamFragments_map. now destruct t.
Qed.

(** ** The bytes and the text of the handler's answer *)

Lemma toWellFormed_escapeContent (s : str) :
  toWellFormed (escapeContent s) = escapeContent (toWellFormed s).
Proof. rewrite !escapeContent_flat_map. apply toWellFormed_escape. Qed.

Lemma escapeContent_received (fragments : list str) :
  concat (map toWellFormed (map escapeContent fragments))
  = escapeContent (asReceived fragments).
Proof.
  unfold asReceived. rewrite <- escapeContent_concat, !map_map.
  f_equal. apply map_ext. intros f. apply toWellFormed_escapeContent.
Qed.

Lemma codeUnits_escapeContent (fragments : list str) :
  Forall (fun f => codeUnits f = true) fragments ->
  Forall (fun w => codeUnits w = true) (map escapeContent fragments).
Proof.
  induction 1 as [|f fragments Hf _ IH]; constructor; [|exact IH].
  rewrite escapeContent_flat_map. now apply codeUnits_escape.
Qed.

(** The text of the answer while the fragments are being written. *)
Lemma written_fragments (fragments : list str) :
  written ([opening] ++ map escapeContent fragments)
  = opening ++ escapeContent (asReceived fragments).
Proof.
  unfold written. cbn [app map concat].
  rewrite escapeContent_received. reflexivity.
Qed.

(** The text of the whole answer. *)
Lemma written_continueSession (fragments : list str) (t : Terminal) :
  written (continueSession fragments t)
  = opening ++ escapeContent (asReceived fragments) ++ closing.
Proof.
  rewrite continueSession_writes. unfold written.
  cbn [app map concat]. rewrite map_app, concat_app.
  rewrite escapeContent_received. cbn [map concat].
  rewrite app_nil_r. reflexivity.
Qed.

Lemma codeUnits_continueSession (fragments : list str) (t : Terminal) :
  Forall (fun f => codeUnits f = true) fragments ->
  Forall (fun w => codeUnits w = true) (continueSession fragments t).
Proof.
  intros Hu. rewrite continueSession_writes.
  constructor; [reflexivity|]. apply Forall_app. split.
  - now apply codeUnits_escapeContent.
  - constructor; [reflexivity | constructor].
Qed.

(** The chunks of the client's decoder for the bytes of the answer,
    however they are cut, together are the text of the answer. *)
Lemma received_continueSession (fragments : list str) (t : Terminal)
      (values : list (list Utf8.octet)) :
  Forall (fun f => codeUnits f = true) fragments ->
  concat values = sent (continueSession fragments t) ->
  concat (received values) = written (continueSession fragments t).
Proof.
  intros Hu Hc. apply received_written; [|exact Hc].
  now apply codeUnits_continueSession.
Qed.

Lemma plain_received_eq (fragments : list str) :
  forallb plainChar (asReceived fragments)
  = forallb plainChar (concat fragments).
Proof.
  unfold asReceived.
  induction fragments as [|f fragments IH]; [reflexivity|].
  cbn [map concat]. now rewrite !forallb_app, plain_toWellFormed_eq, IH.
Qed.

Lemma length_escaped_received (fragments : list str) :
  length (escapeContent (asReceived fragments))
  = length (escapeContent (concat fragments)).
Proof.
  unfold asReceived.
  induction fragments as [|f fragments IH]; [reflexivity|].
  cbn [map concat]. rewrite !escapeContent_app, !length_app, IH.
  now rewrite !escapeContent_flat_map, length_escape_toWellFormed.
Qed.

Lemma asReceived_idem (fragments : list str) :
  toWellFormed (asReceived fragments) = asReceived fragments.
Proof.
  unfold asReceived.
  induction fragments as [|f fragments IH]; [reflexivity|].
  cbn [map concat].
  rewrite (proj1 (wellFormed_app _ (toWellFormed_idem f))). now rewrite IH.
Qed.

Lemma encode_escaped (fragments : list str) :
  concat (map Utf8.encode (map escapeContent fragments))
  = Utf8.encode (escapeContent (asReceived fragments)).
Proof.
  unfold asReceived.
  induction fragments as [|f fragments IH]; [reflexivity|].
  cbn [map concat]. rewrite IH, escapeContent_app.
  assert (Hw : toWellFormed (escapeContent (toWellFormed f))
               = escapeContent (toWellFormed f))
    by (now rewrite toWellFormed_escapeContent, toWellFormed_idem).
  rewrite (proj2 (wellFormed_app _ Hw)).
  now rewrite <- toWellFormed_escapeContent, encode_toWellFormed.
Qed.

(** The bytes of the whole answer. *)
Lemma sent_continueSession (fragments : list str) (t : Terminal) :
  sent (continueSession fragments t)
  = Utf8.encode (opening ++ escapeContent (asReceived fragments) ++ closing).
Proof.
  rewrite continueSession_writes. unfold sent.
  rewrite !map_app, !concat_app, encode_escaped. cbn [map concat].
  rewrite app_nil_r.
  assert (Ho : toWellFormed opening = opening) by reflexivity.
  assert (He : toWellFormed (escapeContent (asReceived fragments))
               = escapeContent (asReceived fragments))
    by (now rewrite toWellFormed_escapeContent, asReceived_idem).
  rewrite (proj2 (wellFormed_app _ Ho)), (proj2 (wellFormed_app _ He)).
  reflexivity.
Qed.

(** ** The recogniser on an escaped text *)

Lemma prun_escapeChar (st : list frame) (acc : str) (k : bool) (x : char) :
  plainChar x = true ->
  prun (st, InStr acc k) (escapeChar x) = (st, InStr (x :: acc) k).
Proof.
  intros Hp. unfold escapeChar, BACKSLASH, QUOTE.
  destruct (N.eqb_spec x 92) as [->|H1]; [reflexivity|].
  destruct (N.eqb_spec x 34) as [->|H2]; [reflexivity|].
  destruct (N.eqb_spec x 10) as [->|H3]; [reflexivity|].
  destruct (N.eqb_spec x 13) as [->|H4]; [reflexivity|].
  destruct (N.eqb_spec x 9) as [->|H5]; [reflexivity|].
  simpl. rewrite (proj2 (N.eqb_neq x 34) H2), (proj2 (N.eqb_neq x 92) H1).
  unfold plainChar in Hp.
  rewrite (proj2 (N.eqb_neq x 9) H5), (proj2 (N.eqb_neq x 10) H3),
    (proj2 (N.eqb_neq x 13) H4), !orb_false_r in Hp.
  apply N.leb_le in Hp.
  replace (N.ltb x 32) with false by (symmetry; apply N.ltb_ge; lia).
  reflexivity.
Qed.

Lemma prun_escapeContent (r : str) :
  forall (st : list frame) (acc : str) (k : bool),
    forallb plainChar r = true ->
    prun (st, InStr acc k) (escapeContent r) = (st, InStr (rev r ++ acc) k).
Proof.
  induction r as [|x r IH]; intros st acc k Hp; [reflexivity|].
  simpl in Hp. apply andb_true_iff in Hp as [Hx Hr].
  change (x :: r) with ([x] ++ r).
  rewrite escapeContent_app, escapeContent_char, prun_app.
  rewrite (@prun_escapeChar st acc k x Hx), IH by exact Hr.
  simpl. now rewrite <- app_assoc.
Qed.

Lemma prun_opening :
  prun pinit opening = ([FObj [] (Some (lit "response"))], InStr [] false).
Proof. reflexivity. Qed.

Lemma prun_closing (acc : str) :
  prun ([FObj [] (Some (lit "response"))], InStr acc false) closing
  = ([], Done (responseObject (rev acc))).
Proof. reflexivity. Qed.

(** The text the handler writes for a plain response parses as the
    object with that response and four null fields. *)
Lemma parse_encoded (r : str) :
  forallb plainChar r = true ->
  JSON_parse (opening ++ escapeContent r ++ closing)
  = Some (responseObject r).
Proof.
  intros Hp. unfold JSON_parse.
  rewrite !prun_app, prun_opening.
  rewrite (@prun_escapeContent r _ [] false Hp).
  rewrite prun_closing, app_nil_r, rev_involutive. reflexivity.
Qed.

Lemma forallb_concat (A : Type) (f : A -> bool) (ls : list (list A)) :
  Forall (fun l => forallb f l = true) ls -> forallb f (concat ls) = true.
Proof.
  induction 1 as [|l ls Hl _ IH]; [reflexivity|].
  simpl. rewrite forallb_app, Hl, IH. reflexivity.
Qed.

Lemma plain_received (fragments : list str) :
  Forall (fun f => forallb plainChar f = true) fragments ->
  forallb plainChar (asReceived fragments) = true.
Proof.
  intros H. unfold asReceived. apply forallb_concat.
  apply Forall_map. eapply Forall_impl; [|exact H].
  intros f. apply plain_toWellFormed.
Qed.

Lemma Forall_firstn (A : Type) (P : A -> Prop) (k : nat) (l : list A) :
  Forall P l -> Forall P (firstn k l).
Proof.
  intros H. rewrite <- (firstn_skipn k l) in H.
  now apply Forall_app in H as [H _].
Qed.

(** C5 (amended): for every sequence of fragments -- strings of code
    units -- that contain no control character other than newline,
    carriage return and tab, however the source ends, (a) the complete
    output, read as UTF-8, parses as the object with the fields
    response, currentCategory, currentWord, currentWordProgress,
    exercises, in that order, the response being the fragments as they
    are received, one after the other: every write is encoded on its
    own, so that a surrogate without its partner in the same fragment
    arrives as U+FFFD; (b) after each fragment the bytes written so far,
    read as UTF-8, are the beginning of such a text; each fragment is
    written as its
    text with backslash, quote, newline, carriage return and tab
    replaced by their two-character escapes; and for fragments that are
    well-formed the response is their concatenation. *)
Theorem encoder_writes_valid_object (fragments : list str) (t : Terminal) :
  Forall (fun f => codeUnits f = true) fragments ->
  Forall (fun f => forallb plainChar f = true) fragments ->
  JSON_parse (bodyText (sent (continueSession fragments t)))
  = Some (responseObject (asReceived fragments))
  /\ (forall k, k <= length fragments ->
        exists suffix,
          JSON_parse
            (bodyText (sent (firstn (1 + k) (continueSession fragments t)))
             ++ suffix)
          = Some (responseObject (asReceived (firstn k fragments))))
  /\ continueSession fragments t
     = [opening] ++ map (flat_map escapeChar) fragments ++ [closing]
  /\ (Forall (fun f => toWellFormed f = f) fragments ->
      asReceived fragments = concat fragments).
Proof.
  intros Hu Hp. split; [|split; [|split]].
  - rewrite bodyText_sent by (now apply codeUnits_continueSession).
    rewrite written_continueSession. apply parse_encoded.
    now apply plain_received.
  - intros k Hk. exists closing.
    rewrite continueSession_writes. cbn [app Nat.add firstn].
    rewrite firstn_app, length_map.
    replace (k - length fragments) with 0 by lia.
    cbn [firstn]. rewrite app_nil_r, firstn_map.
    change (opening :: map escapeContent (firstn k fragments))
      with ([opening] ++ map escapeContent (firstn k fragments)).
    rewrite bodyText_sent, written_fragments.
    2:{ constructor; [reflexivity|].
        apply codeUnits_escapeContent. now apply Forall_firstn. }
    rewrite <- app_assoc.
    apply parse_encoded. apply plain_received. now apply Forall_firstn.
  - rewrite continueSession_writes. do 2 f_equal.
    apply map_ext. apply escapeContent_flat_map.
  - apply asReceived_wellFormed.
Qed.

Lemma encoder_writes_valid_object_witness :
  JSON_parse
    (bodyText
       (sent (continueSession
                [lit "say "; js "'hi'"; [10; 0xD83D; 0xDE00]%N]
                SourceDone)))
  = Some (responseObject
            (asReceived [lit "say "; js "'hi'"; [10; 0xD83D; 0xDE00]%N]))
  /\ (forall k, k <= length [lit "say "; js "'hi'"; [10; 0xD83D; 0xDE00]%N] ->
        exists suffix,
          JSON_parse
            (bodyText
               (sent
                  (firstn (1 + k)
                     (continueSession
                        [lit "say "; js "'hi'"; [10; 0xD83D; 0xDE00]%N]
                        SourceDone)))
             ++ suffix)
          = Some (responseObject
                    (asReceived
                       (firstn k
                          [lit "say "; js "'hi'"; [10; 0xD83D; 0xDE00]%N]))))
  /\ continueSession [lit "say "; js "'hi'"; [10; 0xD83D; 0xDE00]%N] SourceDone
     = [opening]
         ++ map (flat_map escapeChar)
                [lit "say "; js "'hi'"; [10; 0xD83D; 0xDE00]%N]
         ++ [closing]
  /\ (Forall (fun f => toWellFormed f = f)
             [lit "say "; js "'hi'"; [10; 0xD83D; 0xDE00]%N] ->
      asReceived [lit "say "; js "'hi'"; [10; 0xD83D; 0xDE00]%N]
      = concat [lit "say "; js "'hi'"; [10; 0xD83D; 0xDE00]%N]).
Proof.
  apply (@encoder_writes_valid_object
           [lit "say "; js "'hi'"; [10; 0xD83D; 0xDE00]%N] SourceDone);
    repeat constructor.
Defined.

(** C5, as stated, fails: a fragment with a control character that the
    handler does not escape, such as a backspace, gives an output that
    is not valid JSON. *)
Lemma encoder_control_character_invalid :
  JSON_parse (written (continueSession [[8%N]] SourceDone)) = None.
Proof. reflexivity. Qed.

(* ===================================================================== *)
(** * The end-to-end scenario *)
(* ===================================================================== *)

(** C9 (amended): with the fragments of the scenario, each write of the
    handler arriving as one chunk, the decoder sends the three chunks in
    order and then one final object, whose response is the whole text;
    the handler takes no context, and the four other fields are null. *)
Theorem end_to_end_scenario :
  processStream
    (Some (continueSession [lit "Hel"; lit "lo, "; comoEstas] SourceDone))
  = [OnStreamStart;
     OnStreamChunk (lit "Hel");
     OnStreamChunk (lit "lo, ");
     OnStreamChunk comoEstas;
     OnStreamEnd
       (JObject [(lit "response", JString (lit "Hello, " ++ comoEstas));
                 (lit "currentCategory", JNull);
                 (lit "currentWord", JNull);
                 (lit "currentWordProgress", JNull);
                 (lit "exercises", JNull)])].
Proof. reflexivity. Qed.

(** C9, as stated, fails: the final object does not carry the word and
    the progress of the scenario. *)
Lemma end_to_end_context_is_null :
  processStream
    (Some (continueSession [lit "Hel"; lit "lo, "; comoEstas] SourceDone))
  <> [OnStreamStart;
      OnStreamChunk (lit "Hel");
      OnStreamChunk (lit "lo, ");
      OnStreamChunk comoEstas;
      OnStreamEnd
        (JObject [(lit "response", JString (lit "Hello, " ++ comoEstas));
                  (lit "currentCategory", JNull);
                  (lit "currentWord", JString (lit "hola"));
                  (lit "currentWordProgress", JString (lit "pronunciation"));
                  (lit "exercises", JNull)])].
Proof. vm_compute. discriminate. Qed.

(* ===================================================================== *)
(** * Escaped texts hold no unescaped quote *)
(* ===================================================================== *)

Lemma escAfter_snoc (e : bool) (v : str) (c : char) :
  escAfter e (v ++ [c]) = N.eqb c BACKSLASH && negb (escAfter e v).
Proof. unfold escAfter. now rewrite fold_left_app. Qed.

(** The parity of the backslashes before a position is the escape flag
    there. *)
Lemma odd_backslashes_escAfter (v : str) (i : nat) :
  i <= length v ->
  Nat.odd (backslashesBefore v i) = escAfter false (firstn i v).
Proof.
  induction i as [|i IH]; intros Hi; [reflexivity|].
  destruct (nth_error v i) as [c|] eqn:E.
  2:{ apply nth_error_None in E. lia. }
  unfold backslashesBefore. rewrite (firstn_snoc _ _ E), rev_app_distr.
  rewrite escAfter_snoc, <- IH by lia. simpl.
  fold (backslashesBefore v i).
  destruct (N.eqb c BACKSLASH); [|reflexivity].
  now rewrite Nat.odd_succ, Nat.negb_odd.
Qed.

Lemma escAfter_cons (e : bool) (c : char) (v : str) :
  escAfter e (c :: v) = escAfter (N.eqb c BACKSLASH && negb e) v.
Proof. reflexivity. Qed.

Lemma quoteFree_next (e : bool) (c : char) (v : str) :
  quoteFree e (c :: v) = true ->
  quoteFree (N.eqb c BACKSLASH && negb e) v = true.
Proof.
  simpl. destruct e.
  - now rewrite andb_false_r.
  - destruct (N.eqb c BACKSLASH); [auto|].
    destruct (N.eqb c QUOTE); [discriminate | auto].
Qed.

Lemma quoteFree_spec (v : str) :
  forall e, quoteFree e v = true ->
            escAfter e v = false
            /\ forall i, nth_error v i = Some QUOTE ->
                         escAfter e (firstn i v) = true.
Proof.
  induction v as [|c v IH]; intros e H.
  - simpl in H. split; [now destruct e|]. intros [|i]; discriminate.
  - destruct (IH _ (quoteFree_next _ _ _ H)) as [H1 H2].
    split; [now rewrite escAfter_cons|].
    intros [|i] Hi.
    + injection Hi as ->. simpl in *. destruct e; [reflexivity|discriminate].
    + cbn [firstn]. rewrite escAfter_cons. now apply H2.
Qed.

Lemma quoteFree_escapeChar (x : char) (w : str) :
  quoteFree false (escapeChar x ++ w) = quoteFree false w.
Proof.
  unfold escapeChar, BACKSLASH, QUOTE.
  destruct (N.eqb_spec x 92) as [->|H1]; [reflexivity|].
  destruct (N.eqb_spec x 34) as [->|H2]; [reflexivity|].
  destruct (N.eqb x 10); [reflexivity|].
  destruct (N.eqb x 13); [reflexivity|].
  destruct (N.eqb x 9); [reflexivity|].
  simpl. unfold BACKSLASH, QUOTE.
  now rewrite (proj2 (N.eqb_neq x 92) H1), (proj2 (N.eqb_neq x 34) H2).
Qed.

Lemma quoteFree_escapeContent (r : str) :
  quoteFree false (escapeContent r) = true.
Proof.
  rewrite escapeContent_flat_map.
  induction r as [|x r IH]; [reflexivity|].
  simpl. now rewrite quoteFree_escapeChar.
Qed.

(** In a text without unescaped quote followed by a quote, that quote is
    the first unescaped one. *)
Lemma quoteFree_closing (v rest : str) :
  quoteFree false v = true ->
  unescapedQuoteAt (v ++ QUOTE :: rest) (length v)
  /\ forall j, j < length v -> ~ unescapedQuoteAt (v ++ QUOTE :: rest) j.
Proof.
  intros H. destruct (quoteFree_spec _ _ H) as [H1 H2]. split.
  - split.
    + rewrite nth_error_app2, Nat.sub_diag by lia. reflexivity.
    + rewrite backslashesBefore_end, <- Nat.negb_odd.
      rewrite odd_backslashes_escAfter, firstn_all, H1 by lia. reflexivity.
  - intros j Hj [Q E]. rewrite nth_error_app1 in Q by lia.
    rewrite backslashesBefore_prefix in E by lia.
    rewrite <- Nat.negb_odd, odd_backslashes_escAfter, (H2 j Q) in E by lia.
    discriminate.
Qed.

Lemma quoteFree_open (v : str) :
  quoteFree false v = true -> forall j, ~ unescapedQuoteAt v j.
Proof.
  intros H j Hq. pose proof (unescapedQuoteAt_lt Hq) as Hj.
  destruct (quoteFree_closing v [] H) as [_ Hn].
  apply (Hn j Hj). now apply unescapedQuoteAt_prefix.
Qed.

Lemma first_unescaped_unique (v : str) (i j : nat) :
  unescapedQuoteAt v i -> (forall k, k < i -> ~ unescapedQuoteAt v k) ->
  unescapedQuoteAt v j -> (forall k, k < j -> ~ unescapedQuoteAt v k) ->
  i = j.
Proof.
  intros Hi Hmi Hj Hmj.
  destruct (Nat.lt_trichotomy i j) as [L|[L|L]]; [|assumption|].
  - exfalso. apply (Hmj i L Hi).
  - exfalso. apply (Hmi j L Hj).
Qed.

(* ===================================================================== *)
(** * The recogniser up to the closing quote of the response *)
(* ===================================================================== *)

Lemma prun_escapeChar_any (st : list frame) (acc : str) (k : bool) (x : char) :
  prun (st, InStr acc k) (escapeChar x) = (st, InStr (x :: acc) k)
  \/ prun (st, InStr acc k) (escapeChar x) = (st, Rejected).
Proof.
  destruct (plainChar x) eqn:Hp; [left; now apply prun_escapeChar|].
  right. unfold plainChar in Hp.
  apply orb_false_iff in Hp as [Hp H13]. apply orb_false_iff in Hp as [Hp H10].
  apply orb_false_iff in Hp as [Hp H9]. apply N.leb_gt in Hp.
  unfold escapeChar, BACKSLASH, QUOTE. rewrite H10, H13, H9.
  replace (N.eqb x 92) with false by (symmetry; apply N.eqb_neq; lia).
  replace (N.eqb x 34) with false by (symmetry; apply N.eqb_neq; lia).
  simpl.
  replace (N.eqb x 92) with false by (symmetry; apply N.eqb_neq; lia).
  replace (N.eqb x 34) with false by (symmetry; apply N.eqb_neq; lia).
  replace (N.ltb x 32) with true by (symmetry; apply N.ltb_lt; lia).
  reflexivity.
Qed.

Lemma prun_escapeContent_any (r : str) :
  forall (st : list frame) (acc : str) (k : bool),
    prun (st, InStr acc k) (escapeContent r) = (st, InStr (rev r ++ acc) k)
    \/ prun (st, InStr acc k) (escapeContent r) = (st, Rejected).
Proof.
  induction r as [|x r IH]; intros st acc k; [now left|].
  change (x :: r) with ([x] ++ r).
  rewrite escapeContent_app, escapeContent_char, prun_app.
  destruct (prun_escapeChar_any st acc k x) as [-> | ->].
  - destruct (IH st (x :: acc) k) as [-> | ->]; [left | now right].
    simpl. now rewrite <- app_assoc.
  - right. apply prun_fail.
Qed.

(** A text of the wire format that parses stands for an object whose
    first member is the response, unescaped. *)
Lemma parse_response_first (r rest : str) (obj : json) :
  JSON_parse (opening ++ escapeContent r ++ QUOTE :: rest) = Some obj ->
  exists members, obj = JObject ((lit "response", JString r) :: members).
Proof.
  unfold JSON_parse. rewrite !prun_app, prun_opening.
  destruct (prun_escapeContent_any r [FObj [] (Some (lit "response"))] [] false)
    as [-> | ->].
  2:{ rewrite prun_fail. discriminate. }
  rewrite app_nil_r.
  change (prun (_, InStr (rev r) false) (QUOTE :: rest))
    with (prun ([FObj [(lit "response", JString (rev (rev r)))] None],
                AfterValue) rest).
  rewrite rev_involutive. intros H.
  pose proof (@prun_objInv [(lit "response", JString r)] rest
                ([FObj [(lit "response", JString r)] None], AfterValue) false)
    as I.
  assert (I0 : objInv [(lit "response", JString r)]
                      ([FObj [(lit "response", JString r)] None], AfterValue)
                      false).
  { unfold objInv. cbn [fst snd]. now exists []. }
  specialize (I I0). destruct (prun _ rest) as [st m].
  apply pfinish_some in H as [-> [-> | [acc ->]]]; unfold objInv in I;
    cbn [fst snd] in I.
  - destruct I as ([ms ->] & _). now exists ms.
  - destruct I as [ms I]. discriminate.
Qed.

(* ===================================================================== *)
(** * Reassembly *)
(* ===================================================================== *)

Lemma wire_split (v rest pre v' : str) (m : nat) :
  opening ++ v ++ QUOTE :: rest = pre ++ v' ->
  firstKey (opening ++ v ++ QUOTE :: rest) m ->
  length pre = m + 13 -> pre = opening /\ v' = v ++ QUOTE :: rest.
Proof. apply opening_split. Qed.

(** A buffer of a wire text either stops before the closing quote of
    the response or goes beyond it. *)
Lemma wire_prefix_cases (v rest B t : str) :
  B ++ t = opening ++ v ++ QUOTE :: rest ->
  (exists u, B ++ u = opening ++ v)
  \/ exists rest1, B = opening ++ v ++ QUOTE :: rest1.
Proof.
  intros E. rewrite app_assoc in E.
  apply app_eq_app in E as [l [[-> E] | [E ->]]].
  - destruct l as [|q l].
    + left. exists []. now rewrite !app_nil_r.
    + injection E as <- _. right. exists l. now rewrite <- app_assoc.
  - left. exists l. now symmetry.
Qed.

Lemma wire_verdict_whole (w : str) (obj : json) :
  JSON_parse (opening ++ w) = Some obj ->
  verdict (opening ++ w) = Some (OnStreamEnd obj).
Proof. exact (@verdict_object_whole (marker ++ w) obj). Qed.

Lemma wire_verdict_prefix (w B t : str) (obj : json) :
  JSON_parse (opening ++ w) = Some obj -> B ++ t = opening ++ w ->
  verdict B = None \/ verdict B = Some (OnStreamEnd obj).
Proof. exact (@verdict_object_prefix (marker ++ w) B t obj). Qed.

(** C1 (amended): for every complete, valid text of the wire format --
    the opening, the response escaped by the five replacements, the
    closing quote and a remainder in which the key marker does not occur
    again -- and every partition of it into chunks, the run of the
    decoder consists of chunks followed by one final object, which is
    the result of parsing the text; the concatenation of the chunks sent
    is the response as escaped on the wire, and the first member of the
    final object is the response with the unescaped text.  That text is
    what the property [response] of the object gives, unless a later
    member has the same name -- written otherwise than as the marker,
    for instance without the space after the colon -- for of the
    members with one name [JSON.parse] keeps the last. *)
Theorem reassembly_gives_escaped_response
        (r rest : str) (obj : json) (chunks : list str) :
  concat chunks = opening ++ escapeContent r ++ QUOTE :: rest ->
  JSON_parse (concat chunks) = Some obj ->
  indexOf (concat chunks) marker
          (Z.of_nat (length opening + length (escapeContent r) + 1))
  = (-1)%Z ->
  processStream (Some chunks)
  = OnStreamStart
      :: map OnStreamChunk (deltas (processStream (Some chunks)))
      ++ [OnStreamEnd obj]
  /\ concat (deltas (processStream (Some chunks))) = escapeContent r
  /\ exists members,
      obj = JObject ((lit "response", JString r) :: members)
      /\ readField obj Field.response
         = match ownProperty members (lit "response") with
           | JSUndefined => jsString r
           | JSValue later => JSValue later
           end.
Proof.
  intros Hc Hp Hidx. set (v := escapeContent r) in *.
  pose proof (quoteFree_escapeContent r) as Hqf. fold v in Hqf.
  destruct (quoteFree_closing v rest Hqf) as [Hq Hmin].
  rewrite Hc in Hp, Hidx.
  assert (Hl : noKeyAfterValue (opening ++ v ++ QUOTE :: rest)).
  { intros pre v' m i E Hk Hlen Hq' Hmin' j Hj.
    destruct (@wire_split v rest pre v' m E Hk Hlen) as [-> ->].
    rewrite (first_unescaped_unique Hq' Hmin' Hq Hmin) in Hj.
    apply (@indexOf_none_absent _ (length opening + length v + 1)).
    - rewrite !length_app. simpl. lia.
    - exact Hidx.
    - lia. }
  split; [|split].
  3:{ destruct (parse_response_first _ _ Hp) as [members ->].
      exists members. split; [reflexivity|].
      unfold readField. cbn [ownProperty Field.key].
      now destruct (ownProperty members (lit "response")). }
  all: pose proof (@feed_tracks chunks [] initialState tracks_initial) as H;
    simpl app in H; rewrite Hc in H; specialize (H Hl);
    unfold processStream; rewrite readLoop_feed;
    destruct (feed initialState chunks) as [evs [st'|]].
  1,3: exfalso; destruct H as (_ & _ & _ & Hn);
    destruct (@exists_last _ chunks) as (c1 & c & E);
    [intros ->; discriminate
    | specialize (Hn c1 c [] E); rewrite <- E, Hc in Hn;
      change ([] ++ opening ++ v ++ QUOTE :: rest)
        with (opening ++ v ++ QUOTE :: rest) in Hn;
      rewrite (wire_verdict_whole _ Hp) in Hn; discriminate].
  all: destruct H as (c1 & c & c2 & ev & evs1 & st1 & E & -> & Ho & Hv & Ht & Hs);
    simpl app in Hv, Ht;
    assert (HB : concat (c1 ++ [c]) ++ concat c2
                 = opening ++ v ++ QUOTE :: rest)
      by (rewrite <- Hc, E, <- concat_app, <- app_assoc; reflexivity);
    destruct (@wire_prefix_cases v rest _ _ HB) as [[u Hu] | [rest1 HB1]];
    [ exfalso;
      rewrite verdict_not_complete in Hv;
      [ discriminate
      | apply (@opening_prefix_not_complete _ u v Hu);
        now apply quoteFree_open ]
    | ].
  - (* the shape of the run *)
    assert (Hev : ev = OnStreamEnd obj).
    { destruct (@wire_verdict_prefix _ _ _ obj Hp HB) as [Hn | Hy];
        congruence. }
    subst ev. cbn [deltas]. rewrite deltas_app. cbn [deltas].
    rewrite app_nil_r. f_equal. f_equal. exact (proj1 Ho).
  - (* the chunks sent *)
    cbn [deltas]. rewrite deltas_app, (verdict_not_chunk _ Hv), app_nil_r.
    simpl in Hs. rewrite <- Hs. rewrite HB1 in Ht.
    destruct (quoteFree_closing v rest1 Hqf) as [Hq1 Hmin1].
    inversion Ht as [Hno | pre v' m E' Hk Hlen Hopen
                     | pre v' m i E' Hk Hlen Hq' Hmin']; subst st1.
    + exfalso. eapply Hno. apply (opening_key (v ++ QUOTE :: rest1)).
    + destruct (@wire_split v rest1 pre v' m E' Hk Hlen) as [-> ->].
      exfalso. eapply Hopen; eauto.
    + destruct (@wire_split v rest1 pre v' m E' Hk Hlen) as [-> ->].
      rewrite (first_unescaped_unique Hq' Hmin' Hq1 Hmin1).
      cbn [responseValueSentSoFar].
      rewrite firstn_app, Nat.sub_diag, firstn_all. simpl.
      now rewrite app_nil_r.
Qed.

Lemma reassembly_gives_escaped_response_witness :
  processStream
    (Some [js "{'resp"; js "onse': 'a\"; js "'b\";
           js "n', 'currentCategory': null, 'cur";
           js "rentWord': null, 'currentWordProgress': null, 'exercises': null}"])
  = OnStreamStart
      :: map OnStreamChunk
           (deltas
              (processStream
                 (Some [js "{'resp"; js "onse': 'a\"; js "'b\";
                        js "n', 'currentCategory': null, 'cur";
                        js "rentWord': null, 'currentWordProgress': null, 'exercises': null}"])))
      ++ [OnStreamEnd (responseObject (js "a'b" ++ [10%N]))]
  /\ concat
       (deltas
          (processStream
             (Some [js "{'resp"; js "onse': 'a\"; js "'b\";
                    js "n', 'currentCategory': null, 'cur";
                    js "rentWord': null, 'currentWordProgress': null, 'exercises': null}"])))
     = escapeContent (js "a'b" ++ [10%N])
  /\ exists members,
      responseObject (js "a'b" ++ [10%N])
      = JObject ((lit "response", JString (js "a'b" ++ [10%N])) :: members)
      /\ readField (responseObject (js "a'b" ++ [10%N])) Field.response
         = match ownProperty members (lit "response") with
           | JSUndefined => jsString (js "a'b" ++ [10%N])
           | JSValue later => JSValue later
           end.
Proof.
  apply (@reassembly_gives_escaped_response
           (js "a'b" ++ [10%N])
           (js ", 'currentCategory': null, 'currentWord': null, 'currentWordProgress': null, 'exercises': null}")
           (responseObject (js "a'b" ++ [10%N]))
           [js "{'resp"; js "onse': 'a\"; js "'b\";
            js "n', 'currentCategory': null, 'cur";
            js "rentWord': null, 'currentWordProgress': null, 'exercises': null}"]);
    reflexivity.
Defined.

(** C1, as stated, fails: the chunks are taken from the buffer as they
    are, so that for a response with a newline the chunks spell the two
    characters of its escape, and their concatenation is not the
    response of the final object. *)
Lemma chunks_stay_escaped :
  processStream (Some [written (continueSession [[97; 10; 98]%N] SourceDone)])
  = [OnStreamStart;
     OnStreamChunk [97; 92; 110; 98]%N;
     OnStreamEnd (responseObject [97; 10; 98]%N)]
  /\ concat
       (deltas
          (processStream
             (Some [written (continueSession [[97; 10; 98]%N] SourceDone)])))
     <> [97; 10; 98]%N.
Proof. split; [reflexivity | vm_compute; discriminate]. Qed.

(* ===================================================================== *)
(** * Texts of any shape, within the ceiling *)
(* ===================================================================== *)

(** ** A text with a brace is not a bare number or name *)

Lemma scalarInv_rejected (st : list frame) (s : bool) :
  scalarInv (st, Rejected) s.
Proof. destruct st; exact I. Qed.

Lemma scalarInv_deliver (v : json) (st : list frame) (s : bool) :
  scalarInv (deliver v st) s.
Proof. destruct st as [|[es | ms [k|]] st]; exact I. Qed.

Lemma scalarInv_closed_step (p : pstate) (c : char) (s s' : bool) :
  scalarInv p s -> scalarInv (closed_step p c) s'.
Proof.
  destruct p as [st m]. intros H.
  destruct m; try apply scalarInv_rejected.
  - destruct st as [|f st]; [contradiction|]. simpl.
    destruct (is_json_ws c); [exact I|].
    destruct (N.eqb c 44).
    { destruct f as [es | ms [k|]]; exact I. }
    destruct (N.eqb c 93).
    { destruct f as [es | ms k]; [apply scalarInv_deliver | exact I]. }
    destruct (N.eqb c 125); [|exact I].
    destruct f as [es | ms [k|]]; try exact I. apply scalarInv_deliver.
  - simpl. destruct (is_json_ws c); destruct st; exact I.
Qed.

Lemma scalarInv_value_start (st : list frame) (c : char) (s : bool) :
  (st = [] -> s = false) ->
  scalarInv (value_start st c) (s || N.eqb c 123).
Proof.
  intros H. unfold value_start.
  destruct (N.eqb c 123) eqn:E; [exact I|]. rewrite orb_false_r.
  destruct st as [|f st].
  - specialize (H eq_refl). subst s.
    repeat match goal with
           | |- context [if ?b then _ else _] => destruct b
           end; try exact I; reflexivity.
  - repeat match goal with
           | |- context [if ?b then _ else _] => destruct b
           end; exact I.
Qed.

Lemma ws_not_brace (c : char) : is_json_ws c = true -> N.eqb c 123 = false.
Proof.
  intros W. destruct (ws_plain _ W) as (_ & _ & H & _). now apply N.eqb_neq.
Qed.

(** One character keeps the invariant. *)
Lemma pstep_scalarInv (p : pstate) (c : char) (s : bool) :
  scalarInv p s -> scalarInv (pstep p c) (s || N.eqb c 123).
Proof.
  destruct p as [st m]. intros H. destruct m.
  - (* ExpValue *)
    simpl pstep. destruct (is_json_ws c) eqn:W.
    + rewrite (ws_not_brace _ W), orb_false_r. exact H.
    + apply scalarInv_value_start. intros ->. exact H.
  - (* ExpValueOrEnd *)
    destruct st as [|f st]; [contradiction|].
    simpl pstep. destruct (is_json_ws c); [exact I|].
    destruct (N.eqb c 93).
    { destruct f; [apply scalarInv_deliver | exact I]. }
    apply scalarInv_value_start. discriminate.
  - (* ExpKeyOrEnd *)
    destruct st as [|f st]; [contradiction|].
    simpl pstep. destruct (is_json_ws c); [exact I|].
    destruct (N.eqb c 34); [exact I|].
    destruct (N.eqb c 125); [|exact I].
    destruct f; [exact I | apply scalarInv_deliver].
  - (* ExpKey *)
    destruct st as [|f st]; [contradiction|].
    simpl pstep. destruct (is_json_ws c); [exact I|].
    destruct (N.eqb c 34); exact I.
  - (* ExpColon *)
    destruct st as [|f st]; [contradiction|].
    simpl pstep. destruct (is_json_ws c); [exact I|].
    destruct (N.eqb c 58); exact I.
  - (* AfterValue *)
    now apply scalarInv_closed_step with (s := s).
  - (* InStr *)
    simpl pstep. destruct (N.eqb c 34).
    + destruct iskey; [|apply scalarInv_deliver].
      destruct st as [|[es | ms k] st]; [contradiction | exact I | exact I].
    + destruct (N.eqb c 92).
      { destruct st; [|exact I]. destruct iskey; [contradiction | exact I]. }
      destruct (N.ltb c 32); [apply scalarInv_rejected|].
      destruct st; [|exact I]. destruct iskey; [contradiction | exact I].
  - (* InEsc *)
    simpl pstep. destruct (unescape_char c).
    { destruct st; [|exact I]. destruct iskey; [contradiction | exact I]. }
    destruct (N.eqb c 117); [|apply scalarInv_rejected].
    destruct st; [|exact I]. destruct iskey; [contradiction | exact I].
  - (* InUni *)
    simpl pstep. destruct (hex_value c); [|apply scalarInv_rejected].
    destruct (Nat.eqb n 3);
      (destruct st; [|exact I]; destruct iskey; [contradiction | exact I]).
  - (* InNum *)
    simpl pstep. destruct (is_num_char c) eqn:W.
    + destruct (num_char_plain _ W) as (_ & _ & H3 & _).
      rewrite (proj2 (N.eqb_neq c 123) H3), orb_false_r. exact H.
    + destruct (valid_number (rev acc)); [|apply scalarInv_rejected].
      apply scalarInv_closed_step with (s := s). apply scalarInv_deliver.
  - (* InLit *)
    simpl pstep. destruct (nth_error (keywordText k) n) as [r|] eqn:E;
      [|apply scalarInv_rejected].
    destruct (N.eqb_spec c r) as [->|?]; [|apply scalarInv_rejected].
    destruct (keyword_char_plain _ _ E) as (_ & _ & H3 & _).
    rewrite (proj2 (N.eqb_neq r 123) H3), orb_false_r.
    match goal with
    | |- context [if ?b then deliver _ _ else _] => destruct b
    end; [apply scalarInv_deliver|].
    destruct st; [exact H | exact I].
  - (* Done *)
    now apply scalarInv_closed_step with (s := s).
  - apply scalarInv_rejected.
Qed.

Lemma prun_scalarInv (s : str) :
  forall (p : pstate) (seen : bool),
    scalarInv p seen -> scalarInv (prun p s) (seen || includes s LBRACE).
Proof.
  induction s as [|c s IH]; intros p seen H.
  - simpl. now rewrite orb_false_r.
  - change (prun p (c :: s)) with (prun (pstep p c) s).
    unfold includes. cbn [existsb]. fold (includes s LBRACE).
    rewrite orb_assoc. apply IH.
    replace (N.eqb LBRACE c) with (N.eqb c 123) by apply N.eqb_sym.
    now apply pstep_scalarInv.
Qed.

(** A text with a brace that parses leaves the recogniser with its value
    complete, so that more text cannot change the value. *)
Lemma parse_prefix_same (P t : str) (v w : json) :
  includes P LBRACE = true ->
  JSON_parse P = Some v -> JSON_parse (P ++ t) = Some w -> w = v.
Proof.
  intros Hb HP HS. unfold JSON_parse in *. rewrite prun_app in HS.
  pose proof (@prun_scalarInv P pinit false eq_refl) as I.
  rewrite Hb in I. simpl in I.
  destruct (prun pinit P) as [st m].
  apply pfinish_some in HP as [-> [-> | [acc ->]]].
  - eapply parse_done_extend; eauto.
  - discriminate.
Qed.

(** ** A decoder inside the value holds no complete text *)

Lemma outside_string_re_rejected (st : list frame) (m : mode) :
  modeInString m = false ->
  snd (pstep (pstep (st, m) 114%N) 101%N) = Rejected.
Proof.
  intros H. destruct m; try discriminate;
    try (destruct st as [|[es | ms [k|]] st]; reflexivity).
  - (* InNum *)
    simpl. destruct (valid_number (rev acc)); [|reflexivity].
    destruct st as [|[es | ms [k|]] st]; reflexivity.
  - (* InLit *)
    destruct k; do 5 (destruct n as [|n]; [reflexivity|]);
      destruct n; reflexivity.
Qed.

Lemma balance_after_marker (l : Z) (e : bool) :
  fold_left balanceChar (lit "response" ++ [34; 58; 32; 34]%N)
            (mkBalance l true e)
  = mkBalance l true false.
Proof. destruct e; reflexivity. Qed.

Lemma marker_unfold :
  marker = [QUOTE] ++ [114; 101]%N ++ lit "sponse" ++ [34; 58; 32; 34]%N.
Proof. reflexivity. Qed.

(** A buffer that holds the key marker and no unescaped quote after it
    does not parse. *)
Lemma open_value_not_json (pre0 v : str) (w : json) :
  (forall j, ~ unescapedQuoteAt v j) ->
  JSON_parse ((pre0 ++ marker) ++ v) = Some w -> False.
Proof.
  intros Hq Hp.
  pose proof (parse_not_fail _ Hp) as Hnf.
  destruct (parse_balanced _ Hp) as [_ Hs].
  set (P1 := pre0 ++ [QUOTE]).
  assert (E : (pre0 ++ marker) ++ v
              = (P1 ++ [114; 101]%N)
                  ++ (lit "sponse" ++ [34; 58; 32; 34]%N) ++ v).
  { subst P1. rewrite marker_unfold, <- !app_assoc. reflexivity. }
  assert (N2 : snd (prun pinit (P1 ++ [114; 101]%N)) <> Rejected).
  { rewrite E in Hnf. eapply prun_not_fail_prefix; eauto. }
  assert (N1 : snd (prun pinit P1) <> Rejected)
    by (eapply prun_not_fail_prefix; eauto).
  destruct (modeInString (snd (prun pinit P1))) eqn:M.
  - (* the marker's first quote opens or continues a string *)
    assert (B : balance (pre0 ++ marker)
                = mkBalance (braceLevel (balance P1)) true false).
    { replace (pre0 ++ marker)
        with (P1 ++ lit "response" ++ [34; 58; 32; 34]%N)
        by (subst P1; rewrite <- app_assoc; reflexivity).
      rewrite balance_app.
      rewrite (balance_prun _ N1) at 1. unfold balanceOf at 1.
      rewrite M, balance_after_marker.
      now rewrite (balance_prun _ N1). }
    rewrite balance_app, <- (firstn_all v) in Hs.
    rewrite (@balance_value (balance (pre0 ++ marker)) v (length v)) in Hs;
      try (rewrite B; reflexivity); auto.
    discriminate.
  - (* the letters after it are outside any string *)
    apply N2. rewrite prun_app.
    destruct (prun pinit P1) as [st m]. cbn [snd] in M.
    exact (outside_string_re_rejected st m M).
Qed.

(** ** The invariant of a decoder inside the value *)

Lemma indexOf_occurs (s : str) (from z : Z) :
  indexOf s marker from = z -> z <> (-1)%Z ->
  exists i, z = Z.of_nat i /\ occursAt marker s i /\ i + 13 <= length s.
Proof.
  unfold indexOf. destruct (indexOf_suffix _ _ _) as [i|] eqn:E;
    [|intros <- H; congruence].
  intros <- _. exists i. apply indexOf_suffix_some in E as (Hle & Ho & _).
  rewrite skipn_skipn in Ho.
  replace (i - clamp s from + clamp s from) with i in Ho by lia.
  split; [reflexivity|]. split; [exact Ho | now apply occursAt_bound].
Qed.

Lemma occursAt_split (s : str) (i : nat) :
  occursAt marker s i ->
  exists v, s = (firstn i s ++ marker) ++ v /\ length (firstn i s) = i.
Proof.
  intros Ho. pose proof (occursAt_bound Ho) as Hb.
  unfold occursAt in Ho. apply startsWith_iff in Ho as [v Hv].
  exists v. split.
  - rewrite <- app_assoc, <- Hv. now rewrite firstn_skipn.
  - rewrite length_firstn. lia.
Qed.

Lemma streamValue_insideInv (pre0 v sent : str) :
  insideInv
    (snd (streamValue
            (mkState ((pre0 ++ marker) ++ v) true
                     (Z.of_nat (length (pre0 ++ marker))) sent))).
Proof.
  destruct (unescaped_dec (pre0 ++ marker) v) as [Hno | (i & Hq & Hmin)].
  - rewrite (streamValue_open _ _ Hno). cbn [snd]. intros _.
    exists pre0, v. auto.
  - rewrite (streamValue_closing _ _ Hq Hmin). cbn [snd]. discriminate.
Qed.

Lemma step_insideInv (st : DecoderState) (c : str) :
  insideInv st ->
  insideInv (snd (streamValue (findKey (appendChunk st c)))).
Proof.
  intros H. destruct st as [buf inside start sent].
  destruct inside.
  - destruct (H eq_refl) as (pre0 & v & Hb & Hs & Hq).
    cbn [fullStreamContent responseValueStartIndex] in Hb, Hs. subst buf start.
    unfold appendChunk. cbn [isInsideResponseValue responseValueStartIndex
      fullStreamContent responseValueSentSoFar].
    rewrite findKey_inside, <- (app_assoc (pre0 ++ marker)).
    apply streamValue_insideInv.
  - unfold appendChunk, findKey. cbn [isInsideResponseValue
      responseValueStartIndex fullStreamContent responseValueSentSoFar].
    destruct (indexOf (buf ++ c) marker _ =? -1)%Z eqn:E; cbn [negb].
    + rewrite streamValue_outside. cbn [snd]. discriminate.
    + apply Z.eqb_neq in E.
      destruct (indexOf_occurs _ _ eq_refl E) as (i & Ei & Ho & Hb).
      destruct (occursAt_split Ho) as (v & Hv & Hl).
      rewrite Ei.
      replace (Z.of_nat i + len marker)%Z
        with (Z.of_nat (length (firstn i (buf ++ c) ++ marker)))
        by (rewrite length_app, Hl; unfold len; lia).
      rewrite Hv at 1. apply streamValue_insideInv.
Qed.

Lemma feed_insideInv (chunks : list str) :
  forall st evs st',
    insideInv st -> feed st chunks = (evs, Continue st') -> insideInv st'.
Proof.
  induction chunks as [|c rest IH]; intros st evs st' H; simpl.
  - now intros [= _ <-].
  - rewrite consume_eq.
    pose proof (step_insideInv c H) as H2.
    destruct (streamValue _) as [e1 st2]. cbn [snd] in H2.
    destruct (verdict _); [discriminate|].
    destruct (feed st2 rest) as [e2 [st3|]] eqn:F; [|discriminate].
    intros [= _ <-]. eapply IH; eauto.
Qed.

Lemma insideInv_initial : insideInv initialState.
Proof. discriminate. Qed.

(** A decoder that has received a text that parses is not inside the
    value. *)
Lemma parsed_not_inside (st : DecoderState) (w : json) :
  insideInv st -> JSON_parse (fullStreamContent st) = Some w ->
  isInsideResponseValue st = false.
Proof.
  intros H Hp. destruct (isInsideResponseValue st) eqn:E; [|reflexivity].
  destruct (H E) as (pre0 & v & Hb & _ & Hq).
  rewrite Hb in Hp. exfalso. eapply open_value_not_json; eauto.
Qed.

(** ** The run in chunks of a text accepted at once *)

Lemma verdict_cases (buf : str) (ev : Event) :
  verdict buf = Some ev ->
  (exists v, ev = OnStreamEnd v /\ looksComplete buf = true
             /\ JSON_parse buf = Some v)
  \/ (ev = OnError ExceededMaxLength /\ (maxLength < len buf)%Z).
Proof.
  unfold verdict. destruct (looksComplete buf); [|discriminate].
  destruct (JSON_parse buf) as [v|].
  - destruct (property_access_throws v).
    + destruct (Z.ltb_spec maxLength (len buf)); [|discriminate].
      intros [= <-]. now right.
    + intros [= <-]. left. now exists v.
  - destruct (Z.ltb_spec maxLength (len buf)); [|discriminate].
    intros [= <-]. now right.
Qed.

Lemma looksComplete_brace (buf : str) :
  looksComplete buf = true -> includes buf LBRACE = true.
Proof.
  unfold looksComplete. intros H.
  apply andb_true_iff in H as [H _]. now apply andb_true_iff in H as [_ H].
Qed.

(** What the acceptance of a text given at once amounts to. *)
Lemma single_chunk_accept (s : str) (obj : json) :
  In (OnStreamEnd obj) (processStream (Some [s])) ->
  JSON_parse s = Some obj
  /\ (verdict s = None ->
      exists st, fullStreamContent st = s /\ isInsideResponseValue st = false
                 /\ onDone st = [OnStreamEnd obj]).
Proof.
  intros H. split; [now apply single_chunk_end_parse|].
  intros Hv. unfold processStream in H. destruct H as [H|H];
    [discriminate|].
  unfold readLoop in H. rewrite consume_eq in H.
  pose proof (streamValue_onlyChunks (findKey (appendChunk initialState s)))
    as Ho.
  pose proof (streamValue_buffer (findKey (appendChunk initialState s))) as Hb.
  rewrite findKey_buffer in Hb. cbn [appendChunk fullStreamContent
    initialState app] in Hb.
  destruct (streamValue _) as [e1 st2]. cbn [fst snd] in Ho, Hb.
  rewrite Hb, Hv in H. exists st2. split; [exact Hb|].
  apply in_app_or in H as [H|H]; [now apply onlyChunks_no_end in H|].
  unfold onDone in *. destruct (isInsideResponseValue st2).
  { destruct H as [H|[]]; discriminate. }
  split; [reflexivity|].
  destruct (truthy _); [|destruct H as [H|[]]; discriminate].
  destruct (JSON_parse _) as [v|]; [|destruct H as [H|[]]; discriminate].
  destruct (property_access_throws v); destruct H as [H|[]];
    congruence.
Qed.

Lemma onDone_outside (st st' : DecoderState) :
  fullStreamContent st = fullStreamContent st' ->
  isInsideResponseValue st = false -> isInsideResponseValue st' = false ->
  onDone st = onDone st'.
Proof. unfold onDone. now intros -> -> ->. Qed.

Lemma len_prefix (P t : str) : (len P <= len (P ++ t))%Z.
Proof. rewrite len_app. pose proof (len_nonneg t). lia. Qed.

(** C6 (amended): when the decoder accepts a complete text given as one
    chunk, and the text either starts with the opening brace of the
    object, as every text of the wire format does, or is not longer than
    the ceiling of 50000 characters, then the decoder accepts the same
    text cut into chunks in any way, and delivers the identical final
    object. *)
Theorem chunking_keeps_final_object
        (S : str) (obj : json) (chunks : list str) :
  In (OnStreamEnd obj) (processStream (Some [S])) ->
  nth_error S 0 = Some LBRACE \/ (len S <= maxLength)%Z ->
  concat chunks = S ->
  processStream (Some chunks)
  = OnStreamStart
      :: map OnStreamChunk (deltas (processStream (Some chunks)))
      ++ [OnStreamEnd obj].
Proof.
  intros Hacc [Hb | Hlen] Hc.
  { destruct S as [|b S']; [discriminate|]. injection Hb as ->.
    apply chunking_object_text with (S' := S'); [|exact Hc].
    now apply single_chunk_end_parse. }
  destruct (single_chunk_accept Hacc) as [Hp Hdone].
  unfold processStream. rewrite readLoop_feed.
  pose proof (feed_verdicts chunks initialState) as F.
  pose proof (@feed_insideInv chunks initialState) as Finv.
  pose proof (@feed_buffer chunks initialState) as Fbuf.
  destruct (feed initialState chunks) as [evs [st'|]].
  - destruct F as [Ho Hn]. simpl in Hn.
    specialize (Finv _ _ insideInv_initial eq_refl).
    specialize (Fbuf _ _ eq_refl). simpl in Fbuf. rewrite Hc in Fbuf.
    assert (Hv : verdict S = None).
    { destruct (@exists_last _ chunks) as (c1 & c & E).
      - intros ->. simpl in Hc. subst S. discriminate.
      - specialize (Hn c1 c [] E). now rewrite <- E, Hc in Hn. }
    destruct (Hdone Hv) as (st & Hsb & Hsi & Hd).
    assert (Hin : isInsideResponseValue st' = false).
    { eapply parsed_not_inside; eauto. rewrite Fbuf. eauto. }
    rewrite (@onDone_outside st' st), Hd; auto; [|congruence].
    cbn [deltas]. rewrite deltas_app. cbn [deltas]. rewrite app_nil_r.
    f_equal. f_equal. exact (proj1 Ho).
  - destruct F as (c1 & c & c2 & ev & evs1 & E & -> & Ho & Hv).
    simpl in Hv.
    assert (HP : concat (c1 ++ [c]) ++ concat c2 = S)
      by (rewrite <- Hc, E, <- concat_app, <- app_assoc; reflexivity).
    destruct (verdict_cases _ Hv) as [(v & -> & Hlc & Hpv) | [_ Hlong]].
    + assert (obj = v).
      { eapply parse_prefix_same; eauto using looksComplete_brace.
        now rewrite HP. }
      subst v.
      cbn [deltas]. rewrite deltas_app. cbn [deltas]. rewrite app_nil_r.
      f_equal. f_equal. exact (proj1 Ho).
    + exfalso. pose proof (len_prefix (concat (c1 ++ [c])) (concat c2)) as L.
      rewrite HP in L. lia.
Qed.

Lemma chunking_keeps_final_object_witness :
  processStream (Some [js "{'respon"; js "se': 'Hola!', 'currentWo";
                       js "rd': 'casa'}"])
  = OnStreamStart
      :: map OnStreamChunk
           (deltas (processStream
                      (Some [js "{'respon"; js "se': 'Hola!', 'currentWo";
                             js "rd': 'casa'}"])))
      ++ [OnStreamEnd (JObject [(lit "response", JString (lit "Hola!"));
                                (lit "currentWord", JString (lit "casa"))])].
Proof.
  apply (@chunking_keeps_final_object
           (js "{'response': 'Hola!', 'currentWord': 'casa'}")
           (JObject [(lit "response", JString (lit "Hola!"));
                     (lit "currentWord", JString (lit "casa"))])
           [js "{'respon"; js "se': 'Hola!', 'currentWo"; js "rd': 'casa'}"]).
  - vm_compute. right. right. now left.
  - left. reflexivity.
  - reflexivity.
Defined.

(* ===================================================================== *)
(** * The shape of every run of the decoder *)
(* ===================================================================== *)

Lemma onDone_terminal (st : DecoderState) :
  exists t, onDone st = [t] /\ isTerminal t = true.
Proof.
  unfold onDone. destruct (isInsideResponseValue st); [eauto|].
  destruct (truthy _); [|eauto].
  destruct (JSON_parse _) as [v|]; [|eauto].
  destruct (property_access_throws v) eqn:P; [eauto|].
  eexists. split; [reflexivity|]. simpl. now rewrite P.
Qed.

Lemma verdict_terminal (buf : str) (ev : Event) :
  verdict buf = Some ev -> isTerminal ev = true.
Proof.
  unfold verdict. intros H.
  destruct (looksComplete buf); [|discriminate].
  destruct (JSON_parse buf) as [v|].
  - destruct (property_access_throws v) eqn:P.
    + destruct (maxLength <? len buf)%Z; [|discriminate].
      injection H as <-. reflexivity.
    + injection H as <-. simpl. now rewrite P.
  - destruct (maxLength <? len buf)%Z; [|discriminate].
    injection H as <-. reflexivity.
Qed.

(** The shape of a run on a response with a body. *)
Lemma processStream_shape (chunks : list str) :
  exists ds t,
    processStream (Some chunks)
    = OnStreamStart :: map OnStreamChunk ds ++ [t]
    /\ isTerminal t = true
    /\ Forall (fun d : str => d <> []) ds.
Proof.
  unfold processStream. rewrite readLoop_feed.
  pose proof (feed_verdicts chunks initialState) as H.
  destruct (feed initialState chunks) as [evs [st'|]].
  - destruct H as [[He Hf] _].
    destruct (onDone_terminal st') as (t & -> & Ht).
    exists (deltas evs), t. rewrite <- He. auto.
  - destruct H as (c1 & c & c2 & ev & evs1 & _ & -> & [He Hf] & Hv).
    exists (deltas evs1), ev. rewrite <- He.
    split; [reflexivity|]. split; [|exact Hf].
    exact (verdict_terminal _ Hv).
Qed.

(** X1: every run of [processStream] on a response with a body consists
    of the start callback, then chunks, none of them empty, then exactly
    one terminal callback -- the final object, which is never [null], or
    an error -- and nothing after it; a response without body gives the
    error for the missing body alone. *)
Theorem stream_ends_with_one_terminal :
  (forall chunks : list str,
      exists ds t,
        processStream (Some chunks)
        = OnStreamStart :: map OnStreamChunk ds ++ [t]
        /\ isTerminal t = true
        /\ Forall (fun d : str => d <> []) ds)
  /\ processStream None = [OnError ResponseBodyMissing].
Proof. split; [exact processStream_shape | reflexivity]. Qed.

(* ===================================================================== *)
(** * Streams without the key *)
(* ===================================================================== *)

Lemma noKey_noKeyAfterValue (s : str) :
  (forall j, ~ occursAt marker s j) -> noKeyAfterValue s.
Proof.
  intros Hno pre v m i _ [Ho _] _ _ _ j _. exfalso. exact (Hno m Ho).
Qed.

Lemma noKey_prefix (b t : str) :
  (forall j, ~ occursAt marker (b ++ t) j) -> forall j, ~ occursAt marker b j.
Proof.
  intros H j Ho. apply (H j).
  apply (occursAt_prefix b t j marker_nonempty) in Ho. tauto.
Qed.

(** The run of the loop on a stream in which the key never occurs: no
    chunk is sent, and the loop ends with a verdict of the completion
    check or goes on with the decoder still seeking. *)
Lemma feed_without_key (chunks : list str) :
  (forall j, ~ occursAt marker (concat chunks) j) ->
  match feed initialState chunks with
  | (evs, Continue st') =>
      evs = [] /\ st' = mkState (concat chunks) false (-1) []
      /\ noVerdictAlong [] chunks
  | (evs, Break) =>
      exists chunks1 c chunks2 ev,
        chunks = chunks1 ++ c :: chunks2 /\ evs = [ev]
        /\ verdict (concat (chunks1 ++ [c])) = Some ev
  end.
Proof.
  intros Hno.
  pose proof (@feed_tracks chunks [] initialState tracks_initial) as H.
  simpl app in H. specialize (H (noKey_noKeyAfterValue Hno)).
  destruct (feed initialState chunks) as [evs [st'|]].
  - destruct H as (Ht & Ho & Hs & Hn).
    pose proof (tracks_seeking_inv Ht Hno) as ->.
    simpl in Hs. symmetry in Hs.
    rewrite (onlyChunks_empty Ho Hs). auto.
  - destruct H as (c1 & c & c2 & ev & evs1 & st1 & E & -> & Ho & Hv & Ht & Hs).
    simpl app in Hv, Ht.
    assert (Hno1 : forall j, ~ occursAt marker (concat (c1 ++ [c])) j).
    { apply (@noKey_prefix _ (concat c2)).
      rewrite <- concat_app, <- app_assoc. simpl. rewrite <- E. exact Hno. }
    pose proof (tracks_seeking_inv Ht Hno1) as ->.
    simpl in Hs. symmetry in Hs.
    rewrite (onlyChunks_empty Ho Hs).
    exists c1, c, c2, ev. auto.
Qed.

(** X2: when the key marker, the text of the key with one space after
    the colon, never occurs in the stream, the decoder sends no chunk at
    all: its run is the start callback and one terminal callback. *)
Theorem no_key_no_chunk (chunks : list str) :
  indexOf (concat chunks) marker 0 = (-1)%Z ->
  exists t, processStream (Some chunks) = [OnStreamStart; t]
            /\ isTerminal t = true.
Proof.
  intros Hidx.
  assert (Hno : forall j, ~ occursAt marker (concat chunks) j).
  { intros j. apply (@indexOf_none_absent (concat chunks) 0); [lia | exact Hidx | lia]. }
  pose proof (feed_without_key chunks Hno) as H.
  unfold processStream. rewrite readLoop_feed.
  destruct (feed initialState chunks) as [evs [st'|]].
  - destruct H as (-> & _ & _).
    destruct (onDone_terminal st') as (t & -> & Ht).
    exists t. split; [reflexivity | exact Ht].
  - destruct H as (c1 & c & c2 & ev & _ & -> & Hv).
    exists ev. split; [reflexivity | exact (verdict_terminal _ Hv)].
Qed.

Lemma no_key_no_chunk_witness :
  exists t,
    processStream (Some [js "{'response':"; js "'hola'}"]) = [OnStreamStart; t]
    /\ isTerminal t = true.
Proof.
  apply (@no_key_no_chunk [js "{'response':"; js "'hola'}"]).
  vm_compute. reflexivity.
Defined.

Lemma js_space_not_value (c : char) (st : list frame) :
  is_js_space c = true -> is_json_ws c = false ->
  value_start st c = (st, Rejected).
Proof.
  intros Hs Hw. unfold value_start.
  repeat match goal with
  | |- context [N.eqb c ?k] =>
      let E := fresh "E" in
      destruct (N.eqb c k) eqn:E;
      [apply N.eqb_eq in E; subst c; vm_compute in Hs; discriminate|]
  end.
  destruct (is_digit c) eqn:D; [|reflexivity].
  exfalso. unfold is_digit in D. apply andb_true_iff in D.
  destruct D as [D1 D2]. apply N.leb_le in D1, D2.
  unfold is_js_space in Hs. simpl existsb in Hs.
  repeat rewrite ?orb_true_iff, ?andb_true_iff, ?N.eqb_eq, ?N.leb_le in Hs.
  lia.
Qed.

Lemma prun_blank (s : str) :
  forallb is_js_space s = true ->
  prun pinit s = pinit \/ prun pinit s = ([], Rejected).
Proof.
  intros H. unfold prun, pinit.
  induction s as [|c s IH] using rev_ind; [left; reflexivity|].
  rewrite forallb_app in H. apply andb_true_iff in H. destruct H as [Hs Hc].
  simpl in Hc. rewrite andb_true_r in Hc.
  rewrite fold_left_app. simpl.
  destruct (IH Hs) as [-> | ->]; [|right; reflexivity].
  simpl. destruct (is_json_ws c) eqn:W; [left; reflexivity|].
  right. exact (@js_space_not_value c [] Hc W).
Qed.

Lemma blank_not_json (s : str) :
  forallb is_js_space s = true -> JSON_parse s = None.
Proof.
  intros H. unfold JSON_parse.
  destruct (prun_blank s H) as [-> | ->]; reflexivity.
Qed.

Lemma parsed_not_blank (s : str) (v : json) :
  JSON_parse s = Some v -> truthy (trim s) = true.
Proof.
  intros H. destruct (trim s) eqn:E; [|reflexivity].
  rewrite (blank_not_json s (trim_empty s E)) in H. discriminate.
Qed.

(** X3: a stream in which neither the key marker nor an opening brace
    occurs, and whose text is valid JSON -- a number, a string, a name,
    an array of such -- is settled at the end of the stream only: its
    value goes to the final callback as it is, except [null], for which
    the decoder reports invalid JSON. *)
Theorem braceless_stream_is_settled_at_the_end
        (chunks : list str) (v : json) :
  indexOf (concat chunks) marker 0 = (-1)%Z ->
  includes (concat chunks) LBRACE = false ->
  JSON_parse (concat chunks) = Some v ->
  processStream (Some chunks)
  = [OnStreamStart;
     if property_access_throws v then OnError InvalidFinalJson
     else OnStreamEnd v].
Proof.
  intros Hidx Hb Hp.
  assert (Hno : forall j, ~ occursAt marker (concat chunks) j).
  { intros j. apply (@indexOf_none_absent (concat chunks) 0); [lia | exact Hidx | lia]. }
  pose proof (feed_without_key chunks Hno) as H.
  unfold processStream. rewrite readLoop_feed.
  destruct (feed initialState chunks) as [evs [st'|]].
  - destruct H as (-> & -> & _). simpl app. f_equal.
    unfold onDone. cbn [isInsideResponseValue fullStreamContent].
    rewrite (parsed_not_blank _ Hp), Hp.
    destruct (property_access_throws v); reflexivity.
  - exfalso. destruct H as (c1 & c & c2 & ev & E & _ & Hv).
    destruct (verdict_cases _ Hv) as [(w & _ & Hl & _) | [_ Hlen]].
    + apply looksComplete_brace in Hl.
      rewrite E, <- (app_nil_r (c :: c2)) in Hb.
      change (c :: c2) with ([c] ++ c2) in Hb.
      rewrite app_nil_r, app_assoc, concat_app, includes_app, Hl in Hb.
      discriminate.
    + unfold verdict in Hv.
      destruct (looksComplete (concat (c1 ++ [c]))) eqn:Hl; [|discriminate].
      apply looksComplete_brace in Hl.
      rewrite E in Hb. change (c :: c2) with ([c] ++ c2) in Hb.
      rewrite app_assoc, concat_app, includes_app, Hl in Hb.
      discriminate.
Qed.

Lemma braceless_stream_is_settled_at_the_end_witness :
  processStream (Some [lit "[1, "; lit "2]"])
  = [OnStreamStart; OnStreamEnd (JArray [JNumber (lit "1"); JNumber (lit "2")])]
  /\ processStream (Some [lit "nu"; lit "ll"])
     = [OnStreamStart; OnError InvalidFinalJson].
Proof.
  split.
  - apply (@braceless_stream_is_settled_at_the_end
             [lit "[1, "; lit "2]"]
             (JArray [JNumber (lit "1"); JNumber (lit "2")]));
      vm_compute; reflexivity.
  - apply (@braceless_stream_is_settled_at_the_end
             [lit "nu"; lit "ll"] JNull);
      vm_compute; reflexivity.
Defined.

(* ===================================================================== *)
(** * The decoder on the output of the handler, for every response *)
(* ===================================================================== *)

Lemma occursAt_skip (p a b : str) (j : nat) :
  occursAt p (a ++ b) (length a + j) <-> occursAt p b j.
Proof.
  unfold occursAt. rewrite skipn_app.
  replace (length a + j - length a) with j by lia.
  rewrite (skipn_all2 a) by lia. reflexivity.
Qed.

Lemma balance_open_value (v : str) :
  quoteFree false v = true -> balance (opening ++ v) = mkBalance 1 true false.
Proof.
  intros Hq. rewrite balance_app.
  change (balance opening) with (mkBalance 1 true false).
  pose proof (@balance_value (mkBalance 1 true false) v (length v)
                (le_n _) eq_refl eq_refl) as H.
  rewrite firstn_all in H. rewrite H.
  - rewrite odd_backslashes_escAfter by lia. rewrite firstn_all.
    now rewrite (proj1 (quoteFree_spec v false Hq)).
  - intros j _. now apply quoteFree_open.
Qed.

(** The run of the decoder on a text of the wire format whose value
    holds no unescaped quote, when no key follows the value and no proper
    prefix that reaches beyond the value looks complete: the chunks spell
    the value, and the end is the verdict on the whole text or, without
    one, what the end of the stream gives. *)
Lemma wire_run (v rest : str) (chunks : list str) :
  quoteFree false v = true ->
  (forall j, ~ occursAt marker rest j) ->
  (forall rest1 t, rest1 ++ t = rest -> t <> [] ->
                   looksComplete (opening ++ v ++ QUOTE :: rest1) = false) ->
  concat chunks = opening ++ v ++ QUOTE :: rest ->
  exists ds,
    concat ds = v /\ Forall (fun d : str => d <> []) ds /\
    processStream (Some chunks)
    = OnStreamStart :: map OnStreamChunk ds ++
      match verdict (opening ++ v ++ QUOTE :: rest) with
      | Some ev => [ev]
      | None => onDone (mkState (opening ++ v ++ QUOTE :: rest) false 0 [])
      end.
Proof.
  intros Hqf Hnk Hpre Hc.
  destruct (quoteFree_closing v rest Hqf) as [Hq Hmin].
  assert (Hl : noKeyAfterValue (opening ++ v ++ QUOTE :: rest)).
  { intros pre v' m i E Hk Hlen Hq' Hmin' j Hj.
    destruct (@wire_split v rest pre v' m E Hk Hlen) as [-> ->].
    rewrite (first_unescaped_unique Hq' Hmin' Hq Hmin) in Hj.
    replace (opening ++ v ++ QUOTE :: rest)
      with ((opening ++ v ++ [QUOTE]) ++ rest)
      by (rewrite <- !app_assoc; reflexivity).
    replace j with (length (opening ++ v ++ [QUOTE])
                    + (j - length (opening ++ v ++ [QUOTE])))
      by (rewrite !length_app in *; simpl in *; lia).
    rewrite occursAt_skip. apply Hnk. }
  assert (Hclosed : forall rest1 st,
             tracks (opening ++ v ++ QUOTE :: rest1) st ->
             isInsideResponseValue st = false
             /\ responseValueSentSoFar st = v
             /\ fullStreamContent st = opening ++ v ++ QUOTE :: rest1).
  { intros rest1 st Ht.
    destruct (quoteFree_closing v rest1 Hqf) as [Hq1 Hmin1].
    inversion Ht as [Hno | pre v' m E' Hk Hlen Hopen
                     | pre v' m i E' Hk Hlen Hq' Hmin']; subst st.
    - exfalso. eapply Hno. apply (opening_key (v ++ QUOTE :: rest1)).
    - destruct (@wire_split v rest1 pre v' m E' Hk Hlen) as [-> ->].
      exfalso. eapply Hopen; eauto.
    - destruct (@wire_split v rest1 pre v' m E' Hk Hlen) as [-> ->].
      rewrite (first_unescaped_unique Hq' Hmin' Hq1 Hmin1).
      cbn [isInsideResponseValue responseValueSentSoFar fullStreamContent].
      rewrite firstn_app, Nat.sub_diag, firstn_all. simpl.
      now rewrite app_nil_r. }
  pose proof (@feed_tracks chunks [] initialState tracks_initial) as H.
  simpl app in H. rewrite Hc in H. specialize (H Hl).
  unfold processStream. rewrite readLoop_feed.
  destruct (feed initialState chunks) as [evs [st'|]].
  - destruct H as (Ht & [He Hf] & Hs & Hn).
    destruct (Hclosed rest st' Ht) as (Hi & Hv & Hb).
    exists (deltas evs). simpl in Hs. rewrite <- Hs, Hv.
    split; [reflexivity|]. split; [exact Hf|].
    rewrite <- He. f_equal. f_equal.
    assert (Hnv : verdict (opening ++ v ++ QUOTE :: rest) = None).
    { destruct (@exists_last _ chunks) as (c1 & c & E).
      - intros ->. discriminate.
      - specialize (Hn c1 c [] E). rewrite <- E, Hc in Hn. exact Hn. }
    rewrite Hnv. apply onDone_outside; [exact Hb | exact Hi | reflexivity].
  - destruct H as (c1 & c & c2 & ev & evs1 & st1 & E & -> & [He Hf] & Hv & Ht & Hs).
    simpl app in Hv, Ht.
    assert (HB : concat (c1 ++ [c]) ++ concat c2
                 = opening ++ v ++ QUOTE :: rest)
      by (rewrite <- Hc, E, <- concat_app, <- app_assoc; reflexivity).
    destruct (@wire_prefix_cases v rest _ _ HB) as [[u Hu] | [rest1 HB1]].
    { exfalso. rewrite verdict_not_complete in Hv; [discriminate|].
      apply (@opening_prefix_not_complete _ u v Hu).
      now apply quoteFree_open. }
    rewrite HB1 in Ht, Hv, HB.
    destruct (Hclosed rest1 st1 Ht) as (Hi & Hsv & Hb).
    assert (Hr : rest1 ++ concat c2 = rest).
    { rewrite <- !app_assoc in HB.
      apply app_inv_head in HB. apply app_inv_head in HB.
      rewrite <- app_comm_cons in HB. now injection HB. }
    destruct (concat c2) as [|x t] eqn:E2.
    + rewrite app_nil_r in Hr. subst rest1.
      exists (deltas evs1). simpl in Hs. rewrite <- Hs, Hsv.
      split; [reflexivity|]. split; [exact Hf|].
      rewrite <- He, Hv. reflexivity.
    + exfalso. rewrite verdict_not_complete in Hv; [discriminate|].
      apply (Hpre rest1 (x :: t) Hr). discriminate.
Qed.

Lemma closing_head : closing = QUOTE :: tl closing.
Proof. reflexivity. Qed.

Lemma closing_no_key (j : nat) : ~ occursAt marker (tl closing) j.
Proof.
  apply (@indexOf_none_absent (tl closing) 0); [lia | | lia].
  vm_compute. reflexivity.
Qed.

Lemma closing_prefix_open (v rest1 t : str) :
  quoteFree false v = true -> rest1 ++ t = tl closing -> t <> [] ->
  looksComplete (opening ++ v ++ QUOTE :: rest1) = false.
Proof.
  intros Hq E Ht. unfold looksComplete.
  rewrite app_assoc, balance_app, (balance_open_value v Hq).
  assert (Hk : rest1 = firstn (length rest1) (tl closing))
    by (rewrite <- E, firstn_app, Nat.sub_diag, firstn_all; simpl;
        now rewrite app_nil_r).
  assert (Hlt : length rest1 < length (tl closing)).
  { rewrite <- E, length_app. destruct t; [congruence | simpl; lia]. }
  assert (Hall :
            forallb (fun k =>
                       negb (braceLevel
                               (fold_left balanceChar
                                          (QUOTE :: firstn k (tl closing))
                                          (mkBalance 1 true false)) =? 0)%Z)
                    (seq 0 (length (tl closing))) = true)
    by (vm_compute; reflexivity).
  rewrite forallb_forall in Hall.
  specialize (Hall (length rest1)). rewrite <- Hk in Hall.
  rewrite in_seq in Hall. specialize (Hall ltac:(lia)).
  apply negb_true_iff in Hall. rewrite Hall. reflexivity.
Qed.

Lemma deltas_map_chunk (ds : list str) : deltas (map OnStreamChunk ds) = ds.
Proof. induction ds as [|d ds IH]; simpl; congruence. Qed.

(** The run of the decoder on the bytes of the handler, for every
    response and every partition into chunks. *)
Lemma handler_run (fragments : list str) (t : Terminal) (chunks : list str) :
  concat chunks = written (continueSession fragments t) ->
  exists ds,
    concat ds = escapeContent (asReceived fragments) /\
    Forall (fun d : str => d <> []) ds /\
    processStream (Some chunks)
    = OnStreamStart :: map OnStreamChunk ds ++
      match verdict (concat chunks) with
      | Some ev => [ev]
      | None => onDone (mkState (concat chunks) false 0 [])
      end.
Proof.
  intros Hc. rewrite written_continueSession, closing_head in Hc.
  rewrite Hc.
  apply wire_run.
  - apply quoteFree_escapeContent.
  - exact closing_no_key.
  - intros rest1 t' E Ht.
    exact (@closing_prefix_open _ _ _ (quoteFree_escapeContent _) E Ht).
  - exact Hc.
Qed.

Lemma chunks_spell (fragments : list str) (t : Terminal)
      (chunks : list str) :
  concat chunks = written (continueSession fragments t) ->
  concat (deltas (processStream (Some chunks)))
  = escapeContent (asReceived fragments).
Proof.
  intros Hc. destruct (@handler_run fragments t chunks Hc) as (ds & Hd & _ & ->).
  cbn [deltas]. rewrite deltas_app, deltas_map_chunk.
  destruct (verdict (concat chunks)) as [ev|] eqn:V.
  - rewrite (verdict_not_chunk _ V), app_nil_r. exact Hd.
  - rewrite deltas_onDone, app_nil_r. exact Hd.
Qed.

(** X4: whatever the fragments hold and however the bytes of the answer
    are cut on their way, also inside a character, the texts of the
    chunks the decoder sends spell the response as it is received -- the
    fragments, each with its unpaired surrogates replaced by U+FFFD --
    in the escaped form the handler wrote, also for a response that
    makes the bytes invalid JSON. *)
Theorem chunks_spell_escaped_response
        (fragments : list str) (t : Terminal)
        (values : list (list Utf8.octet)) :
  Forall (fun f => codeUnits f = true) fragments ->
  concat values = sent (continueSession fragments t) ->
  concat (deltas (processStream (Some (received values))))
  = escapeContent (asReceived fragments).
Proof.
  intros Hu Hc. apply (@chunks_spell fragments t).
  now apply received_continueSession.
Qed.

Lemma chunks_spell_escaped_response_witness :
  concat
    (deltas
       (processStream
          (Some (received
                   [Utf8.encode (js "{'respon");
                    Utf8.encode (js "se': 'a\n") ++ [0xEF; 0xBF]%N;
                    [0xBD; 0xEF; 0xBF; 0xBD; 8]%N ++ Utf8.encode closing]))))
  = escapeContent (asReceived [[97; 10; 0xD83D]%N; [0xDE00; 8]%N]).
Proof.
  apply (@chunks_spell_escaped_response
           [[97; 10; 0xD83D]%N; [0xDE00; 8]%N] SourceDone).
  - repeat constructor.
  - vm_compute. reflexivity.
Defined.

Lemma prun_unplain (r : str) :
  forall (st : list frame) (acc : str) (k : bool),
    forallb plainChar r = false ->
    prun (st, InStr acc k) (escapeContent r) = (st, Rejected).
Proof.
  induction r as [|x r IH]; intros st acc k H; [discriminate|].
  change (x :: r) with ([x] ++ r). rewrite escapeContent_app, prun_app.
  rewrite escapeContent_char.
  simpl in H. destruct (plainChar x) eqn:P.
  - rewrite (@prun_escapeChar st acc k x P). apply IH. exact H.
  - assert (E : prun (st, InStr acc k) (escapeChar x) = (st, Rejected)).
    { unfold plainChar in P.
      repeat rewrite ?orb_false_iff in P.
      destruct P as [[[P1 P2] P3] P4].
      apply N.leb_gt in P1. apply N.eqb_neq in P2, P3, P4.
      unfold escapeChar, BACKSLASH, QUOTE.
      repeat match goal with
      | |- context [N.eqb x ?c] =>
          let E := fresh "E" in
          destruct (N.eqb x c) eqn:E;
          [apply N.eqb_eq in E; lia|]
      end.
      unfold prun. simpl.
      repeat match goal with
      | |- context [N.eqb x ?c] =>
          let E := fresh "E" in
          destruct (N.eqb x c) eqn:E;
          [apply N.eqb_eq in E; lia|]
      end.
      destruct (N.ltb x 32) eqn:L; [reflexivity|].
      apply N.ltb_ge in L. lia. }
    rewrite E. apply prun_fail.
Qed.

Lemma parse_unplain (r : str) :
  forallb plainChar r = false ->
  JSON_parse (opening ++ escapeContent r ++ closing) = None.
Proof.
  intros H. unfold JSON_parse. fold (prun pinit (opening ++ escapeContent r ++ closing)).
  rewrite !prun_app, prun_opening, (prun_unplain r _ _ _ H), prun_fail.
  reflexivity.
Qed.

Lemma includes_not_blank (s : str) (c : char) :
  includes s c = true -> is_js_space c = false -> truthy (trim s) = true.
Proof.
  intros Hi Hc. destruct (trim s) eqn:E; [|reflexivity].
  rewrite (blank_no_char s c (trim_empty s E) Hc) in Hi. discriminate.
Qed.

Lemma wire_looksComplete (v : str) :
  quoteFree false v = true -> looksComplete (opening ++ v ++ closing) = true.
Proof.
  intros Hq. unfold looksComplete.
  rewrite app_assoc, balance_app, (balance_open_value v Hq).
  rewrite !includes_app.
  change (includes opening LBRACE) with true.
  change (includes closing RBRACE) with true.
  rewrite !orb_true_r.
  vm_compute. reflexivity.
Qed.

Lemma control_character_run
        (fragments : list str) (t : Terminal) (chunks : list str) :
  forallb plainChar (concat fragments) = false ->
  concat chunks = written (continueSession fragments t) ->
  exists ds,
    concat ds = escapeContent (asReceived fragments) /\
    processStream (Some chunks)
    = OnStreamStart :: map OnStreamChunk ds ++
      [OnError (if (maxLength <? len (concat chunks))%Z
                then ExceededMaxLength else InvalidFinalJson)].
Proof.
  intros Hp Hc. rewrite <- plain_received_eq in Hp.
  destruct (@handler_run fragments t chunks Hc) as (ds & Hd & _ & ->).
  exists ds. split; [exact Hd|]. f_equal. f_equal.
  rewrite Hc, written_continueSession.
  set (W := opening ++ escapeContent (asReceived fragments) ++ closing).
  assert (HL : looksComplete W = true)
    by (apply wire_looksComplete, quoteFree_escapeContent).
  assert (HP : JSON_parse W = None) by (apply parse_unplain, Hp).
  unfold verdict. rewrite HL, HP.
  destruct (maxLength <? len W)%Z; [reflexivity|].
  unfold onDone. cbn [isInsideResponseValue fullStreamContent].
  rewrite (@includes_not_blank W LBRACE), HP; [reflexivity | | reflexivity].
  unfold W. rewrite includes_app. reflexivity.
Qed.

(** X5: a response with a control character that the handler does not
    escape -- any below the space but newline, carriage return and tab --
    ends in an error on the client, however the bytes are cut on their
    way: after the chunks, which spell the escaped response as it is
    received, the decoder reports invalid JSON, or the exceeded length
    when the text is longer than 50000 characters; it never delivers a
    final object. *)
Theorem control_character_ends_in_error
        (fragments : list str) (t : Terminal)
        (values : list (list Utf8.octet)) :
  Forall (fun f => codeUnits f = true) fragments ->
  forallb plainChar (concat fragments) = false ->
  concat values = sent (continueSession fragments t) ->
  exists ds,
    concat ds = escapeContent (asReceived fragments) /\
    processStream (Some (received values))
    = OnStreamStart :: map OnStreamChunk ds ++
      [OnError (if (maxLength <? len (concat (received values)))%Z
                then ExceededMaxLength else InvalidFinalJson)].
Proof.
  intros Hu Hp Hc. apply (@control_character_run fragments t); [exact Hp|].
  now apply received_continueSession.
Qed.

Lemma control_character_ends_in_error_witness :
  exists ds,
    concat ds = escapeContent (asReceived [lit "a"; [8%N]]) /\
    processStream
      (Some (received [Utf8.encode (js "{'response': 'a"); [8%N];
                       Utf8.encode closing]))
    = OnStreamStart :: map OnStreamChunk ds ++
      [OnError
         (if (maxLength
              <? len (concat
                        (received [Utf8.encode (js "{'response': 'a");
                                   [8%N]; Utf8.encode closing])))%Z
          then ExceededMaxLength else InvalidFinalJson)].
Proof.
  apply (@control_character_ends_in_error [lit "a"; [8%N]] SourceDone
           [Utf8.encode (js "{'response': 'a"); [8%N]; Utf8.encode closing]).
  - repeat constructor.
  - vm_compute. reflexivity.
  - vm_compute. reflexivity.
Defined.

(* ===================================================================== *)
(** * The bytes of the handler *)
(* ===================================================================== *)

(** X6: the bytes the handler writes depend only on the response as it
    is received, the fragments each made well-formed: two runs for which
    this text is the same write the same bytes, however the source of
    the fragments ended.  So for fragments that are well-formed -- no
    surrogate pair is cut -- the way the text is cut into fragments does
    not show in the bytes; when a pair is cut it does, each half being
    written as U+FFFD. *)
Theorem fragmentation_does_not_change_bytes
        (fragments1 fragments2 : list str) (t1 t2 : Terminal) :
  (asReceived fragments1 = asReceived fragments2 ->
   sent (continueSession fragments1 t1)
   = sent (continueSession fragments2 t2))
  /\ (Forall (fun f => toWellFormed f = f) (fragments1 ++ fragments2) ->
      concat fragments1 = concat fragments2 ->
      sent (continueSession fragments1 t1)
      = sent (continueSession fragments2 t2))
  /\ sent (continueSession [[0xD83D%N]; [0xDE00%N]] t1)
     <> sent (continueSession [[0xD83D; 0xDE00]%N] t2).
Proof.
  split; [|split].
  - intros H. now rewrite !sent_continueSession, H.
  - intros Hw H. apply Forall_app in Hw as [H1 H2].
    rewrite !sent_continueSession.
    now rewrite (asReceived_wellFormed H1), (asReceived_wellFormed H2), H.
  - rewrite !sent_continueSession. vm_compute. discriminate.
Qed.

Lemma fragmentation_does_not_change_bytes_witness :
  sent (continueSession [lit "Ho"; lit "la" ++ [0xD83D; 0xDE00]%N] SourceDone)
  = sent (continueSession [lit "H"; []; lit "ola" ++ [0xD83D; 0xDE00]%N]
                          SourceError).
Proof.
  apply (@fragmentation_does_not_change_bytes
           [lit "Ho"; lit "la" ++ [0xD83D; 0xDE00]%N]
           [lit "H"; []; lit "ola" ++ [0xD83D; 0xDE00]%N]
           SourceDone SourceError).
  - repeat constructor.
  - reflexivity.
Defined.

(** X7: in the bytes of the handler the value scan of the decoder finds
    the closing quote exactly where the escaped response ends, whatever
    characters the response holds: no quote or backslash of the response
    can close the value early or keep it open. *)
Theorem escaped_value_closes_at_its_end (fragments : list str) (t : Terminal) :
  valueScan (written (continueSession fragments t)) (length opening)
  = (true, length opening + length (escapeContent (concat fragments))).
Proof.
  rewrite written_continueSession, closing_head.
  rewrite <- length_escaped_received.
  apply valueScan_found_iff.
  apply quoteFree_closing, quoteFree_escapeContent.
Qed.

(* ===================================================================== *)
(** * The message list under the callbacks of a stream *)
(* ===================================================================== *)

Lemma eqStr_refl (a : str) : eqStr a a = true.
Proof. induction a as [|x a IH]; simpl; [|rewrite N.eqb_refl]; auto. Qed.

Lemma eqStr_eq (a b : str) : eqStr a b = true <-> a = b.
Proof.
  split; [|intros ->; apply eqStr_refl].
  revert b. induction a as [|x a IH]; intros [|y b] H; simpl in H;
    try discriminate; [reflexivity|].
  apply andb_true_iff in H. destruct H as [H1 H2].
  apply N.eqb_eq in H1. now rewrite H1, (IH b H2).
Qed.

Section MessageFacts.

Variable plus : jsval -> jsval -> jsval.

Section OneUpdate.

Variables (id0 : str) (contentChunk : jsval) (isComplete : bool).
Variables (exercises0 currentWord0 currentWordProgress0 : jsval).

Local Abbreviation upd :=
  (Messages.updateMessage plus id0 contentChunk isComplete
     exercises0 currentWord0 currentWordProgress0).
Local Abbreviation updFrom :=
  (Messages.updateFrom plus id0 contentChunk isComplete
     exercises0 currentWord0 currentWordProgress0).

Lemma updateMessage_other (now : Z) (m : Messages.ChatMessage) :
  isTarget id0 m = false -> upd now m = m.
Proof.
  unfold Messages.updateMessage, isTarget. now intros ->.
Qed.

Lemma updateMessage_id (now : Z) (m : Messages.ChatMessage) :
  Messages.id (upd now m) = Messages.id m.
Proof.
  unfold Messages.updateMessage. now destruct (_ && _).
Qed.

Lemma updateMessage_role (now : Z) (m : Messages.ChatMessage) :
  Messages.role (upd now m) = Messages.role m.
Proof.
  unfold Messages.updateMessage. now destruct (_ && _).
Qed.

Lemma updateFrom_nth (now : nat -> Z) (msgs : list Messages.ChatMessage) :
  forall j i,
    nth_error (updFrom now j msgs) i
    = option_map (upd (now (j + i))) (nth_error msgs i).
Proof.
  induction msgs as [|m msgs IH]; intros j [|i]; simpl; try reflexivity.
  - now rewrite Nat.add_0_r.
  - rewrite IH. now rewrite Nat.add_succ_r.
Qed.

Lemma updateFrom_length (now : nat -> Z) (msgs : list Messages.ChatMessage) :
  forall j, length (updFrom now j msgs) = length msgs.
Proof. induction msgs as [|m msgs IH]; intros j; simpl; auto. Qed.

Lemma updateFrom_ids (now : nat -> Z) (msgs : list Messages.ChatMessage) :
  forall j, map Messages.id (updFrom now j msgs) = map Messages.id msgs.
Proof.
  induction msgs as [|m msgs IH]; intros j; simpl; [reflexivity|].
  now rewrite updateMessage_id, IH.
Qed.

Lemma updateFrom_roles (now : nat -> Z) (msgs : list Messages.ChatMessage) :
  forall j, map Messages.role (updFrom now j msgs) = map Messages.role msgs.
Proof.
  induction msgs as [|m msgs IH]; intros j; simpl; [reflexivity|].
  now rewrite updateMessage_role, IH.
Qed.

End OneUpdate.

(** X8: [updateAssistantMessage] changes the messages of the assistant
    with the identifier given and nothing else: the list keeps its
    length, every message keeps its identifier and its role, and a
    message with another identifier or another role stays as it is, at
    its place. *)
Theorem update_touches_only_its_target
        (now : nat -> Z) (id0 : str) (contentChunk : jsval) (isComplete : bool)
        (exercises0 currentWord0 currentWordProgress0 : jsval)
        (msgs : list Messages.ChatMessage) :
  let out := Messages.updateAssistantMessage plus now id0 contentChunk
               isComplete exercises0 currentWord0 currentWordProgress0 msgs in
  length out = length msgs
  /\ map Messages.id out = map Messages.id msgs
  /\ map Messages.role out = map Messages.role msgs
  /\ forall i m, nth_error msgs i = Some m -> isTarget id0 m = false ->
                 nth_error out i = Some m.
Proof.
  unfold Messages.updateAssistantMessage. cbv zeta.
  split; [apply updateFrom_length|].
  split; [apply updateFrom_ids|].
  split; [apply updateFrom_roles|].
  intros i m Hm Ht. rewrite updateFrom_nth, Hm. simpl.
  now rewrite updateMessage_other.
Qed.

(** A completing update makes an earlier appending update of the same
    identifier invisible. *)
Lemma complete_absorbs_message
      (id0 : str) (c c' : jsval) (e1 e2 e3 e1' e2' e3' : jsval)
      (now now' : Z) (m : Messages.ChatMessage) :
  Messages.updateMessage plus id0 c true e1 e2 e3 now
    (Messages.updateMessage plus id0 c' false e1' e2' e3' now' m)
  = Messages.updateMessage plus id0 c true e1 e2 e3 now m.
Proof.
  unfold Messages.updateMessage.
  destruct (eqStr (Messages.id m) id0
            && Messages.eqRole (Messages.role m) Messages.assistant) eqn:T;
    cbn [Messages.id Messages.role]; rewrite T; reflexivity.
Qed.

Lemma complete_absorbs
      (id0 : str) (c c' : jsval) (e1 e2 e3 e1' e2' e3' : jsval)
      (now now' : nat -> Z) (msgs : list Messages.ChatMessage) :
  forall j,
    Messages.updateFrom plus id0 c true e1 e2 e3 now j
      (Messages.updateFrom plus id0 c' false e1' e2' e3' now' j msgs)
    = Messages.updateFrom plus id0 c true e1 e2 e3 now j msgs.
Proof.
  induction msgs as [|m msgs IH]; intros j; simpl; [reflexivity|].
  now rewrite complete_absorbs_message, IH.
Qed.

Lemma callbacks_app (clock : nat -> nat -> Z) (id0 : str)
      (a b : list Event) :
  forall k msgs,
    ChatStream.callbacks plus clock k id0 (a ++ b) msgs
    = match ChatStream.callbacks plus clock k id0 a msgs with
      | Some out => ChatStream.callbacks plus clock (k + length a) id0 b out
      | None => None
      end.
Proof.
  induction a as [|e a IH]; intros k msgs; simpl.
  - now rewrite Nat.add_0_r.
  - destruct (ChatStream.callback plus (clock k) id0 e msgs); [|reflexivity].
    rewrite IH. now rewrite Nat.add_succ_r.
Qed.

Lemma callbacks_chunks (clock : nat -> nat -> Z) (id0 : str) (ds : list str) :
  forall k msgs,
    exists out,
      ChatStream.callbacks plus clock k id0 (map OnStreamChunk ds) msgs
      = Some out
      /\ sameWhenCompleted plus id0 out msgs.
Proof.
  induction ds as [|d ds IH]; intros k msgs; simpl.
  - exists msgs. split; [reflexivity|]. intros ? ? ? ? ?. reflexivity.
  - destruct (IH (S k) (ChatStream.onStreamChunk plus (clock k) id0 d msgs))
      as (out & -> & Hs).
    exists out. split; [reflexivity|].
    intros now c e1 e2 e3. rewrite Hs.
    unfold ChatStream.onStreamChunk, Messages.updateAssistantMessage.
    apply complete_absorbs.
Qed.

Lemma terminal_callback (now : nat -> Z) (id0 : str) (t : Event)
      (a b : list Messages.ChatMessage) :
  (forall msg, t = OnError msg -> truthy id0 = true) ->
  isTerminal t = true -> sameWhenCompleted plus id0 a b ->
  exists out, ChatStream.callback plus now id0 t a = Some out
              /\ ChatStream.callback plus now id0 t b = Some out.
Proof.
  intros Hid Ht Hs. destruct t as [| |v|msg]; try discriminate; simpl in *.
  - unfold ChatStream.onStreamEnd.
    apply negb_true_iff in Ht. rewrite Ht, Hs. eauto.
  - unfold ChatStream.onError. rewrite (Hid msg eq_refl), Hs. eauto.
Qed.

(** The message list after a run on a response with a body. *)
Lemma streamInto_terminal (clock : nat -> nat -> Z) (id0 : str)
      (chunks : list str) (ds : list str) (t : Event)
      (msgs : list Messages.ChatMessage) :
  (forall msg, t = OnError msg -> truthy id0 = true) ->
  isTerminal t = true ->
  processStream (Some chunks) = OnStreamStart :: map OnStreamChunk ds ++ [t] ->
  exists out,
    ChatStream.callback plus (clock (S (length ds))) id0 t msgs = Some out
    /\ ChatStream.streamInto plus clock id0 (Some chunks) msgs = Some out.
Proof.
  intros Hid Ht E. unfold ChatStream.streamInto. rewrite E.
  cbn [ChatStream.callbacks ChatStream.callback].
  rewrite callbacks_app.
  destruct (callbacks_chunks clock id0 ds 1 msgs) as (mid & -> & Hs).
  rewrite length_map. cbn [ChatStream.callbacks].
  destruct (@terminal_callback (clock (1 + length ds)) id0 t mid msgs Hid Ht Hs)
    as (out & -> & H2).
  exists out. split; [exact H2 | reflexivity].
Qed.

(** X9: the message list after a stream depends on the terminal callback
    alone.  For every response, with or without body, and an identifier
    that is not empty, the callbacks of the stream leave the list that
    the last of them, applied to the list as it was before the stream,
    gives: the appended chunks leave no trace. *)
Theorem terminal_callback_decides_the_messages
        (clock : nat -> nat -> Z) (id0 : str) (body : option (list str))
        (msgs : list Messages.ChatMessage) :
  truthy id0 = true ->
  exists t out,
    last (processStream body) OnStreamStart = t
    /\ isTerminal t = true
    /\ ChatStream.callback plus (clock (length (processStream body) - 1))
                           id0 t msgs = Some out
    /\ ChatStream.streamInto plus clock id0 body msgs = Some out.
Proof.
  intros Hid. destruct body as [chunks|].
  - destruct (processStream_shape chunks) as (ds & t & E & Ht & _).
    destruct (@streamInto_terminal clock id0 chunks ds t msgs
                (fun _ _ => Hid) Ht E) as (out & H1 & H2).
    exists t, out. rewrite E.
    split.
    { change (OnStreamStart :: map OnStreamChunk ds ++ [t])
        with ((OnStreamStart :: map OnStreamChunk ds) ++ [t]).
      apply last_last. }
    split; [exact Ht|]. split; [|exact H2].
    cbn [length]. rewrite length_app, length_map. simpl.
    replace (length ds + 1 - 0) with (S (length ds)) by lia. exact H1.
  - exists (OnError ResponseBodyMissing). eexists.
    split; [reflexivity|]. split; [reflexivity|].
    split; reflexivity.
Qed.

Lemma chunk_update_target (now : Z) (id0 d c0 : str) (m : Messages.ChatMessage) :
  concatenates plus -> isTarget id0 m = true ->
  Messages.content m = jsString c0 ->
  Messages.updateMessage plus id0 (jsString d) false
                         JSUndefined JSUndefined JSUndefined now m
  = Messages.mkChatMessage
      (Messages.id m) (Messages.role m) (jsString (c0 ++ d))
      (Messages.timestamp m) (Some true) (Messages.exercises m)
      (Messages.currentWord m) (Messages.currentWordProgress m).
Proof.
  intros Hp Ht Hc. unfold Messages.updateMessage.
  unfold isTarget in Ht. rewrite Ht, Hc, Hp. reflexivity.
Qed.

Lemma callbacks_chunks_content
      (clock : nat -> nat -> Z) (id0 : str) (ds : list str) :
  forall (k : nat) (msgs : list Messages.ChatMessage) (i : nat)
         (m : Messages.ChatMessage) (c0 : str),
    concatenates plus ->
    nth_error msgs i = Some m -> isTarget id0 m = true ->
    Messages.content m = jsString c0 ->
    exists out,
      ChatStream.callbacks plus clock k id0 (map OnStreamChunk ds) msgs
      = Some out
      /\ nth_error out i
         = Some (Messages.mkChatMessage
                   (Messages.id m) (Messages.role m)
                   (jsString (c0 ++ concat ds))
                   (Messages.timestamp m)
                   (match ds with
                    | [] => Messages.isLoading m
                    | _ :: _ => Some true
                    end)
                   (Messages.exercises m) (Messages.currentWord m)
                   (Messages.currentWordProgress m)).
Proof.
  induction ds as [|d ds IH]; intros k msgs i m c0 Hp Hm Ht Hc.
  - exists msgs. split; [reflexivity|]. simpl. rewrite app_nil_r, <- Hc.
    rewrite Hm. now destruct m.
  - cbn [map ChatStream.callbacks ChatStream.callback].
    set (msgs1 := ChatStream.onStreamChunk plus (clock k) id0 d msgs).
    set (m1 := Messages.mkChatMessage
                 (Messages.id m) (Messages.role m) (jsString (c0 ++ d))
                 (Messages.timestamp m) (Some true) (Messages.exercises m)
                 (Messages.currentWord m) (Messages.currentWordProgress m)).
    assert (H1 : nth_error msgs1 i = Some m1).
    { unfold msgs1, ChatStream.onStreamChunk, Messages.updateAssistantMessage.
      rewrite updateFrom_nth, Hm. simpl.
      now rewrite (@chunk_update_target _ id0 d c0 m Hp Ht Hc). }
    destruct (IH (S k) msgs1 i m1 (c0 ++ d) Hp H1 Ht eq_refl) as (out & E & Hn).
    exists out. split; [exact E|]. rewrite Hn. simpl.
    rewrite <- app_assoc. now destruct ds.
Qed.

(** X10: while a stream runs, the chunks are appended to the content of
    the message: after the callbacks for any chunks, a message of the
    assistant with the identifier given, whose content was a string,
    holds that string followed by the texts of the chunks, in order; it
    is marked as loading, and its other fields are as before. *)
Theorem chunks_append_to_the_content
        (clock : nat -> nat -> Z) (id0 : str) (ds : list str)
        (k : nat) (msgs : list Messages.ChatMessage) (i : nat)
        (m : Messages.ChatMessage) (c0 : str) :
  concatenates plus ->
  nth_error msgs i = Some m -> isTarget id0 m = true ->
  Messages.content m = jsString c0 ->
  exists out,
    ChatStream.callbacks plus clock k id0 (map OnStreamChunk ds) msgs
    = Some out
    /\ nth_error out i
       = Some (Messages.mkChatMessage
                 (Messages.id m) (Messages.role m)
                 (jsString (c0 ++ concat ds))
                 (Messages.timestamp m)
                 (match ds with
                  | [] => Messages.isLoading m
                  | _ :: _ => Some true
                  end)
                 (Messages.exercises m) (Messages.currentWord m)
                 (Messages.currentWordProgress m)).
Proof. apply callbacks_chunks_content. Qed.

Lemma streaming_display
        (clock : nat -> nat -> Z) (id0 : str)
        (fragments : list str) (t : Terminal) (chunks : list str)
        (msgs : list Messages.ChatMessage) (i : nat)
        (m : Messages.ChatMessage) :
  concatenates plus ->
  concat chunks = written (continueSession fragments t) ->
  nth_error msgs i = Some m -> isTarget id0 m = true ->
  Messages.content m = jsString [] ->
  exists out m',
    ChatStream.callbacks plus clock 0 id0
                         (removelast (processStream (Some chunks))) msgs
    = Some out
    /\ nth_error out i = Some m'
    /\ Messages.content m' = jsString (escapeContent (asReceived fragments)).
Proof.
  intros Hp Hc Hm Ht Hc0.
  destruct (@handler_run fragments t chunks Hc) as (ds & Hd & _ & E).
  assert (E' : exists x, processStream (Some chunks)
                         = (OnStreamStart :: map OnStreamChunk ds) ++ [x]).
  { rewrite E.
    destruct (verdict (concat chunks)) as [ev|]; [exists ev; reflexivity|].
    destruct (onDone_terminal (mkState (concat chunks) false 0 []))
      as (x & -> & _). exists x. reflexivity. }
  destruct E' as (x & ->). rewrite removelast_last.
  cbn [ChatStream.callbacks ChatStream.callback].
  destruct (@callbacks_chunks_content clock id0 ds 1 msgs i m [] Hp Hm Ht Hc0)
    as (out & -> & Hn).
  eexists. eexists. split; [reflexivity|]. split; [exact Hn|].
  simpl. now rewrite Hd.
Qed.

(** X11: while the bytes of the answer arrive, the message shows the
    response as escaped on the wire: after all callbacks of the run but
    the last, a message of the assistant that was started empty holds the
    escaped text of the response as it is received -- a newline as a
    backslash and the letter n -- whatever the fragments hold and however
    the bytes are cut on their way. *)
Theorem streaming_display_is_escaped
        (clock : nat -> nat -> Z) (id0 : str)
        (fragments : list str) (t : Terminal)
        (values : list (list Utf8.octet))
        (msgs : list Messages.ChatMessage) (i : nat)
        (m : Messages.ChatMessage) :
  concatenates plus ->
  Forall (fun f => codeUnits f = true) fragments ->
  concat values = sent (continueSession fragments t) ->
  nth_error msgs i = Some m -> isTarget id0 m = true ->
  Messages.content m = jsString [] ->
  exists out m',
    ChatStream.callbacks plus clock 0 id0
                         (removelast (processStream (Some (received values))))
                         msgs
    = Some out
    /\ nth_error out i = Some m'
    /\ Messages.content m' = jsString (escapeContent (asReceived fragments)).
Proof.
  intros Hp Hu Hc. apply (@streaming_display clock id0 fragments t); [exact Hp|].
  now apply received_continueSession.
Qed.

Lemma final_display_text
        (clock : nat -> nat -> Z) (id0 : str)
        (r : str) (chunks : list str)
        (msgs : list Messages.ChatMessage) (i : nat)
        (m : Messages.ChatMessage) :
  forallb plainChar r = true ->
  concat chunks = opening ++ escapeContent r ++ closing ->
  nth_error msgs i = Some m -> isTarget id0 m = true ->
  exists out k,
    ChatStream.streamInto plus clock id0 (Some chunks) msgs = Some out
    /\ nth_error out i
       = Some (Messages.mkChatMessage
                 (Messages.id m) (Messages.role m)
                 (jsString r) (clock k i) (Some false)
                 (JSValue JNull) (JSValue JNull) (JSValue JNull)).
Proof.
  intros Hpl Hc Hm Ht.
  pose proof (parse_encoded r Hpl) as Hp.
  pose proof (@chunking_object_text
                (marker ++ escapeContent r ++ closing)
                (responseObject r) chunks Hp Hc) as E.
  assert (Hne : forall msg,
             OnStreamEnd (responseObject r) = OnError msg ->
             truthy id0 = true) by (intros; discriminate).
  destruct (@streamInto_terminal clock id0 chunks _ _ msgs Hne eq_refl E)
    as (out & H1 & H2).
  exists out. eexists. split; [exact H2|].
  cbn [ChatStream.callback] in H1. unfold ChatStream.onStreamEnd in H1.
  cbn [property_access_throws responseObject] in H1.
  injection H1 as <-.
  unfold Messages.updateAssistantMessage.
  rewrite updateFrom_nth, Hm. cbn [option_map]. f_equal.
  unfold Messages.updateMessage. unfold isTarget in Ht. rewrite Ht.
  reflexivity.
Qed.

Lemma final_display
        (clock : nat -> nat -> Z) (id0 : str)
        (fragments : list str) (t : Terminal) (chunks : list str)
        (msgs : list Messages.ChatMessage) (i : nat)
        (m : Messages.ChatMessage) :
  forallb plainChar (concat fragments) = true ->
  concat chunks = written (continueSession fragments t) ->
  nth_error msgs i = Some m -> isTarget id0 m = true ->
  exists out k,
    ChatStream.streamInto plus clock id0 (Some chunks) msgs = Some out
    /\ nth_error out i
       = Some (Messages.mkChatMessage
                 (Messages.id m) (Messages.role m)
                 (jsString (asReceived fragments)) (clock k i) (Some false)
                 (JSValue JNull) (JSValue JNull) (JSValue JNull)).
Proof.
  intros Hpl Hc Hm Ht. rewrite <- plain_received_eq in Hpl.
  rewrite written_continueSession in Hc.
  now apply final_display_text.
Qed.

(** X12: when the response holds no control character other than
    newline, carriage return and tab, the message shows the response as
    it is received once the stream is over, however the bytes of the
    answer were cut on their way: a message of the assistant with the
    identifier given holds the fragments one after the other, unescaped,
    each with its unpaired surrogates replaced by U+FFFD -- the response
    itself when the fragments are well-formed --, is no longer loading,
    and its exercises, word and progress are [null], as the handler
    wrote them. *)
Theorem final_display_is_the_response
        (clock : nat -> nat -> Z) (id0 : str)
        (fragments : list str) (t : Terminal)
        (values : list (list Utf8.octet))
        (msgs : list Messages.ChatMessage) (i : nat)
        (m : Messages.ChatMessage) :
  Forall (fun f => codeUnits f = true) fragments ->
  forallb plainChar (concat fragments) = true ->
  concat values = sent (continueSession fragments t) ->
  nth_error msgs i = Some m -> isTarget id0 m = true ->
  (exists out k,
      ChatStream.streamInto plus clock id0 (Some (received values)) msgs
      = Some out
      /\ nth_error out i
         = Some (Messages.mkChatMessage
                   (Messages.id m) (Messages.role m)
                   (jsString (asReceived fragments)) (clock k i) (Some false)
                   (JSValue JNull) (JSValue JNull) (JSValue JNull)))
  /\ (Forall (fun f => toWellFormed f = f) fragments ->
      asReceived fragments = concat fragments).
Proof.
  intros Hu Hpl Hc Hm Ht. split; [|apply asReceived_wellFormed].
  apply (@final_display clock id0 fragments t (received values) msgs i m);
    try assumption.
  now apply received_continueSession.
Qed.

End MessageFacts.

Lemma terminal_callback_decides_the_messages_witness :
  exists t out,
    last (processStream (Some [js "{'response': 'Ho"; js "la'"])) OnStreamStart
    = t
    /\ isTerminal t = true
    /\ ChatStream.callback
         stringPlus
         (stillClock
            (length (processStream (Some [js "{'response': 'Ho"; js "la'"]))
             - 1))
         (lit "m1") t
         (Messages.startAssistantMessage (lit "m1") 0 [] [])
       = Some out
    /\ ChatStream.streamInto
         stringPlus stillClock (lit "m1")
         (Some [js "{'response': 'Ho"; js "la'"])
         (Messages.startAssistantMessage (lit "m1") 0 [] [])
       = Some out.
Proof.
  apply (@terminal_callback_decides_the_messages
           stringPlus stillClock (lit "m1")
           (Some [js "{'response': 'Ho"; js "la'"])
           (Messages.startAssistantMessage (lit "m1") 0 [] [])).
  reflexivity.
Defined.

Lemma stringPlus_concatenates : concatenates stringPlus.
Proof. intros a b. reflexivity. Qed.

Lemma chunks_append_to_the_content_witness :
  exists out,
    ChatStream.callbacks stringPlus stillClock 1 (lit "m1")
                         (map OnStreamChunk [lit "Ho"; lit "la"])
                         (Messages.startAssistantMessage (lit "m1") 0 [] [])
    = Some out
    /\ nth_error out 0
       = Some (Messages.mkChatMessage
                 (lit "m1") Messages.assistant
                 (jsString ([] ++ concat [lit "Ho"; lit "la"]))
                 0 (Some true) JSUndefined JSUndefined JSUndefined).
Proof.
  apply (@chunks_append_to_the_content
           stringPlus stillClock (lit "m1") [lit "Ho"; lit "la"] 1
           (Messages.startAssistantMessage (lit "m1") 0 [] []) 0
           (Messages.mkChatMessage (lit "m1") Messages.assistant (jsString [])
                                   0 (Some true)
                                   JSUndefined JSUndefined JSUndefined) []).
  - exact stringPlus_concatenates.
  - reflexivity.
  - reflexivity.
  - reflexivity.
Defined.

Lemma streaming_display_is_escaped_witness :
  exists out m',
    ChatStream.callbacks
      stringPlus stillClock 0 (lit "m1")
      (removelast
         (processStream
            (Some (received
                     [Utf8.encode (js "{'response': 'a\");
                      Utf8.encode (lit "n") ++ [0xC3%N];
                      [0xA9%N] ++ Utf8.encode closing]))))
      (Messages.startAssistantMessage (lit "m1") 0 [] [])
    = Some out
    /\ nth_error out 0 = Some m'
    /\ Messages.content m'
       = jsString (escapeContent (asReceived [[97; 10]%N; [0xE9%N]])).
Proof.
  apply (@streaming_display_is_escaped
           stringPlus stillClock (lit "m1") [[97; 10]%N; [0xE9%N]] SourceDone
           [Utf8.encode (js "{'response': 'a\");
            Utf8.encode (lit "n") ++ [0xC3%N];
            [0xA9%N] ++ Utf8.encode closing]
           (Messages.startAssistantMessage (lit "m1") 0 [] []) 0
           (Messages.mkChatMessage (lit "m1") Messages.assistant (jsString [])
                                   0 (Some true)
                                   JSUndefined JSUndefined JSUndefined)).
  - exact stringPlus_concatenates.
  - repeat constructor.
  - vm_compute. reflexivity.
  - reflexivity.
  - reflexivity.
  - reflexivity.
Defined.

Lemma final_display_is_the_response_witness :
  (exists out k,
      ChatStream.streamInto
        stringPlus stillClock (lit "m1")
        (Some (received
                 [Utf8.encode (js "{'response': 'a\");
                  Utf8.encode (lit "n") ++ [0xC3%N];
                  [0xA9%N] ++ Utf8.encode closing]))
        (Messages.startAssistantMessage (lit "m1") 0 [] [])
      = Some out
      /\ nth_error out 0
         = Some (Messages.mkChatMessage
                   (lit "m1") Messages.assistant
                   (jsString (asReceived [[97; 10]%N; [0xE9%N]]))
                   (stillClock k 0) (Some false)
                   (JSValue JNull) (JSValue JNull) (JSValue JNull)))
  /\ (Forall (fun f => toWellFormed f = f) [[97; 10]%N; [0xE9%N]] ->
      asReceived [[97; 10]%N; [0xE9%N]] = concat [[97; 10]%N; [0xE9%N]]).
Proof.
  apply (@final_display_is_the_response
           stringPlus stillClock (lit "m1") [[97; 10]%N; [0xE9%N]] SourceDone
           [Utf8.encode (js "{'response': 'a\");
            Utf8.encode (lit "n") ++ [0xC3%N];
            [0xA9%N] ++ Utf8.encode closing]
           (Messages.startAssistantMessage (lit "m1") 0 [] []) 0
           (Messages.mkChatMessage (lit "m1") Messages.assistant (jsString [])
                                   0 (Some true)
                                   JSUndefined JSUndefined JSUndefined)).
  - repeat constructor.
  - vm_compute. reflexivity.
  - vm_compute. reflexivity.
  - reflexivity.
  - reflexivity.
Defined.

(* ===================================================================== *)
(** * The tutoring service *)
(* ===================================================================== *)

Lemma lastMessage_snoc (history : list Types.ChatMessage)
      (msg : Types.ChatMessage) :
  Gemini.lastMessage (history ++ [msg]) = Some msg.
Proof.
  unfold Gemini.lastMessage. rewrite length_app. simpl.
  replace (length history + 1 - 1) with (length history) by lia.
  rewrite nth_error_app2 by lia. now rewrite Nat.sub_diag.
Qed.

Lemma convert_snoc (history : list Types.ChatMessage)
      (msg : Types.ChatMessage) :
  Gemini.convertToGeminiHistory (history ++ [msg]) = map turnOf history.
Proof.
  unfold Gemini.convertToGeminiHistory. rewrite removelast_last.
  reflexivity.
Qed.

Lemma concat_filter_truthy (texts : list str) :
  concat (filter truthy texts) = concat texts.
Proof.
  induction texts as [|x texts IH]; [reflexivity|].
  simpl. destruct x; simpl; now rewrite IH.
Qed.

(** The request of the handler to the model. *)
Lemma tutoring_request (sdk : Gemini.Sdk) (history : list Types.ChatMessage)
      (user_message : str) (context : Gemini.Context) :
  Gemini.generateTutoringResponse
    sdk (history ++ [Types.mkChatMessage Types.user user_message]) context
  = match Gemini.startChat sdk (chatHistory context history) with
    | Some e => inl (Gemini.unavailable e)
    | None =>
        match Gemini.sendMessageStream sdk (chatHistory context history)
                                       user_message with
        | inl e => inl (Gemini.unavailable e)
        | inr (texts, t) => inr (filter truthy texts, t)
        end
    end.
Proof.
  unfold Gemini.generateTutoringResponse.
  rewrite convert_snoc, lastMessage_snoc. reflexivity.
Qed.

Lemma lastMessage_inv (messages : list Types.ChatMessage)
      (msg : Types.ChatMessage) :
  Gemini.lastMessage messages = Some msg ->
  messages = removelast messages ++ [msg].
Proof.
  intros H. destruct messages as [|m0 ms] eqn:E; [discriminate|].
  rewrite <- E in *.
  destruct (@exists_last _ messages) as (history & x & ->);
    [rewrite E; discriminate|].
  rewrite lastMessage_snoc in H. injection H as ->.
  now rewrite removelast_last.
Qed.

(** X13: when [generateTutoringResponse] returns a stream, the messages
    end with a message of the user; the model was given the system
    prompt, its acknowledgement and one turn for every message before
    the last, in order -- none dropped, none given twice -- and was
    asked the last message; the fragments are the texts of the model's
    chunks that are not empty.  When the call throws -- the library
    failed to open the chat or to send the message, or the messages do
    not end with a message of the user -- the error is a plain [Error]
    whose message starts with the words that the service is
    unavailable.  (A failure while the stream is read comes later, out
    of the iterator, with a message of its own.) *)
Theorem tutoring_request_carries_the_history
        (sdk : Gemini.Sdk) (context : Gemini.Context)
        (messages : list Types.ChatMessage) :
  (forall fragments t,
      Gemini.generateTutoringResponse sdk messages context
      = inr (fragments, t) ->
      exists history lastMsg texts,
        messages = history ++ [lastMsg]
        /\ Types.role lastMsg = Types.user
        /\ Gemini.startChat sdk (chatHistory context history) = None
        /\ Gemini.sendMessageStream sdk (chatHistory context history)
                                    (Types.content lastMsg)
           = inr (texts, t)
        /\ fragments = filter truthy texts)
  /\ (forall e,
        Gemini.generateTutoringResponse sdk messages context = inl e ->
        exists reason,
          e = Errors.newError (lit "AI service unavailable: " ++ reason)).
Proof.
  unfold Gemini.generateTutoringResponse. cbv zeta.
  change (Gemini.mkContent Gemini.user (Gemini.createSystemPrompt context)
          :: Gemini.mkContent
               Gemini.model
               (lit "I understand. I'm ready to help with vocabulary learning.")
          :: Gemini.convertToGeminiHistory messages)
    with (chatHistory context (removelast messages)).
  destruct (Gemini.startChat sdk _) as [e0|] eqn:Es.
  { split; [discriminate|]. intros e [= <-].
    unfold Gemini.unavailable. eexists. reflexivity. }
  destruct (Gemini.lastMessage messages) as [lastMsg|] eqn:El.
  2:{ split; [discriminate|]. intros e [= <-].
      unfold Gemini.unavailable. eexists. reflexivity. }
  destruct (Types.role lastMsg) eqn:Er.
  2,3: split; [discriminate|]; intros e [= <-];
    unfold Gemini.unavailable; eexists; reflexivity.
  destruct (Gemini.sendMessageStream sdk _ _) as [e0|[texts t0]] eqn:Em.
  { split; [discriminate|]. intros e [= <-].
    unfold Gemini.unavailable. eexists. reflexivity. }
  split; [|discriminate].
  intros fragments t [= <- <-].
  exists (removelast messages), lastMsg, texts.
  split; [now apply lastMessage_inv|]. split; [exact Er|].
  split; [exact Es|]. split; [exact Em | reflexivity].
Qed.

Lemma tutoring_request_carries_the_history_witness :
  exists history lastMsg,
    [Types.mkChatMessage Types.assistant (lit "Welcome!");
     Types.mkChatMessage Types.user (lit "Hi")]
    = history ++ [lastMsg]
    /\ Types.role lastMsg = Types.user
    /\ Gemini.startChat
         exampleSdk
         (chatHistory
            (contextOf (Types.mkUser (lit "Ana") (lit "en") (lit "es")))
            history)
       = None
    /\ Gemini.sendMessageStream
         exampleSdk
         (chatHistory
            (contextOf (Types.mkUser (lit "Ana") (lit "en") (lit "es")))
            history)
         (Types.content lastMsg)
       = inr ([lit "Ho"; []; lit "la"], SourceDone)
    /\ [lit "Ho"; lit "la"] = filter truthy [lit "Ho"; []; lit "la"].
Proof.
  destruct (proj1 (@tutoring_request_carries_the_history
                     exampleSdk
                     (contextOf
                        (Types.mkUser (lit "Ana") (lit "en") (lit "es")))
                     [Types.mkChatMessage Types.assistant (lit "Welcome!");
                      Types.mkChatMessage Types.user (lit "Hi")])
                  [lit "Ho"; lit "la"] SourceDone eq_refl)
    as (history & lastMsg & texts & H1 & H2 & H3 & H4 & H5).
  exists history, lastMsg.
  assert (E : texts = [lit "Ho"; []; lit "la"])
    by (vm_compute in H4; now injection H4 as <-).
  subst texts. repeat split; assumption.
Defined.

(** X14: for an empty history, or one that does not end with a message
    of the user, the model is not asked: if opening the chat did not
    fail, the error is the one for an invalid history. *)
Theorem invalid_history_is_refused
        (sdk : Gemini.Sdk) (context : Gemini.Context)
        (messages : list Types.ChatMessage) :
  Gemini.startChat sdk (chatHistory context (removelast messages)) = None ->
  match Gemini.lastMessage messages with
  | Some msg => Types.role msg <> Types.user
  | None => True
  end ->
  Gemini.generateTutoringResponse sdk messages context = inl invalidHistory.
Proof.
  intros Hs Hl. unfold Gemini.generateTutoringResponse.
  change (Gemini.mkContent Gemini.user (Gemini.createSystemPrompt context)
          :: Gemini.mkContent
               Gemini.model
               (lit "I understand. I'm ready to help with vocabulary learning.")
          :: Gemini.convertToGeminiHistory messages)
    with (chatHistory context (removelast messages)).
  rewrite Hs.
  destruct (Gemini.lastMessage messages) as [msg|]; [|reflexivity].
  destruct (Types.role msg); [congruence | reflexivity | reflexivity].
Qed.

Lemma invalid_history_is_refused_witness :
  Gemini.generateTutoringResponse
    exampleSdk
    [Types.mkChatMessage Types.user (lit "Hi");
     Types.mkChatMessage Types.assistant (lit "Hello")]
    (contextOf (Types.mkUser (lit "Ana") (lit "en") (lit "es")))
  = inl invalidHistory
  /\ Gemini.generateTutoringResponse
       exampleSdk []
       (contextOf (Types.mkUser (lit "Ana") (lit "en") (lit "es")))
     = inl invalidHistory.
Proof.
  split.
  - apply (@invalid_history_is_refused
             exampleSdk
             (contextOf (Types.mkUser (lit "Ana") (lit "en") (lit "es")))
             [Types.mkChatMessage Types.user (lit "Hi");
              Types.mkChatMessage Types.assistant (lit "Hello")]).
    + reflexivity.
    + simpl. discriminate.
  - apply (@invalid_history_is_refused
             exampleSdk
             (contextOf (Types.mkUser (lit "Ana") (lit "en") (lit "es")))
             []).
    + reflexivity.
    + simpl. exact I.
Defined.

(* ===================================================================== *)
(** * The route and its answers *)
(* ===================================================================== *)

Lemma tryContinue_streamed (svc : Routes.Services)
      (session_id0 user_message0 : str)
      (writes : list str) (saved : option (list Types.ChatMessage)) :
  Routes.tryContinue svc session_id0 user_message0 = inr (writes, saved) ->
  exists session usr texts t,
    Routes.findSessionById svc session_id0 = Routes.Found session
    /\ Routes.findUserById svc (Types.user_id session) = Routes.Found usr
    /\ Gemini.startChat (Routes.sdk svc)
         (chatHistory (contextOf usr) (Types.message_history session)) = None
    /\ Gemini.sendMessageStream (Routes.sdk svc)
         (chatHistory (contextOf usr) (Types.message_history session))
         user_message0
       = inr (texts, t)
    /\ writes = continueSession (filter truthy texts) t
    /\ saved = match t with
               | SourceDone =>
                   Some (Types.message_history session
                         ++ [Types.mkChatMessage Types.user user_message0]
                         ++ [Types.mkChatMessage Types.assistant
                                                 (concat texts)])
               | SourceError => None
               end.
Proof.
  unfold Routes.tryContinue. intros H.
  destruct (Routes.findSessionById svc session_id0) as [session| |e] eqn:E1;
    try discriminate.
  destruct (Routes.findUserById svc (Types.user_id session)) as [usr| |e]
    eqn:E2; try discriminate.
  fold (contextOf usr) in H. rewrite tutoring_request in H.
  destruct (Gemini.startChat _ _) as [e|] eqn:E3; [discriminate|].
  destruct (Gemini.sendMessageStream _ _ _) as [e|[texts t]] eqn:E4;
    [discriminate|].
  injection H as <- <-.
  exists session, usr, texts, t.
  split; [reflexivity|]. split; [exact E2|]. split; [exact E3|].
  split; [exact E4|]. split; [reflexivity|].
  destruct t; [|reflexivity].
  now rewrite concat_filter_truthy, <- app_assoc.
Qed.

Lemma sessionContinue_streamed (svc : Routes.Services)
      (body : Routes.ContinueBody)
      (writes : list str) (saved : option (list Types.ChatMessage)) :
  Routes.sessionContinue svc body = Routes.Streamed writes saved ->
  exists session_id0 user_message0,
    Routes.session_id body = Some session_id0
    /\ Routes.user_message body = Some user_message0
    /\ session_id0 <> [] /\ user_message0 <> []
    /\ Routes.tryContinue svc session_id0 user_message0 = inr (writes, saved).
Proof.
  unfold Routes.sessionContinue. cbv zeta. intros H.
  destruct (Routes.session_id body) as [sid|]; [|discriminate].
  destruct (Routes.user_message body) as [um|]; [|discriminate].
  destruct sid as [|x sid]; [discriminate|].
  destruct um as [|y um]; [discriminate|].
  cbn [truthy negb orb] in H.
  destruct (Routes.tryContinue svc (x :: sid) (y :: um)) as [e|[w s]] eqn:E;
    [discriminate|].
  injection H as <- <-.
  exists (x :: sid), (y :: um).
  split; [reflexivity|]. split; [reflexivity|].
  split; [discriminate|]. split; [discriminate | exact E].
Qed.

Lemma asReceived_filter_truthy (texts : list str) :
  asReceived (filter truthy texts) = asReceived texts.
Proof.
  unfold asReceived.
  induction texts as [|x texts IH]; [reflexivity|].
  destruct x; cbn [filter truthy map concat]; now rewrite IH.
Qed.

Lemma Forall_filter (A : Type) (P : A -> Prop) (f : A -> bool) (l : list A) :
  Forall P l -> Forall P (filter f l).
Proof.
  induction 1 as [|x l Hx _ IH]; [constructor|].
  cbn [filter]. destruct (f x); [now constructor | exact IH].
Qed.

(** X15: when the route streams, the request names a session that the
    database has, with its user, and the model gave a stream for the
    history stored and the message of the request.  The bytes written
    are always the UTF-8 text of a complete object of the wire format --
    the opening, the escaped response as it is received, the closing --
    whether the source of the fragments ended or failed; and the history
    handed on for saving is the stored history, the message of the user
    and the whole response as the message of the assistant, when the
    source ended, and nothing when the source failed. *)
Theorem streamed_reply_is_complete_and_saved
        (svc : Routes.Services) (body : Routes.ContinueBody)
        (writes : list str) (saved : option (list Types.ChatMessage)) :
  Routes.sessionContinue svc body = Routes.Streamed writes saved ->
  exists session_id0 user_message0 session usr texts t,
    Routes.session_id body = Some session_id0
    /\ Routes.user_message body = Some user_message0
    /\ Routes.findSessionById svc session_id0 = Routes.Found session
    /\ Routes.findUserById svc (Types.user_id session) = Routes.Found usr
    /\ Gemini.sendMessageStream (Routes.sdk svc)
         (chatHistory (contextOf usr) (Types.message_history session))
         user_message0
       = inr (texts, t)
    /\ sent writes
       = Utf8.encode (opening ++ escapeContent (asReceived texts) ++ closing)
    /\ (Forall (fun f => codeUnits f = true) texts ->
        bodyText (sent writes)
        = opening ++ escapeContent (asReceived texts) ++ closing)
    /\ saved = match t with
               | SourceDone =>
                   Some (Types.message_history session
                         ++ [Types.mkChatMessage Types.user user_message0]
                         ++ [Types.mkChatMessage Types.assistant
                                                 (concat texts)])
               | SourceError => None
               end.
Proof.
  intros H.
  destruct (sessionContinue_streamed svc body H)
    as (sid & um & Hi & Hu & _ & _ & Ht).
  destruct (tryContinue_streamed svc sid um Ht)
    as (session & usr & texts & t & Hf & Hg & _ & Hs & -> & ->).
  exists sid, um, session, usr, texts, t.
  split; [exact Hi|]. split; [exact Hu|]. split; [exact Hf|].
  split; [exact Hg|]. split; [exact Hs|].
  split; [|split; [|reflexivity]].
  - now rewrite sent_continueSession, asReceived_filter_truthy.
  - intros Hc. rewrite bodyText_sent, written_continueSession.
    + now rewrite asReceived_filter_truthy.
    + apply codeUnits_continueSession. now apply Forall_filter.
Qed.

Lemma streamed_reply_is_complete_and_saved_witness :
  exists session_id0 user_message0 session usr texts t,
    Routes.session_id exampleBody = Some session_id0
    /\ Routes.user_message exampleBody = Some user_message0
    /\ Routes.findSessionById exampleServices session_id0
       = Routes.Found session
    /\ Routes.findUserById exampleServices (Types.user_id session)
       = Routes.Found usr
    /\ Gemini.sendMessageStream (Routes.sdk exampleServices)
         (chatHistory (contextOf usr) (Types.message_history session))
         user_message0
       = inr (texts, t)
    /\ sent (continueSession [lit "Ho"; lit "la"] SourceDone)
       = Utf8.encode (opening ++ escapeContent (asReceived texts) ++ closing)
    /\ (Forall (fun f => codeUnits f = true) texts ->
        bodyText (sent (continueSession [lit "Ho"; lit "la"] SourceDone))
        = opening ++ escapeContent (asReceived texts) ++ closing)
    /\ Some [Types.mkChatMessage Types.assistant (lit "Welcome!");
             Types.mkChatMessage Types.user (lit "Hi");
             Types.mkChatMessage Types.assistant (lit "Hola")]
       = match t with
         | SourceDone =>
             Some (Types.message_history session
                   ++ [Types.mkChatMessage Types.user user_message0]
                   ++ [Types.mkChatMessage Types.assistant (concat texts)])
         | SourceError => None
         end.
Proof.
  apply (@streamed_reply_is_complete_and_saved
           exampleServices exampleBody
           (continueSession [lit "Ho"; lit "la"] SourceDone)
           (Some [Types.mkChatMessage Types.assistant (lit "Welcome!");
                  Types.mkChatMessage Types.user (lit "Hi");
                  Types.mkChatMessage Types.assistant (lit "Hola")])).
  vm_compute. reflexivity.
Defined.

Lemma handle_bad_request (development : bool) (stack : option str)
      (svc : Routes.Services) (body : Routes.ContinueBody) :
  match Routes.session_id body, Routes.user_message body with
  | Some (_ :: _), Some (_ :: _) => False
  | _, _ => True
  end ->
  Routes.handle development stack svc body
  = inl (Errors.mkErrorResponse
           400 false
           (Errors.mkApiError
              (lit "Missing required fields: session_id, user_message")
              (lit "BAD_REQUEST") 400
              (if development then stack else None))).
Proof.
  unfold Routes.handle, Routes.sessionContinue. cbv zeta.
  destruct (Routes.session_id body) as [[|x sid]|];
    destruct (Routes.user_message body) as [[|y um]|];
    intros H; try reflexivity; destruct H.
Qed.

Lemma handle_try (development : bool) (stack : option str)
      (svc : Routes.Services) (body : Routes.ContinueBody)
      (session_id0 user_message0 : str) :
  Routes.session_id body = Some session_id0 ->
  Routes.user_message body = Some user_message0 ->
  session_id0 <> [] -> user_message0 <> [] ->
  Routes.handle development stack svc body
  = match Routes.tryContinue svc session_id0 user_message0 with
    | inl _ =>
        inl (Errors.mkErrorResponse
               500 false
               (Errors.mkApiError
                  (lit "Failed to continue session")
                  (lit "INTERNAL_ERROR") 500
                  (if development then stack else None)))
    | inr (writes, _) => inr (written writes)
    end.
Proof.
  intros E1 E2 H1 H2.
  unfold Routes.handle, Routes.sessionContinue. cbv zeta. rewrite E1, E2.
  destruct session_id0 as [|x sid]; [congruence|].
  destruct user_message0 as [|y um]; [congruence|].
  cbn [truthy negb orb].
  destruct (Routes.tryContinue svc (x :: sid) (y :: um)) as [e|[w s]];
    reflexivity.
Qed.

Lemma handle_cases
        (development : bool) (stack : option str)
        (svc : Routes.Services) (body : Routes.ContinueBody) :
  match Routes.handle development stack svc body with
  | inl r =>
      r = Errors.mkErrorResponse
            400 false
            (Errors.mkApiError
               (lit "Missing required fields: session_id, user_message")
               (lit "BAD_REQUEST") 400
               (if development then stack else None))
      \/ r = Errors.mkErrorResponse
               500 false
               (Errors.mkApiError
                  (lit "Failed to continue session")
                  (lit "INTERNAL_ERROR") 500
                  (if development then stack else None))
  | inr _ => True
  end.
Proof.
  destruct (Routes.session_id body) as [[|x sid]|] eqn:E1.
  1,3: rewrite handle_bad_request; [left; reflexivity | now rewrite E1].
  destruct (Routes.user_message body) as [[|y um]|] eqn:E2.
  1,3: rewrite handle_bad_request; [left; reflexivity | now rewrite E1, E2].
  rewrite (@handle_try development stack svc body (x :: sid) (y :: um) E1 E2)
    by discriminate.
  destruct (Routes.tryContinue svc (x :: sid) (y :: um)) as [e|[w s]];
    [right; reflexivity | exact I].
Qed.


(** X17: whatever is thrown before the first write is answered in the
    same way: a session that does not exist, for which the handler
    throws the error for status 404, a failure of the database or of the
    model, for which the error middleware has status 503, all reach the
    client as status 500 with the text that the session could not be
    continued. *)
Theorem errors_before_the_stream_are_masked
        (development : bool) (stack : option str)
        (svc : Routes.Services) (body : Routes.ContinueBody)
        (session_id0 user_message0 : str) (e : Errors.JsError) :
  Routes.session_id body = Some session_id0 ->
  Routes.user_message body = Some user_message0 ->
  session_id0 <> [] -> user_message0 <> [] ->
  Routes.tryContinue svc session_id0 user_message0 = inl e ->
  Routes.handle development stack svc body
  = inl (Errors.mkErrorResponse
           500 false
           (Errors.mkApiError
              (lit "Failed to continue session")
              (lit "INTERNAL_ERROR") 500
              (if development then stack else None))).
Proof.
  intros E1 E2 H1 H2 Ht.
  rewrite (@handle_try development stack svc body _ _ E1 E2 H1 H2), Ht.
  reflexivity.
Qed.

Lemma errors_before_the_stream_are_masked_witness :
  Routes.tryContinue exampleServices (lit "s2") (lit "Hi")
  = inl (Errors.IsAppError (Errors.notFound (lit "Session not found")))
  /\ Errors.status
       (Errors.errorHandler
          false None
          (Errors.IsAppError (Errors.notFound (lit "Session not found"))))
     = 404%Z
  /\ Routes.handle false None exampleServices
                   (Routes.mkContinueBody (Some (lit "s2")) (Some (lit "Hi")))
     = inl (Errors.mkErrorResponse
              500 false
              (Errors.mkApiError
                 (lit "Failed to continue session")
                 (lit "INTERNAL_ERROR") 500 None)).
Proof.
  split; [reflexivity|]. split; [reflexivity|].
  apply (@errors_before_the_stream_are_masked
           false None exampleServices
           (Routes.mkContinueBody (Some (lit "s2")) (Some (lit "Hi")))
           (lit "s2") (lit "Hi")
           (Errors.IsAppError (Errors.notFound (lit "Session not found")))).
  - reflexivity.
  - reflexivity.
  - discriminate.
  - discriminate.
  - reflexivity.
Defined.

(* ===================================================================== *)
(** * From the route to the message list *)
(* ===================================================================== *)

Lemma written_wellFormed (fragments : list str) (t : Terminal) :
  Forall (fun w => toWellFormed w = w) (continueSession fragments t) ->
  written (continueSession fragments t)
  = opening ++ escapeContent (concat fragments) ++ closing.
Proof.
  intros Hw. unfold written.
  replace (map toWellFormed (continueSession fragments t))
    with (continueSession fragments t).
  - rewrite continueSession_writes. cbn [app concat].
    rewrite concat_app, escapeContent_concat. cbn [concat].
    rewrite app_nil_r. reflexivity.
  - induction Hw as [|w ws Hw _ IH]; [reflexivity|].
    cbn [map]. now rewrite Hw, <- IH.
Qed.

(** What the client shows for a reply that the route streamed and
    saved, when no write cuts a surrogate pair. *)
Lemma display_of_saved
        (plus : jsval -> jsval -> jsval) (clock : nat -> nat -> Z) (id0 : str)
        (svc : Routes.Services) (body : Routes.ContinueBody)
        (writes : list str) (saved : list Types.ChatMessage)
        (values : list (list Utf8.octet))
        (msgs : list Messages.ChatMessage) (i : nat)
        (m : Messages.ChatMessage) :
  Routes.sessionContinue svc body = Routes.Streamed writes (Some saved) ->
  (forall msg, Gemini.lastMessage saved = Some msg ->
               forallb plainChar (Types.content msg) = true) ->
  Forall (fun w => codeUnits w = true) writes ->
  Forall (fun w => toWellFormed w = w) writes ->
  concat values = sent writes ->
  nth_error msgs i = Some m -> isTarget id0 m = true ->
  exists session_id0 user_message0 session response out k,
    Routes.session_id body = Some session_id0
    /\ Routes.user_message body = Some user_message0
    /\ Routes.findSessionById svc session_id0 = Routes.Found session
    /\ saved = Types.message_history session
               ++ [Types.mkChatMessage Types.user user_message0;
                   Types.mkChatMessage Types.assistant response]
    /\ ChatStream.streamInto plus clock id0 (Some (received values)) msgs
       = Some out
    /\ nth_error out i
       = Some (Messages.mkChatMessage
                 (Messages.id m) (Messages.role m)
                 (jsString response) (clock k i) (Some false)
                 (JSValue JNull) (JSValue JNull) (JSValue JNull)).
Proof.
  intros H Hpl Hu Hw Hc Hm Ht.
  destruct (sessionContinue_streamed svc body H)
    as (sid & um & Hi & Hum & _ & _ & Htry).
  destruct (tryContinue_streamed svc sid um Htry)
    as (session & usr & texts & t & Hf & _ & _ & _ & -> & Hs).
  destruct t; [|discriminate]. injection Hs as ->.
  assert (El : Gemini.lastMessage
                 (Types.message_history session ++
                  [Types.mkChatMessage Types.user um;
                   Types.mkChatMessage Types.assistant (concat texts)])
               = Some (Types.mkChatMessage Types.assistant (concat texts))).
  { change [Types.mkChatMessage Types.user um;
            Types.mkChatMessage Types.assistant (concat texts)]
      with ([Types.mkChatMessage Types.user um]
            ++ [Types.mkChatMessage Types.assistant (concat texts)]).
    rewrite app_assoc. apply lastMessage_snoc. }
  specialize (Hpl _ El). cbn [Types.content] in Hpl.
  pose proof (received_written values Hu Hc) as Hr.
  rewrite (written_wellFormed Hw), concat_filter_truthy in Hr.
  destruct (@final_display_text plus clock id0 (concat texts)
              (received values) msgs i m Hpl Hr Hm Ht) as (out & k & H1 & H2).
  exists sid, um, session, (concat texts), out, k.
  split; [exact Hi|]. split; [exact Hum|]. split; [exact Hf|].
  split; [reflexivity|]. split; [exact H1 | exact H2].
Qed.

(** X18: what the user sees is what the route stores.  When the route
    streams and saves the history, the response saved holds no control
    character other than newline, carriage return and tab, and no write
    holds a surrogate without its partner -- the model cut no surrogate
    pair between two fragments --, then, however the bytes are cut on
    their way, the message of the assistant on the client ends, no
    longer loading, with the very text that the last message of the
    saved history holds for the assistant.  (A pair cut between two
    fragments is saved whole and shown as two U+FFFD.) *)
Theorem display_matches_storage
        (plus : jsval -> jsval -> jsval) (clock : nat -> nat -> Z) (id0 : str)
        (svc : Routes.Services) (body : Routes.ContinueBody)
        (writes : list str) (saved : list Types.ChatMessage)
        (values : list (list Utf8.octet))
        (msgs : list Messages.ChatMessage) (i : nat)
        (m : Messages.ChatMessage) :
  Routes.sessionContinue svc body = Routes.Streamed writes (Some saved) ->
  (forall msg, Gemini.lastMessage saved = Some msg ->
               forallb plainChar (Types.content msg) = true) ->
  Forall (fun w => codeUnits w = true) writes ->
  Forall (fun w => toWellFormed w = w) writes ->
  concat values = sent writes ->
  nth_error msgs i = Some m -> isTarget id0 m = true ->
  exists response out m',
    Gemini.lastMessage saved
    = Some (Types.mkChatMessage Types.assistant response)
    /\ ChatStream.streamInto plus clock id0 (Some (received values)) msgs
       = Some out
    /\ nth_error out i = Some m'
    /\ Messages.content m' = jsString response
    /\ Messages.isLoading m' = Some false.
Proof.
  intros H Hpl Hu Hw Hc Hm Ht.
  destruct (@display_of_saved plus clock id0 svc body writes saved values
              msgs i m H Hpl Hu Hw Hc Hm Ht)
    as (sid & um & session & response & out & k & _ & _ & _ & -> & H1 & H2).
  exists response, out. eexists.
  split; [|split; [exact H1 | split; [exact H2 | split; reflexivity]]].
  change [Types.mkChatMessage Types.user um;
          Types.mkChatMessage Types.assistant response]
    with ([Types.mkChatMessage Types.user um]
          ++ [Types.mkChatMessage Types.assistant response]).
  rewrite app_assoc. apply lastMessage_snoc.
Qed.

Lemma display_matches_storage_witness :
  exists response out m',
    Gemini.lastMessage
      [Types.mkChatMessage Types.assistant (lit "Welcome!");
       Types.mkChatMessage Types.user (lit "Hi");
       Types.mkChatMessage Types.assistant (lit "Hola")]
    = Some (Types.mkChatMessage Types.assistant response)
    /\ ChatStream.streamInto
         stringPlus stillClock (lit "m1")
         (Some (received [Utf8.encode (js "{'respon");
                          Utf8.encode (js "se': 'Ho");
                          Utf8.encode (lit "la" ++ closing)]))
         (Messages.startAssistantMessage (lit "m1") 0 [] [])
       = Some out
    /\ nth_error out 0 = Some m'
    /\ Messages.content m' = jsString response
    /\ Messages.isLoading m' = Some false.
Proof.
  apply (@display_matches_storage
           stringPlus stillClock (lit "m1") exampleServices exampleBody
           (continueSession [lit "Ho"; lit "la"] SourceDone)
           [Types.mkChatMessage Types.assistant (lit "Welcome!");
            Types.mkChatMessage Types.user (lit "Hi");
            Types.mkChatMessage Types.assistant (lit "Hola")]
           [Utf8.encode (js "{'respon"); Utf8.encode (js "se': 'Ho");
            Utf8.encode (lit "la" ++ closing)]
           (Messages.startAssistantMessage (lit "m1") 0 [] []) 0
           (Messages.mkChatMessage (lit "m1") Messages.assistant (jsString [])
                                   0 (Some true)
                                   JSUndefined JSUndefined JSUndefined)).
  - vm_compute. reflexivity.
  - intros msg E. vm_compute in E. injection E as <-. reflexivity.
  - repeat constructor.
  - repeat constructor.
  - vm_compute. reflexivity.
  - reflexivity.
  - reflexivity.
Defined.

(* ===================================================================== *)
(** * Sending a message *)
(* ===================================================================== *)

Lemma trimStart_suffix (s : str) :
  exists p, s = p ++ trimStart s /\ forallb is_js_space p = true.
Proof.
  induction s as [|c s IH]; [exists []; auto|].
  simpl. destruct (is_js_space c) eqn:E.
  - destruct IH as (p & Hp & Hs). exists (c :: p). simpl.
    rewrite E, Hs. split; [congruence | reflexivity].
  - exists []. auto.
Qed.

Lemma trimStart_fixed (s : str) :
  match s with [] => True | c :: _ => is_js_space c = false end ->
  trimStart s = s.
Proof. destruct s as [|c s]; [reflexivity|]. simpl. now intros ->. Qed.

Lemma trim_idempotent (s : str) : trim (trim s) = trim s.
Proof.
  unfold trim. set (u := trimStart s). set (w := trimStart (rev u)).
  assert (Hw : trimStart w = w) by (apply trimStart_fixed, trimStart_head).
  assert (Ht : trimStart (rev w) = rev w).
  { apply trimStart_fixed.
    destruct (trimStart_suffix (rev u)) as (p & Hp & _). fold w in Hp.
    apply (f_equal (@rev char)) in Hp. rewrite rev_involutive, rev_app_distr in Hp.
    destruct (rev w) as [|c t'] eqn:E; [exact I|].
    pose proof (trimStart_head s) as Hh. fold u in Hh. rewrite Hp in Hh.
    exact Hh. }
  rewrite Ht, rev_involutive, Hw. reflexivity.
Qed.

(** X19: [sendMessage] sends nothing that is blank: the message of a
    payload it hands on is the text trimmed, is not empty and has no
    white space at either end; the message appended to the list is that
    text as a message of the user; and the route does not refuse the
    payload for missing fields, whatever its services are. *)
Theorem sent_message_is_trimmed_and_accepted
        (newId : str) (now : Z) (sessionId : option str)
        (isPending isStreaming : bool) (messageText : str)
        (msgs msgs' : list Messages.ChatMessage) (b : bool)
        (p : ChatStream.ContinueSessionPayload) :
  ChatStream.sendMessage newId now sessionId isPending isStreaming
                         messageText msgs
  = (b, msgs', Some p) ->
  b = true
  /\ sessionId = Some (ChatStream.session_id p)
  /\ ChatStream.user_message p = trim messageText
  /\ ChatStream.user_message p <> []
  /\ trim (ChatStream.user_message p) = ChatStream.user_message p
  /\ msgs' = msgs ++ [Messages.mkChatMessage
                        newId Messages.user
                        (jsString (ChatStream.user_message p)) now (Some false)
                        JSUndefined JSUndefined JSUndefined]
  /\ forall svc,
       Routes.sessionContinue svc (Routes.bodyOfPayload p)
       <> Routes.Threw
            (Errors.IsAppError
               (Errors.badRequest
                  (lit "Missing required fields: session_id, user_message"))).
Proof.
  unfold ChatStream.sendMessage. cbv zeta. intros H.
  destruct sessionId as [sid|]; [|discriminate].
  destruct (trim messageText) as [|x tm] eqn:Et; [discriminate|].
  destruct sid as [|y sid]; [discriminate|].
  cbn [truthy negb orb] in H.
  destruct isPending; [discriminate|]. destruct isStreaming; [discriminate|].
  cbn [orb] in H. injection H as <- <- <-.
  cbn [ChatStream.user_message ChatStream.session_id].
  split; [reflexivity|]. split; [reflexivity|]. split; [reflexivity|].
  split; [discriminate|].
  split; [rewrite <- Et; apply trim_idempotent|].
  split; [reflexivity|].
  intros svc. unfold Routes.sessionContinue, Routes.bodyOfPayload. cbv zeta.
  cbn [Routes.session_id Routes.user_message ChatStream.session_id
       ChatStream.user_message truthy negb orb].
  destruct (Routes.tryContinue svc (y :: sid) (x :: tm)) as [e|[w s]];
    discriminate.
Qed.

Lemma sent_message_is_trimmed_and_accepted_witness :
  true = true
  /\ Some (lit "s1")
     = Some (ChatStream.session_id (ChatStream.mkPayload (lit "s1") (lit "Hi")))
  /\ ChatStream.user_message (ChatStream.mkPayload (lit "s1") (lit "Hi"))
     = trim (lit "  Hi ")
  /\ ChatStream.user_message (ChatStream.mkPayload (lit "s1") (lit "Hi")) <> []
  /\ trim (ChatStream.user_message (ChatStream.mkPayload (lit "s1") (lit "Hi")))
     = ChatStream.user_message (ChatStream.mkPayload (lit "s1") (lit "Hi"))
  /\ [Messages.mkChatMessage (lit "m0") Messages.user (jsString (lit "Hi")) 7
                             (Some false) JSUndefined JSUndefined JSUndefined]
     = [] ++ [Messages.mkChatMessage
                (lit "m0") Messages.user
                (jsString (ChatStream.user_message
                             (ChatStream.mkPayload (lit "s1") (lit "Hi"))))
                7 (Some false) JSUndefined JSUndefined JSUndefined]
  /\ forall svc,
       Routes.sessionContinue
         svc (Routes.bodyOfPayload (ChatStream.mkPayload (lit "s1") (lit "Hi")))
       <> Routes.Threw
            (Errors.IsAppError
               (Errors.badRequest
                  (lit "Missing required fields: session_id, user_message"))).
Proof.
  apply (@sent_message_is_trimmed_and_accepted
           (lit "m0") 7 (Some (lit "s1")) false false (lit "  Hi ") []
           [Messages.mkChatMessage (lit "m0") Messages.user (jsString (lit "Hi"))
                                   7 (Some false)
                                   JSUndefined JSUndefined JSUndefined]
           true (ChatStream.mkPayload (lit "s1") (lit "Hi"))).
  vm_compute. reflexivity.
Defined.

(* ===================================================================== *)
(** * A failure of the route, as the client shows it *)
(* ===================================================================== *)

Lemma detail_absent (r : Errors.ErrorResponse) :
  readField (jsonOfError r) Field.detail = JSUndefined.
Proof. reflexivity. Qed.

Lemma raw_error (toBoolean : json -> bool) (toString : json -> str)
      (r : Errors.ErrorResponse) (stream : option (list str)) :
  Errors.status r = 400%Z \/ Errors.status r = 500%Z ->
  Api.continueSessionRaw toBoolean toString
                         (Api.FetchResolves (responseOfError r stream))
  = inl (lit "Failed to continue session"
         ++ lit " (Status: " ++ Api.decimal (Errors.status r) ++ lit ")").
Proof.
  intros Hs. unfold Api.continueSessionRaw, responseOfError, Api.ok.
  cbn [Api.status Api.json_].
  assert (Hok : ((200 <=? Errors.status r)%Z
                 && (Errors.status r <=? 299)%Z) = false)
    by (destruct Hs as [-> | ->]; reflexivity).
  rewrite Hok. unfold Api.errorDetailsOf.
  cbn [property_access_throws jsonOfError]. fold (jsonOfError r).
  now rewrite detail_absent.
Qed.

Lemma started_message (newId : str) (now0 : Z)
      (msgs : list Messages.ChatMessage) :
  nth_error (Messages.startAssistantMessage newId now0 [] msgs) (length msgs)
  = Some (Messages.mkChatMessage newId Messages.assistant (jsString [])
                                 now0 (Some true)
                                 JSUndefined JSUndefined JSUndefined).
Proof.
  unfold Messages.startAssistantMessage.
  rewrite nth_error_app2 by lia. now rewrite Nat.sub_diag.
Qed.

Lemma mutate_failed (plus : jsval -> jsval -> jsval)
      (toBoolean : json -> bool) (toString : json -> str)
      (clock : nat -> nat -> Z) (newId : str) (now0 : Z) (sid : str)
      (outcome : Api.FetchOutcome) (message : str)
      (msgs : list Messages.ChatMessage) :
  truthy newId = true -> truthy sid = true ->
  Api.continueSessionRaw toBoolean toString outcome = inl message ->
  exists out,
    Mutation.mutate plus toBoolean toString clock newId now0 (Some sid)
                    outcome msgs
    = Some out
    /\ nth_error out (length msgs)
       = Some (Messages.mkChatMessage
                 newId Messages.assistant
                 (jsString (lit "Failed to send message: " ++ message))
                 (clock 0 (length msgs)) (Some false)
                 JSUndefined JSUndefined JSUndefined).
Proof.
  intros Hn Hs Hr. unfold Mutation.mutate. cbv zeta.
  cbn [orDefault]. rewrite Hs, Hs, Hr.
  eexists. split; [reflexivity|].
  unfold Mutation.onError. rewrite Hn.
  unfold Messages.updateAssistantMessage.
  rewrite updateFrom_nth, started_message. cbn [option_map]. f_equal.
  unfold Messages.updateMessage. cbn [Messages.id Messages.role].
  rewrite eqStr_refl. reflexivity.
Qed.

Lemma headersSet_cases (svc : Routes.Services) (body : Routes.ContinueBody) :
  Routes.headersSet svc body = []
  \/ Routes.headersSet svc body = Routes.streamHeaders.
Proof.
  unfold Routes.headersSet.
  destruct (Routes.session_id body) as [sid|]; [|now left].
  destruct (Routes.user_message body) as [um|]; [|now left].
  destruct (negb (truthy sid) || negb (truthy um)); [now left|].
  destruct (Routes.findSessionById svc sid) as [session| |e]; try now left.
  destruct (Routes.findUserById svc (Types.user_id session)) as [usr| |e];
    [now right | now left | now left].
Qed.

Lemma headers_after_failure
      (development : bool) (stack : option str)
      (svc : Routes.Services) (body : Routes.ContinueBody)
      (r : Errors.ErrorResponse) :
  Routes.handle development stack svc body = inl r ->
  Routes.headersSet svc body = Routes.streamHeaders ->
  Errors.status r = 500%Z.
Proof.
  intros Hh E. unfold Routes.headersSet in E.
  destruct (Routes.session_id body) as [sid|] eqn:E1; [|discriminate].
  destruct (Routes.user_message body) as [um|] eqn:E2; [|discriminate].
  destruct sid as [|x sid]; [discriminate|].
  destruct um as [|y um]; [discriminate|].
  rewrite (@handle_try development stack svc body (x :: sid) (y :: um) E1 E2)
    in Hh by discriminate.
  destruct (Routes.tryContinue svc (x :: sid) (y :: um)) as [e|[w s]];
    [|discriminate].
  now injection Hh as <-.
Qed.

(** X20: when the route answers a request with an error, the message of
    the assistant on the client never shows what the error middleware
    wrote into the body, its message and its code, for the client reads
    the field [detail], which the body does not have.  When the answer
    is delivered, the message names the status alone: the text that the
    session could not be continued, with status 400 or 500.  Only when
    the failure came after the headers of the stream were set -- the
    model failed -- can [fetch] refuse the answer, which then has the
    chunked coding beside a length; the message then shows the text of
    that rejection. *)
Theorem backend_failure_is_shown_without_its_message
        (plus : jsval -> jsval -> jsval)
        (toBoolean : json -> bool) (toString : json -> str)
        (clock : nat -> nat -> Z) (newId : str) (now0 : Z) (sid : str)
        (development : bool) (stack : option str)
        (svc : Routes.Services) (body : Routes.ContinueBody)
        (r : Errors.ErrorResponse) (outcome : Api.FetchOutcome)
        (msgs : list Messages.ChatMessage) :
  truthy newId = true -> truthy sid = true ->
  Routes.handle development stack svc body = inl r ->
  fetched (Routes.headersSet svc body) r outcome ->
  (Errors.status r = 400%Z \/ Errors.status r = 500%Z)
  /\ exists out text,
      Mutation.mutate plus toBoolean toString clock newId now0 (Some sid)
                      outcome msgs
      = Some out
      /\ nth_error out (length msgs)
         = Some (Messages.mkChatMessage
                   newId Messages.assistant
                   (jsString (lit "Failed to send message: " ++ text))
                   (clock 0 (length msgs)) (Some false)
                   JSUndefined JSUndefined JSUndefined)
      /\ (text = lit "Failed to continue session"
                 ++ lit " (Status: "
                 ++ Api.decimal (Errors.status r) ++ lit ")"
          \/ (Routes.headersSet svc body = Routes.streamHeaders
              /\ Errors.status r = 500%Z
              /\ outcome = Api.FetchRejects text)).
Proof.
  intros Hn Hs Hh Hf.
  assert (Hst : Errors.status r = 400%Z \/ Errors.status r = 500%Z).
  { pose proof (handle_cases development stack svc body) as Hc.
    rewrite Hh in Hc. destruct Hc as [-> | ->]; [left | right]; reflexivity. }
  split; [exact Hst|].
  destruct Hf as [stream | message Hcl].
  - destruct (@mutate_failed plus toBoolean toString clock newId now0 sid
                (Api.FetchResolves (responseOfError r stream))
                (lit "Failed to continue session"
                 ++ lit " (Status: " ++ Api.decimal (Errors.status r)
                 ++ lit ")")
                msgs Hn Hs (raw_error toBoolean toString r stream Hst))
      as (out & H1 & H2).
    exists out. eexists. split; [exact H1|]. split; [exact H2|]. now left.
  - destruct (@mutate_failed plus toBoolean toString clock newId now0 sid
                (Api.FetchRejects message) message msgs Hn Hs eq_refl)
      as (out & H1 & H2).
    exists out, message. split; [exact H1|]. split; [exact H2|]. right.
    destruct (headersSet_cases svc body) as [E | E];
      [rewrite E in Hcl; discriminate|].
    split; [exact E|]. split; [|reflexivity].
    exact (headers_after_failure _ _ _ _ Hh E).
Qed.

Lemma backend_failure_is_shown_without_its_message_witness :
  (Errors.status
     (Errors.mkErrorResponse
        500 false
        (Errors.mkApiError (lit "Failed to continue session")
                           (lit "INTERNAL_ERROR") 500 None))
   = 400%Z
   \/ Errors.status
        (Errors.mkErrorResponse
           500 false
           (Errors.mkApiError (lit "Failed to continue session")
                              (lit "INTERNAL_ERROR") 500 None))
      = 500%Z)
  /\ exists out text,
      Mutation.mutate
        stringPlus (fun _ => true) (fun _ => []) stillClock
        (lit "m1") 0 (Some (lit "s1"))
        (Api.FetchRejects (lit "fetch failed")) []
      = Some out
      /\ nth_error out (length (@nil Messages.ChatMessage))
         = Some (Messages.mkChatMessage
                   (lit "m1") Messages.assistant
                   (jsString (lit "Failed to send message: " ++ text))
                   (stillClock 0 (length (@nil Messages.ChatMessage)))
                   (Some false) JSUndefined JSUndefined JSUndefined)
      /\ (text = lit "Failed to continue session"
                 ++ lit " (Status: "
                 ++ Api.decimal
                      (Errors.status
                         (Errors.mkErrorResponse
                            500 false
                            (Errors.mkApiError
                               (lit "Failed to continue session")
                               (lit "INTERNAL_ERROR") 500 None)))
                 ++ lit ")"
          \/ (Routes.headersSet failingServices exampleBody
              = Routes.streamHeaders
              /\ Errors.status
                   (Errors.mkErrorResponse
                      500 false
                      (Errors.mkApiError
                         (lit "Failed to continue session")
                         (lit "INTERNAL_ERROR") 500 None))
                 = 500%Z
              /\ Api.FetchRejects (lit "fetch failed")
                 = Api.FetchRejects text)).
Proof.
  apply (@backend_failure_is_shown_without_its_message
           stringPlus (fun _ => true) (fun _ => []) stillClock
           (lit "m1") 0 (lit "s1") false None failingServices exampleBody
           (Errors.mkErrorResponse
              500 false
              (Errors.mkApiError (lit "Failed to continue session")
                                 (lit "INTERNAL_ERROR") 500 None))
           (Api.FetchRejects (lit "fetch failed")) []).
  - reflexivity.
  - reflexivity.
  - reflexivity.
  - apply FetchedRejection. reflexivity.
Defined.

(* ===================================================================== *)
(** * Clearing the exercises of the last message that has some *)
(* ===================================================================== *)

Lemma findIndex_some (A : Type) (p : A -> bool) (l : list A) :
  forall i, Messages.findIndex p l = Some i ->
            (exists x, nth_error l i = Some x /\ p x = true)
            /\ forall j y, j < i -> nth_error l j = Some y -> p y = false.
Proof.
  induction l as [|a l IH]; intros i H; simpl in H; [discriminate|].
  destruct (p a) eqn:Pa.
  - injection H as <-. split; [exists a; auto|]. intros j y Hj. lia.
  - destruct (Messages.findIndex p l) as [k|]; [|discriminate].
    injection H as <-. destruct (IH k eq_refl) as [Hx Hlt].
    split; [exact Hx|]. intros [|j] y Hj Hy; simpl in Hy.
    + now injection Hy as <-.
    + apply (Hlt j); [lia | exact Hy].
Qed.

Lemma findIndex_none (A : Type) (p : A -> bool) (l : list A) :
  Messages.findIndex p l = None -> forall x, In x l -> p x = false.
Proof.
  induction l as [|a l IH]; intros H x Hx; [destruct Hx|].
  simpl in H. destruct (p a) eqn:Pa; [discriminate|].
  destruct (Messages.findIndex p l); [discriminate|].
  destruct Hx as [<- | Hx]; [exact Pa | now apply IH].
Qed.

Lemma clearAt_nth (l : list Messages.ChatMessage) :
  forall idx i,
    nth_error (Messages.clearAt idx l) i
    = if Nat.eqb i idx then option_map withoutExercises (nth_error l i)
      else nth_error l i.
Proof.
  induction l as [|a l IH]; intros idx i.
  - destruct idx as [|idx], i as [|i]; simpl;
      try destruct (Nat.eqb i idx); reflexivity.
  - destruct idx as [|idx], i as [|i]; simpl; try reflexivity.
    apply IH.
Qed.

Lemma clearAt_length (l : list Messages.ChatMessage) :
  forall idx, length (Messages.clearAt idx l) = length l.
Proof.
  induction l as [|a l IH]; intros [|idx]; simpl; auto.
Qed.

Lemma existsb_skipn_false (A : Type) (p : A -> bool) (l : list A) (a : nat) :
  (forall j y, a <= j -> nth_error l j = Some y -> p y = false) ->
  existsb p (skipn a l) = false.
Proof.
  intros H. destruct (existsb p (skipn a l)) eqn:E; [|reflexivity].
  apply existsb_exists in E. destruct E as (x & Hin & Hp).
  apply In_nth_error in Hin. destruct Hin as (n & Hn).
  rewrite nth_error_skipn in Hn.
  rewrite (H (a + n) x ltac:(lia) Hn) in Hp. discriminate.
Qed.

Lemma existsb_skipn_true (A : Type) (p : A -> bool) (l : list A)
      (a j : nat) (y : A) :
  a <= j -> nth_error l j = Some y -> p y = true ->
  existsb p (skipn a l) = true.
Proof.
  intros Hj Hy Hp. apply existsb_exists. exists y. split; [|exact Hp].
  apply (nth_error_In _ (j - a)). rewrite nth_error_skipn.
  now replace (a + (j - a)) with j by lia.
Qed.

(** X21: [clearLastAssistantExercises] sets the exercises of one message
    to [undefined], the last message of the assistant whose exercises
    are truthy, and leaves every other message, and the length of the
    list, as they are; when there is no such message the list is
    unchanged. *)
Theorem clear_removes_the_last_exercises
        (toBoolean : json -> bool) (prev : list Messages.ChatMessage) :
  let out := Messages.clearLastAssistantExercises toBoolean prev in
  length out = length prev
  /\ forall i m,
      nth_error prev i = Some m ->
      nth_error out i
      = Some (if Messages.hasExercises toBoolean m
                 && negb (existsb (Messages.hasExercises toBoolean)
                                  (skipn (S i) prev))
              then withoutExercises m else m).
Proof.
  cbv zeta. unfold Messages.clearLastAssistantExercises.
  set (p := Messages.hasExercises toBoolean).
  destruct (Messages.findIndex p (rev prev)) as [k|] eqn:F.
  - destruct (findIndex_some p (rev prev) F) as [(x & Hx & Px) Hlt].
    assert (Hk : k < length prev).
    { rewrite <- length_rev. apply nth_error_Some. congruence. }
    set (idx := length prev - 1 - k).
    assert (Hidx : nth_error prev idx = Some x).
    { rewrite nth_error_rev in Hx.
      destruct (Nat.ltb_spec k (length prev)); [|lia].
      unfold idx. now replace (length prev - 1 - k) with (length prev - S k)
        by lia. }
    assert (Hlater : forall j y, idx < j -> nth_error prev j = Some y ->
                                 p y = false).
    { intros j y Hj Hy.
      assert (Hjl : j < length prev) by (apply nth_error_Some; congruence).
      apply (Hlt (length prev - S j)); [unfold idx in Hj; lia|].
      rewrite nth_error_rev.
      destruct (Nat.ltb_spec (length prev - S j) (length prev)); [|lia].
      now replace (length prev - S (length prev - S j)) with j by lia. }
    split; [apply clearAt_length|].
    intros i m Hm. rewrite clearAt_nth, Hm.
    destruct (Nat.eqb_spec i idx) as [-> | Hne].
    + rewrite Hidx in Hm. injection Hm as <-. rewrite Px.
      rewrite (@existsb_skipn_false _ p prev (S idx)); [reflexivity|].
      intros j y Hj. apply Hlater. lia.
    + destruct (Nat.lt_ge_cases i idx) as [Hlt' | Hge].
      * rewrite (@existsb_skipn_true _ p prev (S i) idx x ltac:(lia) Hidx Px).
        now rewrite andb_false_r.
      * rewrite (Hlater i m ltac:(lia) Hm). reflexivity.
  - split; [reflexivity|]. intros i m Hm. rewrite Hm.
    rewrite (findIndex_none p (rev prev) F m); [reflexivity|].
    apply in_rev. rewrite rev_involutive. eapply nth_error_In; eauto.
Qed.

(* ===================================================================== *)
(** * The language handed to the speech library *)
(* ===================================================================== *)

Lemma lookup_in (key : str) (table : list (str * str)) (v : str) :
  Tts.lookup key table = Some v -> exists k, In (k, v) table /\ k = key.
Proof.
  induction table as [|[k w] table IH]; intros H; simpl in H; [discriminate|].
  destruct (eqStr k key) eqn:E.
  - injection H as ->. apply eqStr_eq in E. exists k. simpl. auto.
  - destruct (IH H) as (k' & Hin & Hk). exists k'. simpl. auto.
Qed.

Lemma beforeHyphen_no_hyphen (language : str) :
  includes (Tts.beforeHyphen language) 45%N = false.
Proof.
  induction language as [|c rest IH]; [reflexivity|].
  cbn [Tts.beforeHyphen]. destruct (N.eqb c 45) eqn:E; [reflexivity|].
  unfold includes in *. cbn [existsb]. rewrite N.eqb_sym, E. exact IH.
Qed.

(** X22: for every language asked for, the code handed to the speech
    library is never empty and, the code zh-tw for zh-TW apart, holds no
    hyphen; the one case in which no code comes out is a language named
    like a member of [Object.prototype], for which the table gives that
    member instead of a string. *)
Theorem gtts_language_is_a_plain_code (language : str) :
  match Tts.mapLanguageToGTTS language with
  | Tts.Code code =>
      code <> []
      /\ (includes code 45%N = false
          \/ (language = lit "zh-TW" /\ code = lit "zh-tw"))
  | Tts.Inherited name =>
      name = language /\ In language Tts.inheritedNames
  end.
Proof.
  unfold Tts.mapLanguageToGTTS. cbv zeta.
  assert (Hfb : match (if truthy (Tts.beforeHyphen language)
                       then Tts.Code (Tts.beforeHyphen language)
                       else Tts.Code (lit "en")) with
                | Tts.Code code =>
                    code <> []
                    /\ (includes code 45%N = false
                        \/ (language = lit "zh-TW" /\ code = lit "zh-tw"))
                | Tts.Inherited name =>
                    name = language /\ In language Tts.inheritedNames
                end).
  { destruct (Tts.beforeHyphen language) as [|c b] eqn:E.
    - simpl. split; [discriminate | left; reflexivity].
    - cbn [truthy]. split; [discriminate|]. left. rewrite <- E.
      apply beforeHyphen_no_hyphen. }
  destruct (Tts.lookup language Tts.languageMap) as [code|] eqn:L.
  - destruct (lookup_in _ _ L) as (k & Hin & ->).
    unfold Tts.languageMap in Hin. simpl In in Hin.
    repeat (destruct Hin as [Hin | Hin];
            [injection Hin as <- <-; simpl;
             split; [discriminate
                    | first [left; reflexivity | right; split; reflexivity]]
            |]).
    destruct Hin.
  - destruct (existsb (eqStr language) Tts.inheritedNames) eqn:E;
      [|exact Hfb].
    split; [reflexivity|].
    apply existsb_exists in E. destruct E as (x & Hin & Hx).
    apply eqStr_eq in Hx. now subst x.
Qed.

(* ===================================================================== *)
(** * One exchange, from the text typed to the two messages shown *)
(* ===================================================================== *)

Lemma callback_keeps (plus : jsval -> jsval -> jsval) (now : nat -> Z)
      (id0 : str) (e : Event) (msgs out : list Messages.ChatMessage) :
  ChatStream.callback plus now id0 e msgs = Some out ->
  length out = length msgs
  /\ forall i m, nth_error msgs i = Some m -> isTarget id0 m = false ->
                 nth_error out i = Some m.
Proof.
  assert (U : forall c b e1 e2 e3,
             let r := Messages.updateAssistantMessage plus now id0 c b e1 e2 e3
                        msgs in
             length r = length msgs
             /\ forall i m, nth_error msgs i = Some m ->
                            isTarget id0 m = false ->
                            nth_error r i = Some m).
  { intros c b e1 e2 e3. cbv zeta. unfold Messages.updateAssistantMessage.
    split; [apply updateFrom_length|].
    intros i m Hm Ht. rewrite updateFrom_nth, Hm. simpl.
    now rewrite updateMessage_other. }
  destruct e as [|chunk|v|message]; simpl.
  - intros H. injection H as <-. auto.
  - intros H. injection H as <-. apply U.
  - unfold ChatStream.onStreamEnd.
    destruct (property_access_throws v); [discriminate|].
    intros H. injection H as <-. apply U.
  - unfold ChatStream.onError. intros H. injection H as <-.
    destruct (truthy id0); [apply U | auto].
Qed.

Lemma callbacks_keep (plus : jsval -> jsval -> jsval)
      (clock : nat -> nat -> Z) (id0 : str) (events : list Event) :
  forall k msgs out,
    ChatStream.callbacks plus clock k id0 events msgs = Some out ->
    length out = length msgs
    /\ forall i m, nth_error msgs i = Some m -> isTarget id0 m = false ->
                   nth_error out i = Some m.
Proof.
  induction events as [|e events IH]; intros k msgs out H; simpl in H.
  - injection H as <-. auto.
  - destruct (ChatStream.callback plus (clock k) id0 e msgs) as [mid|] eqn:E;
      [|discriminate].
    destruct (callback_keeps _ _ _ _ _ E) as [L1 K1].
    destruct (IH _ _ _ H) as [L2 K2].
    split; [congruence|].
    intros i m Hm Ht. apply K2; [now apply K1 | exact Ht].
Qed.

Lemma sendMessage_sent (newId : str) (now : Z) (sessionId : option str)
      (isPending isStreaming : bool) (messageText : str)
      (msgs msgs' : list Messages.ChatMessage) (b : bool)
      (p : ChatStream.ContinueSessionPayload) :
  ChatStream.sendMessage newId now sessionId isPending isStreaming
                         messageText msgs
  = (b, msgs', Some p) ->
  exists sid,
    sessionId = Some sid /\ sid <> [] /\ trim messageText <> []
    /\ p = ChatStream.mkPayload sid (trim messageText)
    /\ msgs' = msgs ++ [Messages.mkChatMessage
                          newId Messages.user (jsString (trim messageText))
                          now (Some false)
                          JSUndefined JSUndefined JSUndefined].
Proof.
  unfold ChatStream.sendMessage. cbv zeta. intros H.
  destruct sessionId as [sid|]; [|discriminate].
  destruct (trim messageText) as [|x tm] eqn:Et; [discriminate|].
  destruct sid as [|y sid]; [discriminate|].
  cbn [truthy negb orb] in H.
  destruct isPending; [discriminate|]. destruct isStreaming; [discriminate|].
  cbn [orb] in H. injection H as <- <- <-.
  exists (y :: sid). repeat split; discriminate.
Qed.

(** X23: one exchange from end to end.  When [sendMessage] hands on a
    payload, the route streams for it and saves the history, the
    response holds no control character other than newline, carriage
    return and tab, no write holds a surrogate without its partner, and
    the bytes arrive cut in any way, then the history saved is the
    stored history of the session followed by the text as trimmed, for
    the user, and the response, for the assistant; and after the
    mutation the list on the client is longer by two messages: the same
    trimmed text as a message of the user, and the same response as a
    message of the assistant, which is no longer loading. *)
Theorem exchange_shows_question_and_answer
        (plus : jsval -> jsval -> jsval)
        (toBoolean : json -> bool) (toString : json -> str)
        (clock : nat -> nat -> Z)
        (newId0 : str) (now0 : Z) (newId : str) (now1 : Z)
        (sessionId : option str) (isPending isStreaming : bool)
        (messageText : str) (msgs msgs1 : list Messages.ChatMessage)
        (b : bool) (p : ChatStream.ContinueSessionPayload)
        (svc : Routes.Services) (writes : list str)
        (saved : list Types.ChatMessage)
        (errorData : option json) (values : list (list Utf8.octet)) :
  ChatStream.sendMessage newId0 now0 sessionId isPending isStreaming
                         messageText msgs
  = (b, msgs1, Some p) ->
  Routes.sessionContinue svc (Routes.bodyOfPayload p)
  = Routes.Streamed writes (Some saved) ->
  (forall msg, Gemini.lastMessage saved = Some msg ->
               forallb plainChar (Types.content msg) = true) ->
  Forall (fun w => codeUnits w = true) writes ->
  Forall (fun w => toWellFormed w = w) writes ->
  concat values = sent writes ->
  truthy newId = true ->
  exists session response out k,
    Routes.findSessionById svc (ChatStream.session_id p)
    = Routes.Found session
    /\ saved = Types.message_history session
               ++ [Types.mkChatMessage Types.user (trim messageText);
                   Types.mkChatMessage Types.assistant response]
    /\ Mutation.mutate plus toBoolean toString clock newId now1 sessionId
                       (Api.FetchResolves
                          (Api.mkResponse 200 errorData
                                          (Some (received values))))
                       msgs1
       = Some out
    /\ length out = length msgs + 2
    /\ nth_error out (length msgs)
       = Some (Messages.mkChatMessage
                 newId0 Messages.user (jsString (trim messageText))
                 now0 (Some false) JSUndefined JSUndefined JSUndefined)
    /\ nth_error out (S (length msgs))
       = Some (Messages.mkChatMessage
                 newId Messages.assistant (jsString response)
                 (clock k (S (length msgs))) (Some false)
                 (JSValue JNull) (JSValue JNull) (JSValue JNull)).
Proof.
  intros Hsend Hroute Hpl Hu Hw Hc Hn.
  destruct (sendMessage_sent _ _ _ _ _ _ _ Hsend)
    as (sid & -> & Hsid & Htrim & -> & ->).
  set (userMsg := Messages.mkChatMessage
                    newId0 Messages.user (jsString (trim messageText))
                    now0 (Some false) JSUndefined JSUndefined JSUndefined).
  set (started := Messages.startAssistantMessage newId now1 []
                                                 (msgs ++ [userMsg])).
  assert (Hst : nth_error started (S (length msgs))
                = Some (Messages.mkChatMessage
                          newId Messages.assistant (jsString [])
                          now1 (Some true)
                          JSUndefined JSUndefined JSUndefined)).
  { pose proof (started_message newId now1 (msgs ++ [userMsg])) as H.
    rewrite length_app in H. simpl in H.
    now replace (length msgs + 1) with (S (length msgs)) in H by lia. }
  assert (Hum : nth_error started (length msgs) = Some userMsg).
  { unfold started, Messages.startAssistantMessage.
    rewrite <- app_assoc, nth_error_app2 by lia.
    now rewrite Nat.sub_diag. }
  assert (Htg : isTarget newId
                  (Messages.mkChatMessage
                     newId Messages.assistant (jsString [])
                     now1 (Some true) JSUndefined JSUndefined JSUndefined)
                = true)
    by (unfold isTarget; cbn [Messages.id Messages.role];
        now rewrite eqStr_refl).
  destruct (@display_of_saved plus clock newId svc _ writes saved values
              started (S (length msgs)) _ Hroute Hpl Hu Hw Hc Hst Htg)
    as (sid' & um & session & response & out & k
        & Hi & Hm' & Hf & -> & H1 & H2).
  cbn [Routes.bodyOfPayload Routes.session_id Routes.user_message
       ChatStream.session_id ChatStream.user_message] in Hi, Hm'.
  injection Hi as <-. injection Hm' as <-.
  exists session, response, out, k.
  split; [exact Hf|]. split; [reflexivity|].
  assert (Hm : Mutation.mutate plus toBoolean toString clock newId now1
                               (Some sid)
                               (Api.FetchResolves
                                  (Api.mkResponse 200 errorData
                                                  (Some (received values))))
                               (msgs ++ [userMsg])
               = Some out).
  { unfold Mutation.mutate. cbv zeta. cbn [orDefault].
    destruct sid as [|y sid]; [congruence|].
    cbn [truthy Api.continueSessionRaw Api.ok Api.status Api.body].
    change ((200 <=? 200)%Z && (200 <=? 299)%Z) with true.
    cbn iota. rewrite Hn. exact H1. }
  split; [exact Hm|].
  destruct (callbacks_keep _ _ _ _ _ _ H1) as [Hlen Hkeep].
  split.
  { rewrite Hlen. unfold started, Messages.startAssistantMessage.
    rewrite !length_app. simpl. lia. }
  split.
  { apply Hkeep; [exact Hum|].
    unfold isTarget, userMsg. cbn [Messages.id Messages.role Messages.eqRole].
    apply andb_false_r. }
  exact H2.
Qed.

Lemma exchange_shows_question_and_answer_witness :
  exists session response out k,
    Routes.findSessionById
      exampleServices
      (ChatStream.session_id (ChatStream.mkPayload (lit "s1") (lit "Hi")))
    = Routes.Found session
    /\ [Types.mkChatMessage Types.assistant (lit "Welcome!");
        Types.mkChatMessage Types.user (lit "Hi");
        Types.mkChatMessage Types.assistant (lit "Hola")]
       = Types.message_history session
         ++ [Types.mkChatMessage Types.user (trim (lit " Hi "));
             Types.mkChatMessage Types.assistant response]
    /\ Mutation.mutate
         stringPlus (fun _ => true) (fun _ => []) stillClock
         (lit "m1") 8 (Some (lit "s1"))
         (Api.FetchResolves
            (Api.mkResponse
               200 None
               (Some (received [Utf8.encode (js "{'respon");
                                Utf8.encode (js "se': 'Ho");
                                Utf8.encode (lit "la" ++ closing)]))))
         [Messages.mkChatMessage (lit "m0") Messages.user (jsString (lit "Hi"))
                                 7 (Some false)
                                 JSUndefined JSUndefined JSUndefined]
       = Some out
    /\ length out = length (@nil Messages.ChatMessage) + 2
    /\ nth_error out (length (@nil Messages.ChatMessage))
       = Some (Messages.mkChatMessage
                 (lit "m0") Messages.user (jsString (trim (lit " Hi ")))
                 7 (Some false) JSUndefined JSUndefined JSUndefined)
    /\ nth_error out (S (length (@nil Messages.ChatMessage)))
       = Some (Messages.mkChatMessage
                 (lit "m1") Messages.assistant (jsString response)
                 (stillClock k (S (length (@nil Messages.ChatMessage))))
                 (Some false)
                 (JSValue JNull) (JSValue JNull) (JSValue JNull)).
Proof.
  apply (@exchange_shows_question_and_answer
           stringPlus (fun _ => true) (fun _ => []) stillClock
           (lit "m0") 7 (lit "m1") 8 (Some (lit "s1")) false false
           (lit " Hi ") []
           [Messages.mkChatMessage (lit "m0") Messages.user
                                   (jsString (lit "Hi")) 7 (Some false)
                                   JSUndefined JSUndefined JSUndefined]
           true (ChatStream.mkPayload (lit "s1") (lit "Hi"))
           exampleServices
           (continueSession [lit "Ho"; lit "la"] SourceDone)
           [Types.mkChatMessage Types.assistant (lit "Welcome!");
            Types.mkChatMessage Types.user (lit "Hi");
            Types.mkChatMessage Types.assistant (lit "Hola")]
           None
           [Utf8.encode (js "{'respon"); Utf8.encode (js "se': 'Ho");
            Utf8.encode (lit "la" ++ closing)]).
  - vm_compute. reflexivity.
  - vm_compute. reflexivity.
  - intros msg E. vm_compute in E. injection E as <-. reflexivity.
  - repeat constructor.
  - repeat constructor.
  - vm_compute. reflexivity.
  - reflexivity.
Defined.

(* ===================================================================== *)
(** * After the object *)
(* ===================================================================== *)

Lemma feed_break_app (a b : list str) :
  forall st evs, feed st a = (evs, Break) -> feed st (a ++ b) = (evs, Break).
Proof.
  induction a as [|c a IH]; intros st evs H; [discriminate|].
  simpl in *. destruct (consume st c) as [evs1 [st1|]].
  - destruct (feed st1 a) as [evs2 o2] eqn:E.
    injection H as <- ->. now rewrite (IH st1 evs2 E).
  - exact H.
Qed.

(** X24: the decoder stops at the first complete object.  When the
    chunks read so far make up a text that starts with an opening brace
    and is valid JSON, the run is over: whatever chunks follow are never
    read, and the callbacks are those of the run without them. *)
Theorem nothing_is_read_after_the_object
        (chunks later : list str) (S' : str) (obj : json) :
  concat chunks = LBRACE :: S' ->
  JSON_parse (LBRACE :: S') = Some obj ->
  processStream (Some (chunks ++ later)) = processStream (Some chunks).
Proof.
  intros Hc Hp. unfold processStream. rewrite !readLoop_feed.
  pose proof (feed_verdicts chunks initialState) as H.
  destruct (feed initialState chunks) as [evs [st'|]] eqn:F.
  - exfalso. destruct H as [_ Hn].
    destruct (@exists_last _ chunks) as (c1 & c & E).
    + intros ->. discriminate.
    + specialize (Hn c1 c [] E). simpl in Hn. rewrite <- E, Hc in Hn.
      rewrite (verdict_object_whole _ Hp) in Hn. discriminate.
  - now rewrite (feed_break_app chunks later _ F).
Qed.

Lemma nothing_is_read_after_the_object_witness :
  processStream (Some ([js "{'response': 'a'"; lit "}"] ++ [lit "} more"]))
  = processStream (Some [js "{'response': 'a'"; lit "}"]).
Proof.
  apply (@nothing_is_read_after_the_object
           [js "{'response': 'a'"; lit "}"] [lit "} more"]
           (js "'response': 'a'}")
           (JObject [(lit "response", JString (lit "a"))])).
  - reflexivity.
  - reflexivity.
Defined.
